(** * Resilient external-call layer of the travel-itinerary generator

    A shallow embedding of
      - [app/utils/timeout.ts]  (TIMEOUTS, TimeoutError, fetchWithTimeout,
        PerformanceMonitor, retryWithBackoff, CircuitBreaker, circuitBreakers),
      - [app/utils/pexels.ts]   (fetchPexelsImage, fetchMultiplePexelsImages,
        fetchDiverseLocationImages, getFallbackCityImage),
      - [app/api/itinerary/route.ts] (POST and its helpers),
      - [app/api/health/route.ts] (GET and checkService),
    followed by the properties the specification states about them and by
    further properties of the same code.

    JavaScript strings are sequences of UTF-16 code units ([list N]);
    asynchronous code is written in a state-and-exception monad over a
    [World] that holds the clock, the pending abort timers, the two
    process-wide circuit breakers, the environment variables, the script of
    upstream replies and the trace of observable actions. *)

From Stdlib Require Import String Ascii DecimalString.
From Stdlib Require Import ZArith NArith Bool Lia List.
Import ListNotations.

Local Open Scope Z_scope.
Set Warnings "-register-all".

(* ------------------------------------------------------------------ *)
(** ** JavaScript strings *)

Definition jsstr : Type := list N.

Definition js (s : string) : jsstr :=
  map N_of_ascii (list_ascii_of_string s).

Definition str_eqb (a b : jsstr) : bool :=
  if list_eq_dec N.eq_dec a b then true else false.

(** [String(n)] for an integer-valued number. *)
Definition num_to_str (z : Z) : jsstr :=
  js (NilZero.string_of_int (Z.to_int z)).

Arguments js _ : simpl never.
Arguments num_to_str _ : simpl never.

(** [s.toLowerCase()], on the ASCII letters; the cased letters beyond
    ASCII are left as they are. *)
Definition lower_unit (c : N) : N :=
  if ((65 <=? c) && (c <=? 90))%N then (c + 32)%N else c.

Definition toLowerCase (s : jsstr) : jsstr := map lower_unit s.

Fixpoint starts_with (p s : jsstr) : bool :=
  match p, s with
  | [], _ => true
  | _ :: _, [] => false
  | a :: p', b :: s' => N.eqb a b && starts_with p' s'
  end.

(** [s.includes(p)] *)
Fixpoint includes (s p : jsstr) : bool :=
  starts_with p s ||
  match s with
  | [] => false
  | _ :: s' => includes s' p
  end.

(* ------------------------------------------------------------------ *)
(** ** Thrown values *)

Inductive ErrClass :=
| CError | CTimeoutError | CTypeError | CSyntaxError | CDOMException
| CNotAnError.

Record JsError := mkError {
  eclass : ErrClass;
  ename : jsstr;
  emessage : jsstr
}.

Definition instanceof_Error (e : JsError) : bool :=
  match eclass e with CNotAnError => false | _ => true end.

Definition instanceof_TimeoutError (e : JsError) : bool :=
  match eclass e with CTimeoutError => true | _ => false end.

(** [new Error(msg)] *)
Definition newError (msg : jsstr) : JsError := mkError CError (js "Error") msg.

(** [new TypeError(msg)], raised by the runtime on a bad property access
    or call. *)
Definition newTypeError (msg : jsstr) : JsError :=
  mkError CTypeError (js "TypeError") msg.

(** The value [fetch] rejects with once its signal has been aborted. *)
Definition AbortError : JsError :=
  mkError CDOMException (js "AbortError") (js "This operation was aborted").

(** The value of an unassigned [let] binding, when thrown. *)
Definition thrown_undefined : JsError :=
  mkError CNotAnError (js "undefined") [].

(** [null], when thrown. *)
Definition thrown_null : JsError :=
  mkError CNotAnError (js "null") [].

(** A thrown value that is [undefined] or [null]: it has no property to
    read. *)
Definition nullish_thrown (e : JsError) : bool :=
  match eclass e with
  | CNotAnError => str_eqb (ename e) (js "undefined") || str_eqb (ename e) (js "null")
  | _ => false
  end.

(* ------------------------------------------------------------------ *)
(** ** JSON-like values ([any]) *)

Inductive value :=
| VUndef
| VNull
| VBool (b : bool)
| VNum (mant : Z) (exp10 : Z)        (* mant * 10^exp10 *)
| VStr (s : jsstr)
| VArr (items : list value)
| VObj (fields : list (jsstr * value)).

Definition VInt (n : Z) : value := VNum n 0.

Inductive Outcome (A : Type) :=
| Return (a : A)
| Throw (e : JsError).
Arguments Return {A} a.
Arguments Throw {A} e.

(** [error.message]: a TypeError of the runtime when [error] is
    [undefined] or [null]. *)
Definition message_of (e : JsError) : Outcome jsstr :=
  if nullish_thrown e
  then Throw (newTypeError (js "Cannot read properties of " ++ ename e
                              ++ js " (reading 'message')"))
  else Return (emessage e).

(* ------------------------------------------------------------------ *)
(** ** The world *)

Inductive BreakerMode := CLOSED | OPEN | HALF_OPEN.

(** The fields of [class CircuitBreaker]. *)
Record CircuitBreaker := mkBreaker {
  failures : Z;
  lastFailureTime : Z;
  state : BreakerMode;
  failureThreshold : Z;
  resetTimeout : Z;
  name : jsstr
}.

(** [new CircuitBreaker(failureThreshold, resetTimeout, name)] *)
Definition newCircuitBreaker (threshold reset : Z) (nm : jsstr) : CircuitBreaker :=
  mkBreaker 0 0 CLOSED threshold reset nm.

(** What a [Response] offers to the code: its status, and what reading the
    body with [json()] or [text()] settles to. *)
Record Response := mkResponse {
  status : Z;
  json_body : Outcome value;
  text_body : Outcome jsstr
}.

Definition ok (r : Response) : bool := (200 <=? status r) && (status r <=? 299).

(** What the network does with one request: after [latency] milliseconds
    it settles to [result], unless the request's signal is aborted first. *)
Record NetReply := mkReply {
  latency : Z;
  result : Outcome Response
}.

Inductive Level := LLog | LWarn | LError.

Inductive Event :=
| Console (lvl : Level) (at_ms : Z) (text : jsstr)
| Sleep (ms : Z)                 (* an awaited [setTimeout(resolve, ms)] *)
| Fetch (url : jsstr)            (* a request handed to [fetch] *)
| Abort (controller : nat).      (* [controller.abort()] ran *)

Record Timer := mkTimer {
  timer_id : nat;
  due : Z;
  target : nat                   (* the controller its callback aborts *)
}.

Record World := mkWorld {
  clock : Z;                               (* Date.now() *)
  timers : list Timer;                     (* pending abort timers *)
  aborted : list nat;                      (* controllers whose signal fired *)
  next_id : nat;                           (* fresh timer/controller ids *)
  perplexity : CircuitBreaker;             (* circuitBreakers.perplexity *)
  pexels : CircuitBreaker;                 (* circuitBreakers.pexels *)
  PERPLEXITY_API_KEY : option jsstr;       (* process.env *)
  PEXELS_API_KEY : option jsstr;
  GOOGLE_PLACES_API_KEY : option jsstr;
  upstream : nat -> jsstr -> NetReply;     (* reply to the n-th request *)
  sent : nat;                              (* requests issued so far *)
  random : nat -> nat;                     (* Math.random() draws *)
  drawn : nat;
  toISOString : Z -> jsstr;                (* new Date(ms).toISOString() *)
  Date_parse : value -> option Z;          (* new Date(v).getTime(), None for NaN *)
  trace : list Event                       (* oldest first *)
}.

Definition with_clock (t : Z) (w : World) : World :=
  mkWorld t (timers w) (aborted w) (next_id w) (perplexity w) (pexels w)
    (PERPLEXITY_API_KEY w) (PEXELS_API_KEY w) (GOOGLE_PLACES_API_KEY w)
    (upstream w) (sent w) (random w) (drawn w) (toISOString w) (Date_parse w) (trace w).

Definition with_timers (ts : list Timer) (w : World) : World :=
  mkWorld (clock w) ts (aborted w) (next_id w) (perplexity w) (pexels w)
    (PERPLEXITY_API_KEY w) (PEXELS_API_KEY w) (GOOGLE_PLACES_API_KEY w)
    (upstream w) (sent w) (random w) (drawn w) (toISOString w) (Date_parse w) (trace w).

Definition with_aborted (a : list nat) (w : World) : World :=
  mkWorld (clock w) (timers w) a (next_id w) (perplexity w) (pexels w)
    (PERPLEXITY_API_KEY w) (PEXELS_API_KEY w) (GOOGLE_PLACES_API_KEY w)
    (upstream w) (sent w) (random w) (drawn w) (toISOString w) (Date_parse w) (trace w).

Definition with_next_id (n : nat) (w : World) : World :=
  mkWorld (clock w) (timers w) (aborted w) n (perplexity w) (pexels w)
    (PERPLEXITY_API_KEY w) (PEXELS_API_KEY w) (GOOGLE_PLACES_API_KEY w)
    (upstream w) (sent w) (random w) (drawn w) (toISOString w) (Date_parse w) (trace w).

Definition with_perplexity (b : CircuitBreaker) (w : World) : World :=
  mkWorld (clock w) (timers w) (aborted w) (next_id w) b (pexels w)
    (PERPLEXITY_API_KEY w) (PEXELS_API_KEY w) (GOOGLE_PLACES_API_KEY w)
    (upstream w) (sent w) (random w) (drawn w) (toISOString w) (Date_parse w) (trace w).

Definition with_pexels (b : CircuitBreaker) (w : World) : World :=
  mkWorld (clock w) (timers w) (aborted w) (next_id w) (perplexity w) b
    (PERPLEXITY_API_KEY w) (PEXELS_API_KEY w) (GOOGLE_PLACES_API_KEY w)
    (upstream w) (sent w) (random w) (drawn w) (toISOString w) (Date_parse w) (trace w).

Definition with_sent (n : nat) (w : World) : World :=
  mkWorld (clock w) (timers w) (aborted w) (next_id w) (perplexity w) (pexels w)
    (PERPLEXITY_API_KEY w) (PEXELS_API_KEY w) (GOOGLE_PLACES_API_KEY w)
    (upstream w) n (random w) (drawn w) (toISOString w) (Date_parse w) (trace w).

Definition with_drawn (n : nat) (w : World) : World :=
  mkWorld (clock w) (timers w) (aborted w) (next_id w) (perplexity w) (pexels w)
    (PERPLEXITY_API_KEY w) (PEXELS_API_KEY w) (GOOGLE_PLACES_API_KEY w)
    (upstream w) (sent w) (random w) n (toISOString w) (Date_parse w) (trace w).

Definition with_trace (tr : list Event) (w : World) : World :=
  mkWorld (clock w) (timers w) (aborted w) (next_id w) (perplexity w) (pexels w)
    (PERPLEXITY_API_KEY w) (PEXELS_API_KEY w) (GOOGLE_PLACES_API_KEY w)
    (upstream w) (sent w) (random w) (drawn w) (toISOString w) (Date_parse w) tr.

(* ------------------------------------------------------------------ *)
(** ** The monad of asynchronous computations *)

Definition M (A : Type) : Type := World -> Outcome A * World.

Definition ret {A} (a : A) : M A := fun w => (Return a, w).

Definition bind {A B} (m : M A) (k : A -> M B) : M B :=
  fun w =>
    match m w with
    | (Return a, w') => k a w'
    | (Throw e, w') => (Throw e, w')
    end.

Definition throw {A} (e : JsError) : M A := fun w => (Throw e, w).

(** [try { m } catch (error) { handler error }] *)
Definition try_catch {A} (m : M A) (handler : JsError -> M A) : M A :=
  fun w =>
    match m w with
    | (Return a, w') => (Return a, w')
    | (Throw e, w') => handler e w'
    end.

Declare Scope js_scope.
Delimit Scope js_scope with js.
Notation "x <- m ;; k" := (bind m (fun x => k))
  (at level 61, m at next level, right associativity) : js_scope.
Notation "m ;; k" := (bind m (fun _ => k))
  (at level 61, right associativity) : js_scope.
Local Open Scope js_scope.

Definition get_world : M World := fun w => (Return w, w).
Definition modify (f : World -> World) : M unit := fun w => (Return tt, f w).

Definition Date_now : M Z := fun w => (Return (clock w), w).

Definition emit (e : Event) : M unit :=
  modify (fun w => with_trace (trace w ++ [e]) w).

Definition console (lvl : Level) (text : jsstr) : M unit :=
  now <- Date_now ;; emit (Console lvl now text).

(* ------------------------------------------------------------------ *)
(** ** Timers, abort controllers and [fetch] *)

Definition fires_by (t : Z) (tm : Timer) : bool := due tm <=? t.

(** Let time pass until [t]: every pending timer that is due by then runs
    its callback, which aborts the timer's controller. *)
Definition advance (t : Z) (w : World) : World :=
  let fired := filter (fires_by t) (timers w) in
  let kept := filter (fun tm => negb (fires_by t tm)) (timers w) in
  mkWorld (Z.max (clock w) t) kept (aborted w ++ map target fired) (next_id w)
    (perplexity w) (pexels w)
    (PERPLEXITY_API_KEY w) (PEXELS_API_KEY w) (GOOGLE_PLACES_API_KEY w)
    (upstream w) (sent w) (random w) (drawn w) (toISOString w) (Date_parse w)
    (trace w ++ map (fun tm => Abort (target tm)) fired).

(** [await new Promise(resolve => setTimeout(resolve, ms))] *)
Definition sleep (ms : Z) : M unit :=
  emit (Sleep ms) ;;
  modify (fun w => advance (clock w + Z.max 0 ms) w).

(** [new AbortController()] *)
Definition newAbortController : M nat :=
  fun w => (Return (next_id w), with_next_id (S (next_id w)) w).

(** [setTimeout(() => { controller.abort() }, timeout)] *)
Definition setTimeout_abort (controller : nat) (timeout : Z) : M nat :=
  fun w =>
    let id := next_id w in
    (Return id,
     with_next_id (S id)
       (with_timers (timers w ++ [mkTimer id (clock w + Z.max 0 timeout) controller]) w)).

(** [clearTimeout(id)] *)
Definition clearTimeout (id : nat) : M unit :=
  modify (fun w =>
    with_timers (filter (fun tm => negb (Nat.eqb (timer_id tm) id)) (timers w)) w).

Definition is_aborted (controller : nat) (w : World) : bool :=
  existsb (Nat.eqb controller) (aborted w).

(** The earliest pending timer that aborts [controller]. *)
Fixpoint abort_due (controller : nat) (ts : list Timer) : option Z :=
  match ts with
  | [] => None
  | tm :: ts' =>
      let rest := abort_due controller ts' in
      if Nat.eqb (target tm) controller then
        match rest with
        | Some d => Some (Z.min (due tm) d)
        | None => Some (due tm)
        end
      else rest
  end.

(** [await fetch(url, { signal })], [signal] being the controller's. The
    request settles as the network decides, unless the signal fires first,
    in which case it rejects with an [AbortError]. *)
Definition fetch (url : jsstr) (signal : option nat) : M Response :=
  fun w =>
    let reply := upstream w (sent w) url in
    let w1 := with_sent (S (sent w)) (with_trace (trace w ++ [Fetch url]) w) in
    let t_done := clock w1 + Z.max 0 (latency reply) in
    match signal with
    | None => (result reply, advance t_done w1)
    | Some c =>
        if is_aborted c w1 then (Throw AbortError, w1)
        else
          match abort_due c (timers w1) with
          | Some d =>
              if t_done <? d then (result reply, advance t_done w1)
              else (Throw AbortError, advance d w1)
          | None => (result reply, advance t_done w1)
          end
    end.

(** [response.json()] and [response.text()] *)
Definition response_json (r : Response) : M value := fun w => (json_body r, w).
Definition response_text (r : Response) : M jsstr := fun w => (text_body r, w).

(* ------------------------------------------------------------------ *)
(** ** app/utils/timeout.ts *)

Definition TIMEOUTS_GLOBAL : Z := 30000.
Definition TIMEOUTS_AI : Z := 15000.
Definition TIMEOUTS_IMAGES : Z := 20000.
Definition TIMEOUTS_PEXELS : Z := 8000.
Definition TIMEOUTS_FALLBACK : Z := 5000.

(** [new TimeoutError(operation, timeout)] *)
Definition TimeoutError (operation : jsstr) (timeout : Z) : JsError :=
  mkError CTimeoutError (js "TimeoutError")
    (js "Operation '" ++ operation ++ js "' timed out after "
       ++ num_to_str timeout ++ js "ms").

Definition fetchWithTimeout (url : jsstr) (timeout : option Z)
    (operation : option jsstr) : M Response :=
  let timeout := match timeout with Some t => t | None => TIMEOUTS_GLOBAL end in
  let operation := match operation with Some o => o | None => js "fetch" end in
  controller <- newAbortController ;;
  timeoutId <- setTimeout_abort controller timeout ;;
  try_catch
    (response <- fetch url (Some controller) ;;
     clearTimeout timeoutId ;;
     ret response)
    (fun error =>
       clearTimeout timeoutId ;;
       if instanceof_Error error && str_eqb (ename error) (js "AbortError")
       then throw (TimeoutError operation timeout)
       else throw error).

(** [class PerformanceMonitor] *)
Record PerformanceMonitor := mkMonitor {
  startTime : Z;
  operation : jsstr
}.

Definition newPerformanceMonitor (op : jsstr) : M PerformanceMonitor :=
  now <- Date_now ;;
  console LLog (js "Starting " ++ op) ;;
  ret (mkMonitor now op).

Definition monitor_log (m : PerformanceMonitor) (message : jsstr) : M unit :=
  now <- Date_now ;;
  console LLog (operation m ++ js " (" ++ num_to_str (now - startTime m)
                  ++ js "ms): " ++ message).

Definition monitor_finish (m : PerformanceMonitor) (success : bool) : M Z :=
  now <- Date_now ;;
  console LLog (operation m ++ js " completed in "
                  ++ num_to_str (now - startTime m) ++ js "ms") ;;
  ret (now - startTime m).

Definition monitor_error (m : PerformanceMonitor) (error : jsstr) : M Z :=
  now <- Date_now ;;
  console LError (operation m ++ js " failed after "
                    ++ num_to_str (now - startTime m) ++ js "ms: " ++ error) ;;
  ret (now - startTime m).

(** [lastError.message], as the [catch] block of [retryWithBackoff] reads
    it before it warns. *)
Definition read_message (error : JsError) : M jsstr :=
  fun w => (message_of error, w).

(** The loop of [retryWithBackoff], from [attempt] on. [fuel] bounds the
    iterations that remain; [Z.to_nat maxAttempts] is always enough. An
    error thrown inside the [catch] block leaves the loop and the
    function. *)
Fixpoint retry_loop {T} (operation : M T) (maxAttempts baseDelay : Z)
    (operationName : jsstr) (fuel : nat) (attempt : Z)
    (lastError : JsError) : M T :=
  match fuel with
  | O => throw lastError
  | S fuel' =>
      if attempt <=? maxAttempts then
        try_catch
          (monitor <- newPerformanceMonitor
                        (operationName ++ js " (attempt " ++ num_to_str attempt
                           ++ js "/" ++ num_to_str maxAttempts ++ js ")") ;;
           result <- operation ;;
           monitor_finish monitor true ;;
           ret result)
          (fun error =>
             if attempt =? maxAttempts then
               console LError (operationName ++ js " failed after "
                                 ++ num_to_str maxAttempts ++ js " attempts: "
                                 ++ emessage error) ;;
               throw error
             else
               let delay := baseDelay * 2 ^ (attempt - 1) in
               message <- read_message error ;;
               console LWarn (operationName ++ js " attempt " ++ num_to_str attempt
                                ++ js " failed, retrying in " ++ num_to_str delay
                                ++ js "ms: " ++ message) ;;
               sleep delay ;;
               retry_loop operation maxAttempts baseDelay operationName
                 fuel' (attempt + 1) error)
      else throw lastError
  end.

Definition retryWithBackoff {T} (operation : M T) (maxAttempts baseDelay : Z)
    (operationName : jsstr) : M T :=
  retry_loop operation maxAttempts baseDelay operationName
    (Z.to_nat maxAttempts) 1 thrown_undefined.

(** The two process-wide breakers, by name. *)
Inductive BreakerRef := perplexity_ref | pexels_ref.

Definition breaker_of (self : BreakerRef) (w : World) : CircuitBreaker :=
  match self with
  | perplexity_ref => perplexity w
  | pexels_ref => pexels w
  end.

Definition set_breaker (self : BreakerRef) (b : CircuitBreaker) (w : World) : World :=
  match self with
  | perplexity_ref => with_perplexity b w
  | pexels_ref => with_pexels b w
  end.

Definition set_state (s : BreakerMode) (b : CircuitBreaker) : CircuitBreaker :=
  mkBreaker (failures b) (lastFailureTime b) s
    (failureThreshold b) (resetTimeout b) (name b).

Definition set_failures (n : Z) (b : CircuitBreaker) : CircuitBreaker :=
  mkBreaker n (lastFailureTime b) (state b)
    (failureThreshold b) (resetTimeout b) (name b).

Definition set_lastFailureTime (t : Z) (b : CircuitBreaker) : CircuitBreaker :=
  mkBreaker (failures b) t (state b)
    (failureThreshold b) (resetTimeout b) (name b).

Definition breaker_open_error (b : CircuitBreaker) : JsError :=
  newError (js "Circuit breaker " ++ name b ++ js " is OPEN - too many failures").

(** [private onSuccess()] *)
Definition onSuccess (self : BreakerRef) : M unit :=
  modify (fun w => set_breaker self (set_failures 0 (breaker_of self w)) w) ;;
  w <- get_world ;;
  match state (breaker_of self w) with
  | HALF_OPEN =>
      modify (fun w => set_breaker self (set_state CLOSED (breaker_of self w)) w) ;;
      console LLog (js "Circuit breaker " ++ name (breaker_of self w)
                      ++ js " reset to CLOSED")
  | _ => ret tt
  end.

(** [private onFailure()] *)
Definition onFailure (self : BreakerRef) : M unit :=
  modify (fun w =>
    set_breaker self (set_failures (failures (breaker_of self w) + 1)
                        (breaker_of self w)) w) ;;
  now <- Date_now ;;
  modify (fun w => set_breaker self (set_lastFailureTime now (breaker_of self w)) w) ;;
  w <- get_world ;;
  let b := breaker_of self w in
  if failureThreshold b <=? failures b then
    modify (fun w => set_breaker self (set_state OPEN (breaker_of self w)) w) ;;
    console LLog (js "Circuit breaker " ++ name b ++ js " OPENED after "
                    ++ num_to_str (failures b) ++ js " failures")
  else ret tt.

(** The first statement of [execute]: the gate an OPEN breaker puts before
    the operation. *)
Definition gate (self : BreakerRef) : M unit :=
  w <- get_world ;;
  let b := breaker_of self w in
  match state b with
  | OPEN =>
      now <- Date_now ;;
      if resetTimeout b <? now - lastFailureTime b then
        modify (fun w => set_breaker self (set_state HALF_OPEN (breaker_of self w)) w) ;;
        console LLog (js "Circuit breaker " ++ name b
                        ++ js " transitioning to HALF_OPEN")
      else throw (breaker_open_error b)
  | _ => ret tt
  end.

(** [async execute<T>(operation)] *)
Definition execute {T} (self : BreakerRef) (operation : M T) : M T :=
  gate self ;;
  try_catch
    (result <- operation ;;
     onSuccess self ;;
     ret result)
    (fun error =>
       onFailure self ;;
       throw error).

(** [export const circuitBreakers] *)
Definition circuitBreakers_perplexity : CircuitBreaker :=
  newCircuitBreaker 3 60000 (js "Perplexity-AI").
Definition circuitBreakers_pexels : CircuitBreaker :=
  newCircuitBreaker 5 30000 (js "Pexels-API").

(* ------------------------------------------------------------------ *)
(** ** Vocabulary of the statements *)

(** ** The schedule of a run: its requests and its awaited delays *)

Definition scheduled (e : Event) : bool :=
  match e with
  | Fetch _ | Sleep _ => true
  | _ => false
  end.

Definition schedule (w : World) : list Event := filter scheduled (trace w).

(** The delays a run has awaited so far, oldest first. *)
Definition waits (w : World) : list Z :=
  flat_map (fun e => match e with Sleep ms => [ms] | _ => [] end) (trace w).

(** The delays of the backoff before the attempts 2, ..., [n]. *)
Definition backoff_delays (baseDelay : Z) (n : nat) : list Z :=
  map (fun j => baseDelay * 2 ^ Z.of_nat j) (seq 0 (n - 1)).

Definition attempt_label (operationName : jsstr) (attempt maxAttempts : Z) : jsstr :=
  operationName ++ js " (attempt " ++ num_to_str attempt
    ++ js "/" ++ num_to_str maxAttempts ++ js ")".

Definition after_start (label : jsstr) (w : World) : World :=
  with_trace (trace w ++ [Console LLog (clock w) (js "Starting " ++ label)]) w.

(** What the [catch] block of [retryWithBackoff] makes of the world after
    a failed attempt that is not the last: the warning, then the awaited
    delay. *)
Definition backed_off (operationName : jsstr) (baseDelay attempt : Z)
    (e : JsError) (w : World) : World :=
  snd (sleep (baseDelay * 2 ^ (attempt - 1))
         (with_trace (trace w ++ [Console LWarn (clock w)
            (operationName ++ js " attempt " ++ num_to_str attempt
               ++ js " failed, retrying in "
               ++ num_to_str (baseDelay * 2 ^ (attempt - 1))
               ++ js "ms: " ++ emessage e)]) w)).

(** ... and after the last attempt: the line that reports the failure. *)
Definition given_up (operationName : jsstr) (maxAttempts : Z)
    (e : JsError) (w : World) : World :=
  with_trace (trace w ++ [Console LError (clock w)
    (operationName ++ js " failed after " ++ num_to_str maxAttempts
       ++ js " attempts: " ++ emessage e)]) w.

(** [n] invocations of [operation] in a row, numbered from [k] on, each of
    which fails: every invocation starts right after the line of its
    monitor; between one invocation and the next lie the warning and the
    wait of [baseDelay * 2 ^ (attempt - 1)] milliseconds, nothing else;
    [e] is the error of the last invocation and [w'] the world it leaves. *)
Inductive failing_attempts {T} (operation : M T) (maxAttempts baseDelay : Z)
    (operationName : jsstr) : nat -> Z -> World -> JsError -> World -> Prop :=
| fa_last k w e w' :
    operation (after_start (attempt_label operationName k maxAttempts) w)
    = (Throw e, w') ->
    failing_attempts operation maxAttempts baseDelay operationName 1 k w e w'
| fa_more n k w e1 w1 e w' :
    operation (after_start (attempt_label operationName k maxAttempts) w)
    = (Throw e1, w1) ->
    failing_attempts operation maxAttempts baseDelay operationName n (k + 1)
      (backed_off operationName baseDelay k e1 w1) e w' ->
    failing_attempts operation maxAttempts baseDelay operationName (S n) k w e w'.

(** [async () => { console.log("called"); throw undefined }] *)
Definition rejecting_with_undefined : M value :=
  console LLog (js "called") ;; throw thrown_undefined.

(** The lines of the console that read [text]. *)
Definition said (text : jsstr) (w : World) : nat :=
  List.length
    (filter (fun e => match e with
                      | Console _ _ t => str_eqb t text
                      | _ => false
                      end) (trace w)).

(** Identifiers handed out so far are below [next_id]. *)
Definition fresh_ids (w : World) : Prop :=
  (forall c, In c (aborted w) -> (c < next_id w)%nat) /\
  (forall tm, In tm (timers w) ->
     (timer_id tm < next_id w)%nat /\ (target tm < next_id w)%nat).

Definition is_abort_error (e : JsError) : bool :=
  instanceof_Error e && str_eqb (ename e) (js "AbortError").

(** No pending timer is aimed at controller [c]. *)
Definition timer_free (c : nat) (w : World) : Prop :=
  forall tm, In tm (timers w) -> target tm <> c.

Definition own_timer (d : Z) (w : World) : Timer :=
  mkTimer (S (next_id w)) (clock w + Z.max 0 d) (next_id w).

(** The world in which the request of [fetchWithTimeout] is in flight. *)
Definition in_flight (url : jsstr) (d : Z) (w : World) : World :=
  with_sent (S (sent w))
    (with_trace (trace w ++ [Fetch url])
       (with_next_id (S (S (next_id w)))
          (with_timers (timers w ++ [own_timer d w])
             (with_next_id (S (next_id w)) w)))).

Definition cleared (id : nat) (w : World) : World :=
  with_timers (filter (fun tm => negb (Nat.eqb (timer_id tm) id)) (timers w)) w.

(** What the success hook and the failure hook make of a breaker. *)
Definition succeeded (b : CircuitBreaker) : CircuitBreaker :=
  mkBreaker 0 (lastFailureTime b)
    (match state b with HALF_OPEN => CLOSED | s => s end)
    (failureThreshold b) (resetTimeout b) (name b).

Definition failed (now : Z) (b : CircuitBreaker) : CircuitBreaker :=
  mkBreaker (failures b + 1) now
    (if failureThreshold b <=? failures b + 1 then OPEN else state b)
    (failureThreshold b) (resetTimeout b) (name b).

(** The operation leaves the breaker alone: it neither calls into it nor
    overlaps with another call that does. *)
Definition preserves_breaker {T} (self : BreakerRef) (op : M T) : Prop :=
  forall w, breaker_of self (snd (op w)) = breaker_of self w.

(** A call of [execute] takes two turns of the event loop: the gate, which
    ends by starting the operation, and, once the operation has settled,
    the hook. Between the two, other calls of the same breaker may take
    theirs: a batch of image searches starts every call before any of them
    has settled. *)
Inductive Turn :=
| Called                          (* [execute] is entered: the gate runs *)
| Settled (resolved : bool)       (* an operation in flight has settled: the hook runs *)
| Meanwhile (f : World -> World). (* anything else: time passes, operations run *)


(** [ms] milliseconds pass; the operation [op] of a call in flight runs. *)
Definition elapsed (ms : Z) : Turn :=
  Meanwhile (fun w => with_clock (clock w + Z.max 0 ms) w).

Definition running {T} (op : M T) : Turn := Meanwhile (fun w => snd (op w)).

(** One turn, on the world and the number of calls whose operation is in
    flight. A call that the gate rejects never gets in flight; no hook runs
    without a call in flight. *)
Definition turn (self : BreakerRef) (t : Turn) (s : World * nat)
    : option (World * nat) :=
  let (w, flying) := s in
  match t with
  | Called =>
      match gate self w with
      | (Return _, w') => Some (w', S flying)
      | (Throw _, w') => Some (w', flying)
      end
  | Settled resolved =>
      match flying with
      | O => None
      | S flying' =>
          Some (snd ((if resolved then onSuccess self else onFailure self) w),
                flying')
      end
  | Meanwhile f => Some (f w, flying)
  end.

Fixpoint turns (self : BreakerRef) (ts : list Turn) (s : World * nat)
    : option (World * nat) :=
  match ts with
  | [] => Some s
  | t :: ts' =>
      match turn self t s with
      | Some s' => turns self ts' s'
      | None => None
      end
  end.





(* ------------------------------------------------------------------ *)
(** ** Operations of the language on values *)

Local Open Scope list_scope.

(** Computations that touch nothing but may throw. *)
Definition obind {A B} (m : Outcome A) (k : A -> Outcome B) : Outcome B :=
  match m with
  | Return a => k a
  | Throw e => Throw e
  end.

Declare Scope out_scope.
Delimit Scope out_scope with out.
Notation "x <- m ;; k" := (obind m (fun x => k))
  (at level 61, m at next level, right associativity) : out_scope.
Notation "m ;; k" := (obind m (fun _ => k))
  (at level 61, right associativity) : out_scope.

Definition lift {A} (o : Outcome A) : M A := fun w => (o, w).

Definition truthy (v : value) : bool :=
  match v with
  | VUndef | VNull => false
  | VBool b => b
  | VNum m _ => negb (m =? 0)
  | VStr s => match s with [] => false | _ => true end
  | VArr _ | VObj _ => true
  end.

Definition is_nullish (v : value) : bool :=
  match v with VUndef | VNull => true | _ => false end.

Fixpoint lookup (k : jsstr) (fields : list (jsstr * value)) : option value :=
  match fields with
  | [] => None
  | (k', v) :: rest => if str_eqb k k' then Some v else lookup k rest
  end.

Definition len_value {A} (l : list A) : value := VInt (Z.of_nat (List.length l)).

Definition is_digit (c : N) : bool := ((48 <=? c) && (c <=? 57))%N.

Fixpoint digits_value (s : jsstr) (acc : Z) : Z :=
  match s with
  | [] => acc
  | c :: rest => digits_value rest (10 * acc + (Z.of_N c - 48))
  end.

(** The index a property key denotes, when it is a canonical one. *)
Definition array_index (k : jsstr) : option nat :=
  match k with
  | [] => None
  | c :: rest =>
      if forallb is_digit k && (negb (N.eqb c 48) || match rest with [] => true | _ => false end)
      then Some (Z.to_nat (digits_value k 0))
      else None
  end.

(** [v[k]] and [v.k] on a value that is neither null nor undefined. Of the
    built-in properties only [length] is a value; methods are modelled where
    they are called. *)
Definition prop (v : value) (k : jsstr) : value :=
  match v with
  | VObj fields => match lookup k fields with Some x => x | None => VUndef end
  | VArr items =>
      if str_eqb k (js "length") then len_value items
      else match array_index k with
           | Some i => nth i items VUndef
           | None => VUndef
           end
  | VStr s =>
      if str_eqb k (js "length") then len_value s
      else match array_index k with
           | Some i => match nth_error s i with Some c => VStr [c] | None => VUndef end
           | None => VUndef
           end
  | _ => VUndef
  end.

(** [v.k] *)
Definition get (v : value) (k : jsstr) : Outcome value :=
  if is_nullish v
  then Throw (newTypeError (js "Cannot read properties of "
                              ++ (match v with VNull => js "null" | _ => js "undefined" end)
                              ++ js " (reading '" ++ k ++ js "')"))
  else Return (prop v k).

(** [v?.k] *)
Definition get_opt (v : value) (k : jsstr) : value :=
  if is_nullish v then VUndef else prop v k.

Fixpoint update (k : jsstr) (x : value) (fields : list (jsstr * value))
    : list (jsstr * value) :=
  match fields with
  | [] => [(k, x)]
  | (k', v) :: rest =>
      if str_eqb k k' then (k, x) :: rest else (k', v) :: update k x rest
  end.

(** [v.k = x], in strict mode. A named property put on an array is not
    kept: it would not be serialised either. *)
Definition set (v : value) (k : jsstr) (x : value) : Outcome value :=
  match v with
  | VObj fields => Return (VObj (update k x fields))
  | VArr items => Return (VArr items)
  | VUndef | VNull =>
      Throw (newTypeError (js "Cannot set properties of undefined (setting '"
                             ++ k ++ js "')"))
  | _ => Throw (newTypeError (js "Cannot create property '" ++ k ++ js "'"))
  end.

Definition not_a_function (what : jsstr) : JsError :=
  newTypeError (what ++ js " is not a function").

Definition not_iterable : JsError := newTypeError (js "object is not iterable").

(** The items a [for ... of] visits. *)
Definition iterate (v : value) : Outcome (list value) :=
  match v with
  | VArr items => Return items
  | VStr s => Return (map (fun c => VStr [c]) s)
  | _ => Throw not_iterable
  end.

(** The receiver of [v.forEach(...)], [v.map(...)] and the like. *)
Definition array_method (v : value) (method : jsstr) : Outcome (list value) :=
  match v with
  | VArr items => Return items
  | VUndef | VNull =>
      Throw (newTypeError (js "Cannot read properties of undefined (reading '"
                             ++ method ++ js "')"))
  | _ => Throw (not_a_function method)
  end.

(** The receiver of [v?.forEach(...)]: nothing to visit when [v] is
    null or undefined. *)
Definition array_method_opt (v : value) (method : jsstr) : Outcome (list value) :=
  if is_nullish v then Return [] else array_method v method.

Fixpoint for_each {A} (f : A -> Outcome unit) (l : list A) : Outcome unit :=
  match l with
  | [] => Return tt
  | x :: rest => obind (f x) (fun _ => for_each f rest)
  end.

Fixpoint map_out {A B} (f : A -> Outcome B) (l : list A) : Outcome (list B) :=
  match l with
  | [] => Return []
  | x :: rest =>
      obind (f x) (fun y => obind (map_out f rest) (fun ys => Return (y :: ys)))
  end.

Fixpoint fold_out {A S} (f : S -> A -> Outcome S) (l : list A) (s : S) : Outcome S :=
  match l with
  | [] => Return s
  | x :: rest => obind (f s x) (fun s' => fold_out f rest s')
  end.

Fixpoint for_each_M {A} (f : A -> M unit) (l : list A) : M unit :=
  match l with
  | [] => ret tt
  | x :: rest => bind (f x) (fun _ => for_each_M f rest)
  end.

Fixpoint fold_M {A S} (f : S -> A -> M S) (l : list A) (s : S) : M S :=
  match l with
  | [] => ret s
  | x :: rest => bind (f s x) (fun s' => fold_M f rest s')
  end.

(** Numbers: [mant * 10^exp10], compared exactly. *)
Definition num_lt (m1 e1 m2 e2 : Z) : bool :=
  let e := Z.min e1 e2 in
  m1 * 10 ^ (e1 - e) <? m2 * 10 ^ (e2 - e).

Definition num_eq (m1 e1 m2 e2 : Z) : bool :=
  let e := Z.min e1 e2 in
  m1 * 10 ^ (e1 - e) =? m2 * 10 ^ (e2 - e).

(** [Number(v)], [None] standing for NaN. Strings are read when they are
    empty or made of decimal digits; any other string, and any object, is
    taken to NaN. *)
Definition to_number (v : value) : option (Z * Z) :=
  match v with
  | VNum m e => Some (m, e)
  | VNull => Some (0, 0)
  | VBool b => Some (if b then 1 else 0, 0)
  | VStr s => if forallb is_digit s then Some (digits_value s 0, 0) else None
  | VArr [] => Some (0, 0)
  | _ => None
  end.

(** [a < b], [a >= b] and [a > b] on the numbers [a] and [b] convert to. *)
Definition js_lt (a b : value) : bool :=
  match to_number a, to_number b with
  | Some (m1, e1), Some (m2, e2) => num_lt m1 e1 m2 e2
  | _, _ => false
  end.

Definition js_ge (a b : value) : bool :=
  match to_number a, to_number b with
  | Some (m1, e1), Some (m2, e2) => negb (num_lt m1 e1 m2 e2)
  | _, _ => false
  end.

Definition js_gt (a b : value) : bool := js_lt b a.

(** [a === b] on primitives; two objects met at different places of a
    parsed document are never the same object. *)
Definition strict_eq (a b : value) : bool :=
  match a, b with
  | VUndef, VUndef | VNull, VNull => true
  | VBool x, VBool y => Bool.eqb x y
  | VNum m1 e1, VNum m2 e2 => num_eq m1 e1 m2 e2
  | VStr s, VStr t => str_eqb s t
  | _, _ => false
  end.

(** The decimal digits of a non-negative integer. *)
Definition digits_of (z : Z) : jsstr := num_to_str z.

Fixpoint pad_zeros (n : nat) (s : jsstr) : jsstr :=
  match n with
  | O => s
  | S n' => 48%N :: pad_zeros n' s
  end.

(** [String(v)]; an object prints as [[object Object]], an array as its
    items joined by commas. *)
Definition number_to_string (m e : Z) : jsstr :=
  if 0 <=? e then num_to_str (m * 10 ^ e)
  else
    let places := Z.to_nat (- e) in
    let ds := digits_of (Z.abs m) in
    let ds := pad_zeros (S places - List.length ds) ds in
    let int_part := firstn (List.length ds - places) ds in
    let frac := skipn (List.length ds - places) ds in
    (if m <? 0 then js "-" else []) ++ int_part ++ js "." ++ frac.

Fixpoint join (sep : jsstr) (parts : list jsstr) : jsstr :=
  match parts with
  | [] => []
  | [p] => p
  | p :: rest => p ++ sep ++ join sep rest
  end.

Fixpoint to_string (v : value) : jsstr :=
  match v with
  | VUndef => js "undefined"
  | VNull => js "null"
  | VBool true => js "true"
  | VBool false => js "false"
  | VNum m e => number_to_string m e
  | VStr s => s
  | VArr items =>
      join (js ",")
        (map (fun x => match x with
                       | VUndef | VNull => []
                       | _ => to_string x
                       end) items)
  | VObj _ => js "[object Object]"
  end.

(** [s.toLowerCase()] and [s.includes(p)] as method calls on a value. *)
Definition call_toLowerCase (v : value) : Outcome jsstr :=
  match v with
  | VStr s => Return (toLowerCase s)
  | VUndef | VNull =>
      Throw (newTypeError (js "Cannot read properties of undefined (reading 'toLowerCase')"))
  | _ => Throw (not_a_function (js "toLowerCase"))
  end.

Definition call_includes (v : value) (p : jsstr) : Outcome bool :=
  match v with
  | VStr s => Return (includes s p)
  | VArr items => Return (existsb (fun x => strict_eq x (VStr p)) items)
  | VUndef | VNull =>
      Throw (newTypeError (js "Cannot read properties of undefined (reading 'includes')"))
  | _ => Throw (not_a_function (js "includes"))
  end.

(* ------------------------------------------------------------------ *)
(** ** encodeURIComponent *)

Definition hex_digit (n : N) : N :=
  if (n <? 10)%N then (48 + n)%N else (55 + n)%N.

Definition percent (byte : N) : jsstr :=
  [37%N; hex_digit (byte / 16); hex_digit (byte mod 16)].

Definition utf8 (cp : N) : list N :=
  if (cp <? 128)%N then [cp]
  else if (cp <? 2048)%N then [(192 + cp / 64)%N; (128 + cp mod 64)%N]
  else if (cp <? 65536)%N then
    [(224 + cp / 4096)%N; (128 + (cp / 64) mod 64)%N; (128 + cp mod 64)%N]
  else
    [(240 + cp / 262144)%N; (128 + (cp / 4096) mod 64)%N;
     (128 + (cp / 64) mod 64)%N; (128 + cp mod 64)%N].

Definition uri_unreserved (c : N) : bool :=
  (((65 <=? c) && (c <=? 90)) || ((97 <=? c) && (c <=? 122)) || is_digit c
   || existsb (N.eqb c) [45; 95; 46; 33; 126; 42; 39; 40; 41])%N.

Definition URIError : JsError :=
  mkError CError (js "URIError") (js "URI malformed").

Fixpoint encodeURIComponent (s : jsstr) : Outcome jsstr :=
  match s with
  | [] => Return []
  | c :: rest =>
      if uri_unreserved c then
        obind (encodeURIComponent rest) (fun r => Return (c :: r))
      else if ((c <? 55296) || (57343 <? c))%N then
        obind (encodeURIComponent rest)
          (fun r => Return (flat_map percent (utf8 c) ++ r))
      else if (c <? 56320)%N then
        match rest with
        | lo :: rest' =>
            if ((56320 <=? lo) && (lo <=? 57343))%N then
              obind (encodeURIComponent rest')
                (fun r => Return (flat_map percent
                                    (utf8 (65536 + (c - 55296) * 1024 + (lo - 56320)))
                                    ++ r))
            else Throw URIError
        | [] => Throw URIError
        end
      else Throw URIError
  end.

(* ------------------------------------------------------------------ *)
(** ** app/utils/pexels.ts *)

Definition is_category (category : option jsstr) (c : string) : bool :=
  match category with
  | Some x => str_eqb x (js c)
  | None => false
  end.

(** [Math.floor(Math.random() * n)] *)
Definition random_below (n : nat) : M nat :=
  fun w => (Return (Nat.modulo (random w (drawn w)) n), with_drawn (S (drawn w)) w).

Definition error_text (e : JsError) : jsstr := ename e ++ js ": " ++ emessage e.

(** The [try] block of [fetchPexelsImage]. *)
Definition pexels_search (monitor : PerformanceMonitor) (query : jsstr)
    (category : option jsstr) (size : jsstr) : M value :=
  w <- get_world ;;
  match PEXELS_API_KEY w with
  | None | Some [] =>
      monitor_error monitor (js "Pexels API key not configured") ;;
      ret VNull
  | Some (_ :: _) =>
      let searchQuery :=
        if is_category category "restaurant" || is_category category "food"
        then query ++ js " restaurant food dining"
        else if is_category category "attraction" || is_category category "landmark"
        then query ++ js " landmark attraction tourist"
        else if is_category category "city"
        then query ++ js " city skyline urban"
        else if is_category category "culture"
        then query ++ js " culture traditional heritage"
        else query in
      let orientation := js "landscape" in
      let perPage :=
        if is_category category "restaurant" || is_category category "food"
        then 15 else 10 in
      monitor_log monitor (js "Searching with query: " ++ searchQuery) ;;
      response <- execute pexels_ref
        (encoded <- lift (encodeURIComponent searchQuery) ;;
         fetchWithTimeout
           (js "https://api.pexels.com/v1/search?query=" ++ encoded
              ++ js "&per_page=" ++ num_to_str perPage
              ++ js "&orientation=" ++ orientation ++ js "&size=" ++ size)
           (Some TIMEOUTS_PEXELS) (Some (js "pexels-search"))) ;;
      if negb (ok response) then
        monitor_error monitor (js "Pexels API error: " ++ num_to_str (status response)) ;;
        ret VNull
      else
        data <- response_json response ;;
        photos <- lift (get data (js "photos")) ;;
        count <- lift (get photos (js "length")) ;;
        monitor_log monitor (js "Found " ++ to_string count ++ js " images") ;;
        if truthy photos && js_gt (prop photos (js "length")) (VInt 0) then
          candidates <- lift (match photos with
                              | VArr items => Return (firstn 5 items)
                              | VStr s => Return (map (fun c => VStr [c]) (firstn 5 s))
                              | _ => Throw (not_a_function (js "slice"))
                              end) ;;
          validImages <- lift (fold_out
            (fun valid photo =>
               obind (get photo (js "width")) (fun width =>
               if js_ge width (VInt 800) then
                 obind (get photo (js "height")) (fun height =>
                 if js_ge height (VInt 600)
                 then Return (valid ++ [photo]) else Return valid)
               else Return valid))
            candidates []) ;;
          match validImages with
          | [] =>
              monitor_log monitor (js "No valid images found, using first available") ;;
              monitor_finish monitor true ;;
              ret (prop photos (js "0"))
          | _ :: _ =>
              randomIndex <- random_below (List.length validImages) ;;
              let selectedImage := nth randomIndex validImages VUndef in
              id <- lift (get selectedImage (js "id")) ;;
              monitor_log monitor
                (js "Selected image: " ++ to_string id ++ js " ("
                   ++ to_string (prop selectedImage (js "width")) ++ js "x"
                   ++ to_string (prop selectedImage (js "height")) ++ js ")") ;;
              monitor_finish monitor true ;;
              ret selectedImage
          end
        else
          monitor_log monitor (js "No photos found") ;;
          monitor_finish monitor false ;;
          ret VNull
  end.

Definition fetchPexelsImage (query : jsstr) (category : option jsstr)
    (size : jsstr) : M value :=
  monitor <- newPerformanceMonitor (js "Pexels search: " ++ query) ;;
  try_catch (pexels_search monitor query category size)
    (fun error =>
       (if instanceof_TimeoutError error
        then monitor_error monitor (js "Pexels API timeout: " ++ emessage error)
        else monitor_error monitor (error_text error)) ;;
       ret VNull).

(** [Promise.allSettled(tasks)] for tasks started together: they are run one
    after the other on the shared world, each from the common start time,
    and the whole settles when the slowest has. The turns of the tasks are
    not interleaved here: a task finds the breaker as the tasks before it
    have left it. What the statements say of a batch are bounds and frames
    that hold in every order; calls of one breaker that overlap are the
    subject of [turn]. *)
Fixpoint settle_from {A} (t0 : Z) (tasks : list (M A)) (latest : Z)
    (w : World) : list (Outcome A) * Z * World :=
  match tasks with
  | [] => ([], latest, w)
  | task :: rest =>
      let (o, w1) := task (with_clock t0 w) in
      let '(os, latest', w2) := settle_from t0 rest (Z.max latest (clock w1)) w1 in
      (o :: os, latest', w2)
  end.

Definition allSettled {A} (tasks : list (M A)) : M (list (Outcome A)) :=
  fun w =>
    let '(os, latest, w') := settle_from (clock w) tasks (clock w) w in
    (Return os, with_clock latest w').

(** [Promise.race([p, timeoutPromise])], where [timeoutPromise] rejects
    with [new TimeoutError(operation, ms)] after [ms]. When both settle at
    the same instant, [timer_first] says whether the timer was the first
    of the two to be set up. *)
Definition race_timeout {A} (p : M A) (ms : Z) (operation : jsstr)
    (timer_first : bool) : M A :=
  fun w =>
    let (o, w') := p w in
    let elapsed := clock w' - clock w in
    if (if timer_first then ms <=? elapsed else ms <? elapsed)
    then (Throw (TimeoutError operation ms), with_clock (clock w + ms) w')
    else (o, w').

Fixpoint chunks {A} (fuel : nat) (size : nat) (l : list A) : list (list A) :=
  match fuel with
  | O => []
  | S fuel' =>
      match l with
      | [] => []
      | _ :: _ => firstn size l :: chunks fuel' size (skipn size l)
      end
  end.

Definition BATCH_SIZE : nat := 3.

Definition is_null (v : value) : bool :=
  match v with VNull => true | _ => false end.

Definition fetchMultiplePexelsImages (queries : list jsstr)
    (categories : option (list jsstr)) (size : jsstr) : M (list value) :=
  monitor <- newPerformanceMonitor
               (js "Fetching " ++ num_to_str (Z.of_nat (List.length queries)) ++ js " images") ;;
  try_catch
    (let batches := chunks (List.length queries) BATCH_SIZE queries in
     let total := List.length batches in
     results <- fold_M
       (fun (acc : nat * list value) batch =>
          let (index, results) := acc in
          let i := (index * BATCH_SIZE)%nat in
          let batchCategories :=
            match categories with
            | Some cs => Some (firstn BATCH_SIZE (skipn i cs))
            | None => None
            end in
          monitor_log monitor
            (js "Processing batch " ++ num_to_str (Z.of_nat (S index)) ++ js "/"
               ++ num_to_str (Z.of_nat total)) ;;
          let batchPromises :=
            map (fun qi : nat * jsstr =>
                   let (k, query) := qi in
                   let category :=
                     match batchCategories with
                     | Some cs => nth_error cs k
                     | None => None
                     end in
                   retryWithBackoff (fetchPexelsImage query category size)
                     2 500 (js "pexels-" ++ query))
                (combine (seq 0 (List.length batch)) batch) in
          batchResults <- allSettled batchPromises ;;
          results <- fold_M
            (fun results result =>
               match result with
               | Return v => ret (results ++ [v])
               | Throw reason =>
                   monitor_log monitor (js "Image fetch failed: " ++ error_text reason) ;;
                   ret (results ++ [VNull])
               end)
            batchResults results ;;
          (if (i + BATCH_SIZE <? List.length queries)%nat then sleep 200 else ret tt) ;;
          ret (S index, results))
       batches (O, []) ;;
     let results := snd results in
     let successCount := List.length (filter (fun img => negb (is_null img)) results) in
     monitor_log monitor
       (js "Successfully fetched " ++ num_to_str (Z.of_nat successCount) ++ js "/"
          ++ num_to_str (Z.of_nat (List.length queries)) ++ js " images") ;;
     monitor_finish monitor (0 <? successCount)%nat ;;
     ret results)
    (fun error =>
       monitor_error monitor (error_text error) ;;
       ret (map (fun _ => VNull) queries)).

(** The category and the fallback queries [fetchDiverseLocationImages]
    gives a location name. *)
Definition categorize (locationName : jsstr) : jsstr * list jsstr :=
  let lowerName := toLowerCase locationName in
  let has (p : jsstr) := includes lowerName p in
  if has (js "restaurant") || has (js "cafe") || has (js "bar") || has (js "dining") then
    (js "restaurant",
     [locationName ++ js " food"; js "restaurant interior"; js "fine dining"])
  else if has (js "museum") || has (js "gallery") then
    (js "culture", [locationName ++ js " art"; js "museum interior"; js "art gallery"])
  else if has (js "park") || has (js "garden") then
    (js "nature",
     [locationName ++ js " nature"; js "beautiful park"; js "garden landscape"])
  else if has (js "temple") || has (js "mosque") || has (js "church") || has (js "shrine") then
    (js "culture",
     [locationName ++ js " architecture"; js "religious architecture"; js "temple interior"])
  else if has (js "palace") || has (js "fort") || has (js "castle") then
    (js "attraction",
     [locationName ++ js " architecture"; js "historic palace"; js "ancient architecture"])
  else if has (js "market") || has (js "bazaar") then
    (js "culture",
     [locationName ++ js " market"; js "traditional market"; js "local bazaar"])
  else if has (js "beach") || has (js "lake") then
    (js "nature", [locationName ++ js " water"; js "beautiful beach"; js "scenic lake"])
  else
    (js "attraction",
     [locationName ++ js " landmark"; locationName ++ js " tourism"; js "city attraction"]).

(** The loop over the fallback queries, left at the first image found. *)
Fixpoint try_fallbacks (queries : list jsstr) (category size : jsstr)
    (image : value) : M value :=
  match queries with
  | [] => ret image
  | fallbackQuery :: rest =>
      image <- fetchPexelsImage fallbackQuery (Some category) size ;;
      if truthy image then ret image
      else try_fallbacks rest category size image
  end.

(** An object used as a map from names to values. *)
Definition object_map := list (jsstr * value).

(** The [try] block of [fetchDiverseLocationImages]. *)
Definition diverse_images (monitor : PerformanceMonitor)
    (locationNames : list value) (size : jsstr) : M object_map :=
  categorizedLocations <- lift (map_out
     (fun locationName =>
        obind (call_toLowerCase locationName) (fun _ =>
        match locationName with
        | VStr s => Return (s, categorize s)
        | _ => Throw (not_a_function (js "toLowerCase"))
        end))
     locationNames) ;;
  let imagePromises :=
    map (fun entry : jsstr * (jsstr * list jsstr) =>
           let '(locationName, (category, fallbackQueries)) := entry in
           monitor_log monitor
             (js "Processing " ++ locationName ++ js " (" ++ category ++ js ")") ;;
           image <- fetchPexelsImage locationName (Some category) size ;;
           image <- (if negb (truthy image)
                        && (0 <? List.length fallbackQueries)%nat
                     then
                       monitor_log monitor
                         (js "No image found for " ++ locationName
                            ++ js ", trying fallbacks") ;;
                       try_fallbacks fallbackQueries category size image
                     else ret image) ;;
           ret (locationName, image))
        categorizedLocations in
  results <- race_timeout (allSettled imagePromises) TIMEOUTS_IMAGES
               (js "diverse-images") true ;;
  out <- fold_M
    (fun (acc : object_map * nat) result =>
       let (locationImages, successCount) := acc in
       match result with
       | Return (locationName, image) =>
           if truthy image
           then ret (update locationName image locationImages, S successCount)
           else ret acc
       | Throw reason =>
           monitor_log monitor (js "Failed to fetch image: " ++ error_text reason) ;;
           ret acc
       end)
    results ([], O) ;;
  let (locationImages, successCount) := out in
  monitor_log monitor
    (js "Successfully fetched " ++ num_to_str (Z.of_nat successCount) ++ js "/"
       ++ num_to_str (Z.of_nat (List.length locationNames)) ++ js " location images") ;;
  monitor_finish monitor (0 <? successCount)%nat ;;
  ret locationImages.

Definition fetchDiverseLocationImages (locationNames : list value)
    (size : jsstr) : M object_map :=
  monitor <- newPerformanceMonitor
               (js "Diverse location images: "
                  ++ num_to_str (Z.of_nat (List.length locationNames)) ++ js " locations") ;;
  try_catch (diverse_images monitor locationNames size)
    (fun error =>
       (if instanceof_TimeoutError error
        then monitor_error monitor (js "Location images fetch timed out: " ++ emessage error)
        else monitor_error monitor (error_text error)) ;;
       ret []).

(** [FALLBACK_CITY_IMAGES]: the photo number of each curated city. *)
Definition FALLBACK_CITY_IMAGES : list (jsstr * jsstr) :=
  [ (js "mumbai", js "789750");
    (js "tokyo", js "2070033");
    (js "delhi", js "1542620") ].

Definition pexels_photo (number : jsstr) (suffix : string) : jsstr :=
  js "https://images.pexels.com/photos/" ++ number ++ js "/pexels-photo-"
    ++ number ++ js ".jpeg" ++ js suffix.

Fixpoint lookup_str {A} (k : jsstr) (table : list (jsstr * A)) : option A :=
  match table with
  | [] => None
  | (k', v) :: rest => if str_eqb k k' then Some v else lookup_str k rest
  end.

(** Keys every object literal inherits from [Object.prototype]; looking
    one up in a table written as an object literal finds an object that
    has none of the table's fields. *)
Definition inherited_key (k : jsstr) : bool :=
  str_eqb k (js "constructor") || str_eqb k (js "__proto__").

Definition getFallbackCityImage (cityName : jsstr) : value :=
  let key := toLowerCase cityName in
  let image (url original large medium : jsstr) (photographer : jsstr) :=
    VObj [ (js "id", VInt 0);
           (js "width", VInt 1200);
           (js "height", VInt 800);
           (js "url", VStr url);
           (js "photographer", VStr photographer);
           (js "photographer_url", VStr []);
           (js "avg_color", VStr (js "#2C3E50"));
           (js "src", VObj [ (js "original", VStr original);
                             (js "large2x", VStr large);
                             (js "large", VStr large);
                             (js "medium", VStr medium);
                             (js "small", VStr medium);
                             (js "portrait", VStr medium);
                             (js "landscape", VStr large);
                             (js "tiny", VStr medium) ]) ] in
  match lookup_str key FALLBACK_CITY_IMAGES with
  | Some number =>
      image (pexels_photo number "") (pexels_photo number "")
        (pexels_photo number "?auto=compress&cs=tinysrgb&w=1200")
        (pexels_photo number "?auto=compress&cs=tinysrgb&w=800")
        (js "Fallback Image")
  | None =>
      if inherited_key key
      then image [] [] [] [] (js "Stock Photo")
      else VNull
  end.

(* ------------------------------------------------------------------ *)
(** ** Regular expressions of the response-repair parser *)

Definition ch (s : string) : N :=
  match s with
  | String a _ => N_of_ascii a
  | EmptyString => 0%N
  end.

Definition quote : N := 34%N.

(** [\s] *)
Definition is_space (c : N) : bool :=
  (existsb (N.eqb c) [9; 10; 11; 12; 13; 32; 160; 5760; 8232; 8233; 8239; 8287; 12288; 65279]
   || ((8192 <=? c) && (c <=? 8202)))%N.

(** [\w] *)
Definition is_word (c : N) : bool :=
  (((65 <=? c) && (c <=? 90)) || ((97 <=? c) && (c <=? 122)) || is_digit c
   || (c =? 95))%N.

Definition one_of (cs : list N) (c : N) : bool := existsb (N.eqb c) cs.

(** The longest prefix whose units satisfy [p], and what follows it. *)
Fixpoint span (p : N -> bool) (s : jsstr) : jsstr * jsstr :=
  match s with
  | [] => ([], [])
  | c :: rest =>
      if p c then let (a, b) := span p rest in (c :: a, b)
      else ([], s)
  end.

(** [s] without its last units satisfying [p], and those units. *)
Definition span_end (p : N -> bool) (s : jsstr) : jsstr * jsstr :=
  let (tail_rev, head_rev) := span p (rev s) in
  (rev head_rev, rev tail_rev).

(** [s.replace(re, ...)] for a global [re] without anchors or empty
    matches: [matcher] tells, at a position, the replacement text and where
    the scan goes on, when [re] matches there. *)
Fixpoint replace_all (fuel : nat) (matcher : jsstr -> option (jsstr * jsstr))
    (s : jsstr) : jsstr :=
  match fuel with
  | O => s
  | S fuel' =>
      match s with
      | [] => []
      | c :: rest =>
          match matcher s with
          | Some (replacement, after) => replacement ++ replace_all fuel' matcher after
          | None => c :: replace_all fuel' matcher rest
          end
      end
  end.

(** The pattern of the first step: a comma, white space, then a closing
    brace or bracket; the comma is dropped. *)
Definition match_trailing_comma (s : jsstr) : option (jsstr * jsstr) :=
  match s with
  | c :: rest =>
      if (c =? ch ",")%N then
        let (ws, after_ws) := span is_space rest in
        match after_ws with
        | closer :: after =>
            if one_of [ch "}"; ch "]"] closer
            then Some (ws ++ [closer], after)
            else None
        | [] => None
        end
      else None
  | [] => None
  end.

(** The pattern of the second step: an opening brace, an opening bracket
    or a comma, white space, a word and a colon; the word is put between
    double quotes. *)
Definition match_unquoted_key (s : jsstr) : option (jsstr * jsstr) :=
  match s with
  | opener :: rest =>
      if one_of [ch "{"; ch "["; ch ","] opener then
        let (ws, after_ws) := span is_space rest in
        let (word, after_word) := span is_word after_ws in
        match word, after_word with
        | _ :: _, colon :: after =>
            if (colon =? ch ":")%N
            then Some (opener :: ws ++ [quote] ++ word ++ [quote; ch ":"], after)
            else None
        | _, _ => None
        end
      else None
  | [] => None
  end.

(** The pattern of the third step: a colon, white space, then a group that
    starts with a unit other than a double quote, a comma, an opening brace
    or bracket or white space, goes on over units other than a comma or a
    closing brace or bracket, and ends with such a unit that is not white
    space; the match is replaced by a colon, one space and the group between
    double quotes. *)
Definition match_unquoted_value (s : jsstr) : option (jsstr * jsstr) :=
  match s with
  | colon :: rest =>
      if (colon =? ch ":")%N then
        let (ws, after_ws) := span is_space rest in
        match after_ws with
        | first :: after_first =>
            if one_of [quote; ch ","; ch "{"; ch "["] first || is_space first
            then None
            else
              let (run, after_run) :=
                span (fun c => negb (one_of [ch ","; ch "}"; ch "]"] c)) after_first in
              let (body, trailing) := span_end is_space run in
              match body with
              | [] => None
              | _ :: _ =>
                  Some ([ch ":"; ch " "; quote] ++ first :: body ++ [quote],
                        trailing ++ after_run)
              end
        | [] => None
        end
      else None
  | [] => None
  end.

(** The three cleaning steps applied to a candidate before [JSON.parse]. *)
Definition strip_trailing_commas (s : jsstr) : jsstr :=
  replace_all (List.length s) match_trailing_comma s.

Definition quote_keys (s : jsstr) : jsstr :=
  replace_all (List.length s) match_unquoted_key s.

Definition quote_values (s : jsstr) : jsstr :=
  replace_all (List.length s) match_unquoted_value s.

Definition clean_json (jsonString : jsstr) : jsstr :=
  quote_values (quote_keys (strip_trailing_commas jsonString)).

Fixpoint drop_until (c : N) (s : jsstr) : option jsstr :=
  match s with
  | [] => None
  | x :: rest => if (x =? c)%N then Some s else drop_until c rest
  end.

(** The first match of the greedy brace pattern in [content]: from the
    first opening brace to the last closing brace after it. *)
Definition match_brace_span (content : jsstr) : option jsstr :=
  match drop_until (ch "{") content with
  | Some from_open =>
      match drop_until (ch "}") (rev from_open) with
      | Some rev_span => Some (rev rev_span)
      | None => None
      end
  | None => None
  end.

(** The prefix of [s] up to and including the first [c]. *)
Fixpoint take_through (c : N) (s : jsstr) : option (jsstr * jsstr) :=
  match s with
  | [] => None
  | x :: rest =>
      if (x =? c)%N then Some ([x], rest)
      else match take_through c rest with
           | Some (a, b) => Some (x :: a, b)
           | None => None
           end
  end.

(** All matches of the lazy brace pattern in [content]: each runs from an
    opening brace to the first closing brace after it. *)
Fixpoint match_lazy_spans (fuel : nat) (content : jsstr) : list jsstr :=
  match fuel with
  | O => []
  | S fuel' =>
      match drop_until (ch "{") content with
      | Some from_open =>
          match take_through (ch "}") from_open with
          | Some (m, after) => m :: match_lazy_spans fuel' after
          | None => []
          end
      | None => []
      end
  end.

(* ------------------------------------------------------------------ *)
(** ** JSON.parse and JSON.stringify *)

Definition SyntaxError (msg : jsstr) : JsError :=
  mkError CSyntaxError (js "SyntaxError") msg.

Definition json_ws (c : N) : bool := one_of [32; 9; 10; 13]%N c.

Definition skip_ws (s : jsstr) : jsstr := snd (span json_ws s).

Definition hex_value (c : N) : option N :=
  if is_digit c then Some (c - 48)%N
  else if ((97 <=? c) && (c <=? 102))%N then Some (c - 87)%N
  else if ((65 <=? c) && (c <=? 70))%N then Some (c - 55)%N
  else None.

(** The units of a string literal, read after its opening quote. *)
Fixpoint parse_string_body (s : jsstr) : option (jsstr * jsstr) :=
  match s with
  | [] => None
  | c :: rest =>
      if (c =? quote)%N then Some ([], rest)
      else if (c =? 92)%N then
        match rest with
        | e :: rest' =>
            let simple (u : N) :=
              match parse_string_body rest' with
              | Some (body, after) => Some (u :: body, after)
              | None => None
              end in
            if (e =? quote)%N then simple quote
            else if (e =? 92)%N then simple 92%N
            else if (e =? ch "/")%N then simple (ch "/")
            else if (e =? ch "b")%N then simple 8%N
            else if (e =? ch "f")%N then simple 12%N
            else if (e =? ch "n")%N then simple 10%N
            else if (e =? ch "r")%N then simple 13%N
            else if (e =? ch "t")%N then simple 9%N
            else if (e =? ch "u")%N then
              match rest' with
              | h1 :: h2 :: h3 :: h4 :: rest'' =>
                  match hex_value h1, hex_value h2, hex_value h3, hex_value h4 with
                  | Some a, Some b, Some c', Some d =>
                      match parse_string_body rest'' with
                      | Some (body, after) =>
                          Some ((a * 4096 + b * 256 + c' * 16 + d)%N :: body, after)
                      | None => None
                      end
                  | _, _, _, _ => None
                  end
              | _ => None
              end
            else None
        | [] => None
        end
      else if (c <? 32)%N then None
      else
        match parse_string_body rest with
        | Some (body, after) => Some (c :: body, after)
        | None => None
        end
  end.

(** A number literal: its mantissa and decimal exponent. *)
Definition parse_number (s : jsstr) : option (Z * Z * jsstr) :=
  let (negative, s1) :=
    match s with
    | c :: rest => if (c =? ch "-")%N then (true, rest) else (false, s)
    | [] => (false, s)
    end in
  let (int_digits, s2) := span is_digit s1 in
  match int_digits with
  | [] => None
  | d :: more =>
      if (d =? 48)%N && match more with [] => false | _ => true end then None
      else
        let frac_part :=
          match s2 with
          | c :: rest =>
              if (c =? ch ".")%N then
                let (fd, s3) := span is_digit rest in
                match fd with
                | [] => None
                | _ => Some (fd, s3)
                end
              else Some ([], s2)
          | [] => Some ([], s2)
          end in
        match frac_part with
        | None => None
        | Some (frac_digits, s3) =>
            let exp_part :=
              match s3 with
              | c :: rest =>
                  if ((c =? ch "e") || (c =? ch "E"))%N then
                    let (exp_negative, rest1) :=
                      match rest with
                      | sg :: rest' =>
                          if (sg =? ch "-")%N then (true, rest')
                          else if (sg =? ch "+")%N then (false, rest')
                          else (false, rest)
                      | [] => (false, rest)
                      end in
                    let (ed, s4) := span is_digit rest1 in
                    match ed with
                    | [] => None
                    | _ =>
                        let e := digits_value ed 0 in
                        Some ((if exp_negative then - e else e), s4)
                    end
                  else Some (0, s3)
              | [] => Some (0, s3)
              end in
            match exp_part with
            | None => None
            | Some (e, s4) =>
                let m := digits_value (int_digits ++ frac_digits) 0 in
                Some ((if negative then - m else m),
                      e - Z.of_nat (List.length frac_digits), s4)
            end
        end
  end.

Fixpoint parse_value (fuel : nat) (s : jsstr) {struct fuel} : option (value * jsstr) :=
  match fuel with
  | O => None
  | S fuel' =>
      match skip_ws s with
      | [] => None
      | c :: rest =>
          if (c =? ch "{")%N then
            match skip_ws rest with
            | c' :: rest' =>
                if (c' =? ch "}")%N then Some (VObj [], rest')
                else
                  match parse_members fuel' (c' :: rest') [] with
                  | Some (fields, after) => Some (VObj fields, after)
                  | None => None
                  end
            | [] => None
            end
          else if (c =? ch "[")%N then
            match skip_ws rest with
            | c' :: rest' =>
                if (c' =? ch "]")%N then Some (VArr [], rest')
                else
                  match parse_items fuel' (c' :: rest') [] with
                  | Some (items, after) => Some (VArr items, after)
                  | None => None
                  end
            | [] => None
            end
          else if (c =? quote)%N then
            match parse_string_body rest with
            | Some (body, after) => Some (VStr body, after)
            | None => None
            end
          else if starts_with (js "true") (c :: rest)
          then Some (VBool true, skipn 4 (c :: rest))
          else if starts_with (js "false") (c :: rest)
          then Some (VBool false, skipn 5 (c :: rest))
          else if starts_with (js "null") (c :: rest)
          then Some (VNull, skipn 4 (c :: rest))
          else
            match parse_number (c :: rest) with
            | Some (m, e, after) => Some (VNum m e, after)
            | None => None
            end
      end
  end

with parse_items (fuel : nat) (s : jsstr) (acc : list value) {struct fuel}
    : option (list value * jsstr) :=
  match fuel with
  | O => None
  | S fuel' =>
      match parse_value fuel' s with
      | Some (v, after) =>
          match skip_ws after with
          | c :: rest =>
              if (c =? ch ",")%N then parse_items fuel' rest (acc ++ [v])
              else if (c =? ch "]")%N then Some (acc ++ [v], rest)
              else None
          | [] => None
          end
      | None => None
      end
  end

with parse_members (fuel : nat) (s : jsstr) (acc : list (jsstr * value)) {struct fuel}
    : option (list (jsstr * value) * jsstr) :=
  match fuel with
  | O => None
  | S fuel' =>
      match skip_ws s with
      | q :: rest =>
          if (q =? quote)%N then
            match parse_string_body rest with
            | Some (key, after_key) =>
                match skip_ws after_key with
                | colon :: after_colon =>
                    if (colon =? ch ":")%N then
                      match parse_value fuel' after_colon with
                      | Some (v, after) =>
                          match skip_ws after with
                          | c :: rest' =>
                              if (c =? ch ",")%N
                              then parse_members fuel' rest' (update key v acc)
                              else if (c =? ch "}")%N
                              then Some (update key v acc, rest')
                              else None
                          | [] => None
                          end
                      | None => None
                      end
                    else None
                | [] => None
                end
            | None => None
            end
          else None
      | [] => None
      end
  end.

(** [JSON.parse(text)]; a number is read as the exact decimal that is
    written. *)
Definition JSON_parse (text : jsstr) : Outcome value :=
  match parse_value (2 * List.length text + 2) text with
  | Some (v, after) =>
      match skip_ws after with
      | [] => Return v
      | _ :: _ => Throw (SyntaxError (js "Unexpected non-whitespace character after JSON"))
      end
  | None => Throw (SyntaxError (js "Unexpected token in JSON"))
  end.

Definition escape_unit (c : N) : jsstr :=
  if (c =? quote)%N then [92%N; quote]
  else if (c =? 92)%N then [92%N; 92%N]
  else if (c =? 8)%N then [92%N; ch "b"]
  else if (c =? 12)%N then [92%N; ch "f"]
  else if (c =? 10)%N then [92%N; ch "n"]
  else if (c =? 13)%N then [92%N; ch "r"]
  else if (c =? 9)%N then [92%N; ch "t"]
  else if (c <? 32)%N then
    [92%N; ch "u"; 48%N; 48%N;
     (let d := (c / 16)%N in if (d <? 10)%N then 48 + d else 87 + d)%N;
     (let d := (c mod 16)%N in if (d <? 10)%N then 48 + d else 87 + d)%N]
  else [c].

Definition quote_string (s : jsstr) : jsstr :=
  quote :: flat_map escape_unit s ++ [quote].

Definition is_undefined (v : value) : bool :=
  match v with VUndef => true | _ => false end.

(** [JSON.stringify(v)] for a value other than [undefined]. *)
Fixpoint JSON_stringify (v : value) : jsstr :=
  match v with
  | VUndef | VNull => js "null"
  | VBool true => js "true"
  | VBool false => js "false"
  | VNum m e => number_to_string m e
  | VStr s => quote_string s
  | VArr items =>
      js "[" ++ join (js ",") (map JSON_stringify items) ++ js "]"
  | VObj fields =>
      js "{"
        ++ join (js ",")
             (flat_map (fun kv : jsstr * value =>
                          if is_undefined (snd kv) then []
                          else [quote_string (fst kv) ++ js ":" ++ JSON_stringify (snd kv)])
                       fields)
        ++ js "}"
  end.

(** Deep equality of two documents: arrays item by item, objects key by
    key whatever the order of their keys. *)
Fixpoint deep_equal (a b : value) {struct a} : bool :=
  match a, b with
  | VArr xs, VArr ys =>
      (fix go (xs : list value) (ys : list value) {struct xs} : bool :=
         match xs, ys with
         | [], [] => true
         | x :: xs', y :: ys' => deep_equal x y && go xs' ys'
         | _, _ => false
         end) xs ys
  | VObj fs, VObj gs =>
      Nat.eqb (List.length fs) (List.length gs) &&
      (fix go (fs : list (jsstr * value)) {struct fs} : bool :=
         match fs with
         | [] => true
         | (k, x) :: fs' =>
             match lookup k gs with
             | Some y => deep_equal x y && go fs'
             | None => false
             end
         end) fs
  | _, _ => strict_eq a b
  end.

(* ------------------------------------------------------------------ *)
(** ** app/api/itinerary/route.ts: data *)

Record ItineraryRequest := mkRequest {
  city : jsstr;
  budget : jsstr;
  days : Z;
  interests : option (list jsstr);
  includeWeather : bool;
  includeCulturalTips : bool;
  imageSize : jsstr
}.

Record HttpResponse := mkHttp {
  http_status : Z;
  http_body : value
}.

Definition rupee : jsstr := [8377%N].

Definition coordinates (lat lng : Z) : value := VArr [VNum lat (-4); VNum lng (-4)].

Definition place (nm address : jsstr) (lat lng : Z) : value :=
  VObj [ (js "name", VStr nm);
         (js "address", VStr address);
         (js "coordinates", coordinates lat lng) ].

Definition eatery (nm address : jsstr) (lat lng : Z) (cuisine speciality : jsstr)
    : value :=
  VObj [ (js "name", VStr nm);
         (js "address", VStr address);
         (js "coordinates", coordinates lat lng);
         (js "cuisine", VStr cuisine);
         (js "speciality", VStr speciality) ].

Definition mumbaiDayPlaces_1 : value :=
  VObj
    [ (js "morning", place (js "Gateway of India")
         (js "Apollo Bandar, Colaba, Mumbai, Maharashtra 400001")
         189217 728347);
      (js "afternoon", place (js "Colaba Causeway")
         (js "Colaba Causeway, Colaba, Mumbai, Maharashtra 400001")
         189187 728347);
      (js "evening", place (js "Marine Drive")
         (js "Marine Drive, Mumbai, Maharashtra 400002")
         189431 728235);
      (js "breakfast", eatery (js "Leopold Cafe")
         (js "Colaba Causeway, Colaba, Mumbai, Maharashtra 400001")
         189187 728347
         (js "Continental & Indian")
         (js "Vada Pav & Coffee"));
      (js "lunch", eatery (js "Bademiya")
         (js "Tulloch Road, Apollo Bunder, Colaba, Mumbai, Maharashtra 400001")
         189217 728347
         (js "Mughlai & Street Food")
         (js "Seekh Kebab & Biryani"));
      (js "dinner", eatery (js "Trishna")
         (js "Kala Ghoda, Fort, Mumbai, Maharashtra 400001")
         189290 728347
         (js "Seafood & Coastal")
         (js "Crab Masala & Prawns")) ].

Definition mumbaiDayPlaces_2 : value :=
  VObj
    [ (js "morning", place (js "Elephanta Caves")
         (js "Elephanta Island, Mumbai, Maharashtra 400094")
         189633 729315);
      (js "afternoon", place (js "Juhu Beach")
         (js "Juhu Beach, Juhu, Mumbai, Maharashtra 400049")
         190996 728347);
      (js "evening", place (js "Bandra West")
         (js "Bandra West, Mumbai, Maharashtra 400050")
         190596 728295);
      (js "breakfast", eatery (js "Cafe Madras")
         (js "King Circle, Matunga, Mumbai, Maharashtra 400019")
         190176 728478
         (js "South Indian")
         (js "Masala Dosa & Filter Coffee"));
      (js "lunch", eatery (js "The Bombay Canteen")
         (js "Kamala Mills, Lower Parel, Mumbai, Maharashtra 400013")
         190176 728478
         (js "Modern Indian")
         (js "Regional Thalis & Cocktails"));
      (js "dinner", eatery (js "Tr" ++ [232%N] ++ js "sind Mumbai")
         (js "BKC, Mumbai, Maharashtra 400051")
         190596 728295
         (js "Fine Dining Indian")
         (js "Tasting Menu & Wine Pairing")) ].

Definition mumbaiDayPlaces_3 : value :=
  VObj
    [ (js "morning", place (js "Taj Mahal Palace")
         (js "Apollo Bunder, Colaba, Mumbai, Maharashtra 400001")
         189217 728347);
      (js "afternoon", place (js "Kala Ghoda Art District")
         (js "Kala Ghoda, Fort, Mumbai, Maharashtra 400001")
         189290 728347);
      (js "evening", place (js "Worli Sea Face")
         (js "Worli, Mumbai, Maharashtra 400018")
         190176 728478);
      (js "breakfast", eatery (js "K Rustom")
         (js "Churchgate, Mumbai, Maharashtra 400020")
         189290 728347
         (js "Parsi & Continental")
         (js "Ice Cream & Sandwiches"));
      (js "lunch", eatery (js "Gajalee")
         (js "Vile Parle, Mumbai, Maharashtra 400056")
         190996 728347
         (js "Seafood & Coastal")
         (js "Pomfret Fry & Prawn Curry"));
      (js "dinner", eatery (js "Masala Library")
         (js "BKC, Mumbai, Maharashtra 400051")
         190596 728295
         (js "Molecular Indian")
         (js "Innovative Indian Cuisine")) ].

Definition delhiDayPlaces_1 : value :=
  VObj
    [ (js "morning", place (js "Red Fort")
         (js "Netaji Subhash Marg, Lal Qila, Old Delhi, New Delhi, Delhi 110006")
         286562 772410);
      (js "afternoon", place (js "Chandni Chowk")
         (js "Chandni Chowk, Old Delhi, Delhi 110006")
         286562 772410);
      (js "evening", place (js "India Gate")
         (js "Rajpath, New Delhi, Delhi 110001")
         286129 772295);
      (js "breakfast", eatery (js "Paranthe Wali Gali")
         (js "Chandni Chowk, Old Delhi, Delhi 110006")
         286562 772410
         (js "North Indian")
         (js "Stuffed Paranthas"));
      (js "lunch", eatery (js "Karim's")
         (js "Jama Masjid, Old Delhi, Delhi 110006")
         286505 772334
         (js "Mughlai")
         (js "Mutton Korma & Biryani"));
      (js "dinner", eatery (js "Bukhara")
         (js "ITC Maurya, New Delhi, Delhi 110037")
         286129 772295
         (js "North Indian")
         (js "Dal Bukhara & Tandoori")) ].

Definition delhiDayPlaces_2 : value :=
  VObj
    [ (js "morning", place (js "Humayun's Tomb")
         (js "Mathura Road, Nizamuddin, New Delhi, Delhi 110013")
         285931 772506);
      (js "afternoon", place (js "Qutub Minar")
         (js "Mehrauli, New Delhi, Delhi 110030")
         285245 771855);
      (js "evening", place (js "Lodhi Garden")
         (js "Lodhi Road, New Delhi, Delhi 110003")
         285931 772506);
      (js "breakfast", eatery (js "Haldiram's")
         (js "Connaught Place, New Delhi, Delhi 110001")
         286129 772295
         (js "North Indian")
         (js "Chole Bhature & Samosa"));
      (js "lunch", eatery (js "Pindi")
         (js "Pandara Road, New Delhi, Delhi 110011")
         285931 772506
         (js "Punjabi")
         (js "Butter Chicken & Dal Makhani"));
      (js "dinner", eatery (js "Indian Accent")
         (js "The Lodhi, New Delhi, Delhi 110003")
         285931 772506
         (js "Modern Indian")
         (js "Tasting Menu & Wine Pairing")) ].

Definition delhiDayPlaces_3 : value :=
  VObj
    [ (js "morning", place (js "Akshardham Temple")
         (js "Noida Mor, New Delhi, Delhi 110092")
         286129 772295);
      (js "afternoon", place (js "Lotus Temple")
         (js "Bahapur, New Delhi, Delhi 110019")
         285535 772588);
      (js "evening", place (js "Connaught Place")
         (js "Connaught Place, New Delhi, Delhi 110001")
         286129 772295);
      (js "breakfast", eatery (js "Bengali Sweet House")
         (js "Chandni Chowk, Old Delhi, Delhi 110006")
         286562 772410
         (js "Bengali")
         (js "Rasgulla & Sandesh"));
      (js "lunch", eatery (js "Dhaba")
         (js "Pandara Road, New Delhi, Delhi 110011")
         285931 772506
         (js "Punjabi Dhaba")
         (js "Sarson da Saag & Makki di Roti"));
      (js "dinner", eatery (js "Dum Pukht")
         (js "ITC Maurya, New Delhi, Delhi 110037")
         286129 772295
         (js "Awadhi")
         (js "Dum Biryani & Kebabs")) ].

Definition tokyoDayPlaces_1 : value :=
  VObj
    [ (js "morning", place (js "Senso-ji Temple")
         (js "2-3-1 Asakusa, Taito City, Tokyo 111-0032, Japan")
         357148 1397967);
      (js "afternoon", place (js "Tokyo Skytree")
         (js "1-1-2 Oshiage, Sumida City, Tokyo 131-0045, Japan")
         357100 1398107);
      (js "evening", place (js "Asakusa District")
         (js "Asakusa, Taito City, Tokyo 111-0032, Japan")
         357148 1397967);
      (js "breakfast", eatery (js "Tsukiji Outer Market")
         (js "Tsukiji, Chuo City, Tokyo 104-0045, Japan")
         356654 1397704
         (js "Japanese Street Food")
         (js "Fresh Sushi & Tamago"));
      (js "lunch", eatery (js "Ichiran Ramen")
         (js "Shibuya, Tokyo 150-0002, Japan")
         356595 1397004
         (js "Ramen")
         (js "Tonkotsu Ramen"));
      (js "dinner", eatery (js "Sukiyabashi Jiro")
         (js "Ginza, Chuo City, Tokyo 104-0061, Japan")
         356720 1397676
         (js "Sushi")
         (js "Omakase Sushi")) ].

Definition tokyoDayPlaces_2 : value :=
  VObj
    [ (js "morning", place (js "Meiji Shrine")
         (js "1-1 Yoyogikamizonocho, Shibuya City, Tokyo 151-8557, Japan")
         356762 1396993);
      (js "afternoon", place (js "Shibuya Crossing")
         (js "Shibuya, Tokyo 150-0002, Japan")
         356595 1397004);
      (js "evening", place (js "Harajuku")
         (js "Harajuku, Shibuya City, Tokyo 150-0001, Japan")
         356702 1397016);
      (js "breakfast", eatery (js "Bills")
         (js "Omotesando, Shibuya City, Tokyo 150-0001, Japan")
         356702 1397016
         (js "International")
         (js "Ricotta Hotcakes"));
      (js "lunch", eatery (js "Afuri Ramen")
         (js "Harajuku, Shibuya City, Tokyo 150-0001, Japan")
         356702 1397016
         (js "Ramen")
         (js "Yuzu Shio Ramen"));
      (js "dinner", eatery (js "Narisawa")
         (js "Minato City, Tokyo 107-0062, Japan")
         356620 1397178
         (js "French-Japanese Fusion")
         (js "Seasonal Tasting Menu")) ].

Definition tokyoDayPlaces_3 : value :=
  VObj
    [ (js "morning", place (js "Imperial Palace")
         (js "1-1 Chiyoda, Chiyoda City, Tokyo 100-8111, Japan")
         356850 1397528);
      (js "afternoon", place (js "Ginza District")
         (js "Ginza, Chuo City, Tokyo 104-0061, Japan")
         356720 1397676);
      (js "evening", place (js "Roppongi Hills")
         (js "Roppongi, Minato City, Tokyo 106-0032, Japan")
         356620 1397178);
      (js "breakfast", eatery (js "Gonpachi")
         (js "Nishi-Azabu, Minato City, Tokyo 106-0031, Japan")
         356620 1397178
         (js "Japanese")
         (js "Soba & Tempura"));
      (js "lunch", eatery (js "Sukiyabashi Jiro Honten")
         (js "Ginza, Chuo City, Tokyo 104-0061, Japan")
         356720 1397676
         (js "Sushi")
         (js "Premium Sushi"));
      (js "dinner", eatery (js "Ryugin")
         (js "Roppongi, Minato City, Tokyo 106-0032, Japan")
         356620 1397178
         (js "Kaiseki")
         (js "Traditional Japanese")) ].
Definition CITY_CONFIG_mumbai : value :=
  VObj
    [ (js "currency", VStr (js "INR"));
      (js "timezone", VStr (js "Asia/Kolkata"));
      (js "culturalTips", VArr
         [ VStr (js "Mumbai locals are called " ++ [34%N] ++ js "Mumbaikars" ++ [34%N] ++ js " and are known for their fast-paced lifestyle");
           VStr (js "The city never sleeps - street food and trains run almost 24/7");
           VStr (js "Monsoon season (June-September) brings heavy rains but also a unique charm");
           VStr (js "Local trains are the lifeline but can be crowded during peak hours");
           VStr (js "Street food culture is huge - try vada pav, bhel puri, and dosa") ]);
      (js "weatherInfo", VStr
         (js "Tropical climate with three distinct seasons: monsoon (June-September), winter (October-February), and summer (March-May). Best time to visit is October to March."));
      (js "budgetMultiplier", VNum 10 (-1)) ].

Definition CITY_CONFIG_tokyo : value :=
  VObj
    [ (js "currency", VStr (js "JPY"));
      (js "timezone", VStr (js "Asia/Tokyo"));
      (js "culturalTips", VArr
         [ VStr (js "Bowing is a traditional greeting - a slight nod is sufficient for tourists");
           VStr (js "Remove shoes when entering homes, temples, and some restaurants");
           VStr (js "Tipping is not customary and can sometimes be considered rude");
           VStr (js "Public transportation is extremely punctual and efficient");
           VStr (js "Cash is still king - many places don't accept cards") ]);
      (js "weatherInfo", VStr
         (js "Four distinct seasons. Cherry blossom (sakura) season in March-April. Hot humid summers, mild winters. Best times: March-May and September-November."));
      (js "budgetMultiplier", VNum 35 (-1)) ].

Definition CITY_CONFIG_delhi : value :=
  VObj
    [ (js "currency", VStr (js "INR"));
      (js "timezone", VStr (js "Asia/Kolkata"));
      (js "culturalTips", VArr
         [ VStr (js "Delhi has both Old Delhi (historic) and New Delhi (modern capital)");
           VStr (js "Respect religious sites - cover head and remove shoes at temples/mosques");
           VStr (js "Haggling is common in markets but not in malls or restaurants");
           VStr (js "The city has extreme weather - very hot summers and cool winters");
           VStr (js "Try local specialties like chole bhature, paranthas, and chaat") ]);
      (js "weatherInfo", VStr
         (js "Semi-arid climate with extreme temperatures. Very hot summers (40" ++ [176%N] ++ js "C+), cool winters (5-20" ++ [176%N] ++ js "C), monsoon (July-September). Best time: October-March."));
      (js "budgetMultiplier", VNum 9 (-1)) ].
(** [CITY_CONFIGS[key]] *)
Definition CITY_CONFIGS (key : jsstr) : value :=
  if str_eqb key (js "mumbai") then CITY_CONFIG_mumbai
  else if str_eqb key (js "tokyo") then CITY_CONFIG_tokyo
  else if str_eqb key (js "delhi") then CITY_CONFIG_delhi
  else if inherited_key key then VObj []
  else VUndef.

Definition mumbaiPlaces : list (jsstr * value) :=
  [ ((js "gateway of india"), place (js "Gateway of India")
       (js "Apollo Bandar, Colaba, Mumbai, Maharashtra 400001")
       189217 728347);
    ((js "marine drive"), place (js "Marine Drive")
       (js "Marine Drive, Mumbai, Maharashtra 400002")
       189431 728235);
    ((js "colaba causeway"), place (js "Colaba Causeway")
       (js "Colaba Causeway, Colaba, Mumbai, Maharashtra 400001")
       189187 728347);
    ((js "juhu beach"), place (js "Juhu Beach")
       (js "Juhu Beach, Juhu, Mumbai, Maharashtra 400049")
       190996 728347);
    ((js "elephanta caves"), place (js "Elephanta Caves")
       (js "Elephanta Island, Mumbai, Maharashtra 400094")
       189633 729315);
    ((js "taj mahal palace"), place (js "Taj Mahal Palace")
       (js "Apollo Bunder, Colaba, Mumbai, Maharashtra 400001")
       189217 728347) ].

Definition delhiPlaces : list (jsstr * value) :=
  [ ((js "red fort"), place (js "Red Fort")
       (js "Netaji Subhash Marg, Lal Qila, Old Delhi, New Delhi, Delhi 110006")
       286562 772410);
    ((js "india gate"), place (js "India Gate")
       (js "Rajpath, New Delhi, Delhi 110001")
       286129 772295);
    ((js "humayun tomb"), place (js "Humayun's Tomb")
       (js "Mathura Road, Nizamuddin, New Delhi, Delhi 110013")
       285931 772506);
    ((js "qutub minar"), place (js "Qutub Minar")
       (js "Mehrauli, New Delhi, Delhi 110030")
       285245 771855) ].

Definition tokyoPlaces : list (jsstr * value) :=
  [ ((js "senso ji"), place (js "Senso-ji Temple")
       (js "2-3-1 Asakusa, Taito City, Tokyo 111-0032, Japan")
       357148 1397967);
    ((js "tokyo skytree"), place (js "Tokyo Skytree")
       (js "1-1-2 Oshiage, Sumida City, Tokyo 131-0045, Japan")
       357100 1398107);
    ((js "shibuya crossing"), place (js "Shibuya Crossing")
       (js "Shibuya, Tokyo 150-0002, Japan")
       356595 1397004) ].

Definition mumbaiRestaurants : list (jsstr * value) :=
  [ ((js "leopold cafe"), place (js "Leopold Cafe")
       (js "Colaba Causeway, Colaba, Mumbai, Maharashtra 400001")
       189187 728347);
    ((js "bademiya"), place (js "Bademiya")
       (js "Tulloch Road, Apollo Bunder, Colaba, Mumbai, Maharashtra 400001")
       189217 728347);
    ((js "trishna"), place (js "Trishna")
       (js "Kala Ghoda, Fort, Mumbai, Maharashtra 400001")
       189290 728347) ].
Definition select_day (day : Z) (d1 d2 d3 : value) : value :=
  if day =? 1 then d1 else if day =? 2 then d2 else if day =? 3 then d3 else d1.

Definition getDaySpecificPlaces (city : jsstr) (day : Z) : value :=
  let cityLower := toLowerCase city in
  if str_eqb cityLower (js "mumbai")
  then select_day day mumbaiDayPlaces_1 mumbaiDayPlaces_2 mumbaiDayPlaces_3
  else if str_eqb cityLower (js "delhi")
  then select_day day delhiDayPlaces_1 delhiDayPlaces_2 delhiDayPlaces_3
  else if str_eqb cityLower (js "tokyo")
  then select_day day tokyoDayPlaces_1 tokyoDayPlaces_2 tokyoDayPlaces_3
  else
    VObj [ (js "morning", place (js "City Center") city 0 0);
           (js "afternoon", place (js "Main Square") city 0 0);
           (js "evening", place (js "Downtown") city 0 0);
           (js "breakfast", place (js "Local Cafe") city 0 0);
           (js "lunch", place (js "Local Restaurant") city 0 0);
           (js "dinner", place (js "Local Dining") city 0 0) ].

(* ------------------------------------------------------------------ *)
(** ** app/api/itinerary/route.ts: the deterministic itinerary *)

(** [iso.split('T')[0]] *)
Definition before_T (iso : jsstr) : jsstr := fst (span (fun c => negb (c =? ch "T")%N) iso).

(** [Math.round(parseFloat(budget.replace(/[^\d]/g, '')) * percent / 100)]
    as text, computed exactly, which is what the code computes in double
    precision for budgets below 2^53; [NaN] when the budget has no digit. *)
Definition budget_share (budget : jsstr) (percent : Z) : jsstr :=
  match filter is_digit budget with
  | [] => js "NaN"
  | digits => num_to_str ((2 * digits_value digits 0 * percent + 100) / 200)
  end.

Definition or_else (v fallback : value) : value := if truthy v then v else fallback.

Definition text_of (v : value) (k : string) : jsstr := to_string (prop v (js k)).

Definition activity_entry (time activity : jsstr) (location : value)
    (description cost duration : jsstr) : value :=
  VObj [ (js "time", VStr time);
         (js "activity", VStr activity);
         (js "location", location);
         (js "description", VStr description);
         (js "estimatedCost", VStr cost);
         (js "duration", VStr duration) ].

Definition meal_entry (meal : jsstr) (spot : value)
    (cuisine price speciality rating ambiance culturalNote : jsstr) : value :=
  VObj [ (js "meal", VStr meal);
         (js "restaurant", prop spot (js "name"));
         (js "cuisine", or_else (prop spot (js "cuisine")) (VStr cuisine));
         (js "location", spot);
         (js "price", VStr price);
         (js "speciality", or_else (prop spot (js "speciality")) (VStr speciality));
         (js "rating", VStr rating);
         (js "ambiance", VStr ambiance);
         (js "culturalNote", VStr culturalNote) ].

(** One pass of the loop of [generateEnhancedFallbackItinerary]. *)
Definition fallback_day (city : jsstr) (date : jsstr) (day : Z) : value :=
  let dayPlaces := getDaySpecificPlaces city day in
  let morning := prop dayPlaces (js "morning") in
  let afternoon := prop dayPlaces (js "afternoon") in
  let evening := prop dayPlaces (js "evening") in
  VObj
    [ (js "day", VInt day);
      (js "date", VStr date);
      (js "summary", VStr (js "Day " ++ num_to_str day ++ js ": Discover the best of " ++ city));
      (js "weather", VStr (js "Please check current weather conditions"));
      (js "morning", VArr
         [ activity_entry (js "9:00 AM")
             (js "Morning exploration of " ++ text_of morning "name") morning
             (js "Start your day exploring the vibrant " ++ text_of morning "name"
                ++ js " area of " ++ city)
             (rupee ++ js "200-500") (js "2-3 hours") ]);
      (js "afternoon", VArr
         [ activity_entry (js "2:00 PM")
             (js "Visit " ++ text_of afternoon "name") afternoon
             (js "Explore the must-see " ++ text_of afternoon "name"
                ++ js " and its cultural significance")
             (rupee ++ js "300-800") (js "3-4 hours") ]);
      (js "evening", VArr
         [ activity_entry (js "7:00 PM")
             (js "Evening at " ++ text_of evening "name") evening
             (js "Experience the evening atmosphere and culture of "
                ++ text_of evening "name")
             (rupee ++ js "400-1000") (js "2-3 hours") ]);
      (js "dining", VArr
         [ meal_entry (js "Breakfast") (prop dayPlaces (js "breakfast"))
             (js "Local Cuisine") (rupee ++ js "200-400")
             (js "Traditional breakfast items") (js "4.0/5")
             (js "Casual and welcoming")
             (js "Experience authentic " ++ city ++ js " morning dining culture");
           meal_entry (js "Lunch") (prop dayPlaces (js "lunch"))
             (js "Regional Specialties") (rupee ++ js "400-800")
             (js "Local lunch specialties") (js "4.2/5")
             (js "Family-friendly")
             (js "Try authentic " ++ city ++ js " regional dishes");
           meal_entry (js "Dinner") (prop dayPlaces (js "dinner"))
             (js "Fine Dining") (rupee ++ js "800-1500")
             (js "Evening specialties and local delicacies") (js "4.3/5")
             (js "Elegant and sophisticated")
             (js "Experience upscale " ++ city ++ js " dining traditions") ]) ].

(** The values [day] takes in [for (let day = 1; day <= days; day++)]. *)
Definition day_numbers (days : Z) : list Z :=
  map (fun k => Z.of_nat k) (seq 1 (Z.to_nat days)).

(** The date of day [k] is taken [k - 1] times 24 hours after the present
    moment, which is what [setDate] gives where no change of the local
    clock falls in between. *)
Definition MS_PER_DAY : Z := 86400000.

Definition generateEnhancedFallbackItinerary (city : jsstr) (days : Z)
    (budget : jsstr) (cityConfig : value) : M value :=
  fun w =>
    let share p := VStr (rupee ++ budget_share budget p) in
    let summary :=
      VObj
        [ (js "totalCost", VStr (rupee ++ budget));
          (js "costBreakdown",
           VObj [ (js "accommodation", share 40);
                  (js "food", share 25);
                  (js "activities", share 25);
                  (js "transportation", share 10) ]);
          (js "highlights",
           VArr [ VStr (js "Explore the heart of " ++ city);
                  VStr (js "Experience local culture and cuisine");
                  VStr (js "Visit top attractions and landmarks") ]);
          (js "tips",
           VArr [ VStr (js "Plan your visits during off-peak hours");
                  VStr (js "Try local transportation");
                  VStr (js "Keep some cash handy for local vendors") ]);
          (js "culturalTips",
           or_else (get_opt cityConfig (js "culturalTips"))
             (VArr [VStr (js "Respect local customs and traditions in " ++ city)]));
          (js "bestTime",
           or_else (get_opt cityConfig (js "weatherInfo"))
             (VStr (js "Research the best time to visit " ++ city
                      ++ js " based on weather and tourist seasons")));
          (js "weatherOverview",
           or_else (get_opt cityConfig (js "weatherInfo"))
             (VStr (js "Check current weather conditions for " ++ city)));
          (js "budgetingTips",
           VArr [ VStr (js "Book accommodations in advance for better rates");
                  VStr (js "Eat at local restaurants for authentic and affordable meals") ]) ] in
    let entries :=
      map (fun day =>
             fallback_day city
               (before_T (toISOString w (clock w + (day - 1) * MS_PER_DAY))) day)
          (day_numbers days) in
    (Return (VObj [ (js "days", VArr entries); (js "summary", summary) ]), w).

Definition is_array (v : value) : bool :=
  match v with VArr _ => true | _ => false end.

Definition requiredMeals : list jsstr := [js "Breakfast"; js "Lunch"; js "Dinner"].

(** [mealMap.get(mealType)]: the last entry put under that key. *)
Fixpoint map_get (key : value) (entries : list (value * value)) : value :=
  match entries with
  | [] => VUndef
  | (k, v) :: rest =>
      match map_get key rest with
      | VUndef => if strict_eq k key then v else VUndef
      | found => found
      end
  end.

Definition default_meal (city mealType : jsstr) : value :=
  VObj [ (js "meal", VStr mealType);
         (js "restaurant", VStr (city ++ js " " ++ mealType ++ js " Place"));
         (js "cuisine", VStr (js "Local Cuisine"));
         (js "location",
          VObj [ (js "name", VStr (city ++ js " " ++ mealType ++ js " Restaurant"));
                 (js "address", VStr city);
                 (js "coordinates", VArr [VInt 0; VInt 0]) ]);
         (js "price",
          VStr (rupee ++ (if str_eqb mealType (js "Breakfast") then js "200-400"
                          else if str_eqb mealType (js "Lunch") then js "400-800"
                          else js "600-1200")));
         (js "speciality", VStr (js "Local " ++ toLowerCase mealType ++ js " specialty"));
         (js "rating", VStr (js "4.0/5"));
         (js "ambiance", VStr (js "Friendly and welcoming"));
         (js "culturalNote",
          VStr (js "Experience local " ++ toLowerCase mealType ++ js " culture")) ].

Definition ensureAllMeals (existingMeals : value) (city : jsstr) : Outcome value :=
  obind (array_method existingMeals (js "map")) (fun meals =>
  obind (map_out (fun meal =>
                    obind (get meal (js "meal")) (fun label => Return (label, meal)))
                 meals) (fun mealMap =>
  Return (VArr (map (fun mealType =>
                       or_else (map_get (VStr mealType) mealMap)
                         (default_meal city mealType))
                    requiredMeals)))).

Definition validateAndEnhanceItinerary (itinerary : value) (city : jsstr)
    (days : Z) (budget : jsstr) (cityConfig : value) : M value :=
  if negb (truthy itinerary) || negb (truthy (prop itinerary (js "days")))
     || negb (is_array (prop itinerary (js "days")))
  then generateEnhancedFallbackItinerary city days budget cityConfig
  else
    lift (
      obind (if negb (truthy (prop itinerary (js "summary")))
             then set itinerary (js "summary")
                    (VObj [ (js "totalCost", VStr (rupee ++ budget));
                            (js "highlights",
                             VArr [ VStr (js "Explore " ++ city);
                                    VStr (js "Experience local culture");
                                    VStr (js "Enjoy local cuisine") ]);
                            (js "tips",
                             VArr [ VStr (js "Plan ahead"); VStr (js "Stay hydrated");
                                    VStr (js "Respect local customs") ]);
                            (js "bestTime", VStr (js "Year-round destination")) ])
             else Return itinerary) (fun itinerary =>
      obind (array_method (prop itinerary (js "days")) (js "forEach")) (fun entries =>
      obind (map_out
               (fun day =>
                  obind (get day (js "dining")) (fun dining =>
                  if negb (truthy dining) || js_lt (prop dining (js "length")) (VInt 3)
                  then
                    obind (ensureAllMeals (or_else dining (VArr [])) city) (fun meals =>
                    set day (js "dining") meals)
                  else Return day))
               entries) (fun entries =>
      set itinerary (js "days") (VArr entries))))).

(** [locationNames.add(v)] *)
Definition set_add (v : value) (s : list value) : list value :=
  if existsb (strict_eq v) s then s else s ++ [v].

Definition add_location (names : list value) (entry : value) : Outcome (list value) :=
  obind (get entry (js "location")) (fun location =>
  let nm := get_opt location (js "name") in
  Return (if truthy nm then set_add nm names else names)).

Definition periods : list jsstr := [js "morning"; js "afternoon"; js "evening"].

Definition extractLocationNames (itinerary : value) (city : jsstr)
    : Outcome (list value) :=
  obind (get itinerary (js "days")) (fun days =>
  obind (array_method_opt days (js "forEach")) (fun entries =>
  obind (fold_out
           (fun names day =>
              obind (fold_out
                       (fun names period =>
                          obind (get day period) (fun list =>
                          obind (array_method_opt list (js "forEach")) (fun activities =>
                          fold_out add_location activities names)))
                       periods names) (fun names =>
              obind (get day (js "dining")) (fun dining =>
              obind (array_method_opt dining (js "forEach")) (fun meals =>
              fold_out add_location meals names))))
           entries [VStr city]) (fun names =>
  Return (firstn 20 names)))).

(* ------------------------------------------------------------------ *)
(** ** app/api/itinerary/route.ts: Google Places *)

(** [s.trim()] *)
Definition trim (s : jsstr) : jsstr :=
  fst (span_end is_space (snd (span is_space s))).

Fixpoint starts_with_ci (p s : jsstr) : bool :=
  match p, s with
  | [], _ => true
  | _ :: _, [] => false
  | a :: p', b :: s' => N.eqb (lower_unit a) (lower_unit b) && starts_with_ci p' s'
  end.

(** [s.replace(new RegExp(term, 'gi'), '')] for a term of letters and
    spaces. *)
Definition remove_all_ci (term s : jsstr) : jsstr :=
  replace_all (List.length s)
    (fun at_pos => if starts_with_ci term at_pos
                   then Some ([], skipn (List.length term) at_pos)
                   else None)
    s.

Definition genericTerms : list jsstr :=
  [ js "main attractions"; js "main attraction"; js "attractions"; js "attraction";
    js "place"; js "spot"; js "area"; js "location" ].

Definition call_trim (v : value) : Outcome jsstr :=
  match v with
  | VStr s => Return (trim s)
  | VUndef | VNull =>
      Throw (newTypeError (js "Cannot read properties of undefined (reading 'trim')"))
  | _ => Throw (not_a_function (js "trim"))
  end.

(** [v.slice(0, n)] *)
Definition call_slice (v : value) (n : nat) : Outcome value :=
  match v with
  | VArr items => Return (VArr (firstn n items))
  | VStr s => Return (VStr (firstn n s))
  | VUndef | VNull =>
      Throw (newTypeError (js "Cannot read properties of undefined (reading 'slice')"))
  | _ => Throw (not_a_function (js "slice"))
  end.

Definition key_configured (k : option jsstr) : option jsstr :=
  match k with
  | Some (c :: rest) => Some (c :: rest)
  | _ => None
  end.

Definition places_url (encoded apiKey : jsstr) (type : option jsstr) : jsstr :=
  js "https://maps.googleapis.com/maps/api/place/textsearch/json?query=" ++ encoded
    ++ js "&key=" ++ apiKey
    ++ match type with Some t => js "&type=" ++ t | None => [] end
    ++ js "&language=en".

Definition searchRealPlaces (query : value) (city : jsstr) (type : option jsstr)
    : M value :=
  w <- get_world ;;
  match key_configured (GOOGLE_PLACES_API_KEY w) with
  | None =>
      console LWarn (js "Google Places API key not configured") ;;
      ret (VArr [])
  | Some apiKey =>
      try_catch
        (trimmed <- lift (call_trim query) ;;
         let cleaned :=
           fold_left (fun searchQuery term => trim (remove_all_ci term searchQuery))
             genericTerms trimmed in
         let searchQuery :=
           if (List.length cleaned <? 3)%nat
              || existsb (fun term => includes (toLowerCase cleaned) term) genericTerms
           then
             match type with
             | Some t =>
                 if str_eqb t (js "tourist_attraction") then city ++ js " tourist attractions"
                 else if str_eqb t (js "restaurant") then city ++ js " restaurants"
                 else city
             | None => city
             end
           else cleaned ++ js " " ++ city in
         console LLog (js "Searching Google Places for: " ++ searchQuery) ;;
         encoded <- lift (encodeURIComponent searchQuery) ;;
         response <- fetch (places_url encoded apiKey type) None ;;
         if negb (ok response) then
           throw (newError (js "Google Places API error: " ++ num_to_str (status response)))
         else
           data <- response_json response ;;
           data_status <- lift (get data (js "status")) ;;
           if negb (strict_eq data_status (VStr (js "OK"))) then
             console LLog (js "Google Places search result: " ++ to_string data_status
                             ++ js " - "
                             ++ to_string (or_else (prop data (js "error_message"))
                                             (VStr (js "No error message")))) ;;
             broader <-
               (if strict_eq data_status (VStr (js "ZERO_RESULTS"))
                then
                  match type with
                  | Some (_ :: _) =>
                      console LLog (js "Retrying without type restriction for: "
                                      ++ searchQuery) ;;
                      encoded' <- lift (encodeURIComponent searchQuery) ;;
                      broaderResponse <- fetch (places_url encoded' apiKey None) None ;;
                      if ok broaderResponse then
                        broaderData <- response_json broaderResponse ;;
                        broader_status <- lift (get broaderData (js "status")) ;;
                        if strict_eq broader_status (VStr (js "OK")) then
                          results <- lift (get broaderData (js "results")) ;;
                          count <- lift (get results (js "length")) ;;
                          console LLog (js "Broader search found " ++ to_string count
                                          ++ js " results") ;;
                          top <- lift (call_slice results 5) ;;
                          ret (Some top)
                        else ret None
                      else ret None
                  | _ => ret None
                  end
                else ret None) ;;
             match broader with
             | Some top => ret top
             | None =>
                 throw (newError (js "Google Places API status: " ++ to_string data_status))
             end
           else
             results <- lift (get data (js "results")) ;;
             count <- lift (get results (js "length")) ;;
             console LLog (js "Found " ++ to_string count ++ js " places for: "
                             ++ searchQuery) ;;
             lift (call_slice results 5))
        (fun error =>
           console LError (js "Google Places API search failed: " ++ error_text error) ;;
           ret (VArr []))
  end.

Definition getPlaceDetails (placeId : value) : M value :=
  w <- get_world ;;
  match key_configured (GOOGLE_PLACES_API_KEY w) with
  | None => ret VNull
  | Some apiKey =>
      try_catch
        (response <- fetch
           (js "https://maps.googleapis.com/maps/api/place/details/json?place_id="
              ++ to_string placeId
              ++ js "&fields=opening_hours,price_level,rating,user_ratings_total,formatted_phone_number,website&key="
              ++ apiKey) None ;;
         if negb (ok response) then ret VNull
         else
           data <- response_json response ;;
           found <- lift (get data (js "result")) ;;
           ret (or_else found VNull))
        (fun error =>
           console LError (js "Failed to get place details: " ++ error_text error) ;;
           ret VNull)
  end.

(** The loop over the known places of a city: the first whose key the
    name contains, or that contains the name. *)
Fixpoint find_known (lowered : jsstr) (table : list (jsstr * value)) : option value :=
  match table with
  | [] => None
  | (key, entry) :: rest =>
      if includes lowered key || includes key lowered then Some entry
      else find_known lowered rest
  end.

Definition known_or_first (originalName : value) (table : list (jsstr * value))
    : Outcome value :=
  obind (call_toLowerCase originalName) (fun lowered =>
  match find_known lowered table with
  | Some entry => Return entry
  | None => Return (match table with (_, first) :: _ => first | [] => VUndef end)
  end).

Definition getFallbackPlace (originalName : value) (city : jsstr) : Outcome value :=
  let cityLower := toLowerCase city in
  if str_eqb cityLower (js "mumbai") then known_or_first originalName mumbaiPlaces
  else if str_eqb cityLower (js "delhi") then known_or_first originalName delhiPlaces
  else if str_eqb cityLower (js "tokyo") then known_or_first originalName tokyoPlaces
  else Return VNull.

Definition getFallbackRestaurant (originalName : value) (city : jsstr) : Outcome value :=
  let cityLower := toLowerCase city in
  if str_eqb cityLower (js "mumbai") then known_or_first originalName mumbaiRestaurants
  else Return VNull.

(** The own properties an object spread copies. *)
Definition spread (v : value) : list (jsstr * value) :=
  match v with
  | VObj fields => fields
  | VArr items =>
      map (fun iv : nat * value => (num_to_str (Z.of_nat (fst iv)), snd iv))
          (combine (seq 0 (List.length items)) items)
  | VStr s =>
      map (fun ic : nat * N => (num_to_str (Z.of_nat (fst ic)), VStr [snd ic]))
          (combine (seq 0 (List.length s)) s)
  | _ => []
  end.

(** [new Date().getDay()], in universal time. *)
Definition getDay (now : Z) : Z := (now / MS_PER_DAY + 4) mod 7.

(** The body shared by the two inner loops of [enhanceWithRealPlaces]:
    [wanted] is the name searched for ([activity.location.name] or
    [meal.restaurant]). *)
Definition enhance_with (entry wanted : value) (city : jsstr) (type : jsstr)
    (fallbackOf : value -> jsstr -> Outcome value) : M value :=
  found <- searchRealPlaces wanted city (Some type) ;;
  if js_gt (prop found (js "length")) (VInt 0) then
    let best := prop found (js "0") in
    place_id <- lift (get best (js "place_id")) ;;
    details <- getPlaceDetails place_id ;;
    geometry <- lift (get best (js "geometry")) ;;
    point <- lift (get geometry (js "location")) ;;
    lat <- lift (get point (js "lat")) ;;
    lng <- lift (get point (js "lng")) ;;
    let hours := get_opt details (js "opening_hours") in
    entry <- lift (set entry (js "location")
      (VObj [ (js "name", prop best (js "name"));
              (js "address", prop best (js "formatted_address"));
              (js "coordinates", VArr [lat; lng]);
              (js "placeId", place_id);
              (js "rating", prop best (js "rating"));
              (js "userRatings", prop best (js "user_ratings_total"));
              (js "openNow", get_opt hours (js "open_now"));
              (js "priceLevel", get_opt details (js "price_level"));
              (js "types", prop best (js "types")) ])) ;;
    if truthy (get_opt hours (js "weekday_text")) then
      now <- Date_now ;;
      lift (set entry (js "currentStatus")
        (VObj [ (js "openNow", prop hours (js "open_now"));
                (js "todayHours",
                 or_else (prop (prop hours (js "weekday_text")) (num_to_str (getDay now)))
                   (VStr (js "Hours not available"))) ]))
    else ret entry
  else
    fallback <- lift (fallbackOf wanted city) ;;
    if truthy fallback then
      lift (set entry (js "location")
        (VObj (update (js "fallback") (VBool true)
                 (update (js "coordinates") (prop fallback (js "coordinates"))
                    (update (js "address") (prop fallback (js "address"))
                       (update (js "name") (prop fallback (js "name"))
                          (spread (prop entry (js "location")))))))))
    else ret entry.

Fixpoint map_M {A B} (f : A -> M B) (l : list A) : M (list B) :=
  match l with
  | [] => ret []
  | x :: rest => y <- f x ;; ys <- map_M f rest ;; ret (y :: ys)
  end.

Definition enhance_activity (city : jsstr) (activity : value) : M value :=
  location <- lift (get activity (js "location")) ;;
  if truthy (get_opt location (js "name")) then
    enhance_with activity (prop location (js "name")) city
      (js "tourist_attraction") getFallbackPlace
  else ret activity.

Definition enhance_meal (city : jsstr) (meal : value) : M value :=
  restaurant <- lift (get meal (js "restaurant")) ;;
  if truthy restaurant then
    enhance_with meal restaurant city (js "restaurant") getFallbackRestaurant
  else ret meal.

(** [for (const x of list) { ... }] where the body may replace fields of
    [x]: the list with its items as the loop leaves them. *)
Definition for_of_update (list : value) (body : value -> M value) : M value :=
  match list with
  | VArr items => items' <- map_M body items ;; ret (VArr items')
  | VStr s => map_M body (map (fun c => VStr [c]) s) ;; ret list
  | _ => throw not_iterable
  end.

Definition enhance_day (city : jsstr) (day : value) : M value :=
  day <- fold_M
    (fun day period =>
       list <- lift (get day period) ;;
       if truthy list then
         list' <- for_of_update list (enhance_activity city) ;;
         lift (set day period list')
       else ret day)
    periods day ;;
  dining <- lift (get day (js "dining")) ;;
  if truthy dining then
    dining' <- for_of_update dining (enhance_meal city) ;;
    lift (set day (js "dining") dining')
  else ret day.

Definition enhanceWithRealPlaces (itinerary : value) (city : jsstr) : M value :=
  if negb (truthy (get_opt itinerary (js "days"))) then ret itinerary
  else
    entries <- for_of_update (prop itinerary (js "days")) (enhance_day city) ;;
    lift (set itinerary (js "days") entries).

(* ------------------------------------------------------------------ *)
(** ** app/api/itinerary/route.ts: checks on the finished itinerary *)

Definition day_label (index : nat) : jsstr := js "Day " ++ num_to_str (Z.of_nat (S index)).

Definition generic_cost_warning (index : nat) (period : jsstr)
    (warnings : list jsstr) (activity : value) : Outcome (list jsstr) :=
  obind (get activity (js "estimatedCost")) (fun cost =>
  if truthy cost then
    obind (call_includes cost (rupee ++ js "200-500")) (fun generic =>
    Return (if generic
            then warnings ++ [day_label index ++ js " " ++ period
                                ++ js " has generic pricing - should use current rates"]
            else warnings))
  else Return warnings).

Definition validate_day (now : Z) (parse : value -> option Z)
    (warnings : list jsstr) (indexed : nat * value) : Outcome (list jsstr) :=
  let (index, day) := indexed in
  obind (get day (js "date")) (fun date =>
  let warnings :=
    if truthy date then
      match parse date with
      | Some t =>
          if t - now <=? - MS_PER_DAY
          then warnings ++ [day_label index ++ js " has a past date: " ++ to_string date]
          else warnings
      | None => warnings
      end
    else warnings in
  let weather := prop day (js "weather") in
  obind (if truthy weather
         then call_includes weather (js "Please check current weather conditions")
         else Return false) (fun generic =>
  let warnings :=
    if generic
    then warnings ++ [day_label index
                        ++ js " has generic weather info - should use real-time data"]
    else warnings in
  if truthy (prop day (js "morning")) || truthy (prop day (js "afternoon"))
     || truthy (prop day (js "evening"))
  then
    fold_out
      (fun warnings period =>
         obind (array_method_opt (prop day period) (js "forEach")) (fun activities =>
         fold_out (generic_cost_warning index period) activities warnings))
      periods warnings
  else Return warnings)).

Definition validateRealTimeData (itinerary : value) : M (bool * list jsstr) :=
  w <- get_world ;;
  lift (
    obind (get itinerary (js "days")) (fun days =>
    obind (array_method_opt days (js "forEach")) (fun entries =>
    obind (fold_out (validate_day (clock w) (Date_parse w))
             (combine (seq 0 (List.length entries)) entries) []) (fun warnings =>
    Return (match warnings with [] => true | _ => false end, warnings))))).

Definition count_place (count : Z) (entry : value) : Outcome Z :=
  obind (get entry (js "location")) (fun location =>
  Return (if truthy (get_opt location (js "placeId")) then count + 1 else count)).

Definition countRealPlaces (itinerary : value) : Outcome Z :=
  if negb (truthy (get_opt itinerary (js "days"))) then Return 0
  else
    obind (array_method (prop itinerary (js "days")) (js "forEach")) (fun entries =>
    fold_out
      (fun count day =>
         obind (fold_out
                  (fun count period =>
                     obind (get day period) (fun list =>
                     obind (array_method_opt list (js "forEach")) (fun activities =>
                     fold_out count_place activities count)))
                  periods count) (fun count =>
         obind (get day (js "dining")) (fun dining =>
         obind (array_method_opt dining (js "forEach")) (fun meals =>
         fold_out count_place meals count))))
      entries 0).

(* ------------------------------------------------------------------ *)
(** ** app/api/itinerary/route.ts: reading the answer of the model *)

(** The [while (parseAttempts < maxAttempts)] loop, with [remaining]
    passes to go. *)
Fixpoint parse_attempts (remaining : nat) (parseAttempts : Z)
    (globalMonitor : PerformanceMonitor) (content candidate : jsstr) : M value :=
  match remaining with
  | O => ret VUndef
  | S remaining' =>
      match JSON_parse (clean_json candidate) with
      | Return itinerary =>
          monitor_log globalMonitor (js "JSON parsed successfully") ;;
          ret itinerary
      | Throw parseError =>
          let parseAttempts := parseAttempts + 1 in
          monitor_log globalMonitor
            (js "JSON parse attempt " ++ num_to_str parseAttempts ++ js " failed: "
               ++ emessage parseError) ;;
          if 5 <=? parseAttempts then
            monitor_error globalMonitor (js "Failed to parse JSON after 5 attempts") ;;
            throw (newError (js "Failed to parse AI response after multiple attempts"))
          else
            let alternatives := match_lazy_spans (List.length content) content in
            let candidate :=
              match nth_error alternatives (Z.to_nat (parseAttempts - 1)) with
              | Some alternative => alternative
              | None => candidate
              end in
            parse_attempts remaining' parseAttempts globalMonitor content candidate
      end
  end.

Definition parse_ai_content (globalMonitor : PerformanceMonitor) (content : value)
    : M value :=
  match content with
  | VStr text =>
      match match_brace_span text with
      | None =>
          monitor_error globalMonitor (js "No JSON found in AI response") ;;
          throw (newError (js "No valid JSON found in AI response"))
      | Some jsonMatch => parse_attempts 5 0 globalMonitor text jsonMatch
      end
  | VUndef | VNull =>
      throw (newTypeError (js "Cannot read properties of undefined (reading 'match')"))
  | _ => throw (not_a_function (js "match"))
  end.

(** The call to the model: retry around the breaker around the
    deadline-bounded request. *)
Definition PERPLEXITY_URL : jsstr := js "https://api.perplexity.ai/chat/completions".

Definition perplexity_call : M Response :=
  retryWithBackoff
    (execute perplexity_ref
       (fetchWithTimeout PERPLEXITY_URL (Some TIMEOUTS_AI) (Some (js "perplexity-api"))))
    3 2000 (js "Perplexity API Call").

(** What the [try] block around the model does with the response once
    the call has returned one. *)
Definition read_answer (globalMonitor aiMonitor : PerformanceMonitor)
    (response : Response) : M value :=
  (if negb (ok response) then
     errorData <- try_catch (response_text response)
                    (fun e =>
                       console LError (js "Failed to read error response: " ++ error_text e) ;;
                       ret (js "Unknown error")) ;;
     monitor_error aiMonitor (js "HTTP " ++ num_to_str (status response) ++ js ": " ++ errorData) ;;
     throw (newError (js "Perplexity API error: " ++ num_to_str (status response)))
   else ret tt) ;;
  data <- try_catch (response_json response)
            (fun e =>
               monitor_error aiMonitor (js "Failed to parse JSON response") ;;
               throw (newError (js "Invalid JSON response from Perplexity API"))) ;;
  monitor_finish aiMonitor true ;;
  choices <- lift (get data (js "choices")) ;;
  (if negb (truthy choices) || negb (truthy (prop choices (js "0")))
      || negb (truthy (prop (prop choices (js "0")) (js "message")))
   then throw (newError (js "Invalid response structure from Perplexity API"))
   else ret tt) ;;
  let content := prop (prop (prop choices (js "0")) (js "message")) (js "content") in
  monitor_log globalMonitor (js "AI response received, parsing JSON") ;;
  parse_ai_content globalMonitor content.

(** The [try] block around the call to the model. The request body (model
    name, system message, [prompt]) does not reach the network model, which
    answers by position and URL. *)
Definition ai_itinerary (globalMonitor aiMonitor : PerformanceMonitor)
    (prompt : jsstr) : M value :=
  response <- perplexity_call ;;
  read_answer globalMonitor aiMonitor response.

(* ------------------------------------------------------------------ *)
(** ** app/api/itinerary/route.ts: POST *)

(** [crypto.randomUUID()], drawn from the random source of the world. *)
Definition randomUUID : M jsstr :=
  fun w => (Return (js "uuid-" ++ num_to_str (Z.of_nat (random w (drawn w)))),
            with_drawn (S (drawn w)) w).

Definition now_iso : M jsstr := fun w => (Return (toISOString w (clock w)), w).

(** [NextResponse.json(body, { status })]; the headers are not modelled. *)
Definition respond (http : Z) (body : list (jsstr * value)) : M HttpResponse :=
  ret (mkHttp http (VObj body)).

Definition bad_request (message : string) : M HttpResponse :=
  timestamp <- now_iso ;;
  requestId <- randomUUID ;;
  respond 400 [ (js "error", VStr (js message));
                (js "timestamp", VStr timestamp);
                (js "requestId", VStr requestId) ].

(** [Math.round(parseFloat(budget.replace(/[^\d]/g, '')) * multiplier).toString()],
    computed exactly. *)
Definition adjusted_budget (budget : jsstr) (multiplier : value) : jsstr :=
  match filter is_digit budget, multiplier with
  | d :: ds, VNum m e =>
      let n := digits_value (d :: ds) 0 in
      if 0 <=? e then num_to_str (n * m * 10 ^ e)
      else num_to_str ((2 * n * m + 10 ^ (- e)) / (2 * 10 ^ (- e)))
  | _, _ => js "NaN"
  end.

(** [array.join(sep)] *)
Definition call_join (v : value) (sep : jsstr) : Outcome jsstr :=
  obind (array_method v (js "join")) (fun items =>
  Return (join sep (map (fun x => if is_nullish x then [] else to_string x) items))).

(** The head of the prompt; the fixed instructions that follow it in the
    source (the place-naming rules and the JSON template) are text only and
    are not reproduced. *)
Definition build_prompt (request : ItineraryRequest) (cityConfig : value) : M jsstr :=
  let adjustedBudget :=
    if truthy cityConfig
    then adjusted_budget (budget request) (prop cityConfig (js "budgetMultiplier"))
    else budget request in
  let interestsText :=
    match interests request with
    | Some (i :: more) => js " with interests in: " ++ join (js ", ") (i :: more)
    | _ => []
    end in
  culturalTipsText <-
    (if includeCulturalTips request && truthy cityConfig then
       tips <- lift (call_join (prop cityConfig (js "culturalTips")) [10%N]) ;;
       ret ([10%N; 10%N]
              ++ js "IMPORTANT: Include these cultural tips in the response:"
              ++ [10%N] ++ tips)
     else ret []) ;;
  let weatherText :=
    if includeWeather request && truthy cityConfig
    then [10%N; 10%N] ++ js "Weather Information: "
           ++ to_string (prop cityConfig (js "weatherInfo"))
    else [] in
  today <- now_iso ;;
  let dateContext :=
    [10%N; 10%N] ++ js "Current Date: " ++ before_T today ++ [10%N]
      ++ js "Planning Period: " ++ num_to_str (days request) ++ js " days starting from today" in
  ret (js "Generate a detailed " ++ num_to_str (days request)
         ++ js "-day travel itinerary for " ++ city request
         ++ js " with a budget of " ++ rupee ++ adjustedBudget ++ interestsText ++ js "."
         ++ culturalTipsText ++ weatherText ++ dateContext).

Definition image_count (locationImages : object_map) : value :=
  VInt (Z.of_nat (List.length locationImages)).

Definition config_kind (cityConfig : value) : value :=
  VStr (if truthy cityConfig then js "enhanced" else js "standard").

(** The branch taken when no credential for the model is configured. *)
Definition respond_without_ai (globalMonitor : PerformanceMonitor)
    (request : ItineraryRequest) (cityConfig : value) : M HttpResponse :=
  monitor_error globalMonitor (js "Perplexity API key not configured") ;;
  monitor_log globalMonitor (js "Falling back to enhanced fallback itinerary") ;;
  fallbackItinerary <- generateEnhancedFallbackItinerary
                         (city request) (days request) (budget request) cityConfig ;;
  locationNames <- lift (extractLocationNames fallbackItinerary (city request)) ;;
  locationImages <-
    try_catch (fetchDiverseLocationImages locationNames (imageSize request))
      (fun imageError =>
         monitor_log globalMonitor (js "Image fetch failed, using fallback city image") ;;
         let fallbackImage := getFallbackCityImage (city request) in
         if truthy fallbackImage
         then ret (update (city request) fallbackImage [])
         else ret []) ;;
  generatedAt <- now_iso ;;
  requestId <- randomUUID ;;
  now <- Date_now ;;
  let metadata :=
    VObj [ (js "generatedAt", VStr generatedAt);
           (js "requestId", VStr requestId);
           (js "processingTime", VInt (now - startTime globalMonitor));
           (js "aiModel", VStr (js "fallback-enhanced"));
           (js "imageCount", image_count locationImages);
           (js "cityConfig", config_kind cityConfig);
           (js "version", VStr (js "2.0.0-fallback"));
           (js "note", VStr (js "Generated using fallback due to API configuration")) ] in
  monitor_finish globalMonitor true ;;
  respond 200
    (update (js "metadata") metadata
       (update (js "locationImages") (VObj locationImages) (spread fallbackItinerary))).

(** The [try { ... } catch (aiError) { ... }] around the model. *)
Definition itinerary_or_fallback (globalMonitor : PerformanceMonitor)
    (request : ItineraryRequest) (cityConfig : value) (prompt : jsstr) : M value :=
  aiMonitor <- newPerformanceMonitor (js "Perplexity AI API Call") ;;
  try_catch (ai_itinerary globalMonitor aiMonitor prompt)
    (fun aiError =>
       monitor_error aiMonitor (error_text aiError) ;;
       monitor_log globalMonitor
         (js "AI service failed, generating enhanced fallback itinerary") ;;
       itinerary <- generateEnhancedFallbackItinerary
                      (city request) (days request) (budget request) cityConfig ;;
       if truthy itinerary && negb (truthy (prop itinerary (js "metadata"))) then
         lift (set itinerary (js "metadata")
                 (VObj [ (js "fallbackReason",
                          VStr (if instanceof_Error aiError then emessage aiError
                                else js "AI service error")) ]))
       else ret itinerary).

(** What follows the [try] around the model, up to the response. *)
Definition finish_itinerary (globalMonitor : PerformanceMonitor)
    (request : ItineraryRequest) (cityConfig : value) (itinerary : value)
    : M HttpResponse :=
  itinerary <- validateAndEnhanceItinerary itinerary
                 (city request) (days request) (budget request) cityConfig ;;
  monitor_log globalMonitor (js "Enhancing itinerary with real Google Places data") ;;
  itinerary <- enhanceWithRealPlaces itinerary (city request) ;;
  realTimeValidation <- validateRealTimeData itinerary ;;
  (if negb (fst realTimeValidation) then
     monitor_log globalMonitor
       (js "Real-time data validation warnings: "
          ++ join (js ", ") (snd realTimeValidation))
   else ret tt) ;;
  locationNames <- lift (extractLocationNames itinerary (city request)) ;;
  monitor_log globalMonitor
    (js "Extracting images for " ++ num_to_str (Z.of_nat (List.length locationNames))
       ++ js " locations") ;;
  imageMonitor <- newPerformanceMonitor (js "Image fetching") ;;
  locationImages <-
    try_catch
      (locationImages <- race_timeout
                           (fetchDiverseLocationImages locationNames (imageSize request))
                           TIMEOUTS_IMAGES (js "image-fetch") false ;;
       monitor_finish imageMonitor (0 <? List.length locationImages)%nat ;;
       ret locationImages)
      (fun imageError =>
         monitor_error imageMonitor (error_text imageError) ;;
         monitor_log globalMonitor (js "Image fetch failed, using fallback images") ;;
         let fallbackImage := getFallbackCityImage (city request) in
         if truthy fallbackImage
         then ret (update (city request) fallbackImage [])
         else ret []) ;;
  generatedAt <- now_iso ;;
  requestId <- randomUUID ;;
  now <- Date_now ;;
  realPlacesCount <- lift (countRealPlaces itinerary) ;;
  let metadata :=
    VObj [ (js "generatedAt", VStr generatedAt);
           (js "requestId", VStr requestId);
           (js "processingTime", VInt (now - startTime globalMonitor));
           (js "aiModel", VStr (js "llama-3.1-sonar-small-128k-online"));
           (js "imageCount", image_count locationImages);
           (js "cityConfig", config_kind cityConfig);
           (js "version", VStr (js "2.0.0"));
           (js "realTimeData",
            VObj [ (js "validated", VBool (fst realTimeValidation));
                   (js "warnings", VArr (map VStr (snd realTimeValidation)));
                   (js "dataFreshness", VStr (js "real-time")) ]);
           (js "googlePlaces",
            VObj [ (js "enhanced", VBool true);
                   (js "realPlacesCount", VInt realPlacesCount);
                   (js "currentStatus", VBool true) ]) ] in
  monitor_finish globalMonitor true ;;
  respond 200
    (update (js "metadata") metadata
       (update (js "locationImages") (VObj locationImages) (spread itinerary))).

(** [export async function POST(request)], on a request body that was
    read and parsed in time. *)
Definition POST (request : ItineraryRequest) : M HttpResponse :=
  globalMonitor <- newPerformanceMonitor (js "Complete Itinerary Generation") ;;
  try_catch
    (monitor_log globalMonitor
       (js "Processing request for " ++ num_to_str (days request) ++ js "-day trip to "
          ++ city request ++ js " with budget " ++ budget request) ;;
     if negb (truthy (VStr (city request))) || negb (truthy (VStr (budget request)))
        || negb (truthy (VInt (days request)))
     then bad_request "Missing required fields: city, budget, days"
     else if (days request <? 1) || (14 <? days request)
     then bad_request "Days must be between 1 and 14"
     else
       let cityConfig := CITY_CONFIGS (toLowerCase (city request)) in
       w <- get_world ;;
       match key_configured (PERPLEXITY_API_KEY w) with
       | None => respond_without_ai globalMonitor request cityConfig
       | Some _ =>
           monitor_log globalMonitor
             (js "Using " ++ (if truthy cityConfig then js "city-specific" else js "general")
                ++ js " configuration") ;;
           prompt <- build_prompt request cityConfig ;;
           monitor_log globalMonitor (js "Calling Perplexity AI API") ;;
           itinerary <- itinerary_or_fallback globalMonitor request cityConfig prompt ;;
           finish_itinerary globalMonitor request cityConfig itinerary
       end)
    (fun error =>
       monitor_error globalMonitor (error_text error) ;;
       timestamp <- now_iso ;;
       requestId <- randomUUID ;;
       now <- Date_now ;;
       respond (if instanceof_TimeoutError error then 408 else 500)
         [ (js "error",
            VStr (if instanceof_Error error then emessage error
                  else js "Internal server error"));
           (js "type", VStr (if instanceof_TimeoutError error then js "timeout"
                             else js "general"));
           (js "timestamp", VStr timestamp);
           (js "requestId", VStr requestId);
           (js "processingTime", VInt (now - startTime globalMonitor)) ]).

(* ------------------------------------------------------------------ *)
(** ** Concrete worlds and requests *)

(** A network on which every request fails after 10 ms. *)
Definition fetch_failed : JsError := newTypeError (js "fetch failed").

Definition offline : nat -> jsstr -> NetReply :=
  fun _ _ => mkReply 10 (Throw fetch_failed).

(** The process as it starts: both breakers as constructed, nothing
    pending, the clock at 0. *)
Definition boot (perplexityKey pexelsKey googleKey : option jsstr)
    (net : nat -> jsstr -> NetReply) : World :=
  mkWorld 0 [] [] 0 circuitBreakers_perplexity circuitBreakers_pexels
    perplexityKey pexelsKey googleKey net 0 (fun _ => O) 0
    (fun _ => js "2024-01-15T09:00:00.000Z") (fun _ => None) [].

Definition mumbai_request : ItineraryRequest :=
  mkRequest (js "Mumbai") (js "50000") 2 (Some []) true true (js "medium").

(** The composition the written design describes: breaker outermost, then
    retry, then the deadline-bounded request. *)
Definition breaker_outermost_call : M Response :=
  execute perplexity_ref
    (retryWithBackoff
       (fetchWithTimeout PERPLEXITY_URL (Some TIMEOUTS_AI) (Some (js "perplexity-api")))
       3 2000 (js "Perplexity API Call")).

(** The model is unreachable: whatever is asked of it fails, with an error
    object as [fetch] rejects with, or takes at least the deadline. *)
Definition ai_down (w : World) : Prop :=
  forall n,
    (exists e, result (upstream w n PERPLEXITY_URL) = Throw e /\
               nullish_thrown e = false) \/
    TIMEOUTS_AI <= latency (upstream w n PERPLEXITY_URL).

(** One attempt of [perplexity_call]. *)
Definition perplexity_attempt : M Response :=
  execute perplexity_ref
    (fetchWithTimeout PERPLEXITY_URL (Some TIMEOUTS_AI) (Some (js "perplexity-api"))).

(** A model that answers every request with the same text as the content
    of its first choice; every other service is unreachable. *)
Definition answering (content : jsstr) : nat -> jsstr -> NetReply :=
  fun n url =>
    if str_eqb url PERPLEXITY_URL then
      mkReply 100
        (Return (mkResponse 200
                   (Return (VObj [ (js "choices",
                                    VArr [ VObj [ (js "message",
                                                   VObj [ (js "content", VStr content) ]) ] ]) ]))
                   (Return content)))
    else offline n url.

(** The entries of [days] in a response body, and the meal labels of an
    entry. *)
Definition day_entries (body : value) : list value :=
  match prop body (js "days") with
  | VArr entries => entries
  | _ => []
  end.

Definition meal_labels (day : value) : list value :=
  match prop day (js "dining") with
  | VArr meals => map (fun meal => prop meal (js "meal")) meals
  | _ => []
  end.

Definition three_meals : list value :=
  [VStr (js "Breakfast"); VStr (js "Lunch"); VStr (js "Dinner")].

(** A document with exactly [days] entries, each with the three meals. *)
Definition complete_itinerary (days : Z) (body : value) : Prop :=
  List.length (day_entries body) = Z.to_nat days /\
  Forall (fun day => meal_labels day = three_meals) (day_entries body).

(** A small itinerary-shaped document, for day ten of a trip. *)
Definition day_ten_document : value :=
  VObj [ (js "days",
          VArr [ VObj [ (js "day", VInt 10);
                        (js "summary", VStr (js "A quiet day"));
                        (js "dining", VArr []) ] ]);
         (js "summary", VObj [ (js "totalCost", VStr (js "45000")) ]) ].

(** An itinerary of one day in the format that the prompt prescribes to
    the model, with its time of day, [9:00 AM]. *)
Definition prescribed_document : value :=
  VObj [ (js "days",
          VArr [ VObj [ (js "day", VInt 1);
                        (js "date", VStr (js "2024-01-15"));
                        (js "summary", VStr (js "Brief description of the day"));
                        (js "morning",
                         VArr [ VObj [ (js "time", VStr (js "9:00 AM"));
                                       (js "activity", VStr (js "Activity description"));
                                       (js "location",
                                        VObj [ (js "name", VStr (js "Gateway of India"));
                                               (js "address", VStr (js "Full address")) ]);
                                       (js "duration", VStr (js "2-3 hours")) ] ]);
                        (js "dining", VArr []) ] ]) ].

Definition in_prose (text : jsstr) : jsstr :=
  js "Here is your plan: " ++ text ++ js " Enjoy!".

Definition probe_monitor : PerformanceMonitor :=
  mkMonitor 0 (js "Complete Itinerary Generation").

Definition contains (c : N) (s : jsstr) : bool := existsb (N.eqb c) s.









Definition null_day_document : value := VObj [ (js "days", VArr [VNull]) ].

Definition world_answering (document : value) : World :=
  boot (Some (js "key")) None None (answering (JSON_stringify document)).

(* ------------------------------------------------------------------ *)
(** ** Vocabulary of the itinerary properties *)

(** What a computation leaves alone: [f] reads the same after as before. *)
Definition keeps {A B} (f : World -> B) (m : M A) : Prop :=
  forall w, f (snd (m w)) = f w.

(** A projection that does not look at the clock, the timers, the fired
    signals, the counters or the trace is kept by every primitive of the
    platform. *)
Definition platform_blind {B} (f : World -> B) : Prop :=
  forall w t ts ab n s d tr,
    f (mkWorld t ts ab n (perplexity w) (pexels w)
         (PERPLEXITY_API_KEY w) (PEXELS_API_KEY w) (GOOGLE_PLACES_API_KEY w)
         (upstream w) s (random w) d (toISOString w) (Date_parse w) tr)
    = f w.

(** What a computation guarantees on a network [net]: started in any world
    whose network is [net], it returns a value in [Q] or throws an error in
    [R], and the network is still [net] afterwards. *)
Definition on_network {A} (net : nat -> jsstr -> NetReply) (m : M A)
    (Q : A -> Prop) (R : JsError -> Prop) : Prop :=
  forall w, upstream w = net ->
    match m w with
    | (Return a, w') => Q a /\ upstream w' = net
    | (Throw e, w') => R e /\ upstream w' = net
    end.

Definition anything {A} : A -> Prop := fun _ => True.
Definition nothing {A} : A -> Prop := fun _ => False.

Definition is_text (v : value) : Prop := exists s, v = VStr s.
Definition is_object (v : value) : Prop := exists fields, v = VObj fields.

(** An activity with a price in words; one that also names its place. *)
Definition priced (activity : value) : Prop :=
  is_object activity /\ is_text (prop activity (js "estimatedCost")).

Definition named_activity (activity : value) : Prop :=
  priced activity /\ is_text (prop (prop activity (js "location")) (js "name")).

(** A dining entry for the meal [label]; one that also names its
    restaurant. *)
Definition labelled (label meal : value) : Prop :=
  is_object meal /\ prop meal (js "meal") = label.

Definition named_meal (label meal : value) : Prop :=
  labelled label meal /\ is_text (prop meal (js "restaurant")).

(** A day with its weather in words, a list of activities for every period
    and the three meals in order. *)
Definition planned_day (activity : value -> Prop) (meal : value -> value -> Prop)
    (day : value) : Prop :=
  is_object day /\
  is_text (prop day (js "weather")) /\
  (forall period, In period periods ->
     exists activities, prop day period = VArr activities /\ Forall activity activities) /\
  exists meals, prop day (js "dining") = VArr meals /\ Forall2 meal three_meals meals.

Definition planned (activity : value -> Prop) (meal : value -> value -> Prop)
    (n : nat) (itinerary : value) : Prop :=
  is_object itinerary /\
  exists entries,
    prop itinerary (js "days") = VArr entries /\
    List.length entries = n /\
    Forall (planned_day activity meal) entries.

(** What the declared type [GooglePlace] promises of a search result that
    the code reads without a check: [geometry.location] is there. *)
Definition google_place (p : value) : Prop :=
  is_nullish (prop (prop p (js "geometry")) (js "location")) = false.

Definition places_search_prefix : jsstr :=
  js "https://maps.googleapis.com/maps/api/place/textsearch/json?query=".

(** A network whose answers to a place search have the declared type
    [GooglePlacesResponse] whenever their status is OK. *)
Definition google_conforming (net : nat -> jsstr -> NetReply) : Prop :=
  forall n url response data,
    starts_with places_search_prefix url = true ->
    result (net n url) = Return response ->
    json_body response = Return data ->
    strict_eq (prop data (js "status")) (VStr (js "OK")) = true ->
    exists results,
      prop data (js "results") = VArr results /\ Forall google_place results.

(** A request that passes the checks of [POST]. *)
Definition valid_request (request : ItineraryRequest) : Prop :=
  city request <> [] /\ budget request <> [] /\ 1 <= days request <= 14.

(** A list of search results of the declared type. *)
Definition place_list (found : value) : Prop :=
  exists items, found = VArr items /\ Forall google_place items.

(** An entry as the enhancement may leave it: still an object, the same
    but for its [location] and [currentStatus]. *)
Definition enhanced_from (entry entry' : value) : Prop :=
  is_object entry' /\
  forall k, k <> js "location" -> k <> js "currentStatus" ->
            prop entry' k = prop entry k.

(** A computation that returns, with a value in [Q]: from every world, and
    from every world whose network is [net]. *)
Definition returns_with {A} (m : M A) (Q : A -> Prop) : Prop :=
  forall w, exists a w', m w = (Return a, w') /\ Q a.

Definition answers {A} (net : nat -> jsstr -> NetReply) (m : M A)
    (Q : A -> Prop) : Prop :=
  forall w, upstream w = net -> exists a w', m w = (Return a, w') /\ Q a.

(** The keys under which a day of the deterministic itinerary finds its
    places. *)
Definition place_keys : list jsstr :=
  [ js "morning"; js "afternoon"; js "evening";
    js "breakfast"; js "lunch"; js "dinner" ].

(** A response of the model from which [read_answer] gets no itinerary:
    whatever the monitors, it throws. *)
Definition unusable (response : Response) : Prop :=
  forall globalMonitor aiMonitor w,
    exists e w', read_answer globalMonitor aiMonitor response w = (Throw e, w').

(** The model fails: every response it gives is unusable. Requests that
    are not answered at all (network errors, answers later than the
    deadline) need no assumption. *)
Definition model_fails (net : nat -> jsstr -> NetReply) : Prop :=
  forall n response,
    result (net n PERPLEXITY_URL) = Return response -> unusable response.

(** The prompt can be written: the cultural tips of the city, when they
    are asked for, are there to be joined. *)
Definition prompt_builds (request : ItineraryRequest) : Prop :=
  includeCulturalTips request = false \/
  inherited_key (toLowerCase (city request)) = false.

(** A network on which the model answers every request with HTTP 500, a
    place search finds the Gateway of India, and every other service is
    unreachable. *)
Definition gateway_found : value :=
  VObj [ (js "results",
          VArr [ VObj [ (js "place_id", VStr (js "ChIJrVwNOsfR5zsRPHOcIKclCsc"));
                        (js "name", VStr (js "Gateway Of India Mumbai"));
                        (js "formatted_address",
                         VStr (js "Apollo Bandar, Colaba, Mumbai, Maharashtra 400001, India"));
                        (js "geometry",
                         VObj [ (js "location",
                                 VObj [ (js "lat", VNum 189220 (-4));
                                        (js "lng", VNum 728347 (-4)) ]) ]);
                        (js "rating", VNum 46 (-1));
                        (js "user_ratings_total", VInt 370000);
                        (js "types", VArr [VStr (js "tourist_attraction")]) ] ]);
         (js "status", VStr (js "OK")) ].

Definition model_erring : nat -> jsstr -> NetReply :=
  fun n url =>
    if str_eqb url PERPLEXITY_URL then
      mkReply 100
        (Return (mkResponse 500
                   (Throw (SyntaxError (js "Unexpected token I in JSON at position 0")))
                   (Return (js "Internal Server Error"))))
    else if starts_with places_search_prefix url then
      mkReply 50 (Return (mkResponse 200 (Return gateway_found) (Return [])))
    else offline n url.






(** Documents on which the cleaning steps find nothing to rewrite: strings
    without a double quote, a backslash, a colon, a closing brace or
    bracket or a control character, one-digit numbers, lists of such, and
    objects of such under distinct keys. *)
Definition plain_unit (c : N) : bool :=
  (32 <=? c)%N && negb (one_of [quote; 92%N; ch ":"; ch "}"; ch "]"] c).

Definition plain_text (s : jsstr) : bool := forallb plain_unit s.

Fixpoint distinct (keys : list jsstr) : bool :=
  match keys with
  | [] => true
  | k :: rest => negb (existsb (str_eqb k) rest) && distinct rest
  end.

Fixpoint plain (v : value) : bool :=
  match v with
  | VStr s => plain_text s
  | VNum m e => (e =? 0) && (0 <=? m) && (m <=? 9)
  | VArr items => forallb plain items
  | VObj fields =>
      distinct (map fst fields)
      && forallb (fun kv : jsstr * value => plain_text (fst kv) && plain (snd kv)) fields
  | _ => false
  end.

(** The patterns of the three cleaning steps all fail at the head of a
    text. *)
Definition quiet_at (s : jsstr) : Prop :=
  match_trailing_comma s = None /\
  match_unquoted_key s = None /\
  match_unquoted_value s = None.

(** They fail at every position of [text] when [rest] follows it. *)
Definition silent (text rest : jsstr) : Prop :=
  forall pre c t, text = pre ++ c :: t -> quiet_at (c :: t ++ rest).

(** A text that starts with a comma or a closing brace or bracket. *)
Definition closes (rest : jsstr) : Prop :=
  exists c t, rest = c :: t /\ one_of [ch ","; ch "}"; ch "]"] c = true.

(** The number of calls the parser needs at most to read a document. *)
Fixpoint weight (v : value) : nat :=
  match v with
  | VArr items => S (fold_right (fun item n => S (weight item + n)) O items)
  | VObj fields => S (fold_right (fun kv n => S (weight (snd kv) + n)) O fields)
  | _ => 1
  end.

(** The first unit of what [JSON.stringify] writes for a plain document. *)
Definition value_start (c : N) : bool :=
  one_of [quote; ch "{"; ch "["] c || is_digit c.

(** What must follow a document for it to be read back alone: after a
    number, a comma or a closing brace or bracket. *)
Definition fits (v : value) (rest : jsstr) : Prop :=
  match v with
  | VNum _ _ => closes rest
  | _ => True
  end.

(** The sum that [weight] takes over the items of a list. *)
Definition weights (items : list value) : nat :=
  fold_right (fun item n => S (weight item + n)) O items.

Definition member_weights (fields : list (jsstr * value)) : nat :=
  fold_right (fun (kv : jsstr * value) n => S (weight (snd kv) + n)) O fields.

(** A member of an object as [JSON.stringify] writes it. *)
Definition member_text (kv : jsstr * value) : jsstr :=
  quote_string (fst kv) ++ ch ":" :: JSON_stringify (snd kv).

(** A document that [JSON.parse] reads back from what [JSON.stringify]
    wrote, whatever follows that fits. *)
Definition reads_back (v : value) : Prop :=
  plain v = true ->
  forall fuel rest,
    (weight v <= fuel)%nat -> fits v rest ->
    parse_value fuel (JSON_stringify v ++ rest) = Some (v, rest).

(** A small plain document. *)
Definition old_town_document : value :=
  VObj [ (js "days",
          VArr [ VObj [ (js "day", VInt 1);
                        (js "theme", VStr (js "Old town, on foot"));
                        (js "stops", VArr [VStr (js "Gateway of India"); VStr (js "Colaba")]) ] ]);
         (js "summary", VObj [ (js "nights", VInt 2) ]) ].

(* ------------------------------------------------------------------ *)
(** ** Vocabulary of the further properties *)

(** What a computation promises of the value it returns, when it
    returns. *)
Definition ensures {A} (m : M A) (Q : A -> Prop) : Prop :=
  forall w a w', m w = (Return a, w') -> Q a.

(** What a computation guarantees under an invariant [I] of the world:
    started where [I] holds, it returns a value in [Q] or throws an error in
    [R], and [I] holds afterwards. *)
Definition under {A} (I : World -> Prop) (m : M A)
    (Q : A -> Prop) (R : JsError -> Prop) : Prop :=
  forall w, I w ->
    match m w with
    | (Return a, w') => Q a /\ I w'
    | (Throw e, w') => R e /\ I w'
    end.

(** A projection of the world that looks at nothing but the requests
    sent, the breakers, the environment and the network: every primitive
    but [fetch] and the breaker's own writes keeps it. *)
Definition log_blind {B} (f : World -> B) : Prop :=
  forall w t ts ab n d tr,
    f (mkWorld t ts ab n (perplexity w) (pexels w)
         (PERPLEXITY_API_KEY w) (PEXELS_API_KEY w) (GOOGLE_PLACES_API_KEY w)
         (upstream w) (sent w) (random w) d (toISOString w) (Date_parse w) tr)
    = f w.

(** The requests sent and the two breakers. *)
Definition wire (w : World) : nat * CircuitBreaker * CircuitBreaker :=
  (sent w, perplexity w, pexels w).

(** The requests sent and the image-search credential. *)
Definition image_wire (w : World) : nat * option jsstr :=
  (sent w, PEXELS_API_KEY w).

(** The statuses [POST] answers with. *)
Definition post_status (s : Z) : Prop := s = 200 \/ s = 400 \/ s = 408 \/ s = 500.

(** What is wrong with a request, as [POST] words it. *)
Definition missing_fields (request : ItineraryRequest) : bool :=
  match city request, budget request with
  | _ :: _, _ :: _ => days request =? 0
  | _, _ => true
  end.

Definition rejection (request : ItineraryRequest) : jsstr :=
  if missing_fields request
  then js "Missing required fields: city, budget, days"
  else js "Days must be between 1 and 14".

(** A computation that sends at most [n] requests, whatever it is started
    in and however it ends. *)
Definition sends_at_most {A} (n : nat) (m : M A) : Prop :=
  forall w, (sent w <= sent (snd (m w)) <= sent w + n)%nat.

(** What [results.slice(0, 5)] can be: a list of at most five items. *)
Definition at_most_five (found : value) : Prop :=
  match found with
  | VArr items => (List.length items <= 5)%nat
  | VStr s => (List.length s <= 5)%nat
  | _ => False
  end.

(** The size [fetchPexelsImage] asks of a photo before it prefers it. *)
Definition large_enough (photo : value) : bool :=
  js_ge (prop photo (js "width")) (VInt 800) && js_ge (prop photo (js "height")) (VInt 600).

(** An image search that always finds the same two photos, a small one
    and then a large one. *)
Definition stock_photo (id width height : Z) : value :=
  VObj [ (js "id", VInt id); (js "width", VInt width); (js "height", VInt height) ].

Definition two_photos : nat -> jsstr -> NetReply :=
  fun _ _ =>
    mkReply 50
      (Return (mkResponse 200
                 (Return (VObj [ (js "photos",
                                  VArr [ stock_photo 1 640 480;
                                         stock_photo 2 1920 1080 ]) ]))
                 (Return []))).

(** The photos the loop of [fetchPexelsImage] visits:
    [data.photos.slice(0, 5)]. *)
Definition first_five (photos : value) : list value :=
  match photos with
  | VArr items => firstn 5 items
  | VStr s => map (fun c => VStr [c]) (firstn 5 s)
  | _ => []
  end.

(** What [fetchPexelsImage] searches for, how many photos it asks for,
    and the address it asks at. *)
Definition search_text (query : jsstr) (category : option jsstr) : jsstr :=
  if is_category category "restaurant" || is_category category "food"
  then query ++ js " restaurant food dining"
  else if is_category category "attraction" || is_category category "landmark"
  then query ++ js " landmark attraction tourist"
  else if is_category category "city"
  then query ++ js " city skyline urban"
  else if is_category category "culture"
  then query ++ js " culture traditional heritage"
  else query.

Definition per_page (category : option jsstr) : Z :=
  if is_category category "restaurant" || is_category category "food"
  then 15 else 10.

Definition search_url (encoded : jsstr) (perPage : Z) (size : jsstr) : jsstr :=
  js "https://api.pexels.com/v1/search?query=" ++ encoded
    ++ js "&per_page=" ++ num_to_str perPage
    ++ js "&orientation=" ++ js "landscape" ++ js "&size=" ++ size.

(** How [fetchPexelsImage] chooses among the photos of an answer: a large
    one of the first five, or the very first photo when none of the first
    five is large. *)
Definition chosen_from (photos image : value) : Prop :=
  (In image (first_five photos) /\ large_enough image = true) \/
  (Forall (fun photo => large_enough photo = false) (first_five photos) /\
   image = prop photos (js "0")).

(** A network whose first request fails and whose later requests are all
    answered with [response]. *)
Definition flaky (response : Response) : nat -> jsstr -> NetReply :=
  fun n _ =>
    match n with
    | O => mkReply 10 (Throw fetch_failed)
    | S _ => mkReply 100 (Return response)
    end.

(* ------------------------------------------------------------------ *)
(** ** app/api/health/route.ts *)

(** What the route reads of the Node process; the code computes none of
    it. *)
Record ProcessInfo := mkProcess {
  process_uptime : value;
  process_pid : value;
  process_platform : value;
  process_version : value;
  process_arch : value;
  process_memoryUsage : value;
  process_cpuUsage : value;
  NODE_ENV : option jsstr
}.

(** The reason a signal made by [AbortSignal.timeout(ms)] aborts with. *)
Definition signal_timeout_error : JsError :=
  mkError CDOMException (js "TimeoutError") (js "The operation was aborted due to timeout").

(** [fetch(url, { signal: AbortSignal.timeout(ms) })]: the signal fires
    after [ms], and the request then rejects with the signal's reason. *)
Definition fetch_signal_timeout (url : jsstr) (ms : Z) : M Response :=
  controller <- newAbortController ;;
  setTimeout_abort controller ms ;;
  try_catch (fetch url (Some controller))
    (fun error =>
       if is_abort_error error then throw signal_timeout_error else throw error).

(** [async function checkService(name, checkFn)] *)
Definition checkService {A} (name : jsstr) (checkFn : M A) : M A :=
  monitor <- newPerformanceMonitor (js "Service Check: " ++ name) ;;
  try_catch
    (result <- checkFn ;;
     monitor_finish monitor true ;;
     ret result)
    (fun error =>
       monitor_error monitor (error_text error) ;;
       throw error).

(** The check of a credential: [!!process.env.KEY]. *)
Definition check_key (key : World -> option jsstr) : M value :=
  w <- get_world ;;
  match key_configured (key w) with
  | None => throw (newError (js "API key not configured"))
  | Some _ => ret (VObj [ (js "configured", VBool true); (js "keyPresent", VBool true) ])
  end.

Definition HTTPBIN_URL : jsstr := js "https://httpbin.org/status/200".

Definition check_connectivity (startTime : Z) : M value :=
  response <- fetch_signal_timeout HTTPBIN_URL 5000 ;;
  now <- Date_now ;;
  ret (VObj [ (js "reachable", VBool (ok response));
              (js "status", VInt (status response));
              (js "latency", VInt (now - startTime)) ]).

Definition service_names : list jsstr :=
  [js "perplexity"; js "pexels"; js "external_connectivity"].

(** [{ status: 'healthy', ...result.value }], or the entry of a check
    that was rejected. *)
Definition service_entry (result : Outcome value) : value :=
  match result with
  | Return checked =>
      VObj (fold_left (fun entry kv => update (fst kv) (snd kv) entry)
              (spread checked) [ (js "status", VStr (js "healthy")) ])
  | Throw reason =>
      VObj [ (js "status", VStr (js "unhealthy"));
             (js "error", VStr (if instanceof_Error reason then emessage reason
                                else js "Unknown error")) ]
  end.

(** The loop over the settled checks: the entries of [health.services],
    and [health.status] as the loop leaves it. *)
Definition health_services (results : list (Outcome value)) : list (jsstr * value) :=
  fold_left (fun services named =>
               update (fst named) (service_entry (snd named)) services)
    (combine service_names results) [].

Definition status_after_checks (results : list (Outcome value)) : jsstr :=
  fold_left (fun status named =>
               match snd named with
               | Return _ => status
               | Throw _ =>
                   if str_eqb (fst named) (js "external_connectivity")
                   then js "degraded" else status
               end)
    (combine service_names results) (js "healthy").

Definition mode_text (s : BreakerMode) : jsstr :=
  match s with
  | CLOSED => js "CLOSED"
  | OPEN => js "OPEN"
  | HALF_OPEN => js "HALF_OPEN"
  end.

(** [getState()] of [class CircuitBreaker] *)
Definition getState (b : CircuitBreaker) : value :=
  VObj [ (js "state", VStr (mode_text (state b)));
         (js "failures", VInt (failures b));
         (js "lastFailureTime", VInt (lastFailureTime b)) ].

(** The overall status, from the entries of the services. *)
Definition overall_status (services : list (jsstr * value)) (status : jsstr) : jsstr :=
  let unhealthyServices :=
    filter (fun entry => strict_eq (prop (snd entry) (js "status"))
                           (VStr (js "unhealthy"))) services in
  if (0 <? List.length unhealthyServices)%nat then
    if (List.length unhealthyServices =? List.length services)%nat
    then js "unhealthy" else js "degraded"
  else status.

Definition health_status_code (status : jsstr) : Z :=
  if str_eqb status (js "healthy") then 200
  else if str_eqb status (js "degraded") then 206 else 503.

Definition TIMEOUTS : value :=
  VObj [ (js "GLOBAL", VInt TIMEOUTS_GLOBAL); (js "AI", VInt TIMEOUTS_AI);
         (js "IMAGES", VInt TIMEOUTS_IMAGES); (js "PEXELS", VInt TIMEOUTS_PEXELS);
         (js "FALLBACK", VInt TIMEOUTS_FALLBACK) ].

(** [export async function GET(request)] of the health route; the headers
    of the response are not modelled. *)
Definition GET_health (process : ProcessInfo) : M HttpResponse :=
  monitor <- newPerformanceMonitor (js "Health Check") ;;
  try_catch
    (startTime <- Date_now ;;
     timestamp <- now_iso ;;
     serviceResults <- allSettled
       [ checkService (js "perplexity") (check_key PERPLEXITY_API_KEY);
         checkService (js "pexels") (check_key PEXELS_API_KEY);
         checkService (js "external_connectivity") (check_connectivity startTime) ] ;;
     let services := health_services serviceResults in
     let status := status_after_checks serviceResults in
     w <- get_world ;;
     let breakers :=
       VObj [ (js "perplexity", getState (perplexity w));
              (js "pexels", getState (pexels w)) ] in
     responseTime <- monitor_finish monitor true ;;
     let status := overall_status services status in
     respond (health_status_code status)
       [ (js "status", VStr status);
         (js "timestamp", VStr timestamp);
         (js "uptime", process_uptime process);
         (js "server",
          VObj [ (js "pid", process_pid process);
                 (js "platform", process_platform process);
                 (js "nodeVersion", process_version process);
                 (js "arch", process_arch process);
                 (js "memory", process_memoryUsage process);
                 (js "cpu", process_cpuUsage process) ]);
         (js "services", VObj services);
         (js "configuration",
          VObj [ (js "timeouts", TIMEOUTS);
                 (js "environment",
                  VStr (match key_configured (NODE_ENV process) with
                        | Some env => env
                        | None => js "development"
                        end)) ]);
         (js "metrics",
          VObj [ (js "responseTime", VInt responseTime);
                 (js "requestCount", VInt 0) ]);
         (js "circuitBreakers", breakers) ])
    (fun error =>
       monitor_error monitor (error_text error) ;;
       timestamp <- now_iso ;;
       respond 503
         [ (js "status", VStr (js "unhealthy"));
           (js "error", VStr (if instanceof_Error error then emessage error
                              else js "Health check failed"));
           (js "timestamp", VStr timestamp);
           (js "uptime", process_uptime process) ]).

(** What the connectivity probe of the health check meets: whether the
    request it sends is answered, with any status, within five seconds. *)
Definition probe_answered (w : World) : bool :=
  (Z.max 0 (latency (upstream w (sent w) HTTPBIN_URL)) <? 5000)
  && match result (upstream w (sent w) HTTPBIN_URL) with
     | Return _ => true
     | Throw _ => false
     end.

Definition has_key (k : option jsstr) : bool :=
  match key_configured k with Some _ => true | None => false end.

(** A Node process, for the runs of the health check. *)
Definition node_process : ProcessInfo :=
  mkProcess (VInt 42) (VInt 4711) (VStr (js "linux")) (VStr (js "v20.11.0"))
    (VStr (js "x64")) (VObj []) (VObj []) None.

(** A network that answers every request with HTTP 500 after 80 ms. *)
Definition failing_server : nat -> jsstr -> NetReply :=
  fun _ _ => mkReply 80 (Return (mkResponse 500 (Return VNull) (Return []))).

(** The entry of a service in the body of the health check. *)
Definition service_of (response : HttpResponse) (name : string) : value :=
  prop (prop (http_body response) (js "services")) (js name).

(** What a deployment without credentials must leave alone: the two
    credentials it lacks, the requests sent and the two breakers. *)
Definition offline_view (w : World)
    : option jsstr * option jsstr * (nat * CircuitBreaker * CircuitBreaker) :=
  (PERPLEXITY_API_KEY w, PEXELS_API_KEY w, wire w).

(** Neither the model nor the image search has a credential. *)
Definition unconfigured (w : World) : Prop :=
  key_configured (PERPLEXITY_API_KEY w) = None /\
  key_configured (PEXELS_API_KEY w) = None.

(** The invariant of a run without credentials: none is configured, and
    nothing has been sent or recorded on a breaker since the start. *)
Definition offline_at (view : nat * CircuitBreaker * CircuitBreaker) (w : World) : Prop :=
  unconfigured w /\ wire w = view.

(** The invariant of a run without a credential for the place search. *)
Definition placeless_at (view : nat * CircuitBreaker * CircuitBreaker) (w : World) : Prop :=
  key_configured (GOOGLE_PLACES_API_KEY w) = None /\ wire w = view.

(* ================================================================== *)
(** * Properties *)

Lemma str_eqb_eq a b : str_eqb a b = true <-> a = b.
Proof.
  unfold str_eqb. destruct (list_eq_dec N.eq_dec a b); split; congruence.
Qed.

Lemma str_eqb_refl a : str_eqb a a = true.
Proof. apply str_eqb_eq. reflexivity. Qed.

Lemma str_eqb_neq a b : a <> b -> str_eqb a b = false.
Proof.
  intros H. unfold str_eqb. destruct (list_eq_dec N.eq_dec a b); congruence.
Qed.

Lemma schedule_emit_console lvl t text w :
  schedule (with_trace (trace w ++ [Console lvl t text]) w) = schedule w.
Proof.
  unfold schedule. simpl. rewrite filter_app. simpl. apply app_nil_r.
Qed.

Lemma filter_scheduled_aborts (l : list Timer) :
  filter scheduled (map (fun tm => Abort (target tm)) l) = [].
Proof. induction l; simpl; auto. Qed.

Lemma schedule_advance t w : schedule (advance t w) = schedule w.
Proof.
  unfold schedule, advance. simpl. rewrite filter_app.
  rewrite filter_scheduled_aborts. apply app_nil_r.
Qed.

Lemma console_run lvl text w :
  console lvl text w = (Return tt, with_trace (trace w ++ [Console lvl (clock w) text]) w).
Proof. reflexivity. Qed.

Lemma sleep_run ms w :
  sleep ms w =
  (Return tt,
   advance (clock w + Z.max 0 ms) (with_trace (trace w ++ [Sleep ms]) w)).
Proof. reflexivity. Qed.

Lemma schedule_sleep ms w :
  schedule (snd (sleep ms w)) = schedule w ++ [Sleep ms].
Proof.
  rewrite sleep_run. simpl. rewrite schedule_advance.
  unfold schedule. simpl. rewrite filter_app. reflexivity.
Qed.

(** ** retryWithBackoff *)

Lemma newPerformanceMonitor_run label w :
  newPerformanceMonitor label w = (Return (mkMonitor (clock w) label), after_start label w).
Proof. reflexivity. Qed.

Lemma schedule_after_start label w : schedule (after_start label w) = schedule w.
Proof. apply schedule_emit_console. Qed.

Section Retry.
Context {T : Type}.
Variable operation : M T.
Variables (maxAttempts baseDelay : Z) (operationName : jsstr).

Let label k := attempt_label operationName k maxAttempts.

(** One iteration whose attempt fails, when it is the last one. *)
Lemma retry_loop_last_fail fuel lastError w e w2 :
  operation (after_start (label maxAttempts) w) = (Throw e, w2) ->
  retry_loop operation maxAttempts baseDelay operationName (S fuel)
    maxAttempts lastError w
  = (Throw e,
     with_trace (trace w2 ++ [Console LError (clock w2)
       (operationName ++ js " failed after " ++ num_to_str maxAttempts
          ++ js " attempts: " ++ emessage e)]) w2).
Proof.
  intros Hop. cbn [retry_loop]. rewrite Z.leb_refl.
  unfold try_catch, bind at 1.
  rewrite newPerformanceMonitor_run.
  unfold bind at 1. fold (attempt_label operationName maxAttempts maxAttempts).
  fold (label maxAttempts). rewrite Hop.
  rewrite Z.eqb_refl. reflexivity.
Qed.

(** One iteration whose attempt fails, when attempts remain and the error
    has a message to read. *)
Lemma retry_loop_fail_more fuel k lastError w e w2 :
  k < maxAttempts ->
  nullish_thrown e = false ->
  operation (after_start (label k) w) = (Throw e, w2) ->
  retry_loop operation maxAttempts baseDelay operationName (S fuel) k lastError w
  = retry_loop operation maxAttempts baseDelay operationName fuel (k + 1) e
      (snd (sleep (baseDelay * 2 ^ (k - 1))
         (with_trace (trace w2 ++ [Console LWarn (clock w2)
            (operationName ++ js " attempt " ++ num_to_str k
               ++ js " failed, retrying in "
               ++ num_to_str (baseDelay * 2 ^ (k - 1))
               ++ js "ms: " ++ emessage e)]) w2))).
Proof.
  intros Hk Hnull Hop. cbn [retry_loop].
  replace (k <=? maxAttempts) with true by (symmetry; apply Z.leb_le; lia).
  unfold try_catch, bind at 1.
  rewrite newPerformanceMonitor_run.
  unfold bind at 1. fold (attempt_label operationName k maxAttempts).
  fold (label k). rewrite Hop.
  replace (k =? maxAttempts) with false by (symmetry; apply Z.eqb_neq; lia).
  cbv zeta. unfold bind at 1, read_message, message_of. rewrite Hnull.
  reflexivity.
Qed.

(** One iteration whose attempt fails with [undefined] or [null], when
    attempts remain: reading the message of the error is itself an error,
    which ends the loop. Nothing is logged and nothing is awaited. *)
Lemma retry_loop_fail_nullish fuel k lastError w e w2 :
  k < maxAttempts ->
  nullish_thrown e = true ->
  operation (after_start (label k) w) = (Throw e, w2) ->
  retry_loop operation maxAttempts baseDelay operationName (S fuel) k lastError w
  = (Throw (newTypeError (js "Cannot read properties of " ++ ename e
                            ++ js " (reading 'message')")), w2).
Proof.
  intros Hk Hnull Hop. cbn [retry_loop].
  replace (k <=? maxAttempts) with true by (symmetry; apply Z.leb_le; lia).
  unfold try_catch, bind at 1.
  rewrite newPerformanceMonitor_run.
  unfold bind at 1. fold (attempt_label operationName k maxAttempts).
  fold (label k). rewrite Hop.
  replace (k =? maxAttempts) with false by (symmetry; apply Z.eqb_neq; lia).
  cbv zeta. unfold bind at 1, read_message, message_of. rewrite Hnull.
  reflexivity.
Qed.

(** One iteration whose attempt succeeds: the result is returned at once. *)
Lemma retry_loop_success fuel k lastError w r w2 :
  k <= maxAttempts ->
  operation (after_start (label k) w) = (Return r, w2) ->
  retry_loop operation maxAttempts baseDelay operationName (S fuel) k lastError w
  = (Return r,
     with_trace (trace w2 ++ [Console LLog (clock w2)
       (label k ++ js " completed in " ++ num_to_str (clock w2 - clock w)
          ++ js "ms")]) w2).
Proof.
  intros Hk Hop. cbn [retry_loop].
  replace (k <=? maxAttempts) with true by (symmetry; apply Z.leb_le; lia).
  unfold try_catch, bind at 1.
  rewrite newPerformanceMonitor_run.
  unfold bind at 1. fold (attempt_label operationName k maxAttempts).
  fold (label k). rewrite Hop. reflexivity.
Qed.
End Retry.

Lemma waits_app_event w e :
  waits (with_trace (trace w ++ [e]) w)
  = waits w ++ match e with Sleep ms => [ms] | _ => [] end.
Proof.
  unfold waits. cbn [trace with_trace]. rewrite flat_map_app. cbn [flat_map].
  rewrite app_nil_r. reflexivity.
Qed.

Lemma waits_console lvl t text w :
  waits (with_trace (trace w ++ [Console lvl t text]) w) = waits w.
Proof. rewrite waits_app_event. apply app_nil_r. Qed.

Lemma waits_advance t w : waits (advance t w) = waits w.
Proof.
  unfold waits, advance. cbn [trace]. rewrite flat_map_app.
  match goal with |- _ ++ ?x = _ => assert (E : x = []) end.
  { induction (filter (fires_by t) (timers w)) as [|tm l IH]; [reflexivity|].
    cbn. exact IH. }
  rewrite E. apply app_nil_r.
Qed.

Lemma waits_sleep ms w : waits (snd (sleep ms w)) = waits w ++ [ms].
Proof. rewrite sleep_run. cbn [snd]. rewrite waits_advance. apply waits_app_event. Qed.

Lemma backoff_delays_from b n k :
  map (fun j => b * 2 ^ (k + Z.of_nat j)) (seq 0 (S n))
  = b * 2 ^ k :: map (fun j => b * 2 ^ (k + 1 + Z.of_nat j)) (seq 0 n).
Proof.
  cbn [seq map]. rewrite Z.add_0_r. f_equal.
  rewrite <- seq_shift, map_map. apply map_ext. intros j.
  f_equal. f_equal. lia.
Qed.

Section RetryExhaustion.
Context {T : Type}.
Variable operation : M T.
Variable Inv : World -> Prop.
Variables (maxAttempts baseDelay : Z) (operationName : jsstr).

Hypothesis Inv_console :
  forall w lvl t text, Inv w -> Inv (with_trace (trace w ++ [Console lvl t text]) w).
Hypothesis Inv_sleep : forall w ms, Inv w -> Inv (snd (sleep ms w)).
Hypothesis operation_fails :
  forall w, Inv w ->
    exists e w', operation w = (Throw e, w') /\ Inv w' /\
                 (maxAttempts = 1 \/ nullish_thrown e = false).

Let attempts := failing_attempts operation maxAttempts baseDelay operationName.

(** The loop, with [S n] attempts to go, makes exactly those. *)
Lemma retry_loop_all_fail n : forall k lastError w,
  Inv w -> 1 <= k -> maxAttempts = k + Z.of_nat n ->
  exists e w_last,
    retry_loop operation maxAttempts baseDelay operationName (S n) k lastError w
    = (Throw e, given_up operationName maxAttempts e w_last) /\
    attempts (S n) k w e w_last.
Proof.
  induction n as [|n IH]; intros k lastError w HI Hk1 Hk.
  - assert (k = maxAttempts) by lia. subst k.
    set (w1 := after_start (attempt_label operationName maxAttempts maxAttempts) w).
    assert (HI1 : Inv w1) by (apply Inv_console; exact HI).
    destruct (operation_fails w1 HI1) as (e & w2 & Hop & HI2 & _).
    exists e, w2. split.
    + apply retry_loop_last_fail. exact Hop.
    + apply fa_last. exact Hop.
  - set (w1 := after_start (attempt_label operationName k maxAttempts) w).
    assert (HI1 : Inv w1) by (apply Inv_console; exact HI).
    destruct (operation_fails w1 HI1) as (e & w2 & Hop & HI2 & [Hone | Hnull]); [lia|].
    rewrite (retry_loop_fail_more operation maxAttempts baseDelay operationName
               (S n) k lastError w e w2) by (lia || assumption).
    fold (backed_off operationName baseDelay k e w2).
    assert (HI3 : Inv (backed_off operationName baseDelay k e w2)).
    { unfold backed_off. apply Inv_sleep, Inv_console. exact HI2. }
    destruct (IH (k + 1) e _ HI3 ltac:(lia) ltac:(lia)) as (e' & wl & Hrun & Hchain).
    exists e', wl. split; [exact Hrun|].
    eapply fa_more; [exact Hop | exact Hchain].
Qed.

(** What an observer that the console and the awaited delays leave alone,
    and that every invocation advances by one, reads after a chain of
    failing attempts. *)
Lemma failing_attempts_counted (calls : World -> nat) :
  (forall w lvl t text, calls (with_trace (trace w ++ [Console lvl t text]) w) = calls w) ->
  (forall w ms, calls (snd (sleep ms w)) = calls w) ->
  (forall w, Inv w -> calls (snd (operation w)) = S (calls w)) ->
  forall n k w e w', Inv w -> attempts n k w e w' -> calls w' = (calls w + n)%nat.
Proof.
  intros Hconsole Hsleep Hcall n k w e w' HI Hchain. revert HI.
  induction Hchain as [k w e w' Hop | n k w e1 w1 e w' Hop Hchain IH]; intros HI.
  - assert (HI1 : Inv (after_start (attempt_label operationName k maxAttempts) w))
      by (apply Inv_console; exact HI).
    pose proof (Hcall _ HI1) as H. rewrite Hop in H. cbn [snd] in H.
    rewrite H. unfold after_start. rewrite Hconsole. lia.
  - assert (HI1 : Inv (after_start (attempt_label operationName k maxAttempts) w))
      by (apply Inv_console; exact HI).
    pose proof (Hcall _ HI1) as H.
    destruct (operation_fails _ HI1) as (e0 & w0 & Hop0 & HI0 & _).
    rewrite Hop in Hop0. injection Hop0 as <- <-.
    rewrite Hop in H. cbn [snd] in H.
    rewrite IH by (unfold backed_off; apply Inv_sleep, Inv_console; exact HI0).
    unfold backed_off. rewrite Hsleep, Hconsole, H.
    unfold after_start. rewrite Hconsole. lia.
Qed.

(** The delays awaited along a chain of failing attempts whose operation
    awaits none itself. *)
Lemma failing_attempts_waits :
  (forall w, Inv w -> waits (snd (operation w)) = waits w) ->
  forall n k w e w', Inv w -> attempts n k w e w' ->
    waits w' = waits w ++ map (fun j => baseDelay * 2 ^ (k - 1 + Z.of_nat j)) (seq 0 (n - 1)).
Proof.
  intros Hquiet n k w e w' HI Hchain. revert HI.
  induction Hchain as [k w e w' Hop | n k w e1 w1 e w' Hop Hchain IH]; intros HI.
  - assert (HI1 : Inv (after_start (attempt_label operationName k maxAttempts) w))
      by (apply Inv_console; exact HI).
    pose proof (Hquiet _ HI1) as H. rewrite Hop in H. cbn [snd] in H.
    rewrite H. unfold after_start. rewrite waits_console.
    cbn. symmetry. apply app_nil_r.
  - assert (HI1 : Inv (after_start (attempt_label operationName k maxAttempts) w))
      by (apply Inv_console; exact HI).
    pose proof (Hquiet _ HI1) as H.
    destruct (operation_fails _ HI1) as (e0 & w0 & Hop0 & HI0 & _).
    rewrite Hop in Hop0. injection Hop0 as <- <-.
    rewrite Hop in H. cbn [snd] in H.
    rewrite IH by (unfold backed_off; apply Inv_sleep, Inv_console; exact HI0).
    unfold backed_off. rewrite waits_sleep, waits_console, H.
    unfold after_start. rewrite waits_console.
    destruct n as [|n]; [inversion Hchain|].
    replace (S (S n) - 1)%nat with (S n) by lia.
    replace (S n - 1)%nat with n by lia.
    rewrite backoff_delays_from, <- app_assoc. cbn [app].
    do 2 f_equal. apply map_ext. intros j. do 2 f_equal. lia.
Qed.
End RetryExhaustion.

(** C6, as the code has it. For maxAttempts = N >= 1 and base delay b, an
    operation that fails on every invocation, with a value other than
    undefined and null when N > 1, is invoked exactly N times by
    retryWithBackoff: the run is a chain of N failing invocations with
    nothing between two of them but the warning and the awaited delay;
    every observer that each invocation advances by one, and that the
    console and the delays leave alone, has advanced by N; the delay
    awaited just before the k-th invocation (2 <= k <= N) is b * 2^(k-2);
    and the error raised at the end is the very error the last invocation
    threw. An attempt that succeeds ends the loop at once with its result,
    nothing more being scheduled. *)
Theorem retryWithBackoff_attempts_delays_last_error
    {T : Type} (operation : M T) (Inv : World -> Prop)
    (maxAttempts baseDelay : Z) (operationName : jsstr) (w : World)
    (Inv_console :
       forall w lvl t text,
         Inv w -> Inv (with_trace (trace w ++ [Console lvl t text]) w))
    (Inv_sleep : forall w ms, Inv w -> Inv (snd (sleep ms w)))
    (operation_fails :
       forall w, Inv w ->
         exists e w', operation w = (Throw e, w') /\ Inv w' /\
                      (maxAttempts = 1 \/ nullish_thrown e = false))
    (HN : 1 <= maxAttempts) (Hw : Inv w) :
  let N := Z.to_nat maxAttempts in
  let run := retryWithBackoff operation maxAttempts baseDelay operationName w in
  (exists e w_last,
      run = (Throw e, given_up operationName maxAttempts e w_last) /\
      failing_attempts operation maxAttempts baseDelay operationName N 1 w e w_last) /\
  (forall calls : World -> nat,
      (forall w0 lvl t text,
         calls (with_trace (trace w0 ++ [Console lvl t text]) w0) = calls w0) ->
      (forall w0 ms, calls (snd (sleep ms w0)) = calls w0) ->
      (forall w0, Inv w0 -> calls (snd (operation w0)) = S (calls w0)) ->
      calls (snd run) = (calls w + N)%nat) /\
  ((forall w0, Inv w0 -> waits (snd (operation w0)) = waits w0) ->
      waits (snd run) = waits w ++ backoff_delays baseDelay N /\
      forall k, 2 <= k <= maxAttempts ->
        nth_error (backoff_delays baseDelay N) (Z.to_nat (k - 2))
        = Some (baseDelay * 2 ^ (k - 2))) /\
  (forall (op : M T) fuel k lastError w0 r w1,
      k <= maxAttempts ->
      op (after_start (attempt_label operationName k maxAttempts) w0) = (Return r, w1) ->
      exists w2,
        retry_loop op maxAttempts baseDelay operationName (S fuel) k lastError w0
        = (Return r, w2) /\ schedule w2 = schedule w1 /\ waits w2 = waits w1).
Proof.
  intros N run.
  assert (Hchain : exists e w_last,
             run = (Throw e, given_up operationName maxAttempts e w_last) /\
             failing_attempts operation maxAttempts baseDelay operationName
               N 1 w e w_last).
  { subst run N. unfold retryWithBackoff.
    destruct (Z.to_nat maxAttempts) as [|n] eqn:En; [lia|].
    apply (retry_loop_all_fail operation Inv maxAttempts baseDelay operationName
             Inv_console Inv_sleep operation_fails n 1 thrown_undefined w Hw);
      lia. }
  split; [exact Hchain|].
  destruct Hchain as (e & w_last & Hrun & Hchain).
  split; [|split].
  - intros calls Hconsole Hsleep Hcall. rewrite Hrun. cbn [snd].
    unfold given_up. rewrite Hconsole.
    apply (failing_attempts_counted operation Inv maxAttempts baseDelay operationName
             Inv_console Inv_sleep operation_fails calls Hconsole Hsleep Hcall
             N 1 w e w_last Hw Hchain).
  - intros Hquiet. split.
    + rewrite Hrun. cbn [snd]. unfold given_up. rewrite waits_console.
      rewrite (failing_attempts_waits operation Inv maxAttempts baseDelay operationName
                 Inv_console Inv_sleep operation_fails Hquiet N 1 w e w_last Hw Hchain).
      reflexivity.
    + intros k Hk. unfold backoff_delays.
      rewrite nth_error_map, nth_error_seq.
      destruct (Nat.ltb_spec (Z.to_nat (k - 2)) (N - 1)) as [_|Hge]; [|subst N; lia].
      cbn [option_map Nat.add]. rewrite Z2Nat.id by lia. reflexivity.
  - intros op fuel k lastError w0 r w1 Hk Hop.
    eexists. split; [|split].
    + apply retry_loop_success; eassumption.
    + apply schedule_emit_console.
    + apply waits_console.
Qed.

(** C6, as stated, fails on the code: an operation may reject with
    [undefined], as [Promise.reject()] does. With three attempts allowed,
    such an operation is invoked once, not three times; no delay is
    awaited; and the error raised is not the one the operation threw but
    the TypeError of reading its message. *)
Lemma retryWithBackoff_stops_on_undefined :
  let w := boot None None None offline in
  let run := retryWithBackoff rejecting_with_undefined 3 1000 (js "probe") w in
  (forall w0, fst (rejecting_with_undefined w0) = Throw thrown_undefined) /\
  fst run
  = Throw (newTypeError (js "Cannot read properties of undefined (reading 'message')")) /\
  fst run <> Throw thrown_undefined /\
  said (js "called") (snd run) = 1%nat /\
  waits (snd run) = [].
Proof.
  cbv zeta. split; [intros w0; reflexivity|].
  split; [vm_compute; reflexivity|].
  split; [vm_compute; discriminate|].
  split; vm_compute; reflexivity.
Qed.

(** ** fetchWithTimeout *)

Lemma abort_due_none c ts :
  (forall tm, In tm ts -> target tm <> c) -> abort_due c ts = None.
Proof.
  induction ts as [|tm ts IH]; intros H; [reflexivity|].
  cbn [abort_due]. rewrite IH by (intros; apply H; now right).
  destruct (Nat.eqb_spec (target tm) c) as [E|E]; [|reflexivity].
  exfalso. apply (H tm); [now left | exact E].
Qed.

Lemma abort_due_own c ts id d :
  (forall tm, In tm ts -> target tm <> c) ->
  abort_due c (ts ++ [mkTimer id d c]) = Some d.
Proof.
  induction ts as [|tm ts IH]; intros H.
  - cbn. now rewrite Nat.eqb_refl.
  - cbn [app abort_due]. rewrite IH by (intros; apply H; now right).
    destruct (Nat.eqb_spec (target tm) c) as [E|E]; [|reflexivity].
    exfalso. apply (H tm); [now left | exact E].
Qed.

Lemma is_aborted_false c l :
  ~ In c l -> existsb (Nat.eqb c) l = false.
Proof.
  intros H. destruct (existsb (Nat.eqb c) l) eqn:E; [|reflexivity].
  apply existsb_exists in E. destruct E as (x & Hx & Hc).
  apply Nat.eqb_eq in Hc. subst x. contradiction.
Qed.

Lemma fresh_not_aborted w : fresh_ids w -> ~ In (next_id w) (aborted w).
Proof. intros [H _] Hin. apply H in Hin. lia. Qed.

Lemma fresh_timer_free w : fresh_ids w -> timer_free (next_id w) w.
Proof. intros [_ H] tm Hin. apply H in Hin. lia. Qed.

Lemma fresh_timer_ids w tm :
  fresh_ids w -> In tm (timers w) -> timer_id tm <> S (next_id w).
Proof. intros [_ H] Hin. apply H in Hin. lia. Qed.

Lemma filter_keep_all {A} (f : A -> bool) l :
  (forall x, In x l -> f x = true) -> filter f l = l.
Proof.
  induction l as [|a l IH]; intros H; [reflexivity|].
  cbn. rewrite H by now left. f_equal. apply IH. intros; apply H; now right.
Qed.

Lemma in_map_target_filter c (f : Timer -> bool) ts :
  (forall tm, In tm ts -> target tm <> c) ->
  ~ In c (map target (filter f ts)).
Proof.
  intros H Hin. apply in_map_iff in Hin. destruct Hin as (tm & Ht & Hf).
  apply filter_In in Hf. destruct Hf as [Hin _]. exact (H tm Hin Ht).
Qed.

Lemma fetchWithTimeout_run url d op w :
  fresh_ids w ->
  let reply := upstream w (sent w) url in
  let t_done := clock w + Z.max 0 (latency reply) in
  let deadline := clock w + Z.max 0 d in
  fetchWithTimeout url (Some d) (Some op) w =
  if t_done <? deadline then
    match result reply with
    | Return r => (Return r, cleared (S (next_id w)) (advance t_done (in_flight url d w)))
    | Throw e =>
        (Throw (if is_abort_error e then TimeoutError op d else e),
         cleared (S (next_id w)) (advance t_done (in_flight url d w)))
    end
  else
    (Throw (TimeoutError op d),
     cleared (S (next_id w)) (advance deadline (in_flight url d w))).
Proof.
  intros Hf reply t_done deadline.
  unfold fetchWithTimeout.
  unfold bind, try_catch, newAbortController, setTimeout_abort, fetch. cbn.
  rewrite (is_aborted_false _ _ (fresh_not_aborted w Hf)).
  rewrite (abort_due_own _ _ _ _ (fresh_timer_free w Hf)).
  fold reply. fold t_done. fold deadline.
  fold (own_timer d w). 
  destruct (t_done <? deadline).
  - destruct (result reply) as [r|e]; cbn.
    + reflexivity.
    + unfold is_abort_error. cbn.
      destruct (instanceof_Error e && str_eqb (ename e) _); reflexivity.
  - cbn. reflexivity.
Qed.

Lemma advance_clock t w : clock w <= t -> clock (advance t w) = t.
Proof. intros H. cbn. lia. Qed.

Lemma advance_aborted_own url d w t :
  clock w + Z.max 0 d <= t ->
  In (next_id w) (aborted (advance t (in_flight url d w))).
Proof.
  intros H. cbn. apply in_or_app. right. apply in_map_iff.
  exists (own_timer d w). split; [reflexivity|].
  apply filter_In. split.
  - apply in_or_app. right. now left.
  - unfold fires_by. cbn. apply Z.leb_le. exact H.
Qed.

Lemma advance_not_aborted_own url d w t :
  fresh_ids w -> t < clock w + Z.max 0 d ->
  ~ In (next_id w) (aborted (advance t (in_flight url d w))).
Proof.
  intros Hf H Hin. cbn in Hin. apply in_app_or in Hin. destruct Hin as [Hin|Hin].
  - exact (fresh_not_aborted w Hf Hin).
  - apply in_map_iff in Hin. destruct Hin as (tm & Ht & Hin).
    apply filter_In in Hin. destruct Hin as [Hin Hfire].
    apply in_app_or in Hin. destruct Hin as [Hin|[<-|[]]].
    + exact (fresh_timer_free w Hf tm Hin Ht).
    + unfold fires_by in Hfire. cbn in Hfire. apply Z.leb_le in Hfire. lia.
Qed.

Lemma cleared_timer_free url d w t :
  fresh_ids w ->
  timer_free (next_id w) (cleared (S (next_id w)) (advance t (in_flight url d w))).
Proof.
  intros Hf tm Hin. cbn in Hin.
  apply filter_In in Hin. destruct Hin as [Hin Hid].
  apply filter_In in Hin. destruct Hin as [Hin _].
  apply in_app_or in Hin. destruct Hin as [Hin|[<-|[]]].
  - exact (fresh_timer_free w Hf tm Hin).
  - cbn in Hid. rewrite Nat.eqb_refl in Hid. discriminate.
Qed.

Lemma advance_trace_own url d w t :
  clock w + Z.max 0 d <= t ->
  In (Abort (next_id w)) (trace (advance t (in_flight url d w))).
Proof.
  intros H. cbn. apply in_or_app. right.
  apply in_map_iff. exists (own_timer d w). split; [reflexivity|].
  apply filter_In. split.
  - apply in_or_app. right. now left.
  - unfold fires_by. cbn. apply Z.leb_le. exact H.
Qed.

(** C9. With deadline d: when the deadline elapses before the request
    settles, fetchWithTimeout fails with a TimeoutError that carries the
    operation name and d, and the controller's signal has fired; when the
    request fails first, for a reason that is not an abort, that very error
    is propagated; when the request completes first, its response is
    returned; in both of the latter cases the deadline timer is gone and
    the signal never fires. *)
Theorem fetchWithTimeout_contract url d op w
    (Hfresh : fresh_ids w) :
  let reply := upstream w (sent w) url in
  let controller := next_id w in
  (Z.max 0 d <= Z.max 0 (latency reply) ->
     exists w',
       fetchWithTimeout url (Some d) (Some op) w = (Throw (TimeoutError op d), w') /\
       instanceof_TimeoutError (TimeoutError op d) = true /\
       emessage (TimeoutError op d)
       = js "Operation '" ++ op ++ js "' timed out after " ++ num_to_str d ++ js "ms" /\
       In controller (aborted w') /\ In (Abort controller) (trace w') /\
       clock w' = clock w + Z.max 0 d) /\
  (Z.max 0 (latency reply) < Z.max 0 d ->
     forall e, result reply = Throw e -> is_abort_error e = false ->
     exists w',
       fetchWithTimeout url (Some d) (Some op) w = (Throw e, w') /\
       timer_free controller w' /\ ~ In controller (aborted w')) /\
  (Z.max 0 (latency reply) < Z.max 0 d ->
     forall r, result reply = Return r ->
     exists w',
       fetchWithTimeout url (Some d) (Some op) w = (Return r, w') /\
       timer_free controller w' /\ ~ In controller (aborted w')).
Proof.
  intros reply controller.
  pose proof (fetchWithTimeout_run url d op w Hfresh) as Hrun.
  cbv zeta in Hrun. fold reply in Hrun.
  split; [|split].
  - intros Hd.
    replace (clock w + Z.max 0 (latency reply) <? clock w + Z.max 0 d)
      with false in Hrun by (symmetry; apply Z.ltb_ge; lia).
    eexists. split; [exact Hrun|].
    split; [reflexivity|]. split; [reflexivity|].
    split; [|split].
    + apply advance_aborted_own. lia.
    + apply advance_trace_own. lia.
    + cbn. lia.
  - intros Hd e He Hab.
    replace (clock w + Z.max 0 (latency reply) <? clock w + Z.max 0 d)
      with true in Hrun by (symmetry; apply Z.ltb_lt; lia).
    rewrite He, Hab in Hrun.
    eexists. split; [exact Hrun|]. split.
    + apply cleared_timer_free. exact Hfresh.
    + apply advance_not_aborted_own; [exact Hfresh | lia].
  - intros Hd r Hr.
    replace (clock w + Z.max 0 (latency reply) <? clock w + Z.max 0 d)
      with true in Hrun by (symmetry; apply Z.ltb_lt; lia).
    rewrite Hr in Hrun.
    eexists. split; [exact Hrun|]. split.
    + apply cleared_timer_free. exact Hfresh.
    + apply advance_not_aborted_own; [exact Hfresh | lia].
Qed.

(** ** CircuitBreaker *)

Lemma breaker_of_set self b w : breaker_of self (set_breaker self b w) = b.
Proof. destruct self; reflexivity. Qed.

Lemma breaker_of_with_trace self tr w :
  breaker_of self (with_trace tr w) = breaker_of self w.
Proof. destruct self; reflexivity. Qed.

Lemma onSuccess_run self w :
  exists w', onSuccess self w = (Return tt, w') /\
             breaker_of self w' = succeeded (breaker_of self w).
Proof.
  unfold onSuccess, bind, modify, get_world. cbn.
  rewrite breaker_of_set. cbn.
  destruct (state (breaker_of self w)) eqn:E; cbn.
  - eexists; split; [reflexivity|]. rewrite breaker_of_set.
    unfold succeeded, set_failures. now rewrite E.
  - eexists; split; [reflexivity|]. rewrite breaker_of_set.
    unfold succeeded, set_failures. now rewrite E.
  - rewrite breaker_of_set. eexists; split; [reflexivity|].
    rewrite breaker_of_with_trace, breaker_of_set.
    unfold succeeded, set_failures. now rewrite E.
Qed.

Lemma clock_set_breaker self b w : clock (set_breaker self b w) = clock w.
Proof. destruct self; reflexivity. Qed.

Lemma onFailure_run self w :
  exists w', onFailure self w = (Return tt, w') /\
             breaker_of self w' = failed (clock w) (breaker_of self w) /\
             clock w' = clock w.
Proof.
  unfold onFailure, bind, modify, get_world, Date_now. cbn.
  repeat rewrite ?breaker_of_set, ?clock_set_breaker. cbn.
  destruct (failureThreshold (breaker_of self w) <=? failures (breaker_of self w) + 1) eqn:E;
    cbn; (eexists; split; [reflexivity|]);
    repeat rewrite ?breaker_of_with_trace, ?breaker_of_set, ?clock_set_breaker;
    unfold failed; cbn; rewrite ?E; cbn;
    repeat rewrite ?breaker_of_with_trace, ?breaker_of_set, ?clock_set_breaker;
    auto.
Qed.

Lemma gate_closed self w :
  state (breaker_of self w) <> OPEN -> gate self w = (Return tt, w).
Proof.
  intros H. unfold gate, bind, get_world. cbn.
  destruct (state (breaker_of self w)); [reflexivity | congruence | reflexivity].
Qed.

Lemma gate_rejects self w :
  state (breaker_of self w) = OPEN ->
  clock w - lastFailureTime (breaker_of self w) <= resetTimeout (breaker_of self w) ->
  gate self w = (Throw (breaker_open_error (breaker_of self w)), w).
Proof.
  intros Hs Ht. unfold gate, bind, get_world, Date_now. cbn. rewrite Hs.
  replace (resetTimeout (breaker_of self w) <? clock w - lastFailureTime (breaker_of self w))
    with false by (symmetry; apply Z.ltb_ge; lia).
  reflexivity.
Qed.

Lemma gate_half_opens self w :
  state (breaker_of self w) = OPEN ->
  resetTimeout (breaker_of self w) < clock w - lastFailureTime (breaker_of self w) ->
  exists w', gate self w = (Return tt, w') /\
             breaker_of self w' = set_state HALF_OPEN (breaker_of self w) /\
             clock w' = clock w.
Proof.
  intros Hs Ht. unfold gate, bind, get_world, Date_now, modify. cbn. rewrite Hs.
  replace (resetTimeout (breaker_of self w) <? clock w - lastFailureTime (breaker_of self w))
    with true by (symmetry; apply Z.ltb_lt; lia).
  cbn. eexists; split; [reflexivity|].
  rewrite breaker_of_with_trace, breaker_of_set. split; [reflexivity|].
  destruct self; reflexivity.
Qed.

Lemma execute_after_gate {T} self (op : M T) w w1 :
  gate self w = (Return tt, w1) ->
  execute self op w =
  match op w1 with
  | (Return r, w2) => (Return r, snd (onSuccess self w2))
  | (Throw e, w2) => (Throw e, snd (onFailure self w2))
  end.
Proof.
  intros Hg. unfold execute, bind at 1. rewrite Hg.
  unfold try_catch, bind at 1. destruct (op w1) as [[r|e] w2].
  - unfold bind. destruct (onSuccess_run self w2) as (w3 & -> & _). reflexivity.
  - unfold bind. destruct (onFailure_run self w2) as (w3 & -> & _). reflexivity.
Qed.

Lemma execute_rejected {T} self (op : M T) w e :
  gate self w = (Throw e, w) -> execute self op w = (Throw e, w).
Proof. intros Hg. unfold execute, bind. now rewrite Hg. Qed.

Lemma execute_success_breaker {T} self (op : M T) w w1 r w2 :
  preserves_breaker self op ->
  gate self w = (Return tt, w1) -> op w1 = (Return r, w2) ->
  fst (execute self op w) = Return r /\
  breaker_of self (snd (execute self op w)) = succeeded (breaker_of self w1).
Proof.
  intros Hp Hg Hop. rewrite (execute_after_gate self op w w1 Hg), Hop.
  destruct (onSuccess_run self w2) as (w3 & E & Hb). rewrite E. cbn.
  split; [reflexivity|]. rewrite Hb. f_equal.
  specialize (Hp w1). now rewrite Hop in Hp.
Qed.

Lemma execute_failure_breaker {T} self (op : M T) w w1 e w2 :
  preserves_breaker self op ->
  gate self w = (Return tt, w1) -> op w1 = (Throw e, w2) ->
  fst (execute self op w) = Throw e /\
  breaker_of self (snd (execute self op w)) = failed (clock w2) (breaker_of self w1).
Proof.
  intros Hp Hg Hop. rewrite (execute_after_gate self op w w1 Hg), Hop.
  destruct (onFailure_run self w2) as (w3 & E & Hb & _). rewrite E. cbn.
  split; [reflexivity|]. rewrite Hb. f_equal.
  specialize (Hp w1). now rewrite Hop in Hp.
Qed.

Lemma gate_cases self w :
  (state (breaker_of self w) <> OPEN /\ gate self w = (Return tt, w)) \/
  (state (breaker_of self w) = OPEN /\
   clock w - lastFailureTime (breaker_of self w) <= resetTimeout (breaker_of self w) /\
   gate self w = (Throw (breaker_open_error (breaker_of self w)), w)) \/
  (state (breaker_of self w) = OPEN /\
   resetTimeout (breaker_of self w) < clock w - lastFailureTime (breaker_of self w) /\
   exists w', gate self w = (Return tt, w') /\
              breaker_of self w' = set_state HALF_OPEN (breaker_of self w) /\
              clock w' = clock w).
Proof.
  destruct (state (breaker_of self w)) eqn:Es.
  - left. split; [discriminate|]. apply gate_closed. congruence.
  - destruct (Z_le_gt_dec (clock w - lastFailureTime (breaker_of self w))
                (resetTimeout (breaker_of self w))) as [Hle|Hgt].
    + right; left. split; [reflexivity|]. split; [exact Hle|].
      now apply gate_rejects.
    + right; right. split; [reflexivity|]. split; [lia|].
      apply gate_half_opens; [exact Es | lia].
  - left. split; [discriminate|]. apply gate_closed. congruence.
Qed.

(** A call of [execute] is the turn of its gate, then its operation, then
    the turn of the hook that fits the way the operation has settled; a
    call that the gate rejects is the turn of the gate alone. *)
Lemma execute_as_turns {T} self (op : M T) w :
  turns self
    (match gate self w with
     | (Return _, w1) =>
         [ Called; running op;
           Settled (match fst (op w1) with Return _ => true | Throw _ => false end) ]
     | (Throw _, _) => [ Called ]
     end) (w, O)
  = Some (snd (execute self op w), O).
Proof.
  destruct (gate_cases self w)
    as [[_ Hg] | [(_ & _ & Hg) | (_ & _ & w1 & Hg & _ & _)]]; rewrite Hg;
    cbn [turns turn running]; rewrite Hg; cbn [turns turn running].
  - rewrite (execute_after_gate self op w w Hg).
    destruct (op w) as [[r|e] w2]; reflexivity.
  - rewrite (execute_rejected self op w _ Hg). reflexivity.
  - rewrite (execute_after_gate self op w w1 Hg).
    destruct (op w1) as [[r|e] w2]; reflexivity.
Qed.











(** ** The call to the model: which of retry and breaker is outside *)

Lemma fresh_ids_emit w e : fresh_ids w -> fresh_ids (with_trace (trace w ++ [e]) w).
Proof. intros H. exact H. Qed.

Lemma fresh_ids_advance t w : fresh_ids w -> fresh_ids (advance t w).
Proof.
  intros [Ha Ht]. split; cbn.
  - intros c Hin. apply in_app_or in Hin. destruct Hin as [Hin|Hin].
    + now apply Ha.
    + apply in_map_iff in Hin. destruct Hin as (tm & <- & Hin).
      apply filter_In in Hin. destruct Hin as [Hin _]. now apply Ht.
  - intros tm Hin. apply filter_In in Hin. destruct Hin as [Hin _]. now apply Ht.
Qed.

Lemma fresh_ids_after_fetch url d w t :
  fresh_ids w ->
  fresh_ids (cleared (S (next_id w)) (advance t (in_flight url d w))).
Proof.
  intros [Ha Ht]. split; cbn.
  - intros c Hin. apply in_app_or in Hin. destruct Hin as [Hin|Hin].
    + apply Ha in Hin. lia.
    + apply in_map_iff in Hin. destruct Hin as (tm & <- & Hin).
      apply filter_In in Hin. destruct Hin as [Hin _].
      apply in_app_or in Hin. destruct Hin as [Hin|[<-|[]]].
      * apply Ht in Hin. lia.
      * cbn. lia.
  - intros tm Hin. apply filter_In in Hin. destruct Hin as [Hin _].
    apply filter_In in Hin. destruct Hin as [Hin _].
    apply in_app_or in Hin. destruct Hin as [Hin|[<-|[]]].
    + apply Ht in Hin. lia.
    + cbn. lia.
Qed.

(** A deadline-bounded request to the unreachable model throws, and
    touches neither breaker. *)
Lemma fetchWithTimeout_down w :
  fresh_ids w -> ai_down w ->
  exists e w',
    fetchWithTimeout PERPLEXITY_URL (Some TIMEOUTS_AI) (Some (js "perplexity-api")) w
    = (Throw e, w') /\
    fresh_ids w' /\ upstream w' = upstream w /\ perplexity w' = perplexity w /\
    sent w' = S (sent w) /\ nullish_thrown e = false.
Proof.
  intros Hf Hd.
  rewrite (fetchWithTimeout_run _ _ _ w Hf). cbv zeta.
  destruct (clock w + Z.max 0 (latency (upstream w (sent w) PERPLEXITY_URL))
            <? clock w + Z.max 0 TIMEOUTS_AI) eqn:E.
  - destruct (Hd (sent w)) as [[e [He Hnull]] | Hslow].
    + rewrite He. eexists _, _. split; [reflexivity|].
      split; [now apply fresh_ids_after_fetch|]. repeat split.
      destruct (is_abort_error e); [reflexivity | exact Hnull].
    + apply Z.ltb_lt in E. unfold TIMEOUTS_AI in *. lia.
  - eexists _, _. split; [reflexivity|].
    split; [now apply fresh_ids_after_fetch|]. repeat split.
Qed.

(** *** Frame rules: what a computation leaves alone *)

Lemma keeps_ret {A B} (f : World -> B) (a : A) : keeps f (ret a).
Proof. intros w. reflexivity. Qed.

Lemma keeps_throw {A B} (f : World -> B) e : keeps f (@throw A e).
Proof. intros w. reflexivity. Qed.

Lemma keeps_bind {A C B} (f : World -> B) (m : M A) (k : A -> M C) :
  keeps f m -> (forall a, keeps f (k a)) -> keeps f (bind m k).
Proof.
  intros Hm Hk w. unfold bind. specialize (Hm w).
  destruct (m w) as [[a|e] w1]; cbn in *.
  - rewrite (Hk a w1). exact Hm.
  - exact Hm.
Qed.

Lemma keeps_try_catch {A B} (f : World -> B) (m : M A) (h : JsError -> M A) :
  keeps f m -> (forall e, keeps f (h e)) -> keeps f (try_catch m h).
Proof.
  intros Hm Hh w. unfold try_catch. specialize (Hm w).
  destruct (m w) as [[a|e] w1]; cbn in *.
  - exact Hm.
  - rewrite (Hh e w1). exact Hm.
Qed.

Lemma keeps_modify {B} (f : World -> B) (g : World -> World) :
  (forall w, f (g w) = f w) -> keeps f (modify g).
Proof. intros H w. apply H. Qed.

Lemma keeps_get_world {B} (f : World -> B) : keeps f get_world.
Proof. intros w. reflexivity. Qed.

Lemma keeps_lift {A B} (f : World -> B) (o : Outcome A) : keeps f (lift o).
Proof. intros w. reflexivity. Qed.

Lemma keeps_if {A B} (f : World -> B) (c : bool) (m1 m2 : M A) :
  keeps f m1 -> keeps f m2 -> keeps f (if c then m1 else m2).
Proof. destruct c; auto. Qed.

Lemma blind_perplexity : platform_blind perplexity.
Proof. intros w t ts ab n s d tr. reflexivity. Qed.

Lemma blind_pexels : platform_blind pexels.
Proof. intros w t ts ab n s d tr. reflexivity. Qed.

Lemma blind_breaker self : platform_blind (breaker_of self).
Proof. destruct self; [apply blind_perplexity | apply blind_pexels]. Qed.

Lemma blind_upstream : platform_blind upstream.
Proof. intros w t ts ab n s d tr. reflexivity. Qed.

Section Blind.
Context {B : Type} (f : World -> B) (Hf : platform_blind f).

Lemma keeps_Date_now : keeps f Date_now.
Proof. intros w. reflexivity. Qed.

Lemma keeps_emit e : keeps f (emit e).
Proof. intros w. apply (Hf w). Qed.

Lemma keeps_console lvl text : keeps f (console lvl text).
Proof.
  unfold console. apply keeps_bind; [apply keeps_Date_now|].
  intros now. apply keeps_emit.
Qed.

Lemma blind_advance t w : f (advance t w) = f w.
Proof. apply (Hf w). Qed.

Lemma keeps_sleep ms : keeps f (sleep ms).
Proof.
  unfold sleep. apply keeps_bind; [apply keeps_emit|].
  intros _. apply keeps_modify. intros w. apply blind_advance.
Qed.

Lemma keeps_newAbortController : keeps f newAbortController.
Proof. intros w. apply (Hf w). Qed.

Lemma keeps_setTimeout_abort c d : keeps f (setTimeout_abort c d).
Proof. intros w. apply (Hf w). Qed.

Lemma keeps_clearTimeout id : keeps f (clearTimeout id).
Proof. intros w. apply (Hf w). Qed.

Lemma keeps_fetch url signal : keeps f (fetch url signal).
Proof.
  intros w. unfold fetch.
  assert (H1 : forall t,
    f (advance t (with_sent (S (sent w)) (with_trace (trace w ++ [Fetch url]) w))) = f w).
  { intros t. rewrite blind_advance. apply (Hf w). }
  destruct signal as [c|]; [|apply H1].
  destruct (is_aborted c _); [apply (Hf w)|].
  destruct (abort_due c _) as [d|]; [|apply H1].
  destruct (_ <? d); apply H1.
Qed.

Lemma keeps_response_json r : keeps f (response_json r).
Proof. intros w. reflexivity. Qed.

Lemma keeps_response_text r : keeps f (response_text r).
Proof. intros w. reflexivity. Qed.

Lemma keeps_random_below n : keeps f (random_below n).
Proof. intros w. apply (Hf w). Qed.

Lemma keeps_fetchWithTimeout url d op : keeps f (fetchWithTimeout url d op).
Proof.
  unfold fetchWithTimeout.
  apply keeps_bind; [apply keeps_newAbortController|]. intros c.
  apply keeps_bind; [apply keeps_setTimeout_abort|]. intros id.
  apply keeps_try_catch.
  - apply keeps_bind; [apply keeps_fetch|]. intros r.
    apply keeps_bind; [apply keeps_clearTimeout|]. intros _. apply keeps_ret.
  - intros e. apply keeps_bind; [apply keeps_clearTimeout|]. intros _.
    apply keeps_if; apply keeps_throw.
Qed.

Lemma keeps_newPerformanceMonitor op : keeps f (newPerformanceMonitor op).
Proof.
  unfold newPerformanceMonitor.
  apply keeps_bind; [apply keeps_Date_now|]. intros now.
  apply keeps_bind; [apply keeps_console|]. intros _. apply keeps_ret.
Qed.

Lemma keeps_monitor_log m msg : keeps f (monitor_log m msg).
Proof.
  unfold monitor_log. apply keeps_bind; [apply keeps_Date_now|].
  intros now. apply keeps_console.
Qed.

Lemma keeps_monitor_finish m b : keeps f (monitor_finish m b).
Proof.
  unfold monitor_finish. apply keeps_bind; [apply keeps_Date_now|]. intros now.
  apply keeps_bind; [apply keeps_console|]. intros _. apply keeps_ret.
Qed.

Lemma keeps_monitor_error m msg : keeps f (monitor_error m msg).
Proof.
  unfold monitor_error. apply keeps_bind; [apply keeps_Date_now|]. intros now.
  apply keeps_bind; [apply keeps_console|]. intros _. apply keeps_ret.
Qed.
End Blind.

Lemma preserves_perplexity_fetch url d op :
  preserves_breaker perplexity_ref (fetchWithTimeout url d op).
Proof. apply (keeps_fetchWithTimeout perplexity blind_perplexity). Qed.

(** One attempt against the unreachable model, the breaker being closed:
    the failure hook runs. *)
Lemma perplexity_attempt_down w :
  fresh_ids w -> ai_down w -> state (perplexity w) = CLOSED ->
  exists e w',
    perplexity_attempt w = (Throw e, w') /\
    fresh_ids w' /\ upstream w' = upstream w /\
    perplexity w' = failed (clock w') (perplexity w) /\
    sent w' = S (sent w) /\ nullish_thrown e = false.
Proof.
  intros Hf Hd Hs.
  destruct (fetchWithTimeout_down w Hf Hd)
    as (e & w1 & Hrun & Hf1 & Hu1 & Hp1 & Hs1 & Hnull).
  assert (Hg : gate perplexity_ref w = (Return tt, w))
    by (apply gate_closed; cbn; congruence).
  unfold perplexity_attempt.
  rewrite (execute_after_gate perplexity_ref _ w w Hg), Hrun.
  destruct (onFailure_run perplexity_ref w1) as (w2 & Hfail & Hb & Hc).
  exists e, w2. rewrite Hfail. cbn. split; [reflexivity|].
  unfold onFailure, bind, modify, get_world, Date_now in Hfail. cbn in Hfail.
  destruct (failureThreshold (perplexity w1) <=? failures (perplexity w1) + 1);
    cbn in Hfail; inversion Hfail; subst w2; cbn in *;
    (split; [exact Hf1|]); (split; [exact Hu1|]); rewrite <- Hp1;
    (split; [exact Hb | split; [exact Hs1 | exact Hnull]]).
Qed.

Lemma ai_down_same w w' : upstream w' = upstream w -> ai_down w -> ai_down w'.
Proof. intros E H n. unfold ai_down in H. rewrite E. apply H. Qed.

Lemma between_attempts d e w :
  let w' := snd (sleep d (with_trace (trace w ++ [e]) w)) in
  (fresh_ids w -> fresh_ids w') /\ upstream w' = upstream w /\
  perplexity w' = perplexity w /\ sent w' = sent w.
Proof.
  rewrite sleep_run. cbn [snd]. split; [|repeat split].
  intros H. apply fresh_ids_advance. exact H.
Qed.

(** C1, as the code has it. The call to the model composes the three
    primitives with retry outermost, the breaker inside it and the
    deadline-bounded request innermost, so the breaker's hook runs once per
    attempt: when the model is unreachable and the breaker starts closed
    with no failure on record, the one orchestrated call makes three
    requests, records three failures and leaves the breaker OPEN. *)
Theorem perplexity_call_hook_per_attempt (w : World)
    (Hfresh : fresh_ids w) (Hdown : ai_down w)
    (Hclosed : state (perplexity w) = CLOSED)
    (Hzero : failures (perplexity w) = 0)
    (Hth : failureThreshold (perplexity w) = 3) :
  perplexity_call
  = retryWithBackoff perplexity_attempt 3 2000 (js "Perplexity API Call") /\
  exists e w',
    perplexity_call w = (Throw e, w') /\
    failures (perplexity w') = 3 /\ state (perplexity w') = OPEN /\
    sent w' = (3 + sent w)%nat.
Proof.
  split; [reflexivity|].
  unfold perplexity_call. fold perplexity_attempt.
  unfold retryWithBackoff. change (Z.to_nat 3) with 3%nat.
  set (nm := js "Perplexity API Call").
  (* first attempt *)
  set (a1 := after_start (attempt_label nm 1 3) w).
  destruct (perplexity_attempt_down a1 Hfresh Hdown Hclosed)
    as (e1 & w1 & Hrun1 & Hf1 & Hu1 & Hp1 & Hs1 & Hn1).
  rewrite (retry_loop_fail_more perplexity_attempt 3 2000 nm 2 1 _ w e1 w1
             ltac:(lia) Hn1 Hrun1).
  match goal with |- context [retry_loop _ _ _ _ _ _ _ ?x] => set (b1 := x) end.
  destruct (between_attempts (2000 * 2 ^ (1 - 1))
              (Console LWarn (clock w1)
                 (nm ++ js " attempt " ++ num_to_str 1 ++ js " failed, retrying in "
                    ++ num_to_str (2000 * 2 ^ (1 - 1)) ++ js "ms: " ++ emessage e1)) w1)
    as (Hfb1 & Hub1 & Hpb1 & Hsb1).
  fold b1 in Hfb1, Hub1, Hpb1, Hsb1.
  assert (Hst1 : state (perplexity b1) = CLOSED /\ failures (perplexity b1) = 1
                 /\ failureThreshold (perplexity b1) = 3).
  { rewrite Hpb1, Hp1. unfold failed. cbn. cbn in Hzero, Hth, Hclosed.
    rewrite Hzero, Hth, Hclosed. cbn. auto. }
  destruct Hst1 as (Hc1 & Hz1 & Ht1).
  (* second attempt *)
  set (a2 := after_start (attempt_label nm (1 + 1) 3) b1).
  assert (Hd2 : ai_down a2).
  { apply (ai_down_same w); [|exact Hdown].
    change (upstream a2) with (upstream b1). rewrite Hub1, Hu1. reflexivity. }
  destruct (perplexity_attempt_down a2 (Hfb1 Hf1) Hd2 Hc1)
    as (e2 & w2 & Hrun2 & Hf2 & Hu2 & Hp2 & Hs2 & Hn2).
  rewrite (retry_loop_fail_more perplexity_attempt 3 2000 nm 1 (1 + 1) _ b1 e2 w2
             ltac:(lia) Hn2 Hrun2).
  match goal with |- context [retry_loop _ _ _ _ _ _ _ ?x] => set (b2 := x) end.
  destruct (between_attempts (2000 * 2 ^ (1 + 1 - 1))
              (Console LWarn (clock w2)
                 (nm ++ js " attempt " ++ num_to_str (1 + 1) ++ js " failed, retrying in "
                    ++ num_to_str (2000 * 2 ^ (1 + 1 - 1)) ++ js "ms: " ++ emessage e2)) w2)
    as (Hfb2 & Hub2 & Hpb2 & Hsb2).
  fold b2 in Hfb2, Hub2, Hpb2, Hsb2.
  assert (Hst2 : state (perplexity b2) = CLOSED /\ failures (perplexity b2) = 2
                 /\ failureThreshold (perplexity b2) = 3).
  { rewrite Hpb2, Hp2. unfold failed. cbn. cbn in Hz1, Ht1, Hc1.
    rewrite Hz1, Ht1, Hc1. cbn. auto. }
  destruct Hst2 as (Hc2 & Hz2 & Ht2).
  (* third and last attempt *)
  set (a3 := after_start (attempt_label nm 3 3) b2).
  assert (Hd3 : ai_down a3).
  { apply (ai_down_same w); [|exact Hdown].
    change (upstream a3) with (upstream b2). rewrite Hub2, Hu2.
    change (upstream a2) with (upstream b1). rewrite Hub1, Hu1. reflexivity. }
  destruct (perplexity_attempt_down a3 (Hfb2 Hf2) Hd3 Hc2)
    as (e3 & w3 & Hrun3 & Hf3 & Hu3 & Hp3 & Hs3 & _).
  change (1 + 1 + 1) with 3.
  rewrite (retry_loop_last_fail perplexity_attempt 3 2000 nm 0 _ b2 e3 w3 Hrun3).
  eexists _, _. split; [reflexivity|].
  match goal with
  | |- context [perplexity (with_trace ?tr w3)] =>
      change (perplexity (with_trace tr w3)) with (perplexity w3);
      change (sent (with_trace tr w3)) with (sent w3)
  end.
  rewrite Hp3, Hs3. change (perplexity a3) with (perplexity b2).
  change (sent a3) with (sent b2). rewrite Hsb2, Hs2.
  change (sent a2) with (sent b1). rewrite Hsb1, Hs1.
  change (sent a1) with (sent w).
  unfold failed. cbn [failures state failureThreshold]. rewrite Hz2, Ht2.
  repeat split.
Qed.

(** C1, as stated, fails on the code: with the model unreachable, one
    orchestrated call runs the breaker's failure hook three times and opens
    the breaker, where the composition with the breaker outermost would run
    it once and leave the breaker closed. *)
Lemma perplexity_call_is_not_breaker_outermost :
  let w := boot (Some (js "key")) None None offline in
  failures (perplexity (snd (perplexity_call w))) = 3 /\
  state (perplexity (snd (perplexity_call w))) = OPEN /\
  failures (perplexity (snd (breaker_outermost_call w))) = 1 /\
  state (perplexity (snd (breaker_outermost_call w))) = CLOSED /\
  fst (perplexity_call w) = Throw fetch_failed /\
  fst (breaker_outermost_call w) = Throw fetch_failed.
Proof. vm_compute. repeat split. Qed.

(** ** The primitives on a network that is down *)

Lemma fresh_ids_boot k1 k2 k3 net : fresh_ids (boot k1 k2 k3 net).
Proof. split; intros x []. Qed.

Lemma ai_down_offline k1 k2 k3 : ai_down (boot k1 k2 k3 offline).
Proof. intros n. left. exists fetch_failed. split; reflexivity. Qed.

Lemma fetch_offline url w :
  upstream w = offline ->
  exists e w', fetch url None w = (Throw e, w') /\ upstream w' = offline
               /\ (3 = 1 \/ nullish_thrown e = false).
Proof.
  intros H. unfold fetch. rewrite H. cbn [offline result latency].
  eexists _, _. split; [reflexivity|]. split; [exact H|].
  right. reflexivity.
Qed.

Lemma fetch_waits url w : waits (snd (fetch url None w)) = waits w.
Proof.
  unfold fetch. cbn [snd]. rewrite waits_advance.
  change (waits (with_sent (S (sent w)) (with_trace (trace w ++ [Fetch url]) w)))
    with (waits (with_trace (trace w ++ [Fetch url]) w)).
  rewrite waits_app_event. apply app_nil_r.
Qed.

Lemma perplexity_call_hook_per_attempt_witness :
  exists e w',
    perplexity_call (boot (Some (js "key")) None None offline) = (Throw e, w') /\
    failures (perplexity w') = 3 /\ state (perplexity w') = OPEN /\
    sent w' = 3%nat.
Proof.
  exact (proj2 (perplexity_call_hook_per_attempt
                  (boot (Some (js "key")) None None offline)
                  (fresh_ids_boot _ _ _ _) (ai_down_offline _ _ _)
                  eq_refl eq_refl eq_refl)).
Defined.

Lemma retryWithBackoff_witness :
  let run := retryWithBackoff (fetch (js "https://example.test/") None) 3 1000
               (js "probe") (boot None None None offline) in
  (exists e w_last,
     run = (Throw e, given_up (js "probe") 3 e w_last) /\
     failing_attempts (fetch (js "https://example.test/") None) 3 1000 (js "probe")
       3 1 (boot None None None offline) e w_last) /\
  sent (snd run) = 3%nat /\
  waits (snd run) = [1000; 2000].
Proof.
  destruct (retryWithBackoff_attempts_delays_last_error
              (fetch (js "https://example.test/") None)
              (fun w => upstream w = offline) 3 1000 (js "probe")
              (boot None None None offline)
              (fun w lvl t text H => H) (fun w ms H => H)
              (fetch_offline (js "https://example.test/"))
              ltac:(lia) eq_refl)
    as (Hchain & Hcalls & Hwaits & _).
  split; [exact Hchain|]. split.
  - exact (Hcalls sent (fun w0 lvl t text => eq_refl) (fun w0 ms => eq_refl)
             (fun w0 _ => eq_refl)).
  - exact (proj1 (Hwaits (fun w0 _ => fetch_waits _ w0))).
Defined.










Lemma fetchWithTimeout_contract_witness :
  exists w',
    fetchWithTimeout PERPLEXITY_URL (Some 100) (Some (js "probe"))
      (boot None None None offline) = (Throw fetch_failed, w') /\
    timer_free 0%nat w' /\ ~ In 0%nat (aborted w').
Proof.
  destruct (fetchWithTimeout_contract PERPLEXITY_URL 100 (js "probe")
              (boot None None None offline) (fresh_ids_boot _ _ _ _))
    as (_ & Hfail & _).
  exact (Hfail ltac:(cbn; lia) fetch_failed eq_refl eq_refl).
Defined.

(** ** The image searches never reject *)

Lemma monitor_error_returns m msg w :
  exists t w', monitor_error m msg w = (Return t, w') /\ sent w' = sent w.
Proof. eexists _, _. split; reflexivity. Qed.

Lemma fetchPexelsImage_run query category size w :
  let monitor := mkMonitor (clock w) (js "Pexels search: " ++ query) in
  let started := after_start (js "Pexels search: " ++ query) w in
  match pexels_search monitor query category size started with
  | (Return image, w') =>
      fetchPexelsImage query category size w = (Return image, w')
  | (Throw error, w') =>
      exists w'', fetchPexelsImage query category size w = (Return VNull, w'')
                  /\ sent w'' = sent w'
  end.
Proof.
  intros monitor started.
  destruct (pexels_search monitor query category size started)
    as [[image|error] w'] eqn:E;
    unfold fetchPexelsImage, bind at 1; rewrite newPerformanceMonitor_run;
    unfold try_catch; fold monitor; fold started; rewrite E.
  - reflexivity.
  - unfold bind.
    destruct (instanceof_TimeoutError error);
      match goal with
      | |- context [monitor_error ?m ?msg ?v] =>
          destruct (monitor_error_returns m msg v) as (t & w'' & -> & Hs)
      end; exists w''; (split; [reflexivity | exact Hs]).
Qed.

Lemma fetchDiverseLocationImages_run locationNames size w :
  let label := js "Diverse location images: "
                 ++ num_to_str (Z.of_nat (List.length locationNames)) ++ js " locations" in
  let monitor := mkMonitor (clock w) label in
  match diverse_images monitor locationNames size (after_start label w) with
  | (Return images, w') =>
      fetchDiverseLocationImages locationNames size w = (Return images, w')
  | (Throw error, w') =>
      exists w'', fetchDiverseLocationImages locationNames size w = (Return [], w'')
  end.
Proof.
  intros label monitor.
  destruct (diverse_images monitor locationNames size (after_start label w))
    as [[images|error] w'] eqn:E;
    unfold fetchDiverseLocationImages, bind at 1; rewrite newPerformanceMonitor_run;
    unfold try_catch; fold label; fold monitor; rewrite E.
  - reflexivity.
  - unfold bind.
    destruct (instanceof_TimeoutError error);
      match goal with
      | |- context [monitor_error ?m ?msg ?v] =>
          destruct (monitor_error_returns m msg v) as (t & w'' & -> & _)
      end; exists w''; reflexivity.
Qed.

Lemma pexels_search_without_key monitor query category size w :
  key_configured (PEXELS_API_KEY w) = None ->
  exists w', pexels_search monitor query category size w = (Return VNull, w')
             /\ sent w' = sent w.
Proof.
  intros H. unfold pexels_search, bind at 1. cbn [get_world].
  destruct (PEXELS_API_KEY w) as [[|c k]|]; try discriminate;
    eexists; split; reflexivity.
Qed.

Lemma pexels_search_breaker_open monitor query category size w c k :
  PEXELS_API_KEY w = Some (c :: k) ->
  state (pexels w) = OPEN ->
  clock w - lastFailureTime (pexels w) <= resetTimeout (pexels w) ->
  exists w',
    pexels_search monitor query category size w
    = (Throw (breaker_open_error (pexels w)), w') /\ sent w' = sent w.
Proof.
  intros Hk Hs Ht. unfold pexels_search, bind at 1. cbn [get_world]. rewrite Hk.
  cbv zeta. unfold bind at 1.
  match goal with
  | |- context [monitor_log ?m ?msg w] =>
      change (monitor_log m msg w)
        with (Return tt, with_trace (trace w ++ [Console LLog (clock w)
                (operation m ++ js " (" ++ num_to_str (clock w - startTime m)
                   ++ js "ms): " ++ msg)]) w)
  end.
  cbv iota beta. unfold bind at 1.
  match goal with
  | |- context [execute pexels_ref ?op ?v] =>
      rewrite (execute_rejected pexels_ref op v (breaker_open_error (pexels w)))
  end.
  - eexists. split; reflexivity.
  - match goal with
    | |- gate pexels_ref ?v = _ => exact (gate_rejects pexels_ref v Hs Ht)
    end.
Qed.

(** C10. The single-image search and the diverse-image fetch settle with a
    value on every input and in every world, never with a thrown error:
    whatever is thrown inside fetchPexelsImage (a timeout, a rejection by
    the open breaker, a malformed body) comes out as a null image, a
    missing API key and an open breaker give null without any request being
    sent, and whatever is thrown inside fetchDiverseLocationImages comes
    out as the empty mapping. *)
Theorem image_fetch_never_rejects :
  (forall query category size w,
     exists image w', fetchPexelsImage query category size w = (Return image, w')) /\
  (forall locationNames size w,
     exists images w', fetchDiverseLocationImages locationNames size w = (Return images, w')) /\
  (forall query category size w error w1,
     pexels_search (mkMonitor (clock w) (js "Pexels search: " ++ query))
       query category size (after_start (js "Pexels search: " ++ query) w)
     = (Throw error, w1) ->
     exists w', fetchPexelsImage query category size w = (Return VNull, w')) /\
  (forall query category size w,
     key_configured (PEXELS_API_KEY w) = None ->
     exists w', fetchPexelsImage query category size w = (Return VNull, w')
                /\ sent w' = sent w) /\
  (forall query category size w c k,
     PEXELS_API_KEY w = Some (c :: k) ->
     state (pexels w) = OPEN ->
     clock w - lastFailureTime (pexels w) <= resetTimeout (pexels w) ->
     exists w', fetchPexelsImage query category size w = (Return VNull, w')
                /\ sent w' = sent w) /\
  (forall locationNames size w error w1,
     diverse_images
       (mkMonitor (clock w)
          (js "Diverse location images: "
             ++ num_to_str (Z.of_nat (List.length locationNames)) ++ js " locations"))
       locationNames size
       (after_start
          (js "Diverse location images: "
             ++ num_to_str (Z.of_nat (List.length locationNames)) ++ js " locations") w)
     = (Throw error, w1) ->
     exists w', fetchDiverseLocationImages locationNames size w = (Return [], w')).
Proof.
  split; [|split; [|split; [|split; [|split]]]].
  - intros query category size w.
    pose proof (fetchPexelsImage_run query category size w) as H. cbv zeta in H.
    destruct (pexels_search _ query category size _) as [[image|error] w'].
    + eauto.
    + destruct H as (w'' & H & _). eauto.
  - intros locationNames size w.
    pose proof (fetchDiverseLocationImages_run locationNames size w) as H. cbv zeta in H.
    destruct (diverse_images _ locationNames size _) as [[images|error] w'].
    + eauto.
    + destruct H as (w'' & H). eauto.
  - intros query category size w error w1 E.
    pose proof (fetchPexelsImage_run query category size w) as H. cbv zeta in H.
    rewrite E in H. destruct H as (w'' & H & _). eauto.
  - intros query category size w Hk.
    pose proof (fetchPexelsImage_run query category size w) as H. cbv zeta in H.
    destruct (pexels_search_without_key
                (mkMonitor (clock w) (js "Pexels search: " ++ query)) query category size
                (after_start (js "Pexels search: " ++ query) w) Hk) as (w' & E & Hs).
    rewrite E in H. exists w'. split; [exact H | exact Hs].
  - intros query category size w c k Hk Hs Ht.
    pose proof (fetchPexelsImage_run query category size w) as H. cbv zeta in H.
    destruct (pexels_search_breaker_open
                (mkMonitor (clock w) (js "Pexels search: " ++ query)) query category size
                (after_start (js "Pexels search: " ++ query) w) c k Hk Hs Ht)
      as (w' & E & Hsent).
    rewrite E in H. destruct H as (w'' & H & Hs'').
    exists w''. split; [exact H|]. rewrite Hs''. exact Hsent.
  - intros locationNames size w error w1 E.
    pose proof (fetchDiverseLocationImages_run locationNames size w) as H. cbv zeta in H.
    rewrite E in H. exact H.
Qed.

Lemma image_fetch_never_rejects_witness :
  exists w',
    fetchPexelsImage (js "Mumbai") (Some (js "city")) (js "medium")
      (boot None None None offline) = (Return VNull, w')
    /\ sent w' = 0%nat.
Proof.
  destruct image_fetch_never_rejects as (_ & _ & _ & Hkey & _).
  exact (Hkey (js "Mumbai") (Some (js "city")) (js "medium")
           (boot None None None offline) eq_refl).
Defined.

(** ** The curated city image *)

(** C5, on the code. A request for Mumbai, with no credential for the
    model and the image search unconfigured or unreachable, is answered 200
    with two days of three meals and an empty locationImages mapping: the
    curated image of the city is not attached, because
    fetchDiverseLocationImages turns its own failures into an empty mapping
    and the catch that would attach the image never runs. *)
Theorem mumbai_without_images_has_no_city_key :
  let unconfigured := boot None None None offline in
  let unreachable := boot None (Some (js "pexels-key")) None offline in
  (exists resp w',
     POST mumbai_request unconfigured = (Return resp, w') /\
     http_status resp = 200 /\
     prop (http_body resp) (js "locationImages") = VObj [] /\
     List.length (day_entries (http_body resp)) = 2%nat /\
     map meal_labels (day_entries (http_body resp)) = [three_meals; three_meals]) /\
  (exists resp w',
     POST mumbai_request unreachable = (Return resp, w') /\
     http_status resp = 200 /\
     prop (http_body resp) (js "locationImages") = VObj []) /\
  truthy (getFallbackCityImage (js "Mumbai")) = true.
Proof.
  cbv zeta. split; [|split].
  - eexists _, _. split; [vm_compute; reflexivity|]. vm_compute. repeat split.
  - eexists _, _. split; [vm_compute; reflexivity|]. vm_compute. repeat split.
  - vm_compute. reflexivity.
Qed.

(** ** The response-repair parser *)

Lemma drop_until_skip c p r :
  contains c p = false -> drop_until c (p ++ c :: r) = Some (c :: r).
Proof.
  induction p as [|x p IH]; intros H; cbn.
  - now rewrite N.eqb_refl.
  - cbn in H. apply orb_false_iff in H. destruct H as [Hx Hp].
    rewrite N.eqb_sym in Hx. rewrite Hx. now apply IH.
Qed.

Lemma contains_rev c s : contains c (rev s) = contains c s.
Proof.
  unfold contains. destruct (existsb (N.eqb c) s) eqn:E.
  - apply existsb_exists in E. destruct E as (x & Hin & Hx).
    apply existsb_exists. exists x. split; [now apply in_rev in Hin | exact Hx].
  - destruct (existsb (N.eqb c) (rev s)) eqn:E'; [|reflexivity].
    apply existsb_exists in E'. destruct E' as (x & Hin & Hx).
    apply in_rev in Hin.
    assert (existsb (N.eqb c) s = true) by (apply existsb_exists; eauto).
    congruence.
Qed.

(** The greedy brace pattern recovers a braced text from its prose. *)
Lemma match_brace_span_in_prose before body after :
  contains (ch "{") before = false ->
  contains (ch "}") after = false ->
  match_brace_span (before ++ (ch "{" :: body ++ [ch "}"]) ++ after)
  = Some (ch "{" :: body ++ [ch "}"]).
Proof.
  intros Hb Ha. unfold match_brace_span.
  change ((ch "{" :: body ++ [ch "}"]) ++ after)
    with (ch "{" :: (body ++ [ch "}"]) ++ after).
  rewrite (drop_until_skip _ _ _ Hb).
  change (ch "{" :: (body ++ [ch "}"]) ++ after)
    with ((ch "{" :: body ++ [ch "}"]) ++ after).
  rewrite rev_app_distr.
  change (ch "{" :: body ++ [ch "}"]) with ((ch "{" :: body) ++ [ch "}"]).
  rewrite (rev_app_distr (ch "{" :: body) [ch "}"]).
  change (rev [ch "}"]) with [ch "}"].
  change ([ch "}"] ++ rev (ch "{" :: body)) with (ch "}" :: rev (ch "{" :: body)).
  rewrite drop_until_skip by (now rewrite contains_rev).
  change (rev (ch "}" :: rev (ch "{" :: body)))
    with (rev (rev (ch "{" :: body)) ++ [ch "}"]).
  now rewrite rev_involutive.
Qed.

(** A text that starts with an opening brace and ends with a closing
    brace, embedded in prose that has no opening brace before it and no
    closing brace after it, is what the greedy brace pattern extracts; when
    the three cleaning steps leave that text as it is and JSON.parse accepts
    it, the parser returns what JSON.parse makes of it, at the first
    attempt. *)
Lemma parse_ai_content_clean (globalMonitor : PerformanceMonitor)
    (before body after : jsstr) (document : value) (w : World)
    (Hbefore : contains (ch "{") before = false)
    (Hafter : contains (ch "}") after = false)
    (Hclean : clean_json (ch "{" :: body ++ [ch "}"]) = ch "{" :: body ++ [ch "}"])
    (Hparse : JSON_parse (ch "{" :: body ++ [ch "}"]) = Return document) :
  match_brace_span (before ++ (ch "{" :: body ++ [ch "}"]) ++ after)
  = Some (ch "{" :: body ++ [ch "}"]) /\
  exists w',
    parse_ai_content globalMonitor
      (VStr (before ++ (ch "{" :: body ++ [ch "}"]) ++ after)) w
    = (Return document, w').
Proof.
  pose proof (match_brace_span_in_prose before body after Hbefore Hafter) as Hspan.
  split; [exact Hspan|].
  unfold parse_ai_content. rewrite Hspan.
  cbn [parse_attempts]. rewrite Hclean, Hparse.
  eexists. reflexivity.
Qed.

(** C2. The code breaks the round trip on clean input. The prompt asks
    the model for entries with a time of day such as 9:00 AM. In the
    serialisation of a document with such an entry, which JSON.parse reads
    back as it is, the third cleaning step takes what follows the colon of
    the time for a value without quotes and puts it between quotes: the
    text no longer parses, and the parser gives up after five attempts,
    with or without prose around the document. The endpoint then answers
    with the deterministic itinerary, of two days, where the model had
    written one day. The same step puts a number of two digits between
    quotes, so that a document that does come back is not the original. *)
Theorem repair_parser_is_not_a_round_trip :
  let w := boot None None None offline in
  let text := JSON_stringify prescribed_document in
  let gave_up := newError (js "Failed to parse AI response after multiple attempts") in
  JSON_parse text = Return prescribed_document /\
  clean_json text <> text /\
  (exists e, JSON_parse (clean_json text) = Throw e) /\
  fst (parse_ai_content probe_monitor (VStr text) w) = Throw gave_up /\
  fst (parse_ai_content probe_monitor (VStr (in_prose text)) w) = Throw gave_up /\
  (exists response w',
     POST mumbai_request (world_answering prescribed_document) = (Return response, w') /\
     http_status response = 200 /\
     List.length (day_entries (http_body response)) = 2%nat /\
     List.length (day_entries prescribed_document) = 1%nat) /\
  JSON_parse (JSON_stringify day_ten_document) = Return day_ten_document /\
  (exists parsed w',
     parse_ai_content probe_monitor (VStr (in_prose (JSON_stringify day_ten_document))) w
     = (Return parsed, w') /\
     prop (prop (prop parsed (js "days")) (js "0")) (js "day") = VStr (js "10") /\
     deep_equal parsed day_ten_document = false).
Proof.
  cbv zeta. split; [vm_compute; reflexivity|].
  split; [vm_compute; discriminate|].
  split; [eexists; vm_compute; reflexivity|].
  split; [vm_compute; reflexivity|].
  split; [vm_compute; reflexivity|].
  split; [eexists _, _; split; [vm_compute; reflexivity|]; vm_compute; repeat split|].
  split; [vm_compute; reflexivity|].
  eexists _, _; split; [vm_compute; reflexivity|]; vm_compute; split; reflexivity.
Qed.

(* ------------------------------------------------------------------ *)
(** ** Rules for runs on a fixed network *)

Section OnNetwork.
Variable net : nat -> jsstr -> NetReply.

Lemma on_ret {A} (a : A) (Q : A -> Prop) R : Q a -> on_network net (ret a) Q R.
Proof. intros H w Hw. cbn. auto. Qed.

Lemma on_throw {A} e (Q : A -> Prop) (R : JsError -> Prop) :
  R e -> on_network net (@throw A e) Q R.
Proof. intros H w Hw. cbn. auto. Qed.

Lemma on_lift {A} (o : Outcome A) (Q : A -> Prop) (R : JsError -> Prop) :
  match o with Return a => Q a | Throw e => R e end -> on_network net (lift o) Q R.
Proof. intros H w Hw. unfold lift. destruct o; auto. Qed.

Lemma on_bind {A B} (m : M A) (k : A -> M B) (Q1 : A -> Prop) Q R :
  on_network net m Q1 R ->
  (forall a, Q1 a -> on_network net (k a) Q R) ->
  on_network net (bind m k) Q R.
Proof.
  intros Hm Hk w Hw. unfold bind. specialize (Hm w Hw).
  destruct (m w) as [[a | e] w1].
  - destruct Hm as [Ha Hw1]. apply (Hk a Ha w1 Hw1).
  - exact Hm.
Qed.

Lemma on_try_catch {A} (m : M A) (h : JsError -> M A) (R1 : JsError -> Prop) Q R :
  on_network net m Q R1 ->
  (forall e, R1 e -> on_network net (h e) Q R) ->
  on_network net (try_catch m h) Q R.
Proof.
  intros Hm Hh w Hw. unfold try_catch. specialize (Hm w Hw).
  destruct (m w) as [[a | e] w1].
  - exact Hm.
  - destruct Hm as [He Hw1]. apply (Hh e He w1 Hw1).
Qed.

Lemma on_weaken {A} (m : M A) (Q Q' : A -> Prop) (R R' : JsError -> Prop) :
  on_network net m Q R ->
  (forall a, Q a -> Q' a) -> (forall e, R e -> R' e) ->
  on_network net m Q' R'.
Proof.
  intros Hm HQ HR w Hw. specialize (Hm w Hw).
  destruct (m w) as [[a | e] w1]; destruct Hm; split; auto.
Qed.

Lemma on_if {A} (c : bool) (m1 m2 : M A) Q R :
  (c = true -> on_network net m1 Q R) ->
  (c = false -> on_network net m2 Q R) ->
  on_network net (if c then m1 else m2) Q R.
Proof. destruct c; auto. Qed.

(** A computation that leaves the network alone may return or throw
    anything. *)
Lemma on_keeps {A} (m : M A) :
  keeps upstream m -> on_network net m anything anything.
Proof.
  intros Hm w Hw. specialize (Hm w).
  destruct (m w) as [[a | e] w1]; cbn in Hm; split;
    try exact I; congruence.
Qed.

(** One that moreover always returns. *)
Lemma on_total {A} (m : M A) :
  keeps upstream m -> (forall w, exists a, fst (m w) = Return a) ->
  forall R, on_network net m anything R.
Proof.
  intros Hm Hr R w Hw. specialize (Hm w). destruct (Hr w) as [a Ha].
  destruct (m w) as [[a' | e] w1]; cbn in *; [|discriminate].
  split; [exact I | congruence].
Qed.

Lemma on_get_world R :
  on_network net get_world (fun w => upstream w = net) R.
Proof. intros w Hw. cbn. auto. Qed.

Lemma on_Date_now R : on_network net Date_now anything R.
Proof. intros w Hw. cbn. split; [exact I | exact Hw]. Qed.

Lemma on_now_iso R : on_network net now_iso anything R.
Proof. intros w Hw. cbn. split; [exact I | exact Hw]. Qed.

Lemma on_console lvl text R : on_network net (console lvl text) anything R.
Proof.
  apply on_total; [apply keeps_console, blind_upstream|].
  intros w. eexists. reflexivity.
Qed.

Lemma on_monitor_log m msg R : on_network net (monitor_log m msg) anything R.
Proof.
  apply on_total; [apply keeps_monitor_log, blind_upstream|].
  intros w. eexists. reflexivity.
Qed.

Lemma on_monitor_error m msg R : on_network net (monitor_error m msg) anything R.
Proof.
  apply on_total; [apply keeps_monitor_error, blind_upstream|].
  intros w. eexists. reflexivity.
Qed.

Lemma on_monitor_finish m b R : on_network net (monitor_finish m b) anything R.
Proof.
  apply on_total; [apply keeps_monitor_finish, blind_upstream|].
  intros w. eexists. reflexivity.
Qed.

Lemma on_newPerformanceMonitor op R :
  on_network net (newPerformanceMonitor op) anything R.
Proof.
  apply on_total; [apply keeps_newPerformanceMonitor, blind_upstream|].
  intros w. eexists. reflexivity.
Qed.

Lemma on_randomUUID R : on_network net randomUUID anything R.
Proof. intros w Hw. cbn. split; [exact I | exact Hw]. Qed.

(** What [fetch] returns is what the network answered. *)
Lemma on_fetch url signal :
  on_network net (fetch url signal)
    (fun response => exists n, result (net n url) = Return response) anything.
Proof.
  intros w Hw.
  assert (Hk : upstream (snd (fetch url signal w)) = net).
  { rewrite (keeps_fetch upstream blind_upstream url signal w). exact Hw. }
  assert (Hv : forall r, fst (fetch url signal w) = Return r ->
                         exists n, result (net n url) = Return r).
  { intros r. unfold fetch. rewrite Hw.
    destruct signal as [c|]; cbv zeta.
    - destruct (is_aborted c _); [discriminate|].
      destruct (abort_due c _) as [d|].
      + destruct (_ <? d); cbn; [eauto | discriminate].
      + cbn; eauto.
    - cbn; eauto. }
  destruct (fetch url signal w) as [[r | e] w1]; cbn in *.
  - split; [apply Hv; reflexivity | exact Hk].
  - split; [exact I | exact Hk].
Qed.

Lemma on_response_json response :
  on_network net (response_json response)
    (fun data => json_body response = Return data) anything.
Proof.
  intros w Hw. unfold response_json. destruct (json_body response); cbn; auto.
  split; [exact I | exact Hw].
Qed.

End OnNetwork.

(* ------------------------------------------------------------------ *)
(** ** Reading and writing properties *)

Lemma lookup_update_same k x fields : lookup k (update k x fields) = Some x.
Proof.
  induction fields as [|[k' v] rest IH]; cbn.
  - rewrite str_eqb_refl. reflexivity.
  - destruct (str_eqb k k') eqn:E; cbn.
    + rewrite str_eqb_refl. reflexivity.
    + rewrite E. exact IH.
Qed.

Lemma lookup_update_other k k' x fields :
  k' <> k -> lookup k' (update k x fields) = lookup k' fields.
Proof.
  intros Hk. induction fields as [|[k0 v] rest IH]; cbn.
  - rewrite (str_eqb_neq _ _ Hk). reflexivity.
  - destruct (str_eqb k k0) eqn:E; cbn.
    + apply str_eqb_eq in E. subst k0.
      rewrite (str_eqb_neq _ _ Hk). reflexivity.
    + destruct (str_eqb k' k0); [reflexivity | exact IH].
Qed.

Lemma prop_update_same k x fields : prop (VObj (update k x fields)) k = x.
Proof. cbn. rewrite lookup_update_same. reflexivity. Qed.

Lemma prop_update_other k k' x fields :
  k' <> k -> prop (VObj (update k x fields)) k' = prop (VObj fields) k'.
Proof. intros Hk. cbn. rewrite (lookup_update_other _ _ _ _ Hk). reflexivity. Qed.

Lemma get_object fields k : get (VObj fields) k = Return (prop (VObj fields) k).
Proof. reflexivity. Qed.

Lemma set_object fields k x : set (VObj fields) k x = Return (VObj (update k x fields)).
Proof. reflexivity. Qed.

Lemma text_not_nullish v k : is_text (prop v k) -> is_nullish v = false.
Proof. intros [s Hs]. destruct v; try reflexivity; discriminate. Qed.

Lemma starts_with_app p s : starts_with p (p ++ s) = true.
Proof.
  induction p as [|c p IH]; cbn; [reflexivity|].
  rewrite N.eqb_refl. exact IH.
Qed.

Lemma map_out_same {A} (f : A -> Outcome A) (l : list A) :
  Forall (fun x => f x = Return x) l -> map_out f l = Return l.
Proof.
  induction 1 as [|x l Hx _ IH]; cbn; [reflexivity|].
  rewrite Hx. cbn. rewrite IH. reflexivity.
Qed.

Lemma fold_out_returns {A S} (f : S -> A -> Outcome S) (l : list A) :
  Forall (fun x => forall s, exists s', f s x = Return s') l ->
  forall s, exists s', fold_out f l s = Return s'.
Proof.
  induction 1 as [|x l Hx _ IH]; intros s; cbn; [eauto|].
  destruct (Hx s) as [s' Hs']. rewrite Hs'. cbn. apply IH.
Qed.

Lemma Forall_take {A} (P : A -> Prop) (n : nat) (l : list A) :
  Forall P l -> Forall P (firstn n l).
Proof.
  intros H. revert n. induction H as [|x l Hx _ IH]; intros [|n]; cbn;
    constructor; auto.
Qed.

Ltac keys_differ :=
  let H := fresh in intro H; vm_compute in H; discriminate.

(* ------------------------------------------------------------------ *)
(** ** Google Places *)

Section Places.
Variable net : nat -> jsstr -> NetReply.
Hypothesis conforming : google_conforming net.

Lemma place_list_nil : place_list (VArr []).
Proof. exists []. split; [reflexivity | constructor]. Qed.

Lemma place_list_slice data n url response :
  starts_with places_search_prefix url = true ->
  result (net n url) = Return response ->
  json_body response = Return data ->
  strict_eq (prop data (js "status")) (VStr (js "OK")) = true ->
  match call_slice (prop data (js "results")) 5 with
  | Return top => place_list top
  | Throw _ => True
  end.
Proof.
  intros Hu Hr Hd Hs.
  destruct (conforming n url response data Hu Hr Hd Hs) as [results [-> Hall]].
  cbn. exists (firstn 5 results). split; [reflexivity|].
  apply Forall_take. exact Hall.
Qed.

Lemma on_lift_any {A} (o : Outcome A) R :
  (forall e, o = Throw e -> R e) -> on_network net (lift o) (fun a => o = Return a) R.
Proof. intros H. apply on_lift. destruct o; auto. Qed.

Lemma places_url_prefix encoded apiKey type :
  starts_with places_search_prefix (places_url encoded apiKey type) = true.
Proof.
  unfold places_url, places_search_prefix. apply starts_with_app.
Qed.

Lemma get_prop v k x : get v k = Return x -> x = prop v k.
Proof. unfold get. destruct (is_nullish v); congruence. Qed.

(** A search never throws, and what it finds has the declared type. *)
Lemma on_searchRealPlaces query city type R :
  on_network net (searchRealPlaces query city type) place_list R.
Proof.
  unfold searchRealPlaces.
  eapply on_bind; [apply on_get_world | intros w Hw].
  destruct (key_configured (GOOGLE_PLACES_API_KEY w)) as [apiKey|].
  2:{ eapply on_bind; [apply on_console | intros ? _].
      apply on_ret, place_list_nil. }
  apply on_try_catch with (R1 := anything).
  2:{ intros e _. eapply on_bind; [apply on_console | intros ? _].
      apply on_ret, place_list_nil. }
  eapply on_bind; [apply on_lift_any; intros; exact I | intros trimmed _].
  cbv zeta.
  eapply on_bind; [apply on_console | intros ? _].
  eapply on_bind; [apply on_lift_any; intros; exact I | intros encoded _].
  eapply on_bind; [apply on_fetch | intros response [n Hn]].
  apply on_if; intros Hok; [apply on_throw; exact I|].
  eapply on_bind; [apply on_response_json | intros data Hd].
  eapply on_bind; [apply on_lift_any; intros; exact I | intros ds Hds].
  apply get_prop in Hds. subst ds.
  apply on_if; intros Hst.
  - eapply on_bind; [apply on_console | intros ? _].
    eapply on_bind with
      (Q1 := fun broader => match broader with Some top => place_list top | None => True end).
    2:{ intros [top|] Hb; [apply on_ret; exact Hb | apply on_throw; exact I]. }
    apply on_if; intros Hz; [|apply on_ret; exact I].
    destruct type as [[|c t]|]; try (apply on_ret; exact I).
    eapply on_bind; [apply on_console | intros ? _].
    eapply on_bind; [apply on_lift_any; intros; exact I | intros encoded' _].
    eapply on_bind; [apply on_fetch | intros response' [n' Hn']].
    apply on_if; intros Hok'; [|apply on_ret; exact I].
    eapply on_bind; [apply on_response_json | intros data' Hd'].
    eapply on_bind; [apply on_lift_any; intros; exact I | intros ds' Hds'].
    apply get_prop in Hds'. subst ds'.
    apply on_if; intros Hst'; [|apply on_ret; exact I].
    eapply on_bind; [apply on_lift_any; intros; exact I | intros results Hres].
    apply get_prop in Hres. subst results.
    eapply on_bind; [apply on_lift_any; intros; exact I | intros count _].
    eapply on_bind; [apply on_console | intros ? _].
    pose proof (place_list_slice data' n' _ response'
                  (places_url_prefix encoded' apiKey None) Hn' Hd' Hst') as Hslice.
    eapply on_bind; [apply on_lift_any; intros; exact I | intros top Htop].
    rewrite Htop in Hslice. apply on_ret. exact Hslice.
  - apply negb_false_iff in Hst.
    eapply on_bind; [apply on_lift_any; intros; exact I | intros results Hres].
    apply get_prop in Hres. subst results.
    eapply on_bind; [apply on_lift_any; intros; exact I | intros count _].
    eapply on_bind; [apply on_console | intros ? _].
    pose proof (place_list_slice data n _ response
                  (places_url_prefix encoded apiKey type) Hn Hd Hst) as Hslice.
    apply on_lift. destruct (call_slice _ 5); [exact Hslice | exact I].
Qed.

Lemma on_getPlaceDetails placeId R :
  on_network net (getPlaceDetails placeId) anything R.
Proof.
  unfold getPlaceDetails.
  eapply on_bind; [apply on_get_world | intros w Hw].
  destruct (key_configured (GOOGLE_PLACES_API_KEY w)) as [apiKey|];
    [|apply on_ret; exact I].
  apply on_try_catch with (R1 := anything).
  2:{ intros e _. eapply on_bind; [apply on_console | intros ? _].
      apply on_ret; exact I. }
  eapply on_weaken with (Q := anything) (R := anything); auto.
  apply on_keeps.
  apply keeps_bind; [apply keeps_fetch, blind_upstream | intros response].
  apply keeps_if; [apply keeps_ret|].
  apply keeps_bind; [apply keeps_response_json | intros data].
  apply keeps_bind; [apply keeps_lift | intros found]. apply keeps_ret.
Qed.

Lemma get_ok v k : is_nullish v = false -> get v k = Return (prop v k).
Proof. intros H. unfold get. rewrite H. reflexivity. Qed.

Lemma nullish_prop v k : is_nullish (prop v k) = false -> is_nullish v = false.
Proof. destruct v; try reflexivity; intros H; exact H. Qed.

Lemma prop_first x l : prop (VArr (x :: l)) (js "0") = x.
Proof. reflexivity. Qed.

Lemma on_bind_return {A B} (a : A) (k : A -> M B) Q R :
  on_network net (k a) Q R -> on_network net (bind (lift (Return a)) k) Q R.
Proof. intros H w Hw. apply (H w Hw). Qed.

Lemma enhanced_from_refl fields : enhanced_from (VObj fields) (VObj fields).
Proof. split; [eexists; reflexivity | reflexivity]. Qed.

Lemma enhanced_from_location fields x :
  enhanced_from (VObj fields) (VObj (update (js "location") x fields)).
Proof.
  split; [eexists; reflexivity|]. intros k H1 H2.
  apply prop_update_other. exact H1.
Qed.

Lemma enhanced_from_status fields x y :
  enhanced_from (VObj fields)
    (VObj (update (js "currentStatus") y (update (js "location") x fields))).
Proof.
  split; [eexists; reflexivity|]. intros k H1 H2.
  rewrite prop_update_other by exact H2. apply prop_update_other. exact H1.
Qed.

(** Enhancing an entry never throws when its fallback can be looked up. *)
Lemma on_enhance_with fields wanted city type fallbackOf R :
  (exists v, fallbackOf wanted city = Return v) ->
  on_network net (enhance_with (VObj fields) wanted city type fallbackOf)
    (enhanced_from (VObj fields)) R.
Proof.
  intros [fallback Hfb]. unfold enhance_with.
  eapply on_bind; [apply on_searchRealPlaces | intros found [items [-> Hall]]].
  apply on_if; intros Hlen.
  - destruct items as [|best rest]; [vm_compute in Hlen; discriminate|].
    rewrite prop_first. cbv zeta.
    inversion Hall as [|? ? Hbest _]; subst.
    unfold google_place in Hbest.
    pose proof (nullish_prop _ _ Hbest) as Hgeo.
    pose proof (nullish_prop _ _ Hgeo) as Hb.
    rewrite (get_ok _ (js "place_id") Hb). apply on_bind_return.
    eapply on_bind; [apply on_getPlaceDetails | intros details _].
    rewrite (get_ok _ (js "geometry") Hb). apply on_bind_return.
    rewrite (get_ok _ (js "location") Hgeo). apply on_bind_return.
    rewrite (get_ok _ (js "lat") Hbest). apply on_bind_return.
    rewrite (get_ok _ (js "lng") Hbest). apply on_bind_return.
    rewrite set_object. apply on_bind_return.
    apply on_if; intros Hwk.
    + eapply on_bind; [apply on_Date_now | intros now _].
      rewrite set_object. apply on_lift. apply enhanced_from_status.
    + apply on_ret. apply enhanced_from_location.
  - rewrite Hfb. apply on_bind_return.
    apply on_if; intros Ht.
    + rewrite set_object. apply on_lift. apply enhanced_from_location.
    + apply on_ret. apply enhanced_from_refl.
Qed.

Lemma known_or_first_text s table : exists v, known_or_first (VStr s) table = Return v.
Proof.
  unfold known_or_first. cbn. destruct (find_known _ table); eauto.
Qed.

Lemma getFallbackPlace_text s city : exists v, getFallbackPlace (VStr s) city = Return v.
Proof.
  unfold getFallbackPlace. cbv zeta.
  repeat match goal with |- context [if ?c then _ else _] => destruct c end;
    try apply known_or_first_text; eauto.
Qed.

Lemma getFallbackRestaurant_text s city :
  exists v, getFallbackRestaurant (VStr s) city = Return v.
Proof.
  unfold getFallbackRestaurant. cbv zeta.
  repeat match goal with |- context [if ?c then _ else _] => destruct c end;
    try apply known_or_first_text; eauto.
Qed.

Lemma on_enhance_activity city activity R :
  named_activity activity ->
  on_network net (enhance_activity city activity) priced R.
Proof.
  intros [[[fields ->] Hcost] Hname]. unfold enhance_activity.
  rewrite get_object. apply on_bind_return.
  pose proof (text_not_nullish _ _ Hname) as Hloc.
  unfold get_opt. rewrite Hloc.
  destruct Hname as [s Hs]. rewrite Hs.
  apply on_if; intros Ht.
  - apply on_weaken with (Q := enhanced_from (VObj fields)) (R := R);
      [apply on_enhance_with, getFallbackPlace_text | | auto].
    intros entry' [Hobj Hsame]. split; [exact Hobj|].
    rewrite Hsame; [exact Hcost | keys_differ | keys_differ].
  - apply on_ret. split; [eexists; reflexivity | exact Hcost].
Qed.

Lemma on_enhance_meal city label meal R :
  named_meal label meal ->
  on_network net (enhance_meal city meal) (labelled label) R.
Proof.
  intros [[[fields ->] Hlabel] [s Hs]]. unfold enhance_meal.
  rewrite get_object. apply on_bind_return. rewrite Hs.
  apply on_if; intros Ht.
  - apply on_weaken with (Q := enhanced_from (VObj fields)) (R := R);
      [apply on_enhance_with, getFallbackRestaurant_text | | auto].
    intros entry' [Hobj Hsame]. split; [exact Hobj|].
    rewrite Hsame; [exact Hlabel | keys_differ | keys_differ].
  - apply on_ret. split; [eexists; reflexivity | exact Hlabel].
Qed.

Lemma on_map_M {A B} (f : A -> M B) (P : A -> Prop) (Q : B -> Prop) l R :
  (forall x, P x -> on_network net (f x) Q R) ->
  Forall P l ->
  on_network net (map_M f l)
    (fun l' => List.length l' = List.length l /\ Forall Q l') R.
Proof.
  intros Hf. induction 1 as [|x l Hx _ IH]; cbn [map_M].
  - apply on_ret. split; [reflexivity | constructor].
  - eapply on_bind; [apply (Hf x Hx) | intros y Hy].
    eapply on_bind; [apply IH | intros ys [Hlen Hys]].
    apply on_ret. split; [cbn; congruence | constructor; assumption].
Qed.

Lemma on_map_M2 {A B C} (f : A -> M B) (P : C -> A -> Prop) (Q : C -> B -> Prop)
    cs l R :
  (forall c x, P c x -> on_network net (f x) (Q c) R) ->
  Forall2 P cs l ->
  on_network net (map_M f l) (Forall2 Q cs) R.
Proof.
  intros Hf. induction 1 as [|c x cs l Hx _ IH]; cbn [map_M].
  - apply on_ret. constructor.
  - eapply on_bind; [apply (Hf c x Hx) | intros y Hy].
    eapply on_bind; [apply IH | intros ys Hys].
    apply on_ret. constructor; assumption.
Qed.

Lemma named_is_priced activity : named_activity activity -> priced activity.
Proof. intros [H _]. exact H. Qed.

(** One pass of the loop over the periods of a day. *)
Lemma on_period_step city day period activities R :
  is_object day ->
  prop day period = VArr activities ->
  Forall named_activity activities ->
  on_network net
    (list <- lift (get day period) ;;
     if truthy list then
       list' <- for_of_update list (enhance_activity city) ;;
       lift (set day period list')
     else ret day)
    (fun day' =>
       is_object day' /\
       (exists activities', prop day' period = VArr activities' /\
                            Forall priced activities') /\
       forall k, k <> period -> prop day' k = prop day k) R.
Proof.
  intros [fields ->] Hp Hall.
  rewrite get_object, Hp. apply on_bind_return. cbn [truthy for_of_update].
  eapply on_bind.
  - eapply on_bind; [apply (on_map_M (enhance_activity city) named_activity priced);
                     [intros x Hx; apply on_enhance_activity, Hx | exact Hall]
                    | intros items' [_ Hitems]].
    apply on_ret with (Q := fun list' => exists activities',
                                list' = VArr activities' /\ Forall priced activities').
    eauto.
  - intros list' [activities' [-> Hpriced]]. rewrite set_object. apply on_lift.
    split; [eexists; reflexivity|]. split.
    + exists activities'. rewrite prop_update_same. auto.
    + intros k Hk. apply prop_update_other. exact Hk.
Qed.

Lemma on_periods city ps R :
  NoDup ps ->
  forall day,
    is_object day ->
    (forall p, In p ps ->
       exists activities, prop day p = VArr activities /\
                          Forall named_activity activities) ->
    on_network net
      (fold_M
         (fun day period =>
            list <- lift (get day period) ;;
            if truthy list then
              list' <- for_of_update list (enhance_activity city) ;;
              lift (set day period list')
            else ret day)
         ps day)
      (fun day' =>
         is_object day' /\
         (forall p, In p ps ->
            exists activities, prop day' p = VArr activities /\
                               Forall priced activities) /\
         forall k, ~ In k ps -> prop day' k = prop day k) R.
Proof.
  induction 1 as [|p ps Hp Hnd IH]; intros day Hobj Hall; cbn [fold_M].
  - apply on_ret. split; [exact Hobj|]. split; [intros p []|reflexivity].
  - destruct (Hall p (or_introl eq_refl)) as [activities [Hget Hacts]].
    eapply on_bind; [apply (on_period_step city day p activities R Hobj Hget Hacts)|].
    intros day1 [Hobj1 [[activities1 [Hget1 Hacts1]] Hsame1]].
    eapply on_weaken; [apply (IH day1 Hobj1) | | auto].
    + intros q Hq. rewrite Hsame1 by (intros ->; contradiction).
      apply Hall. right. exact Hq.
    + intros day' [Hobj' [Hall' Hsame']]. split; [exact Hobj'|]. split.
      * intros q [<- | Hq]; [|apply Hall'; exact Hq].
        rewrite (Hsame' p Hp). eauto.
      * intros k Hk. rewrite Hsame'; [apply Hsame1|]; intro; apply Hk; [left|right]; auto.
Qed.

Lemma NoDup_periods : NoDup periods.
Proof.
  unfold periods. repeat constructor; cbn; intros H;
    repeat (destruct H as [H | H]; [revert H; keys_differ|]); exact H.
Qed.

Lemma periods_not k : In k periods -> k <> js "dining" /\ k <> js "weather".
Proof.
  unfold periods. cbn. intros H.
  repeat (destruct H as [<- | H]; [split; keys_differ|]). destruct H.
Qed.

Lemma on_enhance_day city day R :
  planned_day named_activity named_meal day ->
  on_network net (enhance_day city day) (planned_day priced labelled) R.
Proof.
  intros [Hobj [Hweather [Hperiods [meals [Hdining Hmeals]]]]]. unfold enhance_day.
  eapply on_bind; [apply (on_periods city periods R NoDup_periods day Hobj Hperiods)|].
  intros day3 [[fields ->] [Hperiods3 Hsame3]].
  assert (Hd3 : prop (VObj fields) (js "dining") = VArr meals).
  { rewrite Hsame3; [exact Hdining|]. intros Hin. apply periods_not in Hin. tauto. }
  assert (Hw3 : is_text (prop (VObj fields) (js "weather"))).
  { rewrite Hsame3; [exact Hweather|]. intros Hin. apply periods_not in Hin. tauto. }
  rewrite get_object, Hd3. apply on_bind_return. cbn [truthy for_of_update].
  eapply on_bind.
  - eapply on_bind; [apply (on_map_M2 (enhance_meal city) named_meal labelled);
                     [intros c x Hx; apply on_enhance_meal, Hx | exact Hmeals]
                    | intros meals' Hmeals'].
    apply on_ret with (Q := fun dining' => exists meals',
                                dining' = VArr meals' /\ Forall2 labelled three_meals meals').
    eauto.
  - intros dining' [meals' [-> Hmeals']]. rewrite set_object. apply on_lift.
    split; [eexists; reflexivity|]. split; [|split].
    + rewrite prop_update_other by keys_differ. exact Hw3.
    + intros p Hp. rewrite prop_update_other by (apply periods_not; exact Hp).
      apply Hperiods3. exact Hp.
    + exists meals'. rewrite prop_update_same. auto.
Qed.

Lemma on_enhanceWithRealPlaces city n itinerary R :
  planned named_activity named_meal n itinerary ->
  on_network net (enhanceWithRealPlaces itinerary city)
    (planned priced labelled n) R.
Proof.
  intros [[fields ->] [entries [Hdays [Hlen Hall]]]]. unfold enhanceWithRealPlaces.
  unfold get_opt. cbn [is_nullish]. rewrite Hdays. cbn [truthy negb for_of_update].
  eapply on_bind.
  - eapply on_bind; [apply (on_map_M (enhance_day city)
                              (planned_day named_activity named_meal)
                              (planned_day priced labelled));
                     [intros x Hx; apply on_enhance_day, Hx | exact Hall]
                    | intros entries' Hentries'].
    apply on_ret with (Q := fun days' => exists entries',
                                days' = VArr entries' /\
                                List.length entries' = n /\
                                Forall (planned_day priced labelled) entries').
    destruct Hentries' as [Hlen' Hall']. exists entries'.
    split; [reflexivity|]. split; [congruence | exact Hall'].
  - intros days' [entries' [-> [Hlen' Hall']]]. rewrite set_object. apply on_lift.
    split; [eexists; reflexivity|]. exists entries'.
    rewrite prop_update_same. auto.
Qed.

End Places.

(* ------------------------------------------------------------------ *)
(** ** The deterministic itinerary is planned in full *)

Lemma places_named city day k :
  In k place_keys ->
  is_text (prop (prop (getDaySpecificPlaces city day) k) (js "name")).
Proof.
  intros Hk. unfold getDaySpecificPlaces, select_day. cbv zeta.
  repeat match goal with |- context [if ?c then _ else _] => destruct c end;
    unfold place_keys in Hk; cbn [In] in Hk;
    repeat (destruct Hk as [<- | Hk]; [eexists; vm_compute; reflexivity|]);
    destruct Hk.
Qed.

Lemma activity_entry_named time activity location description cost duration :
  is_text (prop location (js "name")) ->
  named_activity (activity_entry time activity location description cost duration).
Proof.
  intros Hn. split; [split|].
  - eexists. reflexivity.
  - exists cost. reflexivity.
  - exact Hn.
Qed.

Lemma meal_entry_named meal spot cuisine price speciality rating ambiance note :
  is_text (prop spot (js "name")) ->
  named_meal (VStr meal)
    (meal_entry meal spot cuisine price speciality rating ambiance note).
Proof.
  intros Hn. split; [split|].
  - eexists. reflexivity.
  - reflexivity.
  - exact Hn.
Qed.

Lemma fallback_day_planned city date day :
  planned_day named_activity named_meal (fallback_day city date day).
Proof.
  assert (Hk : forall k, In k place_keys ->
               is_text (prop (prop (getDaySpecificPlaces city day) k) (js "name")))
    by (intros k; apply places_named).
  unfold fallback_day. cbv zeta.
  generalize dependent (getDaySpecificPlaces city day). intros dayPlaces Hk.
  split; [eexists; reflexivity|]. split; [eexists; reflexivity|]. split.
  - intros period Hp. unfold periods in Hp. cbn [In] in Hp.
    destruct Hp as [<- | [<- | [<- | []]]];
      (eexists; split; [reflexivity|]);
      (constructor; [|constructor]);
      apply activity_entry_named, Hk; unfold place_keys; cbn; tauto.
  - eexists. split; [reflexivity|]. unfold three_meals.
    repeat constructor; apply meal_entry_named, Hk; unfold place_keys; cbn; tauto.
Qed.

Lemma day_numbers_length days : List.length (day_numbers days) = Z.to_nat days.
Proof. unfold day_numbers. rewrite length_map, length_seq. reflexivity. Qed.

(** The deterministic generator returns, touches nothing, and plans every
    day of the trip. *)
Lemma generate_planned city days budget cityConfig w :
  exists itinerary,
    generateEnhancedFallbackItinerary city days budget cityConfig w
      = (Return itinerary, w) /\
    planned named_activity named_meal (Z.to_nat days) itinerary /\
    prop itinerary (js "metadata") = VUndef.
Proof.
  unfold generateEnhancedFallbackItinerary. cbv zeta.
  eexists. split; [reflexivity|]. split; [|reflexivity].
  split; [eexists; reflexivity|].
  eexists. split; [reflexivity|]. split.
  - rewrite length_map. apply day_numbers_length.
  - apply Forall_forall. intros day Hday. apply in_map_iff in Hday.
    destruct Hday as [d [<- _]]. apply fallback_day_planned.
Qed.

Lemma planned_day_weaken (A A' : value -> Prop) (L L' : value -> value -> Prop) day :
  (forall a, A a -> A' a) -> (forall l m, L l m -> L' l m) ->
  planned_day A L day -> planned_day A' L' day.
Proof.
  intros HA HL [Hobj [Hw [Hp [meals [Hd Hm]]]]].
  split; [exact Hobj|]. split; [exact Hw|]. split.
  - intros p Hin. destruct (Hp p Hin) as [acts [Hget Hacts]].
    exists acts. split; [exact Hget|]. eapply Forall_impl; [|exact Hacts]. exact HA.
  - exists meals. split; [exact Hd|]. eapply Forall2_impl; [|exact Hm]. exact HL.
Qed.

Lemma planned_weaken (A A' : value -> Prop) (L L' : value -> value -> Prop) n it :
  (forall a, A a -> A' a) -> (forall l m, L l m -> L' l m) ->
  planned A L n it -> planned A' L' n it.
Proof.
  intros HA HL [Hobj [entries [Hd [Hlen Hall]]]].
  split; [exact Hobj|]. exists entries. split; [exact Hd|]. split; [exact Hlen|].
  eapply Forall_impl; [|exact Hall]. intros day. apply planned_day_weaken; assumption.
Qed.

Lemma named_plan_is_priced n it :
  planned named_activity named_meal n it -> planned priced labelled n it.
Proof.
  apply planned_weaken; [apply named_is_priced | intros l m [H _]; exact H].
Qed.

(** A planned day has its three meals: the check on [dining] leaves it
    alone. *)
Lemma three_meals_kept (L : value -> value -> Prop) meals :
  Forall2 L three_meals meals ->
  negb (truthy (VArr meals)) || js_lt (prop (VArr meals) (js "length")) (VInt 3) = false.
Proof.
  unfold three_meals. intros H.
  inversion H as [|? m1 ? r1 _ H1]; subst.
  inversion H1 as [|? m2 ? r2 _ H2]; subst.
  inversion H2 as [|? m3 ? r3 _ H3]; subst.
  inversion H3; subst. reflexivity.
Qed.

Lemma labels_of meals labels :
  Forall2 labelled labels meals ->
  map (fun meal => prop meal (js "meal")) meals = labels.
Proof.
  induction 1 as [|l m ls ms [_ Hl] _ IH]; cbn; [reflexivity|].
  rewrite Hl, IH. reflexivity.
Qed.

Lemma planned_day_meals day :
  planned_day priced labelled day -> meal_labels day = three_meals.
Proof.
  intros [_ [_ [_ [meals [Hd Hm]]]]]. unfold meal_labels. rewrite Hd.
  apply labels_of. exact Hm.
Qed.

(** A planned itinerary passes [validateAndEnhanceItinerary] with its days
    as they are. *)
Lemma validate_planned (A : value -> Prop) (L : value -> value -> Prop)
    n itinerary city days budget cityConfig w :
  planned A L n itinerary ->
  exists itinerary',
    validateAndEnhanceItinerary itinerary city days budget cityConfig w
      = (Return itinerary', w) /\
    planned A L n itinerary'.
Proof.
  intros [[fields ->] [entries [Hdays [Hlen Hall]]]].
  unfold validateAndEnhanceItinerary. rewrite Hdays.
  cbn [truthy is_array negb orb].
  assert (Hloop : forall fields1,
            prop (VObj fields1) (js "days") = VArr entries ->
            obind (array_method (prop (VObj fields1) (js "days")) (js "forEach"))
              (fun entries0 =>
                 obind (map_out
                          (fun day =>
                             obind (get day (js "dining")) (fun dining =>
                             if negb (truthy dining)
                                || js_lt (prop dining (js "length")) (VInt 3)
                             then
                               obind (ensureAllMeals (or_else dining (VArr [])) city)
                                 (fun meals => set day (js "dining") meals)
                             else Return day))
                          entries0)
                   (fun entries1 => set (VObj fields1) (js "days") (VArr entries1)))
            = Return (VObj (update (js "days") (VArr entries) fields1))).
  { intros fields1 H1. rewrite H1. cbn [array_method obind].
    rewrite map_out_same; [reflexivity|].
    eapply Forall_impl; [|exact Hall].
    intros day [[dfields ->] [_ [_ [meals [Hd Hm]]]]].
    rewrite get_object, Hd. cbn [obind].
    rewrite (three_meals_kept L meals Hm). reflexivity. }
  assert (Hplanned : forall fields1,
            planned A L n (VObj (update (js "days") (VArr entries) fields1))).
  { intros fields1. split; [eexists; reflexivity|]. exists entries.
    rewrite prop_update_same. auto. }
  destruct (truthy (prop (VObj fields) (js "summary"))); cbn [negb].
  - eexists. split; [|apply (Hplanned fields)].
    unfold lift. cbn [obind]. rewrite (Hloop fields Hdays). reflexivity.
  - rewrite set_object. eexists. split; [|apply Hplanned].
    unfold lift. cbn [obind]. rewrite Hloop; [reflexivity|].
    rewrite prop_update_other by keys_differ. exact Hdays.
Qed.

(* ------------------------------------------------------------------ *)
(** ** The checks on a planned itinerary return *)

Lemma fold_out_total {A S} (f : S -> A -> Outcome S) (P : A -> Prop) (l : list A) :
  (forall s x, P x -> exists s', f s x = Return s') ->
  Forall P l ->
  forall s, exists s', fold_out f l s = Return s'.
Proof.
  intros Hf H. apply fold_out_returns.
  eapply Forall_impl; [|exact H]. intros x Hx s. apply Hf, Hx.
Qed.

(** The walk over a day that [extractLocationNames] and [countRealPlaces]
    share: every activity of every period, then every meal. *)
Lemma walk_day_returns {S} (f : S -> value -> Outcome S) day :
  (forall s entry, is_object entry -> exists s', f s entry = Return s') ->
  planned_day priced labelled day ->
  forall s, exists s',
    obind (fold_out
             (fun s period =>
                obind (get day period) (fun list =>
                obind (array_method_opt list (js "forEach")) (fun activities =>
                fold_out f activities s)))
             periods s) (fun s =>
    obind (get day (js "dining")) (fun dining =>
    obind (array_method_opt dining (js "forEach")) (fun meals =>
    fold_out f meals s)))
    = Return s'.
Proof.
  intros Hf [[fields ->] [_ [Hp [meals [Hd Hm]]]]] s.
  destruct (fold_out_total
              (fun s period =>
                 obind (get (VObj fields) period) (fun list =>
                 obind (array_method_opt list (js "forEach")) (fun activities =>
                 fold_out f activities s)))
              (fun p => In p periods) periods) with (s := s) as [s1 Hs1].
  - intros s0 p Hin. destruct (Hp p Hin) as [acts [Hget Hacts]].
    rewrite get_object, Hget. cbn [obind array_method_opt is_nullish array_method].
    apply (fold_out_total f priced); [|exact Hacts].
    intros s2 x [Hx _]. apply Hf, Hx.
  - apply Forall_forall. auto.
  - rewrite Hs1. cbn [obind]. rewrite get_object, Hd.
    cbn [obind array_method_opt is_nullish array_method].
    apply (fold_out_total f is_object); [intros; apply Hf; assumption|].
    clear - Hm. induction Hm as [|l m ls ms [Hobj _] _ IH]; constructor; assumption.
Qed.

Lemma add_location_returns names entry :
  is_object entry -> exists names', add_location names entry = Return names'.
Proof. intros [fields ->]. unfold add_location. rewrite get_object. cbn. eauto. Qed.

Lemma count_place_returns count entry :
  is_object entry -> exists count', count_place count entry = Return count'.
Proof. intros [fields ->]. unfold count_place. rewrite get_object. cbn. eauto. Qed.

Lemma extractLocationNames_returns n itinerary city :
  planned priced labelled n itinerary ->
  exists names, extractLocationNames itinerary city = Return names.
Proof.
  intros [[fields ->] [entries [Hdays [_ Hall]]]]. unfold extractLocationNames.
  rewrite get_object, Hdays. cbn [obind array_method_opt is_nullish array_method].
  destruct (fold_out_total
              (fun names day =>
                 obind (fold_out
                          (fun names period =>
                             obind (get day period) (fun list =>
                             obind (array_method_opt list (js "forEach")) (fun activities =>
                             fold_out add_location activities names)))
                          periods names) (fun names =>
                 obind (get day (js "dining")) (fun dining =>
                 obind (array_method_opt dining (js "forEach")) (fun meals =>
                 fold_out add_location meals names))))
              (planned_day priced labelled) entries) with (s := [VStr city])
    as [names Hnames].
  - intros s day Hday. apply (walk_day_returns add_location day); [|exact Hday].
    intros; apply add_location_returns; assumption.
  - exact Hall.
  - rewrite Hnames. cbn. eauto.
Qed.

Lemma countRealPlaces_returns n itinerary :
  planned priced labelled n itinerary ->
  exists count, countRealPlaces itinerary = Return count.
Proof.
  intros [[fields ->] [entries [Hdays [_ Hall]]]]. unfold countRealPlaces.
  unfold get_opt. cbn [is_nullish]. rewrite Hdays.
  cbn [truthy negb obind array_method].
  apply (fold_out_total _ (planned_day priced labelled)); [|exact Hall].
  intros s day Hday. apply (walk_day_returns count_place day); [|exact Hday].
  intros; apply count_place_returns; assumption.
Qed.

Lemma generic_cost_warning_returns index period warnings activity :
  priced activity ->
  exists warnings', generic_cost_warning index period warnings activity = Return warnings'.
Proof.
  intros [[fields ->] [cost Hcost]]. unfold generic_cost_warning.
  rewrite get_object, Hcost. cbn [obind].
  destruct (truthy (VStr cost)); cbn; eauto.
Qed.

Lemma validate_day_returns now parse warnings index day :
  planned_day priced labelled day ->
  exists warnings', validate_day now parse warnings (index, day) = Return warnings'.
Proof.
  intros [[fields ->] [[weather Hw] [Hp _]]]. unfold validate_day.
  rewrite get_object. cbn [obind]. rewrite Hw.
  destruct (truthy (VStr weather)); cbn [call_includes obind];
    (match goal with |- context [if ?c then fold_out _ _ _ else _] => destruct c end;
     [|eauto]);
    (apply (fold_out_total _ (fun p => In p periods));
     [|apply Forall_forall; auto]);
    intros s p Hin; destruct (Hp p Hin) as [acts [Hget Hacts]];
    rewrite Hget; cbn [obind array_method_opt is_nullish array_method];
    apply (fold_out_total _ priced); [|exact Hacts| |exact Hacts];
    intros; apply generic_cost_warning_returns; assumption.
Qed.

Lemma Forall_combine_snd {A B} (P : B -> Prop) (l1 : list A) (l2 : list B) :
  Forall P l2 -> Forall (fun x => P (snd x)) (combine l1 l2).
Proof.
  intros H. revert l1. induction H as [|x l Hx _ IH]; intros [|a l1]; cbn;
    constructor; auto.
Qed.

Lemma validateRealTimeData_returns n itinerary :
  planned priced labelled n itinerary ->
  returns_with (validateRealTimeData itinerary) anything.
Proof.
  intros [[fields ->] [entries [Hdays [_ Hall]]]] w. unfold validateRealTimeData.
  cbn [bind get_world]. unfold lift. rewrite get_object, Hdays.
  cbn [obind array_method_opt is_nullish array_method].
  destruct (fold_out_total (validate_day (clock w) (Date_parse w))
              (fun x => planned_day priced labelled (snd x))
              (combine (seq 0 (List.length entries)) entries)) with (s := @nil jsstr)
    as [warnings Hwarn].
  - intros s [i day] Hday. apply validate_day_returns, Hday.
  - apply Forall_combine_snd, Hall.
  - rewrite Hwarn. cbn [obind]. eexists. eexists. split; [reflexivity | exact I].
Qed.

(* ------------------------------------------------------------------ *)
(** ** Rules for computations that return *)

Lemma returns_ret {A} (a : A) (Q : A -> Prop) : Q a -> returns_with (ret a) Q.
Proof. intros H w. exists a, w. auto. Qed.

Lemma returns_bind {A B} (m : M A) (k : A -> M B) (Q1 : A -> Prop) Q :
  returns_with m Q1 -> (forall a, Q1 a -> returns_with (k a) Q) ->
  returns_with (bind m k) Q.
Proof.
  intros Hm Hk w. destruct (Hm w) as [a [w1 [E Ha]]].
  unfold bind. rewrite E. apply (Hk a Ha).
Qed.

Lemma returns_lift {A} (o : Outcome A) (Q : A -> Prop) :
  (exists a, o = Return a /\ Q a) -> returns_with (lift o) Q.
Proof. intros [a [-> Ha]] w. exists a, w. auto. Qed.

Lemma returns_if {A} (c : bool) (m1 m2 : M A) Q :
  returns_with m1 Q -> returns_with m2 Q -> returns_with (if c then m1 else m2) Q.
Proof. destruct c; auto. Qed.

(** A [try] whose handler returns, returns. *)
Lemma returns_try_catch {A} (m : M A) (h : JsError -> M A) :
  (forall e, returns_with (h e) anything) -> returns_with (try_catch m h) anything.
Proof.
  intros Hh w. unfold try_catch. destruct (m w) as [[a | e] w1].
  - exists a, w1. split; [reflexivity | exact I].
  - apply Hh.
Qed.

Lemma returns_monitor_log m msg : returns_with (monitor_log m msg) anything.
Proof. intros w. eexists. eexists. split; [reflexivity | exact I]. Qed.

Lemma returns_monitor_error m msg : returns_with (monitor_error m msg) anything.
Proof. intros w. eexists. eexists. split; [reflexivity | exact I]. Qed.

Lemma returns_monitor_finish m b : returns_with (monitor_finish m b) anything.
Proof. intros w. eexists. eexists. split; [reflexivity | exact I]. Qed.

Lemma returns_newPerformanceMonitor op :
  returns_with (newPerformanceMonitor op) anything.
Proof. intros w. eexists. eexists. split; [reflexivity | exact I]. Qed.

Lemma returns_now_iso : returns_with now_iso anything.
Proof. intros w. eexists. eexists. split; [reflexivity | exact I]. Qed.

Lemma returns_randomUUID : returns_with randomUUID anything.
Proof. intros w. eexists. eexists. split; [reflexivity | exact I]. Qed.

Lemma returns_Date_now : returns_with Date_now anything.
Proof. intros w. eexists. eexists. split; [reflexivity | exact I]. Qed.

Lemma answers_of_returns {A} net (m : M A) Q : returns_with m Q -> answers net m Q.
Proof. intros H w _. apply H. Qed.

Lemma answers_bind {A B} net (m : M A) (k : A -> M B) (Q1 : A -> Prop) Q :
  on_network net m Q1 nothing ->
  (forall a, Q1 a -> answers net (k a) Q) ->
  answers net (bind m k) Q.
Proof.
  intros Hm Hk w Hw. specialize (Hm w Hw). unfold bind.
  destruct (m w) as [[a | e] w1].
  - destruct Hm as [Ha Hw1]. apply (Hk a Ha w1 Hw1).
  - destruct Hm as [[] _].
Qed.

Lemma answers_try_catch {A} net (m : M A) (h : JsError -> M A) Q :
  answers net m Q -> answers net (try_catch m h) Q.
Proof.
  intros Hm w Hw. destruct (Hm w Hw) as [a [w1 [E Ha]]].
  unfold try_catch. rewrite E. eauto.
Qed.

(* ------------------------------------------------------------------ *)
(** ** From a planned itinerary to the response *)

Lemma complete_body days fields metadata images :
  planned priced labelled (Z.to_nat days) (VObj fields) ->
  complete_itinerary days
    (VObj (update (js "metadata") metadata
             (update (js "locationImages") images fields))).
Proof.
  intros [_ [entries [Hdays [Hlen Hall]]]].
  unfold complete_itinerary, day_entries.
  rewrite prop_update_other by keys_differ.
  rewrite prop_update_other by keys_differ.
  rewrite Hdays. split; [exact Hlen|].
  eapply Forall_impl; [|exact Hall]. apply planned_day_meals.
Qed.

Lemma on_validate net (A : value -> Prop) (L : value -> value -> Prop)
    n itinerary city days budget cityConfig R :
  planned A L n itinerary ->
  on_network net (validateAndEnhanceItinerary itinerary city days budget cityConfig)
    (planned A L n) R.
Proof.
  intros Hp w Hw.
  destruct (validate_planned A L n itinerary city days budget cityConfig w Hp)
    as [itinerary' [E Hp']].
  rewrite E. auto.
Qed.

Lemma returns_generate city days budget cityConfig :
  returns_with (generateEnhancedFallbackItinerary city days budget cityConfig)
    (fun itinerary =>
       planned named_activity named_meal (Z.to_nat days) itinerary /\
       prop itinerary (js "metadata") = VUndef).
Proof.
  intros w. destruct (generate_planned city days budget cityConfig w) as [it [E H]].
  exists it, w. auto.
Qed.

(** What follows the model: a planned itinerary becomes a 200 response
    with every day and every meal, whatever the place and image services
    answer. *)
Lemma finish_planned net globalMonitor request cityConfig itinerary :
  google_conforming net ->
  planned named_activity named_meal (Z.to_nat (days request)) itinerary ->
  answers net (finish_itinerary globalMonitor request cityConfig itinerary)
    (fun response =>
       http_status response = 200 /\
       complete_itinerary (days request) (http_body response)).
Proof.
  intros Hnet Hp. unfold finish_itinerary.
  eapply answers_bind; [apply on_validate, Hp | intros it1 Hp1].
  eapply answers_bind; [apply on_monitor_log | intros ? _].
  eapply answers_bind; [apply (on_enhanceWithRealPlaces net Hnet), Hp1 | intros it2 Hp2].
  apply answers_of_returns.
  eapply returns_bind; [apply (validateRealTimeData_returns _ _ Hp2) | intros rv _].
  eapply returns_bind;
    [apply returns_if; [apply returns_monitor_log | apply returns_ret; exact I]
    | intros ? _].
  destruct (extractLocationNames_returns _ _ (city request) Hp2) as [names Hnames].
  rewrite Hnames.
  eapply returns_bind; [apply returns_lift; exists names; split; [reflexivity | exact I]
                       | intros locationNames _].
  eapply returns_bind; [apply returns_monitor_log | intros ? _].
  eapply returns_bind; [apply returns_newPerformanceMonitor | intros imageMonitor _].
  eapply returns_bind.
  { apply returns_try_catch. intros e.
    eapply returns_bind; [apply returns_monitor_error | intros ? _].
    eapply returns_bind; [apply returns_monitor_log | intros ? _].
    cbv zeta. apply returns_if; apply returns_ret; exact I. }
  intros locationImages _.
  eapply returns_bind; [apply returns_now_iso | intros generatedAt _].
  eapply returns_bind; [apply returns_randomUUID | intros requestId _].
  eapply returns_bind; [apply returns_Date_now | intros now _].
  destruct (countRealPlaces_returns _ _ Hp2) as [count Hcount]. rewrite Hcount.
  eapply returns_bind; [apply returns_lift; exists count; split; [reflexivity | exact I]
                       | intros realPlacesCount _].
  cbv zeta.
  eapply returns_bind; [apply returns_monitor_finish | intros ? _].
  unfold respond. apply returns_ret. split; [reflexivity|].
  destruct Hp2 as [[fields ->] Hrest].
  cbn [http_body spread]. apply complete_body.
  split; [eexists; reflexivity | exact Hrest].
Qed.

(** The branch without a credential for the model. *)
Lemma respond_without_ai_complete globalMonitor request cityConfig :
  returns_with (respond_without_ai globalMonitor request cityConfig)
    (fun response =>
       http_status response = 200 /\
       complete_itinerary (days request) (http_body response)).
Proof.
  unfold respond_without_ai.
  eapply returns_bind; [apply returns_monitor_error | intros ? _].
  eapply returns_bind; [apply returns_monitor_log | intros ? _].
  eapply returns_bind; [apply returns_generate | intros it [Hp _]].
  apply named_plan_is_priced in Hp.
  destruct (extractLocationNames_returns _ _ (city request) Hp) as [names Hnames].
  rewrite Hnames.
  eapply returns_bind; [apply returns_lift; exists names; split; [reflexivity | exact I]
                       | intros locationNames _].
  eapply returns_bind.
  { apply returns_try_catch. intros e.
    eapply returns_bind; [apply returns_monitor_log | intros ? _].
    cbv zeta. apply returns_if; apply returns_ret; exact I. }
  intros locationImages _.
  eapply returns_bind; [apply returns_now_iso | intros generatedAt _].
  eapply returns_bind; [apply returns_randomUUID | intros requestId _].
  eapply returns_bind; [apply returns_Date_now | intros now _].
  cbv zeta.
  eapply returns_bind; [apply returns_monitor_finish | intros ? _].
  unfold respond. apply returns_ret. split; [reflexivity|].
  destruct Hp as [[fields ->] Hrest].
  cbn [http_body spread]. apply complete_body.
  split; [eexists; reflexivity | exact Hrest].
Qed.

(* ------------------------------------------------------------------ *)
(** ** The call to the model on a fixed network *)

Section ModelCall.
Variable net : nat -> jsstr -> NetReply.

Lemma on_newAbortController R : on_network net newAbortController anything R.
Proof.
  apply on_total; [apply keeps_newAbortController, blind_upstream|].
  intros w. eexists. reflexivity.
Qed.

Lemma on_setTimeout_abort c d R : on_network net (setTimeout_abort c d) anything R.
Proof.
  apply on_total; [apply keeps_setTimeout_abort, blind_upstream|].
  intros w. eexists. reflexivity.
Qed.

Lemma on_clearTimeout id R : on_network net (clearTimeout id) anything R.
Proof.
  apply on_total; [apply keeps_clearTimeout, blind_upstream|].
  intros w. eexists. reflexivity.
Qed.

Lemma on_sleep ms R : on_network net (sleep ms) anything R.
Proof.
  apply on_total; [apply keeps_sleep, blind_upstream|].
  intros w. eexists. reflexivity.
Qed.

(** What a deadline-bounded request returns is what the network answered. *)
Lemma on_fetchWithTimeout url timeout operation :
  on_network net (fetchWithTimeout url timeout operation)
    (fun response => exists n, result (net n url) = Return response) anything.
Proof.
  unfold fetchWithTimeout. cbv zeta.
  eapply on_bind; [apply on_newAbortController | intros controller _].
  eapply on_bind; [apply on_setTimeout_abort | intros timeoutId _].
  apply on_try_catch with (R1 := anything).
  - eapply on_bind; [apply on_fetch | intros response Hr].
    eapply on_bind; [apply on_clearTimeout | intros ? _].
    apply on_ret. exact Hr.
  - intros e _. eapply on_bind; [apply on_clearTimeout | intros ? _].
    apply on_if; intros _; apply on_throw; exact I.
Qed.

Lemma upstream_set_breaker self b w : upstream (set_breaker self b w) = upstream w.
Proof. destruct self; reflexivity. Qed.

Lemma on_set_breaker self (f : World -> CircuitBreaker) R :
  on_network net (modify (fun w => set_breaker self (f w) w)) anything R.
Proof.
  intros w Hw. cbn. split; [exact I|]. rewrite upstream_set_breaker. exact Hw.
Qed.

Lemma on_gate self : on_network net (gate self) anything anything.
Proof.
  unfold gate.
  eapply on_bind; [apply on_get_world | intros w Hw]. cbv zeta.
  destruct (state (breaker_of self w)); try (apply on_ret; exact I).
  eapply on_bind; [apply on_Date_now | intros now _].
  apply on_if; intros _; [|apply on_throw; exact I].
  eapply on_bind; [apply on_set_breaker | intros ? _].
  apply on_console.
Qed.

Lemma on_onSuccess self R : on_network net (onSuccess self) anything R.
Proof.
  unfold onSuccess.
  eapply on_bind; [apply on_set_breaker | intros ? _].
  eapply on_bind; [apply on_get_world | intros w Hw].
  destruct (state (breaker_of self w)); try (apply on_ret; exact I).
  eapply on_bind; [apply on_set_breaker | intros ? _].
  apply on_console.
Qed.

Lemma on_onFailure self R : on_network net (onFailure self) anything R.
Proof.
  unfold onFailure.
  eapply on_bind; [apply on_set_breaker | intros ? _].
  eapply on_bind; [apply on_Date_now | intros now _].
  eapply on_bind; [apply on_set_breaker | intros ? _].
  eapply on_bind; [apply on_get_world | intros w Hw]. cbv zeta.
  apply on_if; intros _; [|apply on_ret; exact I].
  eapply on_bind; [apply on_set_breaker | intros ? _].
  apply on_console.
Qed.

(** The breaker passes on what the operation returns. *)
Lemma on_execute {T} self (operation : M T) (Q : T -> Prop) :
  on_network net operation Q anything ->
  on_network net (execute self operation) Q anything.
Proof.
  intros Hop. unfold execute.
  eapply on_bind; [apply on_gate | intros ? _].
  apply on_try_catch with (R1 := anything).
  - eapply on_bind; [exact Hop | intros result Hr].
    eapply on_bind; [apply on_onSuccess | intros ? _].
    apply on_ret. exact Hr.
  - intros e _. eapply on_bind; [apply on_onFailure | intros ? _].
    apply on_throw. exact I.
Qed.

(** So does the retry loop. *)
Lemma on_retry_loop {T} (operation : M T) (Q : T -> Prop)
    maxAttempts baseDelay operationName fuel :
  on_network net operation Q anything ->
  forall attempt lastError,
    on_network net
      (retry_loop operation maxAttempts baseDelay operationName fuel attempt lastError)
      Q anything.
Proof.
  intros Hop. induction fuel as [|fuel IH]; intros attempt lastError; cbn [retry_loop].
  - apply on_throw. exact I.
  - apply on_if; intros _; [|apply on_throw; exact I].
    apply on_try_catch with (R1 := anything).
    + eapply on_bind; [apply on_newPerformanceMonitor | intros monitor _].
      eapply on_bind; [exact Hop | intros result Hr].
      eapply on_bind; [apply on_monitor_finish | intros ? _].
      apply on_ret. exact Hr.
    + intros e _. apply on_if; intros _.
      * eapply on_bind; [apply on_console | intros ? _]. apply on_throw. exact I.
      * cbv zeta. change (read_message e) with (lift (message_of e)).
        eapply on_bind;
          [apply on_lift with (Q := anything); destruct (message_of e); exact I
          | intros message _].
        eapply on_bind; [apply on_console | intros ? _].
        eapply on_bind; [apply on_sleep | intros ? _].
        apply IH.
Qed.

Lemma on_perplexity_call :
  on_network net perplexity_call
    (fun response => exists n, result (net n PERPLEXITY_URL) = Return response)
    anything.
Proof.
  unfold perplexity_call, retryWithBackoff.
  apply on_retry_loop, on_execute, on_fetchWithTimeout.
Qed.

Lemma on_parse_attempts remaining :
  forall parseAttempts globalMonitor content candidate,
    on_network net (parse_attempts remaining parseAttempts globalMonitor content candidate)
      anything anything.
Proof.
  induction remaining as [|remaining IH]; intros; cbn [parse_attempts].
  - apply on_ret. exact I.
  - destruct (JSON_parse _).
    + eapply on_bind; [apply on_monitor_log | intros ? _]. apply on_ret. exact I.
    + cbv zeta. eapply on_bind; [apply on_monitor_log | intros ? _].
      apply on_if; intros _.
      * eapply on_bind; [apply on_monitor_error | intros ? _]. apply on_throw. exact I.
      * apply IH.
Qed.

Lemma on_read_answer globalMonitor aiMonitor response :
  on_network net (read_answer globalMonitor aiMonitor response) anything anything.
Proof.
  unfold read_answer.
  eapply on_bind with (Q1 := anything).
  { apply on_if; intros _; [|apply on_ret; exact I].
    eapply on_bind with (Q1 := anything).
    - apply on_try_catch with (R1 := anything).
      + intros w Hw. unfold response_text.
        destruct (text_body response); cbn; (split; [exact I | exact Hw]).
      + intros e _. eapply on_bind; [apply on_console | intros ? _].
        apply on_ret. exact I.
    - intros errorData _. eapply on_bind; [apply on_monitor_error | intros ? _].
      apply on_throw. exact I. }
  intros ? _.
  eapply on_bind with (Q1 := anything).
  { apply on_try_catch with (R1 := anything).
    - eapply on_weaken; [apply on_response_json | intros; exact I | auto].
    - intros e _. eapply on_bind; [apply on_monitor_error | intros ? _].
      apply on_throw. exact I. }
  intros data _.
  eapply on_bind; [apply on_monitor_finish | intros ? _].
  eapply on_bind; [apply on_lift_any; intros; exact I | intros choices _].
  eapply on_bind with (Q1 := anything).
  { apply on_if; intros _; [apply on_throw | apply on_ret]; exact I. }
  intros ? _. cbv zeta.
  eapply on_bind; [apply on_monitor_log | intros ? _].
  unfold parse_ai_content.
  destruct (prop _ (js "content")); try (apply on_throw; exact I).
  destruct (match_brace_span _).
  - apply (on_parse_attempts 5).
  - eapply on_bind; [apply on_monitor_error | intros ? _]. apply on_throw. exact I.
Qed.

(** When the model fails, the [try] block around it throws. *)
Lemma on_ai_itinerary globalMonitor aiMonitor prompt :
  model_fails net ->
  on_network net (ai_itinerary globalMonitor aiMonitor prompt) nothing anything.
Proof.
  intros Hfails. unfold ai_itinerary.
  eapply on_bind; [apply on_perplexity_call | intros response [n Hn]].
  intros w Hw.
  pose proof (on_read_answer globalMonitor aiMonitor response w Hw) as Hk.
  destruct (Hfails n response Hn globalMonitor aiMonitor w) as [e [w' E]].
  rewrite E in *. exact Hk.
Qed.

(** And the handler puts the deterministic itinerary in its place. *)
Lemma on_itinerary_or_fallback globalMonitor request cityConfig prompt :
  model_fails net ->
  on_network net (itinerary_or_fallback globalMonitor request cityConfig prompt)
    (planned named_activity named_meal (Z.to_nat (days request))) nothing.
Proof.
  intros Hfails. unfold itinerary_or_fallback.
  eapply on_bind; [apply on_newPerformanceMonitor | intros aiMonitor _].
  apply on_try_catch with (R1 := anything);
    [eapply on_weaken; [apply on_ai_itinerary, Hfails | intros a [] | auto]
    | intros e _].
  eapply on_bind; [apply on_monitor_error | intros ? _].
  eapply on_bind; [apply on_monitor_log | intros ? _].
  eapply on_bind with
    (Q1 := planned named_activity named_meal (Z.to_nat (days request))).
  { intros w Hw.
    destruct (generate_planned (city request) (days request) (budget request)
                cityConfig w) as [it [E [Hp _]]].
    rewrite E. auto. }
  intros it Hp. apply on_if; intros _; [|apply on_ret; exact Hp].
  destruct Hp as [[fields ->] [entries [Hdays Hrest]]].
  rewrite set_object. apply on_lift.
  split; [eexists; reflexivity|]. exists entries.
  rewrite prop_update_other by keys_differ. auto.
Qed.

End ModelCall.

(* ------------------------------------------------------------------ *)
(** ** The endpoint *)

Lemma call_join_config key :
  inherited_key key = false ->
  truthy (CITY_CONFIGS key) = true ->
  exists tips, call_join (prop (CITY_CONFIGS key) (js "culturalTips")) [10%N] = Return tips.
Proof.
  intros Hkey. unfold CITY_CONFIGS. rewrite Hkey.
  repeat match goal with |- context [if ?c then _ else _] => destruct c end;
    intros Ht; try discriminate; eexists; vm_compute; reflexivity.
Qed.

Lemma on_build_prompt net request R :
  prompt_builds request ->
  on_network net (build_prompt request (CITY_CONFIGS (toLowerCase (city request))))
    anything R.
Proof.
  intros Hbuilds. unfold build_prompt. cbv zeta.
  eapply on_bind with (Q1 := anything).
  - destruct (includeCulturalTips request && truthy (CITY_CONFIGS _)) eqn:E;
      [|apply on_ret; exact I].
    apply andb_true_iff in E. destruct E as [Htips Htruthy].
    destruct Hbuilds as [Hoff | Hkey]; [congruence|].
    destruct (call_join_config _ Hkey Htruthy) as [tips Hjoin].
    rewrite Hjoin. apply on_bind_return. apply on_ret. exact I.
  - intros culturalTipsText _.
    eapply on_bind; [apply on_now_iso | intros today _].
    apply on_ret. exact I.
Qed.

(** A response with an error status is unusable. *)
Lemma error_status_unusable response : ok response = false -> unusable response.
Proof.
  intros Hok gm am w. unfold read_answer. rewrite Hok. cbn [negb].
  destruct (text_body response) eqn:T;
    unfold bind, try_catch, response_text; rewrite T;
    eexists; eexists; reflexivity.
Qed.

Lemma valid_request_checks request :
  valid_request request ->
  negb (truthy (VStr (city request))) || negb (truthy (VStr (budget request)))
    || negb (truthy (VInt (days request))) = false /\
  (days request <? 1) || (14 <? days request) = false.
Proof.
  intros [Hc [Hb Hd]]. split.
  - destruct (city request); [congruence|].
    destruct (budget request); [congruence|].
    cbn. destruct (days request =? 0) eqn:E; [|reflexivity].
    apply Z.eqb_eq in E. lia.
  - apply orb_false_iff. split; apply Z.ltb_ge; lia.
Qed.

Lemma POST_answers net request :
  valid_request request ->
  prompt_builds request ->
  model_fails net ->
  google_conforming net ->
  answers net (POST request)
    (fun response =>
       http_status response = 200 /\
       complete_itinerary (days request) (http_body response)).
Proof.
  intros Hvalid Hprompt Hmodel Hplaces. unfold POST.
  destruct (valid_request_checks request Hvalid) as [H1 H2].
  eapply answers_bind; [apply on_newPerformanceMonitor | intros globalMonitor _].
  apply answers_try_catch.
  eapply answers_bind; [apply on_monitor_log | intros ? _].
  rewrite H1, H2. cbv zeta.
  eapply answers_bind; [apply on_get_world | intros w0 _].
  destruct (key_configured (PERPLEXITY_API_KEY w0)).
  - eapply answers_bind; [apply on_monitor_log | intros ? _].
    eapply answers_bind; [apply on_build_prompt, Hprompt | intros prompt _].
    eapply answers_bind; [apply on_monitor_log | intros ? _].
    eapply answers_bind; [apply on_itinerary_or_fallback, Hmodel | intros itinerary Hp].
    apply finish_planned; assumption.
  - apply answers_of_returns, respond_without_ai_complete.
Qed.


Lemma model_erring_fails : model_fails model_erring.
Proof.
  intros n response Hr. unfold model_erring in Hr.
  rewrite str_eqb_refl in Hr. cbn in Hr. injection Hr as <-.
  apply error_status_unusable. reflexivity.
Qed.

Lemma model_erring_conforming : google_conforming model_erring.
Proof.
  intros n url response data Hprefix Hr Hd Hs. unfold model_erring in Hr.
  destruct (str_eqb url PERPLEXITY_URL) eqn:E.
  - apply str_eqb_eq in E. subst url. vm_compute in Hprefix. discriminate.
  - rewrite Hprefix in Hr. cbn in Hr. injection Hr as <-.
    cbn in Hd. injection Hd as <-.
    eexists. split; [vm_compute; reflexivity|].
    repeat constructor.
Qed.



(* ------------------------------------------------------------------ *)
(** ** The repair of the meals *)

Lemma strict_eq_text x s : strict_eq x (VStr s) = true -> x = VStr s.
Proof.
  destruct x; cbn; try discriminate. intros H. apply str_eqb_eq in H. congruence.
Qed.

Lemma js_lt_int a b : js_lt (VInt a) (VInt b) = (a <? b).
Proof.
  unfold js_lt, VInt, to_number, num_lt. cbn.
  rewrite !Z.mul_1_r. reflexivity.
Qed.

Lemma prop_length items :
  prop (VArr items) (js "length") = VInt (Z.of_nat (List.length items)).
Proof. reflexivity. Qed.

(** The last entry put under a key is an entry put under that key. *)
Lemma map_get_label key entries :
  (forall k v, In (k, v) entries -> k = prop v (js "meal")) ->
  map_get key entries = VUndef \/
  strict_eq (prop (map_get key entries) (js "meal")) key = true.
Proof.
  induction entries as [|[k v] rest IH]; intros Hall; cbn [map_get]; [left; reflexivity|].
  assert (Hrest : forall k0 v0, In (k0, v0) rest -> k0 = prop v0 (js "meal"))
    by (intros; apply Hall; right; assumption).
  specialize (IH Hrest).
  destruct (map_get key rest) eqn:E;
    try (destruct IH as [IH | IH]; [discriminate | right; exact IH]).
  destruct (strict_eq k key) eqn:Ek; [|left; reflexivity].
  right. rewrite <- (Hall k v (or_introl eq_refl)). exact Ek.
Qed.

Lemma falsy_has_no_label v : truthy v = false -> prop v (js "meal") = VUndef.
Proof.
  destruct v as [| |b|m e|s|items|fields]; cbn [truthy]; try discriminate;
    intros _; reflexivity.
Qed.

Lemma chosen_meal_label mealType mealMap city :
  (forall k v, In (k, v) mealMap -> k = prop v (js "meal")) ->
  prop (or_else (map_get (VStr mealType) mealMap) (default_meal city mealType))
       (js "meal")
  = VStr mealType.
Proof.
  intros Hall. unfold or_else.
  destruct (map_get_label (VStr mealType) mealMap Hall) as [E | E].
  - rewrite E. reflexivity.
  - apply strict_eq_text in E.
    destruct (truthy (map_get (VStr mealType) mealMap)) eqn:T; [exact E|].
    apply falsy_has_no_label in T. congruence.
Qed.

Lemma meal_map_of meals :
  Forall (fun meal => is_nullish meal = false) meals ->
  map_out (fun meal => obind (get meal (js "meal")) (fun label => Return (label, meal)))
          meals
  = Return (map (fun meal => (prop meal (js "meal"), meal)) meals).
Proof.
  induction 1 as [|meal meals Hm _ IH]; cbn [map_out map]; [reflexivity|].
  rewrite (get_ok _ _ Hm). cbn [obind]. rewrite IH. reflexivity.
Qed.






Lemma blind_PERPLEXITY_API_KEY : platform_blind PERPLEXITY_API_KEY.
Proof. intros w t ts ab n s d tr. reflexivity. Qed.

(** Without a credential for the model the endpoint answers with the
    deterministic itinerary. *)
Lemma POST_without_credential request w :
  valid_request request ->
  key_configured (PERPLEXITY_API_KEY w) = None ->
  exists response w',
    POST request w = (Return response, w') /\
    http_status response = 200 /\
    complete_itinerary (days request) (http_body response).
Proof.
  intros Hvalid Hkey. unfold POST.
  destruct (valid_request_checks request Hvalid) as [H1 H2].
  pose proof (keeps_newPerformanceMonitor PERPLEXITY_API_KEY blind_PERPLEXITY_API_KEY
                (js "Complete Itinerary Generation") w) as K1.
  destruct (returns_newPerformanceMonitor (js "Complete Itinerary Generation") w)
    as [globalMonitor [w1 [E1 _]]].
  rewrite E1 in K1. cbn [snd] in K1.
  unfold bind at 1. rewrite E1. unfold try_catch.
  set (message := js "Processing request for " ++ num_to_str (days request)
                    ++ js "-day trip to " ++ city request ++ js " with budget "
                    ++ budget request).
  pose proof (keeps_monitor_log PERPLEXITY_API_KEY blind_PERPLEXITY_API_KEY
                globalMonitor message w1) as K2.
  destruct (returns_monitor_log globalMonitor message w1) as [u [w2 [E2 _]]].
  rewrite E2 in K2. cbn [snd] in K2.
  unfold bind at 1. rewrite E2. rewrite H1, H2. cbv zeta.
  unfold bind at 1. cbn [get_world]. rewrite K2, K1, Hkey.
  destruct (respond_without_ai_complete globalMonitor request
              (CITY_CONFIGS (toLowerCase (city request))) w2)
    as [response [w3 [E3 H3]]].
  rewrite E3. exists response, w3. split; [reflexivity | exact H3].
Qed.


Lemma mumbai_request_valid : valid_request mumbai_request.
Proof. unfold valid_request. cbn. repeat split; try discriminate; lia. Qed.



(* ------------------------------------------------------------------ *)
(** ** Plain documents: what [JSON.stringify] writes, [JSON.parse] reads *)

Lemma value_nested_ind (P : value -> Prop) :
  P VUndef -> P VNull -> (forall b, P (VBool b)) -> (forall m e, P (VNum m e)) ->
  (forall s, P (VStr s)) ->
  (forall items, Forall P items -> P (VArr items)) ->
  (forall fields, Forall (fun kv => P (snd kv)) fields -> P (VObj fields)) ->
  forall v, P v.
Proof.
  intros HU HN HB HNum HS HA HO.
  fix IH 1. intros [| |b|m e|s|items|fields].
  - exact HU.
  - exact HN.
  - apply HB.
  - apply HNum.
  - apply HS.
  - apply HA. induction items as [|x items IHitems]; constructor; [apply IH | exact IHitems].
  - apply HO. induction fields as [|[k x] fields IHfields]; constructor;
      [apply IH | exact IHfields].
Qed.

Lemma stringify_array items :
  JSON_stringify (VArr items)
  = ch "[" :: join [ch ","] (map JSON_stringify items) ++ [ch "]"].
Proof. reflexivity. Qed.

Lemma plain_not_undefined v : plain v = true -> is_undefined v = false.
Proof. destruct v; cbn; congruence. Qed.

Lemma stringify_members fields :
  forallb (fun kv : jsstr * value => plain_text (fst kv) && plain (snd kv)) fields = true ->
  flat_map (fun kv : jsstr * value =>
              if is_undefined (snd kv) then []
              else [quote_string (fst kv) ++ js ":" ++ JSON_stringify (snd kv)])
           fields
  = map member_text fields.
Proof.
  induction fields as [|[k x] fields IH]; cbn [forallb flat_map map]; [reflexivity|].
  intros H. apply andb_true_iff in H. destruct H as [Hkx Hrest].
  apply andb_true_iff in Hkx. destruct Hkx as [_ Hx]. cbn [fst snd] in *.
  rewrite (plain_not_undefined x Hx), (IH Hrest). reflexivity.
Qed.

Lemma stringify_object fields :
  forallb (fun kv : jsstr * value => plain_text (fst kv) && plain (snd kv)) fields = true ->
  JSON_stringify (VObj fields)
  = ch "{" :: join [ch ","] (map member_text fields) ++ [ch "}"].
Proof.
  intros H. cbn [JSON_stringify]. rewrite (stringify_members fields H). reflexivity.
Qed.

Lemma escape_plain c : plain_unit c = true -> escape_unit c = [c].
Proof.
  unfold plain_unit, escape_unit, one_of. cbn [existsb]. intros H.
  apply andb_true_iff in H. destruct H as [H32 Hnot].
  apply N.leb_le in H32.
  rewrite !orb_false_r in Hnot. rewrite !negb_orb in Hnot.
  repeat (apply andb_true_iff in Hnot; destruct Hnot as [? Hnot]).
  repeat match goal with
         | H : negb (_ =? _)%N = true |- _ => apply negb_true_iff in H
         end.
  repeat match goal with
         | |- context [(c =? ?k)%N] =>
             let E := fresh in
             destruct (c =? k)%N eqn:E;
             [apply N.eqb_eq in E; subst c;
              first [discriminate | exfalso; vm_compute in H32; apply H32; reflexivity]|]
         end.
  replace (c <? 32)%N with false by (symmetry; apply N.ltb_ge; exact H32).
  reflexivity.
Qed.

Lemma quote_plain s : plain_text s = true -> quote_string s = quote :: s ++ [quote].
Proof.
  intros H. unfold quote_string. f_equal. f_equal.
  induction s as [|c s IH]; cbn [flat_map]; [reflexivity|].
  cbn [plain_text forallb] in H. apply andb_true_iff in H. destruct H as [Hc Hs].
  rewrite (escape_plain c Hc), (IH Hs). reflexivity.
Qed.

Lemma plain_unit_string c :
  plain_unit c = true ->
  (c =? quote)%N = false /\ (c =? 92)%N = false /\ (c <? 32)%N = false.
Proof.
  unfold plain_unit, one_of. cbn [existsb]. intros H.
  apply andb_true_iff in H. destruct H as [H32 Hnot].
  apply N.leb_le in H32.
  rewrite !orb_false_r in Hnot. rewrite !negb_orb in Hnot.
  repeat (apply andb_true_iff in Hnot; destruct Hnot as [? Hnot]).
  repeat match goal with
         | H : negb (_ =? _)%N = true |- _ => apply negb_true_iff in H
         end.
  repeat split; try assumption. apply N.ltb_ge. exact H32.
Qed.

Lemma parse_string_plain s rest :
  plain_text s = true ->
  parse_string_body (s ++ quote :: rest) = Some (s, rest).
Proof.
  induction s as [|c s IH]; intros H.
  - cbn. reflexivity.
  - cbn [plain_text forallb] in H. apply andb_true_iff in H. destruct H as [Hc Hs].
    destruct (plain_unit_string c Hc) as [Hq [Hb Hl]].
    cbn [app parse_string_body]. rewrite Hq, Hb, Hl, (IH Hs). reflexivity.
Qed.

Lemma digit_cases m : 0 <= m <= 9 ->
  m = 0 \/ m = 1 \/ m = 2 \/ m = 3 \/ m = 4 \/ m = 5 \/ m = 6 \/ m = 7 \/ m = 8 \/ m = 9.
Proof. lia. Qed.

Lemma closer_cases c : one_of [ch ","; ch "}"; ch "]"] c = true ->
  c = ch "," \/ c = ch "}" \/ c = ch "]".
Proof.
  unfold one_of. cbn [existsb]. rewrite orb_false_r. intros H.
  apply orb_true_iff in H. destruct H as [H | H]; [left; apply N.eqb_eq, H|].
  apply orb_true_iff in H. destruct H as [H | H];
    [right; left | right; right]; apply N.eqb_eq, H.
Qed.

Lemma plain_number m e : plain (VNum m e) = true -> e = 0 /\ 0 <= m <= 9.
Proof.
  cbn [plain]. intros H. apply andb_true_iff in H. destruct H as [H H9].
  apply andb_true_iff in H. destruct H as [He H0].
  apply Z.eqb_eq in He. apply Z.leb_le in H0, H9. lia.
Qed.

Lemma parse_plain_number m e fuel c t :
  plain (VNum m e) = true ->
  one_of [ch ","; ch "}"; ch "]"] c = true ->
  parse_value (S fuel) (JSON_stringify (VNum m e) ++ c :: t) = Some (VNum m e, c :: t).
Proof.
  intros Hp Hc. destruct (plain_number m e Hp) as [-> Hm].
  destruct (closer_cases c Hc) as [-> | [-> | ->]];
    destruct (digit_cases m Hm) as [->|[->|[->|[->|[->|[->|[->|[->|[->| ->]]]]]]]]];
    reflexivity.
Qed.

Lemma starts_value v :
  plain v = true -> exists c t, JSON_stringify v = c :: t /\ value_start c = true.
Proof.
  destruct v as [| |b|m e|s|items|fields]; try discriminate; intros Hp.
  - destruct (plain_number m e Hp) as [-> Hm].
    destruct (digit_cases m Hm) as [->|[->|[->|[->|[->|[->|[->|[->|[->| ->]]]]]]]]];
      eexists; eexists; split; reflexivity.
  - eexists. eexists. split; reflexivity.
  - eexists. eexists. split; reflexivity.
  - eexists. eexists. split; reflexivity.
Qed.

Lemma value_start_cases c : value_start c = true ->
  json_ws c = false /\ (c =? ch "]")%N = false /\ (c =? ch "}")%N = false
  /\ is_space c = false.
Proof.
  unfold value_start, one_of, is_digit. cbn [existsb]. rewrite orb_false_r. intros H.
  repeat (apply orb_true_iff in H; destruct H as [H | H]);
    try (apply N.eqb_eq in H; subst c; repeat split; reflexivity).
  apply andb_true_iff in H. destruct H as [H1 H2].
  apply N.leb_le in H1, H2.
  assert (Hne : forall k, (k < 48 \/ 57 < k)%N -> (c =? k)%N = false)
    by (intros k Hk; apply N.eqb_neq; lia).
  split; [|split; [|split]].
  - unfold json_ws, one_of. cbn [existsb]. rewrite !Hne by lia. reflexivity.
  - apply N.eqb_neq. intros ->. vm_compute in H2. apply H2. reflexivity.
  - apply N.eqb_neq. intros ->. vm_compute in H2. apply H2. reflexivity.
  - unfold is_space. cbn [existsb]. rewrite !Hne by lia. cbn [orb].
    replace (8192 <=? c)%N with false by (symmetry; apply N.leb_gt; lia).
    reflexivity.
Qed.

Lemma skip_ws_start c s : json_ws c = false -> skip_ws (c :: s) = c :: s.
Proof. intros H. unfold skip_ws. cbn [span]. rewrite H. reflexivity. Qed.

Lemma join_two sep p q ps :
  join sep (p :: q :: ps) = p ++ sep ++ join sep (q :: ps).
Proof. reflexivity. Qed.

Lemma parse_value_string fuel body :
  parse_value (S fuel) (quote :: body)
  = match parse_string_body body with
    | Some (b, after) => Some (VStr b, after)
    | None => None
    end.
Proof. reflexivity. Qed.

Lemma parse_value_array fuel c s :
  json_ws c = false -> (c =? ch "]")%N = false ->
  parse_value (S fuel) (ch "[" :: c :: s)
  = match parse_items fuel (c :: s) [] with
    | Some (items, after) => Some (VArr items, after)
    | None => None
    end.
Proof.
  intros Hws Hc. cbn [parse_value].
  rewrite (skip_ws_start (ch "[")) by reflexivity.
  change ((ch "[" =? ch "{")%N) with false. change ((ch "[" =? ch "[")%N) with true.
  cbv iota. rewrite (skip_ws_start _ _ Hws), Hc. reflexivity.
Qed.

Lemma parse_value_object fuel c s :
  json_ws c = false -> (c =? ch "}")%N = false ->
  parse_value (S fuel) (ch "{" :: c :: s)
  = match parse_members fuel (c :: s) [] with
    | Some (fields, after) => Some (VObj fields, after)
    | None => None
    end.
Proof.
  intros Hws Hc. cbn [parse_value].
  rewrite (skip_ws_start (ch "{")) by reflexivity.
  change ((ch "{" =? ch "{")%N) with true.
  cbv iota. rewrite (skip_ws_start _ _ Hws), Hc. reflexivity.
Qed.

Lemma fits_closer v c t : one_of [ch ","; ch "}"; ch "]"] c = true -> fits v (c :: t).
Proof. intros H. destruct v; try exact I. exists c, t. auto. Qed.

Lemma parse_items_plain items :
  Forall reads_back items ->
  forallb plain items = true ->
  items <> [] ->
  forall fuel acc rest,
    (weights items <= fuel)%nat ->
    parse_items fuel (join [ch ","] (map JSON_stringify items) ++ ch "]" :: rest) acc
    = Some (acc ++ items, rest).
Proof.
  induction 1 as [|x items Hx Hitems IH]; intros Hp Hne fuel acc rest Hw; [congruence|].
  cbn [forallb] in Hp. apply andb_true_iff in Hp. destruct Hp as [Hpx Hpitems].
  unfold weights in Hw. cbn [fold_right] in Hw. fold (weights items) in Hw.
  destruct fuel as [|g]; [lia|]. cbn [parse_items].
  destruct items as [|y more].
  - cbn [map join].
    rewrite (Hx Hpx g (ch "]" :: rest)); [|lia|apply fits_closer; reflexivity].
    rewrite skip_ws_start by reflexivity.
    change ((ch "]" =? ch ",")%N) with false. change ((ch "]" =? ch "]")%N) with true.
    reflexivity.
  - change (map JSON_stringify (x :: y :: more))
      with (JSON_stringify x :: map JSON_stringify (y :: more)).
    change (map JSON_stringify (y :: more))
      with (JSON_stringify y :: map JSON_stringify more) at 1.
    rewrite join_two.
    change (JSON_stringify y :: map JSON_stringify more)
      with (map JSON_stringify (y :: more)).
    rewrite <- !app_assoc. cbn [app].
    rewrite (Hx Hpx g); [|lia|apply fits_closer; reflexivity].
    rewrite skip_ws_start by reflexivity.
    change ((ch "," =? ch ",")%N) with true. cbv iota.
    rewrite (IH Hpitems ltac:(discriminate) g (acc ++ [x]) rest) by lia.
    rewrite <- app_assoc. reflexivity.
Qed.

Lemma parse_members_step g k after_colon acc :
  plain_text k = true ->
  parse_members (S g) (quote :: k ++ quote :: ch ":" :: after_colon) acc
  = match parse_value g after_colon with
    | Some (v, after) =>
        match skip_ws after with
        | c :: rest' =>
            if (c =? ch ",")%N then parse_members g rest' (update k v acc)
            else if (c =? ch "}")%N then Some (update k v acc, rest')
            else None
        | [] => None
        end
    | None => None
    end.
Proof.
  intros Hk. cbn [parse_members].
  rewrite (skip_ws_start quote) by reflexivity.
  change ((quote =? quote)%N) with true. cbv iota.
  rewrite (parse_string_plain k _ Hk).
  rewrite (skip_ws_start (ch ":")) by reflexivity.
  change ((ch ":" =? ch ":")%N) with true. reflexivity.
Qed.

Lemma member_layout k x tail :
  plain_text k = true ->
  member_text (k, x) ++ tail = quote :: k ++ quote :: ch ":" :: JSON_stringify x ++ tail.
Proof.
  intros Hk. unfold member_text. cbn [fst snd]. rewrite (quote_plain k Hk).
  cbn [app]. rewrite <- !app_assoc. reflexivity.
Qed.

Lemma distinct_fresh acc k more :
  distinct (acc ++ k :: more) = true -> Forall (fun a => a <> k) acc.
Proof.
  induction acc as [|a acc IH]; cbn [app distinct]; intros H; constructor.
  - apply andb_true_iff in H. destruct H as [Ha _].
    apply negb_true_iff in Ha. intros ->.
    rewrite existsb_app in Ha. cbn [existsb] in Ha.
    rewrite str_eqb_refl in Ha. rewrite orb_true_r in Ha. discriminate.
  - apply IH. apply andb_true_iff in H. tauto.
Qed.

Lemma update_fresh k x acc :
  Forall (fun a => a <> k) (map fst acc) -> update k x acc = acc ++ [(k, x)].
Proof.
  induction acc as [|[a y] acc IH]; cbn [map update app]; intros H; [reflexivity|].
  inversion H as [|? ? Ha Hrest]; subst. cbn [fst] in Ha.
  rewrite (str_eqb_neq k a) by congruence. rewrite (IH Hrest). reflexivity.
Qed.

Lemma parse_members_plain fields :
  Forall (fun kv => reads_back (snd kv)) fields ->
  forallb (fun kv : jsstr * value => plain_text (fst kv) && plain (snd kv)) fields = true ->
  fields <> [] ->
  forall fuel acc rest,
    (member_weights fields <= fuel)%nat ->
    distinct (map fst (acc ++ fields)) = true ->
    parse_members fuel (join [ch ","] (map member_text fields) ++ ch "}" :: rest) acc
    = Some (acc ++ fields, rest).
Proof.
  induction 1 as [|[k x] fields Hx Hfields IH];
    intros Hp Hne fuel acc rest Hw Hd; [congruence|].
  cbn [forallb fst snd] in Hp. apply andb_true_iff in Hp. destruct Hp as [Hkx Hpfields].
  apply andb_true_iff in Hkx. destruct Hkx as [Hk Hpx]. cbn [snd] in Hx.
  unfold member_weights in Hw. cbn [fold_right snd] in Hw.
  fold (member_weights fields) in Hw.
  destruct fuel as [|g]; [lia|].
  assert (Hupdate : update k x acc = acc ++ [(k, x)]).
  { apply update_fresh. rewrite map_app in Hd. cbn [map fst] in Hd.
    apply (distinct_fresh _ _ _ Hd). }
  destruct fields as [|[k' y] more].
  - cbn [map join]. rewrite (member_layout k x _ Hk).
    rewrite (parse_members_step g k _ acc Hk).
    rewrite (Hx Hpx g (ch "}" :: rest)); [|lia|apply fits_closer; reflexivity].
    rewrite skip_ws_start by reflexivity.
    change ((ch "}" =? ch ",")%N) with false. change ((ch "}" =? ch "}")%N) with true.
    cbv iota. rewrite Hupdate. reflexivity.
  - change (map member_text ((k, x) :: (k', y) :: more))
      with (member_text (k, x) :: map member_text ((k', y) :: more)).
    change (map member_text ((k', y) :: more))
      with (member_text (k', y) :: map member_text more) at 1.
    rewrite join_two.
    change (member_text (k', y) :: map member_text more)
      with (map member_text ((k', y) :: more)).
    rewrite <- !app_assoc.
    rewrite (member_layout k x _ Hk).
    rewrite (parse_members_step g k _ acc Hk). cbn [app].
    rewrite (Hx Hpx g); [|lia|apply fits_closer; reflexivity].
    rewrite skip_ws_start by reflexivity.
    change ((ch "," =? ch ",")%N) with true. cbv iota. rewrite Hupdate.
    rewrite (IH Hpfields ltac:(discriminate) g (acc ++ [(k, x)]) rest);
      [rewrite <- app_assoc; reflexivity | lia |].
    rewrite <- app_assoc. exact Hd.
Qed.

(** Every plain document is read back. *)
Lemma reads_back_all v : reads_back v.
Proof.
  induction v as [| |b|m e|s|items IH|fields IH] using value_nested_ind;
    intros Hp fuel rest Hw Hfits; try discriminate.
  - destruct fuel as [|g]; [cbn in Hw; lia|].
    destruct Hfits as [c [t [-> Hc]]]. apply parse_plain_number; assumption.
  - destruct fuel as [|g]; [cbn in Hw; lia|].
    cbn [JSON_stringify]. cbn [plain] in Hp. rewrite (quote_plain s Hp).
    cbn [app]. rewrite parse_value_string. rewrite <- app_assoc. cbn [app].
    rewrite (parse_string_plain s rest Hp). reflexivity.
  - destruct fuel as [|g]; [cbn in Hw; lia|].
    cbn [plain] in Hp. rewrite stringify_array. cbn [app]. rewrite <- app_assoc. cbn [app].
    destruct items as [|x more]; [reflexivity|].
    assert (Hpx : plain x = true) by (cbn [forallb] in Hp; apply andb_true_iff in Hp; tauto).
    destruct (starts_value x Hpx) as [c [t [Ex Hc]]].
    destruct (value_start_cases c Hc) as [Hws [Hb [_ _]]].
    pose proof (parse_items_plain (x :: more) IH Hp ltac:(discriminate) g [] rest) as Hitems.
    cbn [weight] in Hw. fold (weights (x :: more)) in Hw.
    specialize (Hitems ltac:(lia)).
    assert (Ej : exists tail, join [ch ","] (map JSON_stringify (x :: more)) ++ ch "]" :: rest
                              = c :: tail).
    { destruct more; cbn [map]; [cbn [join] | rewrite join_two];
        rewrite Ex; cbn [app]; eexists; reflexivity. }
    destruct Ej as [tail Ej]. rewrite Ej in Hitems. rewrite Ej.
    rewrite (parse_value_array g c tail Hws Hb), Hitems. reflexivity.
  - destruct fuel as [|g]; [cbn in Hw; lia|].
    cbn [plain] in Hp. apply andb_true_iff in Hp. destruct Hp as [Hd Hp].
    rewrite (stringify_object fields Hp). cbn [app]. rewrite <- app_assoc. cbn [app].
    destruct fields as [|[k x] more]; [reflexivity|].
    pose proof (parse_members_plain ((k, x) :: more) IH Hp ltac:(discriminate) g [] rest)
      as Hmembers.
    cbn [weight] in Hw. fold (member_weights ((k, x) :: more)) in Hw.
    specialize (Hmembers ltac:(lia) Hd).
    assert (Ej : exists tail,
               join [ch ","] (map member_text ((k, x) :: more)) ++ ch "}" :: rest
               = quote :: tail).
    { destruct more; cbn [map]; [cbn [join] | rewrite join_two];
        unfold member_text at 1; unfold quote_string; cbn [app]; eexists; reflexivity. }
    destruct Ej as [tail Ej].
    rewrite Ej in Hmembers. rewrite Ej.
    rewrite (parse_value_object g quote tail ltac:(reflexivity) ltac:(reflexivity)), Hmembers.
    reflexivity.
Qed.

Lemma join_length_weights items :
  Forall (fun x => (weight x <= List.length (JSON_stringify x))%nat) items ->
  (weights items <= S (List.length (join [ch ","] (map JSON_stringify items))))%nat.
Proof.
  induction 1 as [|x items Hx _ IH]; [cbn; lia|].
  unfold weights. cbn [fold_right]. fold (weights items).
  destruct items as [|y more].
  - cbn [map join weights fold_right]. lia.
  - change (map JSON_stringify (x :: y :: more))
      with (JSON_stringify x :: map JSON_stringify (y :: more)).
    change (map JSON_stringify (y :: more))
      with (JSON_stringify y :: map JSON_stringify more) at 1.
    rewrite join_two.
    change (JSON_stringify y :: map JSON_stringify more)
      with (map JSON_stringify (y :: more)).
    rewrite !length_app. cbn [List.length]. lia.
Qed.

Lemma member_length_weights fields :
  Forall (fun kv : jsstr * value =>
            (weight (snd kv) <= List.length (JSON_stringify (snd kv)))%nat) fields ->
  (member_weights fields <= S (List.length (join [ch ","] (map member_text fields))))%nat.
Proof.
  induction 1 as [|[k x] fields Hx _ IH]; [cbn; lia|].
  unfold member_weights. cbn [fold_right snd]. fold (member_weights fields).
  cbn [snd] in Hx.
  assert (Hm : (S (List.length (JSON_stringify x)) <= List.length (member_text (k, x)))%nat).
  { unfold member_text. cbn [fst snd]. rewrite length_app. cbn [List.length]. lia. }
  destruct fields as [|[k' y] more].
  - cbn [map join member_weights fold_right]. lia.
  - change (map member_text ((k, x) :: (k', y) :: more))
      with (member_text (k, x) :: map member_text ((k', y) :: more)).
    change (map member_text ((k', y) :: more))
      with (member_text (k', y) :: map member_text more) at 1.
    rewrite join_two.
    change (member_text (k', y) :: map member_text more)
      with (map member_text ((k', y) :: more)).
    rewrite !length_app. cbn [List.length]. lia.
Qed.

Lemma weight_le_length v :
  plain v = true -> (weight v <= List.length (JSON_stringify v))%nat.
Proof.
  induction v as [| |b|m e|s|items IH|fields IH] using value_nested_ind;
    intros Hp; try discriminate.
  - destruct (starts_value _ Hp) as [c [t [E _]]]. rewrite E. cbn. lia.
  - destruct (starts_value _ Hp) as [c [t [E _]]]. rewrite E. cbn. lia.
  - cbn [plain] in Hp. rewrite stringify_array. cbn [weight List.length].
    fold (weights items). rewrite length_app. cbn [List.length].
    assert (H : Forall (fun x => (weight x <= List.length (JSON_stringify x))%nat) items).
    { apply Forall_forall. intros x Hin.
      apply (proj1 (Forall_forall _ _) IH x Hin).
      apply (proj1 (forallb_forall _ _) Hp x Hin). }
    pose proof (join_length_weights items H). lia.
  - cbn [plain] in Hp. apply andb_true_iff in Hp. destruct Hp as [_ Hp].
    rewrite (stringify_object fields Hp). cbn [weight List.length].
    fold (member_weights fields). rewrite length_app. cbn [List.length].
    assert (H : Forall (fun kv : jsstr * value =>
                          (weight (snd kv) <= List.length (JSON_stringify (snd kv)))%nat)
                       fields).
    { apply Forall_forall. intros kv Hin.
      apply (proj1 (Forall_forall _ _) IH kv Hin).
      pose proof (proj1 (forallb_forall _ _) Hp kv Hin) as Hkv.
      apply andb_true_iff in Hkv. tauto. }
    pose proof (member_length_weights fields H). lia.
Qed.

(** [JSON.parse] reads a plain object back from its serialisation. *)
Lemma JSON_parse_plain fields :
  plain (VObj fields) = true ->
  JSON_parse (JSON_stringify (VObj fields)) = Return (VObj fields).
Proof.
  intros Hp. unfold JSON_parse.
  pose proof (reads_back_all (VObj fields) Hp
                (2 * List.length (JSON_stringify (VObj fields)) + 2)%nat []) as H.
  rewrite app_nil_r in H. rewrite H; [reflexivity | | exact I].
  pose proof (weight_le_length _ Hp). lia.
Qed.

(* ------------------------------------------------------------------ *)
(** ** Plain documents: the cleaning steps find nothing to rewrite *)

Lemma silent_nil rest : silent [] rest.
Proof. intros pre c t E. destruct pre; discriminate. Qed.

Lemma silent_cons c a rest :
  quiet_at (c :: a ++ rest) -> silent a rest -> silent (c :: a) rest.
Proof.
  intros Hc Ha pre c' t E. destruct pre as [|p pre]; cbn [app] in E.
  - injection E as <- <-. exact Hc.
  - injection E as _ E. apply (Ha pre c' t E).
Qed.

Lemma silent_one c rest : quiet_at (c :: rest) -> silent [c] rest.
Proof. intros H. apply silent_cons; [exact H | apply silent_nil]. Qed.

Lemma silent_app a b rest :
  silent a (b ++ rest) -> silent b rest -> silent (a ++ b) rest.
Proof.
  induction a as [|x a IH]; intros Ha Hb; [exact Hb|].
  cbn [app]. apply silent_cons.
  - rewrite <- app_assoc. apply (Ha [] x a eq_refl).
  - apply IH; [|exact Hb]. intros pre c t E. apply (Ha (x :: pre) c t). cbn. congruence.
Qed.

Lemma replace_all_quiet matcher s :
  (forall pre c t, s = pre ++ c :: t -> matcher (c :: t) = None) ->
  forall fuel, replace_all fuel matcher s = s.
Proof.
  induction s as [|c s IH]; intros H fuel; destruct fuel as [|fuel]; cbn [replace_all];
    try reflexivity.
  rewrite (H [] c s eq_refl). f_equal. apply IH.
  intros pre c' t E. apply (H (c :: pre) c' t). cbn. congruence.
Qed.

(** A unit that starts none of the three patterns. *)
Lemma quiet_other c s :
  one_of [ch ","; ch "{"; ch "["; ch ":"] c = false -> quiet_at (c :: s).
Proof.
  unfold one_of. cbn [existsb]. rewrite orb_false_r. intros H.
  apply orb_false_iff in H. destruct H as [H1 H].
  apply orb_false_iff in H. destruct H as [H2 H].
  apply orb_false_iff in H. destruct H as [H3 H4].
  unfold quiet_at, match_trailing_comma, match_unquoted_key, match_unquoted_value, one_of.
  cbn [existsb]. rewrite H1, H2, H3, H4. repeat split; reflexivity.
Qed.

Lemma span_stops p s rest :
  p quote = false ->
  exists a b, span p (s ++ quote :: rest) = (a, b ++ quote :: rest) /\ s = a ++ b.
Proof.
  intros Hq. induction s as [|c s [a [b [E Es]]]]; cbn [app span].
  - rewrite Hq. exists [], []. split; reflexivity.
  - destruct (p c).
    + rewrite E. exists (c :: a), b. split; [reflexivity | cbn; congruence].
    + exists [], (c :: s). split; reflexivity.
Qed.

Lemma plain_text_app a b : plain_text (a ++ b) = true -> plain_text b = true.
Proof.
  unfold plain_text. rewrite forallb_app. intros H. apply andb_true_iff in H. tauto.
Qed.

Lemma plain_unit_cases c :
  plain_unit c = true ->
  (c =? ch ":")%N = false /\ one_of [ch "}"; ch "]"] c = false.
Proof.
  unfold plain_unit, one_of. cbn [existsb]. intros H.
  apply andb_true_iff in H. destruct H as [_ Hnot].
  rewrite !orb_false_r in Hnot. rewrite !negb_orb in Hnot.
  repeat (apply andb_true_iff in Hnot; destruct Hnot as [? Hnot]).
  repeat match goal with
         | H : negb (_ =? _)%N = true |- _ => apply negb_true_iff in H
         end.
  split; [assumption|]. rewrite orb_false_r. apply orb_false_iff. split; assumption.
Qed.

(** The unit met after a plain text, or in it, is no colon and closes
    nothing. *)
Lemma plain_head b rest c after :
  plain_text b = true ->
  b ++ quote :: rest = c :: after ->
  (c =? ch ":")%N = false /\ one_of [ch "}"; ch "]"] c = false.
Proof.
  intros Hb E. destruct b as [|x b]; cbn [app] in E; injection E as <- _.
  - split; reflexivity.
  - cbn [plain_text forallb] in Hb. apply andb_true_iff in Hb.
    apply plain_unit_cases. tauto.
Qed.

Lemma quiet_in_text c t rest :
  plain_text (c :: t) = true -> quiet_at (c :: t ++ quote :: rest).
Proof.
  intros Hp.
  assert (Hc : plain_unit c = true /\ plain_text t = true)
    by (cbn [plain_text forallb] in Hp; apply andb_true_iff in Hp; exact Hp).
  destruct Hc as [Hc Ht].
  destruct (plain_unit_cases c Hc) as [Hcolon _].
  destruct (span_stops is_space t rest eq_refl) as [ws [b [Ews Et]]].
  assert (Hb : plain_text b = true) by (apply (plain_text_app ws); congruence).
  destruct (span_stops is_word b rest eq_refl) as [word [b' [Eword Eb]]].
  assert (Hb' : plain_text b' = true) by (apply (plain_text_app word); congruence).
  unfold quiet_at, match_trailing_comma, match_unquoted_key, match_unquoted_value.
  rewrite Hcolon, Ews, Eword. split; [|split].
  - destruct (c =? ch ",")%N; [|reflexivity].
    destruct (b ++ quote :: rest) as [|closer after] eqn:E; [reflexivity|].
    destruct (plain_head b rest closer after Hb E) as [_ Hcl]. rewrite Hcl. reflexivity.
  - destruct (one_of _ c); [|reflexivity].
    destruct word; [reflexivity|].
    destruct (b' ++ quote :: rest) as [|colon after] eqn:E; [reflexivity|].
    destruct (plain_head b' rest colon after Hb' E) as [Hco _]. rewrite Hco. reflexivity.
  - reflexivity.
Qed.

Lemma silent_text s rest : plain_text s = true -> silent (s ++ [quote]) rest.
Proof.
  induction s as [|c s IH]; intros Hp; cbn [app].
  - apply silent_one, quiet_other. reflexivity.
  - apply silent_cons.
    + rewrite <- app_assoc. cbn [app]. apply quiet_in_text, Hp.
    + apply IH. cbn [plain_text forallb] in Hp. apply andb_true_iff in Hp. tauto.
Qed.

Lemma silent_string s rest : plain_text s = true -> silent (quote_string s) rest.
Proof.
  intros Hp. rewrite (quote_plain s Hp). apply silent_cons.
  - apply quiet_other. reflexivity.
  - apply silent_text, Hp.
Qed.

(** An opener followed by a quote, an opening brace or an opening
    bracket. *)
Lemma quiet_before_symbol opener c s :
  one_of [quote; ch "{"; ch "["] c = true ->
  one_of [ch ","; ch "{"; ch "["; ch ":"] opener = true ->
  quiet_at (opener :: c :: s).
Proof.
  unfold one_of. cbn [existsb]. rewrite !orb_false_r. intros Hc Ho.
  repeat (apply orb_true_iff in Ho; destruct Ho as [Ho | Ho]);
    apply N.eqb_eq in Ho; subst opener;
    repeat (apply orb_true_iff in Hc; destruct Hc as [Hc | Hc]);
    apply N.eqb_eq in Hc; subst c;
    repeat split; reflexivity.
Qed.

Lemma quiet_empty_array s : quiet_at (ch "[" :: ch "]" :: s).
Proof. repeat split; reflexivity. Qed.

Lemma quiet_empty_object s : quiet_at (ch "{" :: ch "}" :: s).
Proof. repeat split; reflexivity. Qed.

(** An opener followed by a one-digit number and what closes it. *)
Lemma quiet_before_digit opener m closer t :
  0 <= m <= 9 ->
  one_of [ch ","; ch "}"; ch "]"] closer = true ->
  one_of [ch ","; ch "{"; ch "["; ch ":"] opener = true ->
  quiet_at (opener :: JSON_stringify (VNum m 0) ++ closer :: t).
Proof.
  intros Hm Hc Ho.
  unfold one_of in Ho. cbn [existsb] in Ho. rewrite !orb_false_r in Ho.
  destruct (closer_cases closer Hc) as [-> | [-> | ->]];
    destruct (digit_cases m Hm) as [->|[->|[->|[->|[->|[->|[->|[->|[->| ->]]]]]]]]];
    repeat (apply orb_true_iff in Ho; destruct Ho as [Ho | Ho]);
    apply N.eqb_eq in Ho; subst opener; repeat split; reflexivity.
Qed.

Lemma starts_symbol v :
  plain v = true ->
  (exists m, v = VNum m 0 /\ 0 <= m <= 9) \/
  (exists c t, JSON_stringify v = c :: t /\ one_of [quote; ch "{"; ch "["] c = true).
Proof.
  destruct v as [| |b|m e|s|items|fields]; try discriminate; intros Hp.
  - left. destruct (plain_number m e Hp) as [-> Hm]. eauto.
  - right. eexists. eexists. split; reflexivity.
  - right. eexists. eexists. split; reflexivity.
  - right. eexists. eexists. split; reflexivity.
Qed.

Lemma quiet_before_value opener v more :
  plain v = true -> closes more ->
  one_of [ch ","; ch "{"; ch "["; ch ":"] opener = true ->
  quiet_at (opener :: JSON_stringify v ++ more).
Proof.
  intros Hp [closer [t [-> Hc]]] Ho.
  destruct (starts_symbol v Hp) as [[m [-> Hm]] | [c [tl [E Hs]]]].
  - apply quiet_before_digit; assumption.
  - rewrite E. cbn [app]. apply quiet_before_symbol; assumption.
Qed.

Lemma closes_closer c t : one_of [ch ","; ch "}"; ch "]"] c = true -> closes (c :: t).
Proof. intros H. exists c, t. auto. Qed.

Lemma join_head {A} (f : A -> jsstr) y more rest :
  closes rest ->
  exists tail, join [ch ","] (map f (y :: more)) ++ rest = f y ++ tail /\ closes tail.
Proof.
  intros Hr. destruct more as [|z more].
  - exists rest. split; [reflexivity | exact Hr].
  - change (map f (y :: z :: more)) with (f y :: f z :: map f more).
    rewrite join_two. rewrite <- !app_assoc. eexists. split; [reflexivity|].
    cbn [app]. apply closes_closer. reflexivity.
Qed.

Lemma silent_items items :
  Forall (fun x => plain x = true -> forall rest, silent (JSON_stringify x) rest) items ->
  forallb plain items = true ->
  forall rest, closes rest ->
    silent (join [ch ","] (map JSON_stringify items)) rest.
Proof.
  induction 1 as [|x items Hx _ IH]; intros Hp rest Hr; [apply silent_nil|].
  cbn [forallb] in Hp. apply andb_true_iff in Hp. destruct Hp as [Hpx Hpitems].
  destruct items as [|y more]; [apply (Hx Hpx)|].
  change (map JSON_stringify (x :: y :: more))
    with (JSON_stringify x :: map JSON_stringify (y :: more)).
  change (map JSON_stringify (y :: more))
    with (JSON_stringify y :: map JSON_stringify more) at 1.
  rewrite join_two.
  change (JSON_stringify y :: map JSON_stringify more)
    with (map JSON_stringify (y :: more)).
  apply silent_app; [apply (Hx Hpx)|].
  apply silent_app; [|apply IH; assumption].
  apply silent_one.
  destruct (join_head JSON_stringify y more rest Hr) as [tail [E Ht]]. rewrite E.
  apply quiet_before_value; [|exact Ht|reflexivity].
  cbn [forallb] in Hpitems. apply andb_true_iff in Hpitems. tauto.
Qed.

Lemma member_text_head k x : exists tail, member_text (k, x) = quote :: tail.
Proof. unfold member_text, quote_string. cbn [fst app]. eexists. reflexivity. Qed.

Lemma silent_member k x rest :
  plain_text k = true -> plain x = true ->
  (forall rest, silent (JSON_stringify x) rest) ->
  closes rest ->
  silent (member_text (k, x)) rest.
Proof.
  intros Hk Hpx Hx Hr. unfold member_text. cbn [fst snd].
  apply silent_app; [apply silent_string, Hk|].
  apply silent_cons; [|apply Hx].
  apply quiet_before_value; [exact Hpx | exact Hr | reflexivity].
Qed.

Lemma silent_members fields :
  Forall (fun kv : jsstr * value =>
            plain (snd kv) = true -> forall rest, silent (JSON_stringify (snd kv)) rest)
         fields ->
  forallb (fun kv : jsstr * value => plain_text (fst kv) && plain (snd kv)) fields = true ->
  forall rest, closes rest ->
    silent (join [ch ","] (map member_text fields)) rest.
Proof.
  induction 1 as [|[k x] fields Hx _ IH]; intros Hp rest Hr; [apply silent_nil|].
  cbn [forallb fst snd] in Hp. apply andb_true_iff in Hp. destruct Hp as [Hkx Hpfields].
  apply andb_true_iff in Hkx. destruct Hkx as [Hk Hpx]. cbn [snd] in Hx.
  destruct fields as [|[k' y] more].
  - cbn [map join]. apply silent_member; auto.
  - change (map member_text ((k, x) :: (k', y) :: more))
      with (member_text (k, x) :: map member_text ((k', y) :: more)).
    change (map member_text ((k', y) :: more))
      with (member_text (k', y) :: map member_text more) at 1.
    rewrite join_two.
    change (member_text (k', y) :: map member_text more)
      with (map member_text ((k', y) :: more)).
    apply silent_app.
    { apply silent_member; auto. apply closes_closer. reflexivity. }
    apply silent_app; [|apply IH; assumption].
    apply silent_one.
    destruct (join_head member_text (k', y) more rest Hr) as [tail [E _]]. rewrite E.
    destruct (member_text_head k' y) as [tl Etl]. rewrite Etl. cbn [app].
    apply quiet_before_symbol; reflexivity.
Qed.

(** None of the three patterns matches anywhere in the serialisation of a
    plain document. *)
Lemma silent_value v : plain v = true -> forall rest, silent (JSON_stringify v) rest.
Proof.
  induction v as [| |b|m e|s|items IH|fields IH] using value_nested_ind;
    intros Hp rest; try discriminate.
  - destruct (plain_number m e Hp) as [-> Hm].
    destruct (digit_cases m Hm) as [->|[->|[->|[->|[->|[->|[->|[->|[->| ->]]]]]]]]];
      apply silent_one, quiet_other; reflexivity.
  - apply silent_string. exact Hp.
  - cbn [plain] in Hp. rewrite stringify_array.
    apply silent_cons.
    + rewrite <- app_assoc. destruct items as [|x more]; [apply quiet_empty_array|].
      destruct (join_head JSON_stringify x more ([ch "]"] ++ rest)) as [tail [E Ht]];
        [apply closes_closer; reflexivity|].
      rewrite E. apply quiet_before_value; [|exact Ht|reflexivity].
      cbn [forallb] in Hp. apply andb_true_iff in Hp. tauto.
    + apply silent_app.
      * apply silent_items; [exact IH | exact Hp | apply closes_closer; reflexivity].
      * apply silent_one, quiet_other. reflexivity.
  - cbn [plain] in Hp. apply andb_true_iff in Hp. destruct Hp as [_ Hp].
    rewrite (stringify_object fields Hp).
    apply silent_cons.
    + rewrite <- app_assoc. destruct fields as [|[k x] more]; [apply quiet_empty_object|].
      destruct (join_head member_text (k, x) more ([ch "}"] ++ rest)) as [tail [E _]];
        [apply closes_closer; reflexivity|].
      rewrite E. destruct (member_text_head k x) as [tl Etl]. rewrite Etl. cbn [app].
      apply quiet_before_symbol; reflexivity.
    + apply silent_app.
      * apply silent_members; [exact IH | exact Hp | apply closes_closer; reflexivity].
      * apply silent_one, quiet_other. reflexivity.
Qed.

(** So the three cleaning steps leave it as it is. *)
Lemma clean_json_plain v : plain v = true -> clean_json (JSON_stringify v) = JSON_stringify v.
Proof.
  intros Hp. pose proof (silent_value v Hp []) as Hs.
  assert (Hq : forall pre c t, JSON_stringify v = pre ++ c :: t -> quiet_at (c :: t)).
  { intros pre c t E. specialize (Hs pre c t E). rewrite app_nil_r in Hs. exact Hs. }
  unfold clean_json, strip_trailing_commas, quote_keys, quote_values.
  rewrite (replace_all_quiet match_trailing_comma (JSON_stringify v))
    by (intros pre c t E; apply (Hq pre c t E)).
  rewrite (replace_all_quiet match_unquoted_key (JSON_stringify v))
    by (intros pre c t E; apply (Hq pre c t E)).
  apply replace_all_quiet. intros pre c t E. apply (Hq pre c t E).
Qed.

(** X25. Where the parser is a round trip. For every plain document
    (objects with distinct keys, lists, one-digit numbers, and strings
    without a double quote, a backslash, a colon, a closing brace or
    bracket or a control character): the three cleaning steps leave its
    serialisation as it is, JSON.parse reads the document back from it, and
    the parser returns the document, at the first attempt, from the
    serialisation embedded in prose that has no opening brace before it and
    no closing brace after it. *)
Theorem repair_parser_round_trip (globalMonitor : PerformanceMonitor)
    (before after : jsstr) (fields : list (jsstr * value)) (w : World)
    (Hplain : plain (VObj fields) = true)
    (Hbefore : contains (ch "{") before = false)
    (Hafter : contains (ch "}") after = false) :
  clean_json (JSON_stringify (VObj fields)) = JSON_stringify (VObj fields) /\
  JSON_parse (JSON_stringify (VObj fields)) = Return (VObj fields) /\
  exists w',
    parse_ai_content globalMonitor
      (VStr (before ++ JSON_stringify (VObj fields) ++ after)) w
    = (Return (VObj fields), w').
Proof.
  pose proof (clean_json_plain (VObj fields) Hplain) as Hclean.
  pose proof (JSON_parse_plain fields Hplain) as Hparse.
  split; [exact Hclean|]. split; [exact Hparse|].
  assert (Hp : forallb (fun kv : jsstr * value => plain_text (fst kv) && plain (snd kv))
                 fields = true).
  { cbn [plain] in Hplain. apply andb_true_iff in Hplain. tauto. }
  rewrite (stringify_object fields Hp) in *.
  apply (parse_ai_content_clean globalMonitor before _ after (VObj fields) w
           Hbefore Hafter Hclean Hparse).
Qed.

Lemma repair_parser_round_trip_witness :
  exists w',
    parse_ai_content probe_monitor
      (VStr (in_prose (JSON_stringify old_town_document)))
      (boot None None None offline)
    = (Return old_town_document, w').
Proof.
  apply (repair_parser_round_trip probe_monitor
           (js "Here is your plan: ") (js " Enjoy!")
           [ (js "days",
              VArr [ VObj [ (js "day", VInt 1);
                            (js "theme", VStr (js "Old town, on foot"));
                            (js "stops",
                             VArr [VStr (js "Gateway of India"); VStr (js "Colaba")]) ] ]);
             (js "summary", VObj [ (js "nights", VInt 2) ]) ]
           (boot None None None offline)); reflexivity.
Defined.

(* ================================================================== *)
(** * Further properties *)

(* ------------------------------------------------------------------ *)
(** ** POST: the checks on the request *)

Lemma invalid_request_cases request :
  ~ valid_request request ->
  negb (truthy (VStr (city request))) || negb (truthy (VStr (budget request)))
    || negb (truthy (VInt (days request))) = missing_fields request /\
  (missing_fields request = false -> (days request <? 1) || (14 <? days request) = true).
Proof.
  intros Hbad. unfold missing_fields, valid_request in *.
  destruct (city request) as [|c cs]; [split; [reflexivity | discriminate]|].
  destruct (budget request) as [|b bs]; [split; [reflexivity | discriminate]|].
  split.
  - cbn. destruct (days request =? 0); reflexivity.
  - intros H0. apply Z.eqb_neq in H0.
    destruct (days request <? 1) eqn:E1; [reflexivity|].
    destruct (14 <? days request) eqn:E2; [reflexivity|].
    apply Z.ltb_ge in E1, E2. exfalso. apply Hbad.
    repeat split; try discriminate; lia.
Qed.

(** X1. A request with an empty city, an empty budget or a number of days
    outside 1..14 is answered 400 with a message that names what is wrong,
    before anything is asked of an upstream service and without touching
    either breaker. *)
Theorem POST_rejects_invalid_request (request : ItineraryRequest) (w : World)
    (Hbad : ~ valid_request request) :
  exists response w',
    POST request w = (Return response, w') /\
    http_status response = 400 /\
    prop (http_body response) (js "error") = VStr (rejection request) /\
    wire w' = wire w.
Proof.
  destruct (invalid_request_cases request Hbad) as [Hmissing Hrange].
  unfold POST, bind at 1. rewrite newPerformanceMonitor_run.
  unfold try_catch, bind at 1.
  match goal with
  | |- context [monitor_log ?m ?msg ?v] =>
      change (monitor_log m msg v) with (Return tt, snd (monitor_log m msg v))
  end.
  rewrite Hmissing. unfold rejection.
  destruct (missing_fields request).
  - eexists. eexists. split; [reflexivity|]. repeat split.
  - rewrite (Hrange eq_refl).
    eexists. eexists. split; [reflexivity|]. repeat split.
Qed.

Lemma POST_rejects_invalid_request_witness :
  exists response w',
    POST (mkRequest (js "Mumbai") (js "50000") 15 None true true (js "medium"))
      (boot (Some (js "key")) None None offline)
    = (Return response, w') /\
    http_status response = 400 /\
    prop (http_body response) (js "error") = VStr (js "Days must be between 1 and 14") /\
    wire w' = wire (boot (Some (js "key")) None None offline).
Proof.
  apply (POST_rejects_invalid_request
           (mkRequest (js "Mumbai") (js "50000") 15 None true true (js "medium"))
           (boot (Some (js "key")) None None offline)).
  unfold valid_request. cbn. lia.
Defined.

(* ------------------------------------------------------------------ *)
(** ** Rules for what a computation returns *)

Lemma ensures_ret {A} (a : A) (Q : A -> Prop) : Q a -> ensures (ret a) Q.
Proof. intros H w a' w' E. injection E as <- _. exact H. Qed.

Lemma ensures_throw {A} e (Q : A -> Prop) : ensures (@throw A e) Q.
Proof. intros w a w' E. discriminate. Qed.

Lemma ensures_bind {A B} (m : M A) (k : A -> M B) (Q : B -> Prop) :
  (forall a, ensures (k a) Q) -> ensures (bind m k) Q.
Proof.
  intros Hk w b w' E. unfold bind in E. destruct (m w) as [[a | e] w1]; [|discriminate].
  apply (Hk a w1 b w' E).
Qed.

Lemma ensures_bind_with {A B} (m : M A) (k : A -> M B) (P : A -> Prop) (Q : B -> Prop) :
  ensures m P -> (forall a, P a -> ensures (k a) Q) -> ensures (bind m k) Q.
Proof.
  intros Hm Hk w b w' E. unfold bind in E.
  destruct (m w) as [[a | e] w1] eqn:Em; [|discriminate].
  apply (Hk a (Hm w a w1 Em) w1 b w' E).
Qed.

Lemma ensures_try_catch {A} (m : M A) (h : JsError -> M A) (Q : A -> Prop) :
  ensures m Q -> (forall e, ensures (h e) Q) -> ensures (try_catch m h) Q.
Proof.
  intros Hm Hh w a w' E. unfold try_catch in E.
  destruct (m w) as [[a0 | e] w1] eqn:Em.
  - injection E as <- <-. apply (Hm w a0 w1 Em).
  - apply (Hh e w1 a w' E).
Qed.

Lemma ensures_if {A} (c : bool) (m1 m2 : M A) (Q : A -> Prop) :
  ensures m1 Q -> ensures m2 Q -> ensures (if c then m1 else m2) Q.
Proof. destruct c; auto. Qed.

Lemma ensures_lift {A} (o : Outcome A) (Q : A -> Prop) :
  (forall a, o = Return a -> Q a) -> ensures (lift o) Q.
Proof. intros H w a w' E. unfold lift in E. injection E as E _. apply H, E. Qed.

Lemma ensures_weaken {A} (m : M A) (P Q : A -> Prop) :
  ensures m P -> (forall a, P a -> Q a) -> ensures m Q.
Proof. intros Hm H w a w' E. apply H, (Hm w a w' E). Qed.

(* ------------------------------------------------------------------ *)
(** ** POST: the statuses it answers with *)

Lemma respond_without_ai_status globalMonitor request cityConfig :
  ensures (respond_without_ai globalMonitor request cityConfig)
    (fun response => http_status response = 200).
Proof.
  unfold respond_without_ai.
  repeat (apply ensures_bind; intros ?). cbv zeta.
  repeat (apply ensures_bind; intros ?).
  apply ensures_ret. reflexivity.
Qed.

Lemma finish_itinerary_status globalMonitor request cityConfig itinerary :
  ensures (finish_itinerary globalMonitor request cityConfig itinerary)
    (fun response => http_status response = 200).
Proof.
  unfold finish_itinerary.
  repeat (apply ensures_bind; intros ?). cbv zeta.
  repeat (apply ensures_bind; intros ?).
  apply ensures_ret. reflexivity.
Qed.

Lemma bad_request_status message :
  ensures (bad_request message) (fun response => http_status response = 400).
Proof.
  unfold bad_request. repeat (apply ensures_bind; intros ?).
  apply ensures_ret. reflexivity.
Qed.

Lemma POST_handles_every_error request w :
  exists response w', POST request w = (Return response, w').
Proof.
  unfold POST, bind at 1. rewrite newPerformanceMonitor_run.
  unfold try_catch.
  match goal with
  | |- context [match ?body ?v with _ => _ end] =>
      destruct (body v) as [[response | error] w1]
  end.
  - eauto.
  - eexists. eexists. reflexivity.
Qed.

(** X2. [POST] never rejects: on any request body, in any state of the
    process and on any network, it resolves with a response whose status is
    200, 400, 408 or 500, and a request that passes the checks is never
    answered 400. *)
Theorem POST_always_answers (request : ItineraryRequest) (w : World) :
  exists response w',
    POST request w = (Return response, w') /\
    post_status (http_status response) /\
    (valid_request request -> http_status response <> 400).
Proof.
  destruct (POST_handles_every_error request w) as [response [w' E]].
  exists response, w'. split; [exact E|]. split.
  - revert E. generalize w, response, w'.
    change (ensures (POST request) (fun r => post_status (http_status r))).
    unfold POST, post_status. apply ensures_bind. intros globalMonitor.
    apply ensures_try_catch.
    + apply ensures_bind. intros ?.
      apply ensures_if; [|apply ensures_if].
      * eapply ensures_weaken; [apply bad_request_status|]. cbn beta. auto.
      * eapply ensures_weaken; [apply bad_request_status|]. cbn beta. auto.
      * cbv zeta. apply ensures_bind. intros w0.
        destruct (key_configured (PERPLEXITY_API_KEY w0)).
        -- do 4 (apply ensures_bind; intros ?).
           eapply ensures_weaken; [apply finish_itinerary_status|]. cbn beta. auto.
        -- eapply ensures_weaken; [apply respond_without_ai_status|]. cbn beta. auto.
    + intros e. repeat (apply ensures_bind; intros ?).
      apply ensures_ret. unfold respond. cbn [http_status].
      destruct (instanceof_TimeoutError e); auto.
  - intros Hv. revert E. generalize w, response, w'.
    change (ensures (POST request) (fun r => http_status r <> 400)).
    destruct (valid_request_checks request Hv) as [H1 H2].
    unfold POST. apply ensures_bind. intros globalMonitor.
    apply ensures_try_catch.
    + apply ensures_bind. intros ?. rewrite H1, H2. cbv zeta.
      apply ensures_bind. intros w0.
      destruct (key_configured (PERPLEXITY_API_KEY w0)).
      * do 4 (apply ensures_bind; intros ?).
        eapply ensures_weaken; [apply finish_itinerary_status|].
        cbn beta. intros r ->. discriminate.
      * eapply ensures_weaken; [apply respond_without_ai_status|].
        cbn beta. intros r ->. discriminate.
    + intros e. repeat (apply ensures_bind; intros ?).
      apply ensures_ret. cbn [http_status].
      destruct (instanceof_TimeoutError e); discriminate.
Qed.

Lemma POST_always_answers_witness :
  exists response w',
    POST mumbai_request (boot (Some (js "key")) None None offline) = (Return response, w') /\
    post_status (http_status response) /\ http_status response <> 400.
Proof.
  destruct (POST_always_answers mumbai_request (boot (Some (js "key")) None None offline))
    as [response [w' [E [Hs Hv]]]].
  exists response, w'. repeat split; [exact E | exact Hs |].
  apply Hv. exact mumbai_request_valid.
Defined.

(* ------------------------------------------------------------------ *)
(** ** POST: the metadata of an answer *)

Lemma finish_itinerary_metadata globalMonitor request cityConfig itinerary :
  ensures (finish_itinerary globalMonitor request cityConfig itinerary)
    (fun response =>
       prop (prop (http_body response) (js "metadata")) (js "aiModel") = VStr (js "llama-3.1-sonar-small-128k-online") /\
       prop (prop (http_body response) (js "metadata")) (js "fallbackReason") = VUndef).
Proof.
  unfold finish_itinerary.
  repeat (apply ensures_bind; intros ?). cbv zeta.
  repeat (apply ensures_bind; intros ?).
  apply ensures_ret. unfold respond. cbn [http_body].
  rewrite prop_update_same. split; reflexivity.
Qed.

Lemma POST_with_credential_metadata request w k response w' :
  key_configured (PERPLEXITY_API_KEY w) = Some k ->
  POST request w = (Return response, w') ->
  http_status response = 200 ->
  prop (prop (http_body response) (js "metadata")) (js "aiModel") = VStr (js "llama-3.1-sonar-small-128k-online") /\
  prop (prop (http_body response) (js "metadata")) (js "fallbackReason") = VUndef.
Proof.
  intros Hkey. unfold POST, bind at 1. rewrite newPerformanceMonitor_run.
  unfold try_catch.
  match goal with
  | |- context [match ?body ?v with _ => _ end] =>
      destruct (body v) as [[r | error] w1] eqn:Ebody
  end.
  - intros E H200. injection E as <- <-. revert Ebody. unfold bind at 1.
    match goal with
    | |- context [monitor_log ?m ?msg ?v] =>
        assert (Hk : key_configured (PERPLEXITY_API_KEY (snd (monitor_log m msg v))) = Some k)
          by (rewrite (keeps_monitor_log PERPLEXITY_API_KEY
                         (fun w t ts ab n s d tr => eq_refl) m msg v); exact Hkey);
        change (monitor_log m msg v) with (Return tt, snd (monitor_log m msg v));
        generalize dependent (snd (monitor_log m msg v))
    end.
    intros w2 Hk. cbv iota.
    match goal with
    | |- (if ?c then _ else _) _ = _ -> _ => destruct c
    end.
    { intros Eb. apply (bad_request_status _ _ _ _) in Eb. congruence. }
    match goal with
    | |- (if ?c then _ else _) _ = _ -> _ => destruct c
    end.
    { intros Eb. apply (bad_request_status _ _ _ _) in Eb. congruence. }
    cbv zeta. unfold bind at 1, get_world. rewrite Hk.
    revert w2 Hk. intros w2 _. revert w2 r w1 H200.
    intros w2 r w1 _. revert w2 r w1.
    change (ensures
              (monitor_log (mkMonitor (clock w) (js "Complete Itinerary Generation"))
                 (js "Using "
                    ++ (if truthy (CITY_CONFIGS (toLowerCase (city request)))
                        then js "city-specific" else js "general")
                    ++ js " configuration") ;;
               prompt <- build_prompt request (CITY_CONFIGS (toLowerCase (city request))) ;;
               monitor_log (mkMonitor (clock w) (js "Complete Itinerary Generation"))
                 (js "Calling Perplexity AI API") ;;
               itinerary <- itinerary_or_fallback
                              (mkMonitor (clock w) (js "Complete Itinerary Generation"))
                              request (CITY_CONFIGS (toLowerCase (city request))) prompt ;;
               finish_itinerary (mkMonitor (clock w) (js "Complete Itinerary Generation"))
                 request (CITY_CONFIGS (toLowerCase (city request))) itinerary)
              (fun response =>
                 prop (prop (http_body response) (js "metadata")) (js "aiModel")
                 = VStr (js "llama-3.1-sonar-small-128k-online") /\
                 prop (prop (http_body response) (js "metadata")) (js "fallbackReason")
                 = VUndef)).
    do 4 (apply ensures_bind; intros ?). apply finish_itinerary_metadata.
  - intros E H200. exfalso. revert E. unfold bind.
    repeat match goal with
    | |- context [match ?m ?v with _ => _ end] =>
        let o := fresh in let w := fresh in
        destruct (m v) as [[o | o] w]; try discriminate
    end.
    intros E. injection E as <- _. cbn in H200.
    destruct (instanceof_TimeoutError error); discriminate.
Qed.

(** X3. When the model fails and the deterministic itinerary is returned in
    its place, the answer does not say so: its metadata names the model,
    [aiModel] being llama-3.1-sonar-small-128k-online, and the
    [fallbackReason] that the route records on the fallback itinerary is
    overwritten by the metadata of the response. *)
Theorem fallback_answer_is_labelled_as_the_model (request : ItineraryRequest) (w : World)
    (k : jsstr)
    (Hkey : key_configured (PERPLEXITY_API_KEY w) = Some k)
    (Hvalid : valid_request request)
    (Hprompt : prompt_builds request)
    (Hmodel : model_fails (upstream w))
    (Hplaces : google_conforming (upstream w)) :
  exists response w',
    POST request w = (Return response, w') /\
    http_status response = 200 /\
    prop (prop (http_body response) (js "metadata")) (js "aiModel")
    = VStr (js "llama-3.1-sonar-small-128k-online") /\
    prop (prop (http_body response) (js "metadata")) (js "fallbackReason") = VUndef.
Proof.
  destruct (POST_answers (upstream w) request Hvalid Hprompt Hmodel Hplaces w eq_refl)
    as [response [w' [E [H200 _]]]].
  exists response, w'. split; [exact E|]. split; [exact H200|].
  exact (POST_with_credential_metadata request w k response w' Hkey E H200).
Qed.

Lemma fallback_answer_is_labelled_as_the_model_witness :
  exists response w',
    POST mumbai_request
      (boot (Some (js "key")) (Some (js "pexels-key")) (Some (js "places-key"))
         model_erring)
    = (Return response, w') /\
    http_status response = 200 /\
    prop (prop (http_body response) (js "metadata")) (js "aiModel")
    = VStr (js "llama-3.1-sonar-small-128k-online") /\
    prop (prop (http_body response) (js "metadata")) (js "fallbackReason") = VUndef.
Proof.
  apply (fallback_answer_is_labelled_as_the_model mumbai_request
           (boot (Some (js "key")) (Some (js "pexels-key")) (Some (js "places-key"))
              model_erring) (js "key")).
  - reflexivity.
  - exact mumbai_request_valid.
  - right. vm_compute. reflexivity.
  - exact model_erring_fails.
  - exact model_erring_conforming.
Defined.

(* ------------------------------------------------------------------ *)
(** ** timeout.ts: a response with an error status *)

Lemma onSuccess_elsewhere self w :
  sent (snd (onSuccess self w)) = sent w /\ clock (snd (onSuccess self w)) = clock w.
Proof.
  unfold onSuccess, bind, modify, get_world. cbn.
  rewrite breaker_of_set. cbn.
  destruct (state (breaker_of self w)); destruct self; cbn; split; reflexivity.
Qed.

(** X4. The breaker and the retry look at rejections only, not at the HTTP
    status. When the model answers within the deadline, whatever the status
    of its response (a 429 or a 500 as well as a 200), the orchestrated call
    returns that response after a single request and without waiting, and
    the breaker records a success: its failure count is reset to 0 and it
    stays CLOSED. *)
Theorem perplexity_call_http_error_is_success (w : World) (r : Response)
    (Hfresh : fresh_ids w)
    (Hclosed : state (perplexity w) = CLOSED)
    (Hreply : result (upstream w (sent w) PERPLEXITY_URL) = Return r)
    (Hintime : Z.max 0 (latency (upstream w (sent w) PERPLEXITY_URL)) < TIMEOUTS_AI) :
  exists w',
    perplexity_call w = (Return r, w') /\
    sent w' = S (sent w) /\
    clock w' = clock w + Z.max 0 (latency (upstream w (sent w) PERPLEXITY_URL)) /\
    failures (perplexity w') = 0 /\ state (perplexity w') = CLOSED.
Proof.
  unfold perplexity_call, retryWithBackoff. change (Z.to_nat 3) with 3%nat.
  set (nm := js "Perplexity API Call").
  set (a1 := after_start (attempt_label nm 1 3) w).
  set (op := fetchWithTimeout PERPLEXITY_URL (Some TIMEOUTS_AI) (Some (js "perplexity-api"))).
  assert (Hf1 : fresh_ids a1) by (apply fresh_ids_emit; exact Hfresh).
  assert (Hg : gate perplexity_ref a1 = (Return tt, a1)).
  { apply gate_closed. change (state (perplexity w) <> OPEN). congruence. }
  pose proof (fetchWithTimeout_run PERPLEXITY_URL TIMEOUTS_AI (js "perplexity-api") a1 Hf1)
    as Hrun.
  cbv zeta in Hrun.
  change (upstream a1) with (upstream w) in Hrun.
  change (sent a1) with (sent w) in Hrun.
  change (clock a1) with (clock w) in Hrun.
  replace (clock w + Z.max 0 (latency (upstream w (sent w) PERPLEXITY_URL))
           <? clock w + Z.max 0 TIMEOUTS_AI)
    with true in Hrun
    by (symmetry; apply Z.ltb_lt; change (Z.max 0 TIMEOUTS_AI) with TIMEOUTS_AI; lia).
  rewrite Hreply in Hrun. fold op in Hrun.
  match type of Hrun with _ = (_, ?x) => set (w2 := x) in * end.
  assert (Hex : execute perplexity_ref op a1 = (Return r, snd (onSuccess perplexity_ref w2))).
  { rewrite (execute_after_gate perplexity_ref op a1 a1 Hg), Hrun. reflexivity. }
  rewrite (retry_loop_success (execute perplexity_ref op) 3 2000 nm 2 1 _ w r _
             ltac:(lia) Hex).
  eexists. split; [reflexivity|].
  destruct (onSuccess_elsewhere perplexity_ref w2) as [Hs Hc].
  destruct (onSuccess_run perplexity_ref w2) as (w3 & E3 & Hb).
  rewrite E3 in Hs, Hc |- *. cbn [snd] in *.
  split; [|split; [|split]].
  - change (sent w3 = S (sent w)). rewrite Hs. reflexivity.
  - change (clock w3 = clock w + Z.max 0 (latency (upstream w (sent w) PERPLEXITY_URL))).
    rewrite Hc. unfold w2. cbn. lia.
  - change (failures (breaker_of perplexity_ref w3) = 0). rewrite Hb. reflexivity.
  - change (state (breaker_of perplexity_ref w3) = CLOSED). rewrite Hb.
    unfold succeeded. cbn [state].
    change (breaker_of perplexity_ref w2) with (perplexity w). rewrite Hclosed. reflexivity.
Qed.

Lemma perplexity_call_http_error_is_success_witness :
  exists w',
    perplexity_call (boot (Some (js "key")) None None model_erring)
    = (Return (mkResponse 500
                 (Throw (SyntaxError (js "Unexpected token I in JSON at position 0")))
                 (Return (js "Internal Server Error"))), w') /\
    sent w' = 1%nat /\
    clock w' = 100 /\
    failures (perplexity w') = 0 /\ state (perplexity w') = CLOSED.
Proof.
  apply (perplexity_call_http_error_is_success
           (boot (Some (js "key")) None None model_erring)).
  - split; intros x H; destruct H.
  - reflexivity.
  - reflexivity.
  - vm_compute. reflexivity.
Defined.

(* ------------------------------------------------------------------ *)
(** ** Counting the requests of a computation *)

Lemma sends_quiet {A} (m : M A) :
  (forall w, sent (snd (m w)) = sent w) -> sends_at_most 0 m.
Proof. intros H w. rewrite H. lia. Qed.

Lemma sends_ret {A} (a : A) : sends_at_most 0 (ret a).
Proof. apply sends_quiet. reflexivity. Qed.

Lemma sends_throw {A} e : sends_at_most 0 (@throw A e).
Proof. apply sends_quiet. reflexivity. Qed.

Lemma sends_lift {A} (o : Outcome A) : sends_at_most 0 (lift o).
Proof. apply sends_quiet. reflexivity. Qed.

Lemma sends_get_world : sends_at_most 0 get_world.
Proof. apply sends_quiet. reflexivity. Qed.

Lemma sends_weaken {A} (n n' : nat) (m : M A) :
  (n <= n')%nat -> sends_at_most n m -> sends_at_most n' m.
Proof. intros Hn H w. specialize (H w). lia. Qed.

Lemma sends_bind {A B} (n k : nat) (m : M A) (f : A -> M B) :
  sends_at_most n m -> (forall a, sends_at_most k (f a)) ->
  sends_at_most (n + k) (bind m f).
Proof.
  intros Hm Hf w. unfold bind. specialize (Hm w).
  destruct (m w) as [[a | e] w1]; cbn [snd] in *.
  - specialize (Hf a w1). lia.
  - lia.
Qed.

Lemma sends_try_catch {A} (n k : nat) (m : M A) (h : JsError -> M A) :
  sends_at_most n m -> (forall e, sends_at_most k (h e)) ->
  sends_at_most (n + k) (try_catch m h).
Proof.
  intros Hm Hh w. unfold try_catch. specialize (Hm w).
  destruct (m w) as [[a | e] w1]; cbn [snd] in *.
  - lia.
  - specialize (Hh e w1). lia.
Qed.

Lemma sends_if {A} (n : nat) (c : bool) (m1 m2 : M A) :
  sends_at_most n m1 -> sends_at_most n m2 -> sends_at_most n (if c then m1 else m2).
Proof. destruct c; auto. Qed.

Lemma sends_then {A B} (k : nat) (m : M A) (f : A -> M B) :
  sends_at_most 0 m -> (forall a, sends_at_most k (f a)) -> sends_at_most k (bind m f).
Proof. intros Hm Hf. apply (sends_bind 0 k); assumption. Qed.

Lemma sends_caught {A} (n : nat) (m : M A) (h : JsError -> M A) :
  sends_at_most n m -> (forall e, sends_at_most 0 (h e)) ->
  sends_at_most n (try_catch m h).
Proof.
  intros Hm Hh. apply (sends_weaken (n + 0)); [lia|]. apply sends_try_catch; assumption.
Qed.

Lemma sends_console lvl text : sends_at_most 0 (console lvl text).
Proof. apply sends_quiet. reflexivity. Qed.

Lemma sends_Date_now : sends_at_most 0 Date_now.
Proof. apply sends_quiet. reflexivity. Qed.

Lemma sends_sleep ms : sends_at_most 0 (sleep ms).
Proof. apply sends_quiet. reflexivity. Qed.

Lemma sends_monitor_log m msg : sends_at_most 0 (monitor_log m msg).
Proof. apply sends_quiet. reflexivity. Qed.

Lemma sends_monitor_error m msg : sends_at_most 0 (monitor_error m msg).
Proof. apply sends_quiet. reflexivity. Qed.

Lemma sends_monitor_finish m b : sends_at_most 0 (monitor_finish m b).
Proof. apply sends_quiet. reflexivity. Qed.

Lemma sends_newPerformanceMonitor op : sends_at_most 0 (newPerformanceMonitor op).
Proof. apply sends_quiet. reflexivity. Qed.

Lemma sends_response_json r : sends_at_most 0 (response_json r).
Proof. apply sends_quiet. reflexivity. Qed.

Lemma sends_fetch url signal : sends_at_most 1 (fetch url signal).
Proof.
  intros w. unfold fetch. cbv zeta.
  destruct signal as [c|]; [|cbn; lia].
  destruct (is_aborted c _); [cbn; lia|].
  destruct (abort_due c _) as [d|]; [|cbn; lia].
  destruct (_ <? d); cbn; lia.
Qed.

Lemma sends_fetchWithTimeout url d op : sends_at_most 1 (fetchWithTimeout url d op).
Proof.
  unfold fetchWithTimeout. cbv zeta.
  apply sends_then; [apply sends_quiet; reflexivity|]. intros controller.
  apply sends_then; [apply sends_quiet; reflexivity|]. intros timeoutId.
  apply sends_caught.
  - apply (sends_bind 1 0); [apply sends_fetch|]. intros response.
    apply sends_then; [apply sends_quiet; reflexivity|]. intros _. apply sends_ret.
  - intros e. apply sends_then; [apply sends_quiet; reflexivity|]. intros _.
    apply sends_if; apply sends_throw.
Qed.

Lemma sends_gate self : sends_at_most 0 (gate self).
Proof.
  apply sends_quiet. intros w. unfold gate, bind, get_world, Date_now, modify. cbn.
  destruct (state (breaker_of self w)); try reflexivity.
  destruct (_ <? _); destruct self; reflexivity.
Qed.

Lemma sends_onSuccess self : sends_at_most 0 (onSuccess self).
Proof. apply sends_quiet. intros w. apply onSuccess_elsewhere. Qed.

Lemma sends_onFailure self : sends_at_most 0 (onFailure self).
Proof.
  apply sends_quiet. intros w. unfold onFailure, bind, modify, get_world, Date_now. cbn.
  destruct (_ <=? _); destruct self; reflexivity.
Qed.

Lemma sends_execute {T} self (n : nat) (operation : M T) :
  sends_at_most n operation -> sends_at_most n (execute self operation).
Proof.
  intros Hop. unfold execute.
  apply sends_then; [apply sends_gate|]. intros _.
  apply sends_caught.
  - apply (sends_weaken (n + 0)); [lia|].
    apply sends_bind; [exact Hop|]. intros result.
    apply sends_then; [apply sends_onSuccess|]. intros _. apply sends_ret.
  - intros e. apply sends_then; [apply sends_onFailure|]. intros _. apply sends_throw.
Qed.

Lemma sends_retry_loop {T} (n : nat) (operation : M T) maxAttempts baseDelay operationName :
  sends_at_most n operation ->
  forall fuel attempt lastError,
    sends_at_most (fuel * n)
      (retry_loop operation maxAttempts baseDelay operationName fuel attempt lastError).
Proof.
  intros Hop. induction fuel as [|fuel IH]; intros attempt lastError.
  - apply sends_throw.
  - cbn [retry_loop]. apply sends_if; [|apply (sends_weaken 0); [lia | apply sends_throw]].
    change (S fuel * n)%nat with (n + fuel * n)%nat.
    apply sends_try_catch.
    + apply sends_then; [apply sends_newPerformanceMonitor|]. intros monitor.
      apply (sends_weaken (n + 0)); [lia|].
      apply sends_bind; [exact Hop|]. intros result.
      apply sends_then; [apply sends_monitor_finish|]. intros _. apply sends_ret.
    + intros e. apply sends_if.
      * apply (sends_weaken 0); [lia|].
        apply sends_then; [apply sends_console|]. intros _. apply sends_throw.
      * cbv zeta. change (read_message e) with (lift (message_of e)).
        apply sends_then; [apply sends_lift|]. intros message.
        apply sends_then; [apply sends_console|]. intros _.
        apply sends_then; [apply sends_sleep|]. intros _. apply IH.
Qed.

(** X5. [retryWithBackoff] never invokes the operation more than
    [maxAttempts] times: when one invocation sends at most [n] requests, the
    whole call sends at most [maxAttempts * n], however the attempts end,
    and none at all when [maxAttempts] is zero or negative. *)
Theorem retryWithBackoff_request_budget {T} (operation : M T) (n : nat)
    (maxAttempts baseDelay : Z) (operationName : jsstr)
    (Hop : sends_at_most n operation) :
  sends_at_most (Z.to_nat maxAttempts * n)
    (retryWithBackoff operation maxAttempts baseDelay operationName).
Proof. unfold retryWithBackoff. apply sends_retry_loop. exact Hop. Qed.

Lemma retryWithBackoff_request_budget_witness :
  sends_at_most 1 perplexity_attempt /\ sends_at_most 3 perplexity_call.
Proof.
  assert (H : sends_at_most 1 perplexity_attempt)
    by (apply sends_execute, sends_fetchWithTimeout).
  split; [exact H|].
  exact (retryWithBackoff_request_budget perplexity_attempt 1 3 2000
           (js "Perplexity API Call") H).
Defined.

(* ------------------------------------------------------------------ *)
(** ** Google Places: what a search costs and returns *)

Lemma call_slice_short v n top :
  (n <= 5)%nat -> call_slice v n = Return top -> at_most_five top.
Proof.
  intros Hn. destruct v; cbn; try discriminate; intros E; injection E as <-; cbn;
    rewrite length_firstn; lia.
Qed.

Ltac sends_quiet_step :=
  apply sends_then;
  [ first [ apply sends_lift | apply sends_console | apply sends_response_json
          | apply sends_get_world | apply sends_Date_now | apply sends_monitor_log
          | apply sends_monitor_error | apply sends_monitor_finish
          | apply sends_newPerformanceMonitor ]
  | intros ? ].

Lemma sends_searchRealPlaces query city type :
  sends_at_most 2 (searchRealPlaces query city type).
Proof.
  unfold searchRealPlaces. sends_quiet_step.
  destruct (key_configured _) as [apiKey|].
  2:{ apply (sends_weaken 0); [lia|]. sends_quiet_step. apply sends_ret. }
  apply sends_caught.
  2:{ intros e. sends_quiet_step. apply sends_ret. }
  sends_quiet_step. cbv zeta. sends_quiet_step. sends_quiet_step.
  apply (sends_bind 1 1); [apply sends_fetch|]. intros response.
  apply sends_if; [apply (sends_weaken 0); [lia | apply sends_throw]|].
  sends_quiet_step. sends_quiet_step.
  apply sends_if.
  - sends_quiet_step.
    apply (sends_weaken (1 + 0)); [lia|]. apply sends_bind.
    2:{ intros [top|]; [apply sends_ret | apply sends_throw]. }
    apply sends_if; [|apply (sends_weaken 0); [lia | apply sends_ret]].
    destruct type as [[|c t]|]; try (apply (sends_weaken 0); [lia | apply sends_ret]).
    sends_quiet_step. sends_quiet_step.
    apply (sends_weaken (1 + 0)); [lia|]. apply sends_bind; [apply sends_fetch|].
    intros broaderResponse.
    apply sends_if; [|apply sends_ret].
    sends_quiet_step. sends_quiet_step.
    apply sends_if; [|apply sends_ret].
    do 4 sends_quiet_step. apply sends_ret.
  - apply (sends_weaken 0); [lia|].
    do 3 sends_quiet_step. apply sends_lift.
Qed.

Lemma ensures_searchRealPlaces query city type :
  ensures (searchRealPlaces query city type) at_most_five.
Proof.
  unfold searchRealPlaces. apply ensures_bind. intros w0.
  destruct (key_configured _) as [apiKey|].
  2:{ apply ensures_bind. intros _. apply ensures_ret. cbn. lia. }
  apply ensures_try_catch.
  2:{ intros e. apply ensures_bind. intros _. apply ensures_ret. cbn. lia. }
  apply ensures_bind. intros trimmed. cbv zeta.
  do 3 (apply ensures_bind; intros ?).
  apply ensures_if; [apply ensures_throw|].
  do 2 (apply ensures_bind; intros ?).
  apply ensures_if.
  - apply ensures_bind. intros _.
    apply ensures_bind_with
      with (P := fun broader => match broader with
                                | Some top => at_most_five top
                                | None => True
                                end).
    2:{ intros [top|] H; [apply ensures_ret; exact H | apply ensures_throw]. }
    apply ensures_if; [|apply ensures_ret; exact I].
    destruct type as [[|c t]|]; try (apply ensures_ret; exact I).
    do 3 (apply ensures_bind; intros ?).
    apply ensures_if; [|apply ensures_ret; exact I].
    do 2 (apply ensures_bind; intros ?).
    apply ensures_if; [|apply ensures_ret; exact I].
    do 3 (apply ensures_bind; intros ?).
    apply ensures_bind_with with (P := at_most_five).
    + apply ensures_lift. intros top. apply call_slice_short. lia.
    + intros top H. apply ensures_ret. exact H.
  - do 3 (apply ensures_bind; intros ?).
    apply ensures_lift. intros top. apply call_slice_short. lia.
Qed.

Lemma returns_caught {A} (m : M A) (h : JsError -> M A) w :
  (forall e w1, exists a w', h e w1 = (Return a, w')) ->
  exists a w', try_catch m h w = (Return a, w').
Proof.
  intros Hh. unfold try_catch. destruct (m w) as [[a | e] w1]; [eauto | apply Hh].
Qed.

(** X6. A place search never throws, on any network and for any query:
    whatever goes wrong comes out as the empty list. It returns at most
    five results and sends at most two requests (the search, and one
    broader search when nothing was found); without a credential it sends
    none and finds nothing. *)
Theorem searchRealPlaces_bounds (query : value) (city : jsstr) (type : option jsstr)
    (w : World) :
  exists found w',
    searchRealPlaces query city type w = (Return found, w') /\
    at_most_five found /\
    (sent w <= sent w' <= sent w + 2)%nat /\
    (key_configured (GOOGLE_PLACES_API_KEY w) = None ->
     found = VArr [] /\ sent w' = sent w).
Proof.
  assert (Hret : exists found w', searchRealPlaces query city type w = (Return found, w')).
  { unfold searchRealPlaces, bind at 1, get_world.
    destruct (key_configured _) as [apiKey|].
    - apply returns_caught. intros e w1. eexists. eexists. reflexivity.
    - eexists. eexists. reflexivity. }
  destruct Hret as [found [w' E]]. exists found, w'.
  split; [exact E|]. split; [|split].
  - exact (ensures_searchRealPlaces query city type w found w' E).
  - pose proof (sends_searchRealPlaces query city type w) as H.
    rewrite E in H. exact H.
  - intros Hkey. revert E. unfold searchRealPlaces, bind at 1, get_world.
    rewrite Hkey. intros E. injection E as <- <-. split; reflexivity.
Qed.

Lemma searchRealPlaces_bounds_witness :
  exists found w',
    searchRealPlaces (VStr (js "Gateway of India")) (js "Mumbai") None
      (boot None None None offline) = (Return found, w') /\
    found = VArr [] /\ sent w' = 0%nat.
Proof.
  destruct (searchRealPlaces_bounds (VStr (js "Gateway of India")) (js "Mumbai") None
              (boot None None None offline)) as [found [w' [E [_ [_ H]]]]].
  exists found, w'. split; [exact E|]. apply H. reflexivity.
Defined.

(* ------------------------------------------------------------------ *)
(** ** pexels.ts: the batched image search *)

Lemma sends_random_below n : sends_at_most 0 (random_below n).
Proof. apply sends_quiet. reflexivity. Qed.

Lemma sends_pexels_search monitor query category size :
  sends_at_most 1 (pexels_search monitor query category size).
Proof.
  unfold pexels_search. sends_quiet_step.
  destruct (PEXELS_API_KEY _) as [[|c k]|];
    try (apply (sends_weaken 0); [lia|]; sends_quiet_step; apply sends_ret).
  cbv zeta. sends_quiet_step.
  apply (sends_bind 1 0).
  { apply sends_execute. sends_quiet_step. apply sends_fetchWithTimeout. }
  intros response. apply sends_if; [sends_quiet_step; apply sends_ret|].
  do 4 sends_quiet_step.
  apply sends_if; [|do 2 sends_quiet_step; apply sends_ret].
  do 2 sends_quiet_step.
  match goal with |- sends_at_most 0 (match ?l with _ => _ end) => destruct l end.
  - do 2 sends_quiet_step. apply sends_ret.
  - apply sends_then; [apply sends_random_below|]. intros randomIndex. cbv zeta.
    do 3 sends_quiet_step. apply sends_ret.
Qed.

Lemma sends_fetchPexelsImage query category size :
  sends_at_most 1 (fetchPexelsImage query category size).
Proof.
  unfold fetchPexelsImage. sends_quiet_step.
  apply sends_caught; [apply sends_pexels_search|].
  intros e. apply sends_then; [apply sends_if; apply sends_monitor_error|].
  intros _. apply sends_ret.
Qed.

Lemma fetchPexelsImage_returns query category size w :
  exists image w', fetchPexelsImage query category size w = (Return image, w').
Proof.
  pose proof (fetchPexelsImage_run query category size w) as H. cbv zeta in H.
  destruct (pexels_search _ query category size _) as [[image|error] w'].
  - eauto.
  - destruct H as (w'' & H & _). eauto.
Qed.

(** Around an operation that never throws, the retry is a single call. *)
Lemma retry_of_total {T} (operation : M T) (n : nat) maxAttempts baseDelay operationName :
  1 <= maxAttempts ->
  (forall w, exists r w', operation w = (Return r, w')) ->
  sends_at_most n operation ->
  forall w, exists r w',
    retryWithBackoff operation maxAttempts baseDelay operationName w = (Return r, w') /\
    (sent w <= sent w' <= sent w + n)%nat.
Proof.
  intros Hmax Htotal Hop w. unfold retryWithBackoff.
  destruct (Z.to_nat maxAttempts) as [|fuel] eqn:Ef; [lia|].
  assert (H1 : (1 <=? maxAttempts) = true) by (apply Z.leb_le; lia).
  cbn [retry_loop]. rewrite H1.
  unfold try_catch, bind at 1. rewrite newPerformanceMonitor_run.
  unfold bind at 1.
  match goal with
  | |- context [operation ?v] =>
      pose proof (Hop v) as Hs; destruct (Htotal v) as [r [w1 E]]; rewrite E in *
  end.
  eexists. eexists. split; [reflexivity|]. cbn in Hs |- *. exact Hs.
Qed.

Lemma settle_from_counts {A} (n : nat) (tasks : list (M A)) :
  Forall (fun task => sends_at_most n task) tasks ->
  forall t0 latest w,
    List.length (fst (fst (settle_from t0 tasks latest w))) = List.length tasks /\
    (sent w <= sent (snd (settle_from t0 tasks latest w))
     <= sent w + List.length tasks * n)%nat.
Proof.
  induction 1 as [|task rest Htask _ IH]; intros t0 latest w.
  - cbn. lia.
  - cbn [settle_from]. pose proof (Htask (with_clock t0 w)) as Hs.
    destruct (task (with_clock t0 w)) as [o w1]. cbn [snd] in Hs.
    specialize (IH t0 (Z.max latest (clock w1)) w1).
    destruct (settle_from t0 rest (Z.max latest (clock w1)) w1) as [[os latest'] w2].
    cbn [fst snd List.length] in *. change (sent (with_clock t0 w)) with (sent w) in Hs.
    lia.
Qed.

Lemma allSettled_counts {A} (n : nat) (tasks : list (M A)) w :
  Forall (fun task => sends_at_most n task) tasks ->
  exists os w',
    allSettled tasks w = (Return os, w') /\
    List.length os = List.length tasks /\
    (sent w <= sent w' <= sent w + List.length tasks * n)%nat.
Proof.
  intros H. unfold allSettled.
  pose proof (settle_from_counts n tasks H (clock w) (clock w) w) as Hc.
  destruct (settle_from (clock w) tasks (clock w) w) as [[os latest] w1].
  cbn [fst snd] in Hc. eexists. eexists. split; [reflexivity|]. exact Hc.
Qed.

(** A loop whose every pass returns, adds [weight x] to a measure of its
    state and sends at most [weight x] requests. *)
Lemma fold_M_counts {A S} (f : S -> A -> M S) (measure : S -> nat) (weight : A -> nat)
    (l : list A) :
  (forall s x w, In x l ->
     exists s' w', f s x w = (Return s', w') /\
                   measure s' = (measure s + weight x)%nat /\
                   (sent w <= sent w' <= sent w + weight x)%nat) ->
  forall s w,
    exists s' w', fold_M f l s w = (Return s', w') /\
                  measure s' = (measure s + list_sum (map weight l))%nat /\
                  (sent w <= sent w' <= sent w + list_sum (map weight l))%nat.
Proof.
  induction l as [|x rest IH]; intros Hstep s w.
  - exists s, w. cbn. split; [reflexivity|]. lia.
  - destruct (Hstep s x w (or_introl eq_refl)) as [s1 [w1 [E1 [Hm1 Hs1]]]].
    destruct (IH (fun s x w Hin => Hstep s x w (or_intror Hin)) s1 w1)
      as [s2 [w2 [E2 [Hm2 Hs2]]]].
    exists s2, w2. cbn [fold_M]. unfold bind. rewrite E1, E2.
    split; [reflexivity|].
    change (list_sum (map weight (x :: rest)))
      with (weight x + list_sum (map weight rest))%nat.
    lia.
Qed.

Lemma chunks_cover {A} (size : nat) :
  (0 < size)%nat ->
  forall fuel (l : list A),
    (List.length l <= fuel)%nat ->
    list_sum (map (@List.length A) (chunks fuel size l)) = List.length l.
Proof.
  intros Hsize. induction fuel as [|fuel IH]; intros l Hl.
  - destruct l; [reflexivity | cbn in Hl; lia].
  - destruct l as [|x rest]; [reflexivity|].
    cbn [chunks map].
    match goal with
    | |- list_sum (?a :: ?l) = _ => change (list_sum (a :: l)) with (a + list_sum l)%nat
    end.
    rewrite IH.
    + rewrite length_firstn, length_skipn. lia.
    + rewrite length_skipn. cbn [List.length] in *. lia.
Qed.

Lemma settled_results_counts monitor (batchResults : list (Outcome value)) results w :
  exists results' w',
    fold_M (fun results result =>
              match result with
              | Return v => ret (results ++ [v])
              | Throw reason =>
                  monitor_log monitor (js "Image fetch failed: " ++ error_text reason) ;;
                  ret (results ++ [VNull])
              end) batchResults results w = (Return results', w') /\
    List.length results' = (List.length results + List.length batchResults)%nat /\
    sent w' = sent w.
Proof.
  revert results w. induction batchResults as [|o rest IH]; intros results w.
  - exists results, w. cbn. split; [reflexivity|]. lia.
  - cbn [fold_M]. unfold bind at 1. destruct o as [v | reason].
    + cbn [ret]. destruct (IH (results ++ [v]) w) as [r' [w' [E [Hl Hs]]]].
      exists r', w'. split; [exact E|]. rewrite Hl, length_app. cbn. lia.
    + unfold bind at 1.
      match goal with
      | |- context [monitor_log ?m ?msg w] =>
          change (monitor_log m msg w) with (Return tt, snd (monitor_log m msg w));
          destruct (IH (results ++ [VNull]) (snd (monitor_log m msg w)))
            as [r' [w' [E [Hl Hs]]]]
      end.
      exists r', w'. cbn [ret]. split; [exact E|]. rewrite Hl, length_app. cbn.
      split; [lia | exact Hs].
Qed.

(** X7. [fetchMultiplePexelsImages] never throws and answers every query:
    its result has exactly one entry (an image or null) per query. It sends
    at most one request per query: [fetchPexelsImage] turns every failure
    into null, so the retry wrapped around it never makes a second
    attempt. *)
Theorem fetchMultiplePexelsImages_one_entry_per_query (queries : list jsstr)
    (categories : option (list jsstr)) (size : jsstr) (w : World) :
  exists results w',
    fetchMultiplePexelsImages queries categories size w = (Return results, w') /\
    List.length results = List.length queries /\
    (sent w <= sent w' <= sent w + List.length queries)%nat.
Proof.
  unfold fetchMultiplePexelsImages, bind at 1. rewrite newPerformanceMonitor_run.
  set (monitor := mkMonitor (clock w) _). set (w0 := after_start _ w).
  unfold try_catch. cbv zeta.
  set (batches := chunks (List.length queries) BATCH_SIZE queries).
  unfold bind at 1.
  match goal with
  | |- context [fold_M ?f batches (O, []) w0] =>
      destruct (fold_M_counts f (fun acc => List.length (snd acc)) (@List.length jsstr)
                  batches) with (s := (O, @nil value)) (w := w0)
        as [acc [w1 [E [Hm Hs]]]]
  end.
  { intros [index results] batch wb Hin.
    unfold bind at 1.
    match goal with
    | |- context [monitor_log ?m ?msg wb] =>
        change (monitor_log m msg wb) with (Return tt, snd (monitor_log m msg wb));
        set (wl := snd (monitor_log m msg wb))
    end.
    cbv iota beta. unfold bind at 1.
    match goal with
    | |- context [allSettled ?tasks wl] =>
        destruct (allSettled_counts 1 tasks wl) as [os [w2 [Es [Hlen Hsent]]]]
    end.
    { apply Forall_forall. intros task Ht. apply in_map_iff in Ht.
      destruct Ht as [[k query] [<- _]].
      intros v.
      destruct (retry_of_total
                  (fetchPexelsImage query
                     match match categories with
                           | Some cs => Some (firstn BATCH_SIZE (skipn (index * BATCH_SIZE) cs))
                           | None => None
                           end with
                     | Some cs => nth_error cs k
                     | None => None
                     end size)
                  1 2 500 (js "pexels-" ++ query) ltac:(lia)
                  (fetchPexelsImage_returns _ _ _)
                  (sends_fetchPexelsImage _ _ _) v) as [r [w' [Er Hr]]].
      rewrite Er. exact Hr. }
    rewrite Es. unfold bind at 1.
    destruct (settled_results_counts monitor os results w2) as [r' [w3 [Er [Hl3 Hs3]]]].
    rewrite Er. unfold bind at 1.
    rewrite length_map, length_combine, length_seq, Nat.min_id in Hlen, Hsent.
    destruct (_ <? _)%nat.
    - eexists. eexists. split; [reflexivity|]. cbn [snd].
      split; [lia|]. change (sent wl) with (sent wb) in Hsent. cbn. lia.
    - eexists. eexists. split; [reflexivity|]. cbn [snd].
      split; [lia|]. change (sent wl) with (sent wb) in Hsent. cbn. lia. }
  rewrite E. cbn [snd List.length] in Hm.
  unfold batches in Hm, Hs.
  assert (Hcover : list_sum (map (@List.length jsstr)
                                 (chunks (List.length queries) BATCH_SIZE queries))
                   = List.length queries)
    by (apply chunks_cover; [unfold BATCH_SIZE; lia | lia]).
  rewrite Hcover in Hm. rewrite Hcover in Hs.
  eexists. eexists. split; [reflexivity|]. split; [exact Hm|]. cbn.
  change (sent w0) with (sent w) in Hs. exact Hs.
Qed.

(* ------------------------------------------------------------------ *)
(** ** pexels.ts: the images of the locations *)

Lemma map_out_Forall2 {A B} (f : A -> Outcome B) (Rel : A -> B -> Prop) l :
  (forall x y, f x = Return y -> Rel x y) ->
  forall l', map_out f l = Return l' -> Forall2 Rel l l'.
Proof.
  intros Hf. induction l as [|x rest IH]; intros l'; cbn [map_out].
  - intros E. injection E as <-. constructor.
  - destruct (f x) as [y|e] eqn:Ey; [|discriminate]. cbn [obind].
    destruct (map_out f rest) as [ys|e]; [|discriminate]. cbn [obind].
    intros E. injection E as <-. constructor; [apply Hf, Ey | apply IH; reflexivity].
Qed.

Lemma categorize_fallbacks s : List.length (snd (categorize s)) = 3%nat.
Proof.
  unfold categorize.
  repeat match goal with
         | |- context [if ?c then _ else _] => destruct c; [reflexivity|]
         end.
  reflexivity.
Qed.

Lemma sends_try_fallbacks queries category size image :
  sends_at_most (List.length queries) (try_fallbacks queries category size image).
Proof.
  revert image. induction queries as [|q rest IH]; intros image.
  - apply sends_ret.
  - cbn [try_fallbacks List.length]. change (S (List.length rest)) with (1 + List.length rest)%nat.
    apply sends_bind; [apply sends_fetchPexelsImage|]. intros found.
    apply sends_if; [apply (sends_weaken 0); [lia | apply sends_ret] | apply IH].
Qed.

Lemma update_Forall (P : jsstr * value -> Prop) k x fields :
  P (k, x) -> Forall P fields -> Forall P (update k x fields).
Proof.
  intros Hk. induction 1 as [|[k' v] rest Hv Hrest IH]; cbn [update].
  - constructor; [exact Hk | constructor].
  - destruct (str_eqb k k'); constructor; assumption.
Qed.

Lemma update_keys k x fields :
  NoDup (map fst fields) -> NoDup (map fst (update k x fields)) /\
  (forall k', In k' (map fst (update k x fields)) -> k' = k \/ In k' (map fst fields)).
Proof.
  induction fields as [|[k' v] rest IH]; cbn [update map fst]; intros Hnd.
  - split; [constructor; [intros [] | constructor]|]. intros k' [<-|[]]. auto.
  - inversion Hnd as [|? ? Hnot Hrest]; subst.
    destruct (str_eqb k k') eqn:E.
    + apply str_eqb_eq in E. subst k'. split; [exact Hnd|]. cbn [map fst]. auto.
    + destruct (IH Hrest) as [IH1 IH2]. cbn [map fst]. split.
      * constructor; [|exact IH1]. intros Hin. destruct (IH2 k' Hin) as [->|Hin'].
        -- rewrite str_eqb_refl in E. discriminate.
        -- contradiction.
      * intros k'' [<-|Hin]; [right; left; reflexivity|].
        destruct (IH2 k'' Hin); [left | right; right]; assumption.
Qed.

Lemma settle_from_spec {A} (n : nat) (Q : A -> Prop) (tasks : list (M A)) :
  Forall (fun task => sends_at_most n task /\ ensures task Q) tasks ->
  forall t0 latest w,
    Forall (fun o => forall a, o = Return a -> Q a)
      (fst (fst (settle_from t0 tasks latest w))) /\
    (sent w <= sent (snd (settle_from t0 tasks latest w))
     <= sent w + List.length tasks * n)%nat.
Proof.
  induction 1 as [|task rest [Hsends Hens] _ IH]; intros t0 latest w.
  - cbn. split; [constructor | lia].
  - cbn [settle_from]. pose proof (Hsends (with_clock t0 w)) as Hs.
    pose proof (Hens (with_clock t0 w)) as He.
    destruct (task (with_clock t0 w)) as [o w1]. cbn [snd] in Hs.
    specialize (IH t0 (Z.max latest (clock w1)) w1).
    destruct (settle_from t0 rest (Z.max latest (clock w1)) w1) as [[os latest'] w2].
    cbn [fst snd List.length] in *. change (sent (with_clock t0 w)) with (sent w) in Hs.
    destruct IH as [IH1 IH2]. split; [|lia].
    constructor; [|exact IH1]. intros a ->. apply (He a w1 eq_refl).
Qed.

(** What the [try] block of [fetchDiverseLocationImages] leaves, however
    it ends. *)
Lemma diverse_images_spec monitor locationNames size w :
  match diverse_images monitor locationNames size w with
  | (outcome, w') =>
      (sent w <= sent w' <= sent w + 4 * List.length locationNames)%nat /\
      (forall images, outcome = Return images ->
         NoDup (map fst images) /\
         Forall (fun entry => In (VStr (fst entry)) locationNames
                              /\ truthy (snd entry) = true) images)
  end.
Proof.
  unfold diverse_images, bind at 1, lift.
  destruct (map_out _ locationNames) as [categorized | e] eqn:Ecat.
  2:{ cbn. split; [lia | discriminate]. }
  assert (Hrel : Forall2
                   (fun (v : value) (entry : jsstr * (jsstr * list jsstr)) =>
                      v = VStr (fst entry) /\ List.length (snd (snd entry)) = 3%nat)
                   locationNames categorized).
  { eapply map_out_Forall2; [|exact Ecat].
    intros [] y; cbn; try discriminate.
    intros E; injection E as <-. split; [reflexivity | apply categorize_fallbacks]. }
  assert (Hlen : List.length categorized = List.length locationNames)
    by (symmetry; apply (Forall2_length Hrel)).
  assert (Hin : Forall (fun entry : jsstr * (jsstr * list jsstr) =>
                          In (VStr (fst entry)) locationNames
                          /\ List.length (snd (snd entry)) = 3%nat) categorized).
  { clear Ecat Hlen. induction Hrel as [|v entry vs entries [-> H3] _ IH].
    - constructor.
    - constructor; [split; [left; reflexivity | exact H3]|].
      eapply Forall_impl; [|exact IH]. cbn. intros ? [? ?]. split; [right|]; assumption. }
  cbv zeta. unfold bind at 1, race_timeout.
  match goal with
  | |- context [allSettled ?tasks w] =>
      pose proof (settle_from_spec 4
                    (fun result : jsstr * value => In (VStr (fst result)) locationNames)
                    tasks) as Hsettle
  end.
  match type of Hsettle with
  | ?H -> _ => assert (Htasks : H)
  end.
  { apply Forall_forall. intros task Ht. apply in_map_iff in Ht.
    destruct Ht as [[locationName [category fallbackQueries]] [<- Hentry]].
    rewrite Forall_forall in Hin. destruct (Hin _ Hentry) as [Hname H3].
    cbn [fst snd] in Hname, H3. split.
    - sends_quiet_step. change 4%nat with (1 + 3)%nat.
      apply sends_bind; [apply sends_fetchPexelsImage|]. intros image.
      apply (sends_weaken (3 + 0)); [lia|]. apply sends_bind; [|intros; apply sends_ret].
      apply sends_if; [|apply (sends_weaken 0); [lia | apply sends_ret]].
      sends_quiet_step. rewrite <- H3. apply sends_try_fallbacks.
    - do 3 (apply ensures_bind; intros ?). apply ensures_ret. exact Hname. }
  specialize (Hsettle Htasks (clock w) (clock w) w). clear Htasks.
  unfold allSettled at 1.
  rewrite length_map, Hlen in Hsettle.
  destruct (settle_from (clock w) _ (clock w) w) as [[os latest] w1].
  cbn [fst snd] in Hsettle. destruct Hsettle as [Hos Hsent].
  match goal with
  | |- context [if ?c then _ else _] => destruct c
  end.
  { cbn. split; [lia | discriminate]. }
  assert (Hfold : forall acc wa,
             NoDup (map fst (fst acc)) ->
             Forall (fun entry : jsstr * value =>
                       In (VStr (fst entry)) locationNames /\ truthy (snd entry) = true)
               (fst acc) ->
             exists acc' wa',
               fold_M
                 (fun (acc : object_map * nat) result =>
                    let (locationImages, successCount) := acc in
                    match result with
                    | Return (locationName, image) =>
                        if truthy image
                        then ret (update locationName image locationImages, S successCount)
                        else ret acc
                    | Throw reason =>
                        monitor_log monitor
                          (js "Failed to fetch image: " ++ error_text reason) ;;
                        ret acc
                    end) os acc wa = (Return acc', wa') /\
               sent wa' = sent wa /\
               NoDup (map fst (fst acc')) /\
               Forall (fun entry : jsstr * value =>
                         In (VStr (fst entry)) locationNames /\ truthy (snd entry) = true)
                 (fst acc')).
  { clear Hsent. induction Hos as [|o rest Ho _ IH]; intros [locationImages successCount] wa Hnd Hall.
    - eexists. eexists. split; [reflexivity|]. auto.
    - cbn [fold_M]. unfold bind at 1.
      destruct o as [[locationName image] | reason].
      + destruct (truthy image) eqn:Et.
        * cbn [ret]. apply IH; cbn [fst].
          -- apply update_keys. exact Hnd.
          -- apply update_Forall; [|exact Hall]. split; [|exact Et].
             apply (Ho (locationName, image) eq_refl).
        * cbn [ret]. apply IH; assumption.
      + unfold bind at 1.
        match goal with
        | |- context [monitor_log ?m ?msg wa] =>
            change (monitor_log m msg wa) with (Return tt, snd (monitor_log m msg wa));
            destruct (IH (locationImages, successCount) (snd (monitor_log m msg wa)) Hnd Hall)
              as [acc' [wa' [E [Hs H]]]]
        end.
        cbn [ret]. exists acc', wa'. split; [exact E|]. split; [exact Hs | exact H]. }
  destruct (Hfold ([], O) (with_clock latest w1) ltac:(constructor) ltac:(constructor))
    as [[locationImages successCount] [w2 [E [Hs2 [Hnd Hall]]]]].
  unfold bind at 1. cbn [fst snd]. rewrite E. cbn [fst snd] in *.
  split.
  - cbn. change (sent (with_clock latest w1)) with (sent w1) in Hs2. lia.
  - intros images Ei. injection Ei as <-. split; assumption.
Qed.

(** X8. [fetchDiverseLocationImages] never throws, and the mapping it
    returns has at most one entry per location name: every key is one of
    the names asked for, no key occurs twice and every value is an image,
    never null. It sends at most four requests per name, the search for the
    name and one per fallback query. *)
Theorem fetchDiverseLocationImages_keys_and_budget (locationNames : list value)
    (size : jsstr) (w : World) :
  exists images w',
    fetchDiverseLocationImages locationNames size w = (Return images, w') /\
    NoDup (map fst images) /\
    Forall (fun entry => In (VStr (fst entry)) locationNames /\ truthy (snd entry) = true)
      images /\
    (sent w <= sent w' <= sent w + 4 * List.length locationNames)%nat.
Proof.
  unfold fetchDiverseLocationImages, bind at 1. rewrite newPerformanceMonitor_run.
  unfold try_catch.
  match goal with
  | |- context [diverse_images ?m locationNames size ?v] =>
      pose proof (diverse_images_spec m locationNames size v) as Hspec;
      destruct (diverse_images m locationNames size v) as [[images | e] w1]
  end; destruct Hspec as [Hs Hi].
  - exists images, w1. split; [reflexivity|].
    destruct (Hi images eq_refl) as [Hnd Hall]. repeat split; try assumption; cbn in Hs; lia.
  - unfold bind.
    destruct (instanceof_TimeoutError e);
      (eexists; eexists; split; [reflexivity|]; split; [constructor|];
       split; [constructor|]; cbn in Hs |- *; lia).
Qed.

Lemma map_out_throws {A B} (f : A -> Outcome B) (l : list A) x :
  In x l -> (exists e, f x = Throw e) -> exists e, map_out f l = Throw e.
Proof.
  intros Hin Hx. induction l as [|y rest IH]; [destruct Hin|].
  cbn [map_out]. destruct (f y) as [b | e] eqn:Ey; [|cbn; eauto]. cbn [obind].
  destruct Hin as [-> | Hin].
  - destruct Hx as [e Hx]. congruence.
  - destruct (IH Hin) as [e ->]. cbn. eauto.
Qed.

(** X9. One location name that is not a string costs every image: the
    categorisation calls [toLowerCase] on each name before anything is
    searched, so [fetchDiverseLocationImages] returns the empty mapping for
    the whole list, without sending a request and without touching a
    breaker. *)
Theorem fetchDiverseLocationImages_needs_text_names (locationNames : list value)
    (size : jsstr) (w : World) (name : value)
    (Hin : In name locationNames)
    (Hname : forall s, name <> VStr s) :
  exists w',
    fetchDiverseLocationImages locationNames size w = (Return [], w') /\
    wire w' = wire w.
Proof.
  unfold fetchDiverseLocationImages, bind at 1. rewrite newPerformanceMonitor_run.
  unfold try_catch, diverse_images, bind at 1, lift.
  match goal with
  | |- context [map_out ?f locationNames] =>
      destruct (map_out_throws f locationNames name Hin) as [e ->]
  end.
  { destruct name; cbn; eauto. exfalso. eapply Hname. reflexivity. }
  unfold bind.
  destruct (instanceof_TimeoutError e); (eexists; split; reflexivity).
Qed.

Lemma fetchDiverseLocationImages_needs_text_names_witness :
  exists w',
    fetchDiverseLocationImages [VStr (js "Gateway of India"); VInt 7] (js "medium")
      (boot None (Some (js "pexels-key")) None offline) = (Return [], w') /\
    wire w' = wire (boot None (Some (js "pexels-key")) None offline).
Proof.
  apply (fetchDiverseLocationImages_needs_text_names
           [VStr (js "Gateway of India"); VInt 7] (js "medium")
           (boot None (Some (js "pexels-key")) None offline) (VInt 7)).
  - right. left. reflexivity.
  - intros s. discriminate.
Defined.

(* ------------------------------------------------------------------ *)
(** ** route.ts: the names of the locations *)

Lemma strict_eq_sym a b : strict_eq a b = strict_eq b a.
Proof.
  destruct a, b; cbn; try reflexivity.
  - destruct b, b0; reflexivity.
  - unfold num_eq. cbv zeta. rewrite Z.min_comm. apply Z.eqb_sym.
  - unfold str_eqb.
    destruct (list_eq_dec N.eq_dec s s0), (list_eq_dec N.eq_dec s0 s); congruence.
Qed.

Lemma fold_out_invariant {A S} (f : S -> A -> Outcome S) (I : S -> Prop) (l : list A) :
  (forall s x s', I s -> f s x = Return s' -> I s') ->
  forall s s', I s -> fold_out f l s = Return s' -> I s'.
Proof.
  intros Hf. induction l as [|x rest IH]; intros s s' Hs; cbn [fold_out].
  - intros E. injection E as <-. exact Hs.
  - destruct (f s x) as [s1|e] eqn:E1; [|discriminate]. cbn [obind].
    apply IH. apply (Hf s x s1 Hs E1).
Qed.

Lemma distinct_snoc (names : list value) v :
  existsb (strict_eq v) names = false ->
  ForallOrdPairs (fun a b => strict_eq a b = false) names ->
  ForallOrdPairs (fun a b => strict_eq a b = false) (names ++ [v]).
Proof.
  intros Hnew. induction 1 as [|x rest Hx Hrest IH]; cbn [app].
  - constructor; constructor.
  - cbn [existsb] in Hnew. apply orb_false_iff in Hnew. destruct Hnew as [Hvx Hnew].
    constructor; [|apply IH; exact Hnew].
    apply Forall_app. split; [exact Hx|]. constructor; [|constructor].
    rewrite strict_eq_sym. exact Hvx.
Qed.

Lemma distinct_firstn (n : nat) (names : list value) :
  ForallOrdPairs (fun a b => strict_eq a b = false) names ->
  ForallOrdPairs (fun a b => strict_eq a b = false) (firstn n names).
Proof.
  intros H. revert n. induction H as [|x rest Hx Hrest IH]; intros [|n]; cbn [firstn];
    try constructor.
  - apply Forall_take. exact Hx.
  - apply IH.
Qed.

(** X10. The names [extractLocationNames] returns begin with the city, are
    at most twenty, are pairwise different and, the city apart, are all
    truthy: a location without a name is skipped and a name met again is
    not repeated. *)
Theorem extractLocationNames_city_first_distinct (itinerary : value) (city : jsstr)
    (names : list value)
    (Hnames : extractLocationNames itinerary city = Return names) :
  (exists rest, names = VStr city :: rest /\ Forall (fun v => truthy v = true) rest) /\
  (List.length names <= 20)%nat /\
  ForallOrdPairs (fun a b => strict_eq a b = false) names.
Proof.
  set (I := fun names : list value =>
              (exists rest, names = VStr city :: rest
                            /\ Forall (fun v => truthy v = true) rest) /\
              ForallOrdPairs (fun a b => strict_eq a b = false) names).
  assert (Hadd : forall s x s', I s -> add_location s x = Return s' -> I s').
  { intros s x s' [[rest [-> Hrest]] Hd]. unfold add_location.
    destruct (get x (js "location")) as [location|e]; [|discriminate]. cbn [obind].
    intros E. injection E as <-.
    destruct (truthy (get_opt location (js "name"))) eqn:Et;
      [|split; [eauto | exact Hd]].
    unfold set_add.
    destruct (existsb _ (VStr city :: rest)) eqn:Ex; [split; [eauto | exact Hd]|].
    split.
    - exists (rest ++ [get_opt location (js "name")]). split; [reflexivity|].
      apply Forall_app. split; [exact Hrest | constructor; [exact Et | constructor]].
    - apply (distinct_snoc (VStr city :: rest)); assumption. }
  assert (Hlist : forall (lst : Outcome value) s s',
             I s ->
             obind lst (fun list =>
               obind (array_method_opt list (js "forEach")) (fun entries =>
               fold_out add_location entries s)) = Return s' -> I s').
  { intros [list|e] s s' Hs; [|discriminate]. cbn [obind].
    destruct (array_method_opt list (js "forEach")) as [entries|e]; [|discriminate].
    cbn [obind]. apply (fold_out_invariant add_location I entries Hadd s s' Hs). }
  revert Hnames. unfold extractLocationNames.
  destruct (get itinerary (js "days")) as [days|e]; [|discriminate]. cbn [obind].
  destruct (array_method_opt days (js "forEach")) as [entries|e]; [|discriminate].
  cbn [obind].
  match goal with
  | |- obind (fold_out ?f entries ?s0) _ = _ -> _ =>
      destruct (fold_out f entries s0) as [all|e] eqn:Efold; [|discriminate];
      assert (Hall : I all)
  end.
  { revert Efold. apply fold_out_invariant.
    - intros s day s' Hs. 
      match goal with
      | |- obind (fold_out ?g periods s) _ = _ -> _ =>
          destruct (fold_out g periods s) as [s1|e] eqn:Ep; [|discriminate];
          assert (Hs1 : I s1)
      end.
      { revert Ep. apply fold_out_invariant; [|exact Hs].
        intros s2 period s3 Hs2. apply Hlist. exact Hs2. }
      cbn [obind]. apply Hlist. exact Hs1.
    - split; [exists []; split; [reflexivity | constructor] | constructor; constructor]. }
  cbn [obind]. intros E.
  assert (Hn : names = firstn 20 all) by congruence. clear E. subst names.
  destruct Hall as [[rest [Hall Hrest]] Hd]. subst all.
  split; [|split].
  - exists (firstn 19 rest). split; [reflexivity|]. apply Forall_take. exact Hrest.
  - rewrite length_firstn. lia.
  - apply distinct_firstn. exact Hd.
Qed.

Lemma extractLocationNames_city_first_distinct_witness :
  (exists rest,
      [VStr (js "Mumbai"); VStr (js "Gateway of India")] = VStr (js "Mumbai") :: rest
      /\ Forall (fun v => truthy v = true) rest) /\
  (List.length [VStr (js "Mumbai"); VStr (js "Gateway of India")] <= 20)%nat /\
  ForallOrdPairs (fun a b => strict_eq a b = false)
    [VStr (js "Mumbai"); VStr (js "Gateway of India")].
Proof.
  apply (extractLocationNames_city_first_distinct
           (VObj [ (js "days",
                    VArr [ VObj [ (js "morning",
                                   VArr [ VObj [ (js "location",
                                                  VObj [ (js "name",
                                                          VStr (js "Gateway of India")) ]) ];
                                          VObj [ (js "location", VObj []) ] ]);
                                  (js "dining",
                                   VArr [ VObj [ (js "location",
                                                  VObj [ (js "name",
                                                          VStr (js "Gateway of India")) ]) ] ]) ] ]) ])
           (js "Mumbai")).
  vm_compute. reflexivity.
Defined.

(* ------------------------------------------------------------------ *)
(** ** route.ts: the repair of the meals, applied twice *)

Lemma truthy_found (c alt : value) :
  truthy c = true ->
  match c with
  | VUndef => alt
  | VNull => VNull
  | VBool b => VBool b
  | VNum mant exp10 => VNum mant exp10
  | VStr s => VStr s
  | VArr items => VArr items
  | VObj fields => VObj fields
  end = c.
Proof. destruct c; cbn; try discriminate; reflexivity. Qed.

Lemma truthy_not_nullish c : truthy c = true -> is_nullish c = false.
Proof. destruct c; cbn; try discriminate; reflexivity. Qed.

Lemma or_else_truthy v city mealType :
  truthy (or_else v (default_meal city mealType)) = true.
Proof. unfold or_else. destruct (truthy v) eqn:E; [exact E | reflexivity]. Qed.

Lemma three_meals_fixed (c1 c2 c3 : value) city :
  truthy c1 = true -> truthy c2 = true -> truthy c3 = true ->
  prop c1 (js "meal") = VStr (js "Breakfast") ->
  prop c2 (js "meal") = VStr (js "Lunch") ->
  prop c3 (js "meal") = VStr (js "Dinner") ->
  ensureAllMeals (VArr [c1; c2; c3]) city = Return (VArr [c1; c2; c3]).
Proof.
  intros T1 T2 T3 L1 L2 L3. unfold ensureAllMeals. cbn [array_method obind].
  rewrite meal_map_of
    by (repeat constructor; apply truthy_not_nullish; assumption).
  cbn [obind map requiredMeals map_get]. rewrite L1, L2, L3.
  change (strict_eq (VStr (js "Dinner")) (VStr (js "Breakfast"))) with false.
  change (strict_eq (VStr (js "Lunch")) (VStr (js "Breakfast"))) with false.
  change (strict_eq (VStr (js "Breakfast")) (VStr (js "Breakfast"))) with true.
  change (strict_eq (VStr (js "Dinner")) (VStr (js "Lunch"))) with false.
  change (strict_eq (VStr (js "Lunch")) (VStr (js "Lunch"))) with true.
  change (strict_eq (VStr (js "Dinner")) (VStr (js "Dinner"))) with true.
  cbv iota.
  rewrite !(truthy_found c3) by exact T3.
  rewrite !(truthy_found c2) by exact T2.
  unfold or_else. rewrite T1, T2, T3. reflexivity.
Qed.

(** X11. The repair of the meals is idempotent: what [ensureAllMeals]
    returns is a Breakfast, a Lunch and a Dinner, and repairing that list
    again, for whatever city, returns it unchanged. *)
Theorem ensureAllMeals_idempotent (existingMeals : value) (city city' : jsstr)
    (three : value)
    (Hfirst : ensureAllMeals existingMeals city = Return three) :
  ensureAllMeals three city' = Return three.
Proof.
  revert Hfirst. unfold ensureAllMeals at 1.
  destruct (array_method existingMeals (js "map")) as [meals|e]; [|discriminate].
  cbn [obind].
  destruct (map_out _ meals) as [mealMap|e] eqn:Emap; [|discriminate].
  cbn [obind]. intros E. injection E as <-.
  assert (Hall : forall k v, In (k, v) mealMap -> k = prop v (js "meal")).
  { intros k v Hin.
    assert (H2 : Forall2 (fun (meal : value) (entry : value * value) =>
                            fst entry = prop (snd entry) (js "meal")) meals mealMap).
    { eapply map_out_Forall2; [|exact Emap].
      intros meal entry. cbv beta.
      destruct (get meal (js "meal")) as [label|e] eqn:Eg; cbn [obind]; [|discriminate].
      intros E. injection E as <-. apply (get_prop _ _ _ Eg). }
    clear - H2 Hin. induction H2 as [|m entry ms entries Hm _ IH]; [destruct Hin|].
    destruct Hin as [-> | Hin]; [exact Hm | apply IH, Hin]. }
  cbn [map requiredMeals].
  apply three_meals_fixed;
    try apply or_else_truthy; apply chosen_meal_label; exact Hall.
Qed.

Lemma ensureAllMeals_idempotent_witness :
  exists three,
    ensureAllMeals (VArr [ VObj [ (js "meal", VStr (js "Lunch"));
                                  (js "restaurant", VStr (js "Britannia")) ] ])
      (js "Mumbai") = Return three /\
    ensureAllMeals three (js "Delhi") = Return three.
Proof.
  eexists. split; [vm_compute; reflexivity|].
  apply (ensureAllMeals_idempotent
           (VArr [ VObj [ (js "meal", VStr (js "Lunch"));
                          (js "restaurant", VStr (js "Britannia")) ] ])
           (js "Mumbai") (js "Delhi")).
  vm_compute. reflexivity.
Defined.

(* ------------------------------------------------------------------ *)
(** ** route.ts: the days of the deterministic itinerary *)

Lemma places_after_day_three city day :
  3 < day -> getDaySpecificPlaces city day = getDaySpecificPlaces city 1.
Proof.
  intros Hday. unfold getDaySpecificPlaces, select_day. cbv zeta.
  replace (day =? 1) with false by (symmetry; apply Z.eqb_neq; lia).
  replace (day =? 2) with false by (symmetry; apply Z.eqb_neq; lia).
  replace (day =? 3) with false by (symmetry; apply Z.eqb_neq; lia).
  reflexivity.
Qed.

Lemma day_numbers_nth days day :
  1 <= day <= days -> nth_error (day_numbers days) (Z.to_nat (day - 1)) = Some day.
Proof.
  intros Hday. unfold day_numbers.
  rewrite nth_error_map, nth_error_seq.
  replace (Z.to_nat (day - 1) <? Z.to_nat days)%nat with true
    by (symmetry; apply Nat.ltb_lt; lia).
  cbn [option_map]. f_equal. lia.
Qed.

Lemma fallback_day_programme city date date' day k :
  In k [js "morning"; js "afternoon"; js "evening"; js "dining"] ->
  getDaySpecificPlaces city day = getDaySpecificPlaces city 1 ->
  prop (fallback_day city date day) k = prop (fallback_day city date' 1) k.
Proof.
  intros Hk Hplaces. unfold fallback_day. cbv zeta. rewrite Hplaces.
  destruct Hk as [<- | [<- | [<- | [<- | []]]]]; reflexivity.
Qed.

(** X12. The deterministic itinerary knows three days of places: every day
    after the third has the programme of day 1, the same morning,
    afternoon and evening activities and the same three meals, under its
    own day number. *)
Theorem fallback_itinerary_repeats_first_day (city : jsstr) (days : Z) (budget : jsstr)
    (cityConfig : value) (w : World) (day : Z)
    (Hday : 3 < day <= days) :
  exists itinerary entries first later,
    generateEnhancedFallbackItinerary city days budget cityConfig w
    = (Return itinerary, w) /\
    prop itinerary (js "days") = VArr entries /\
    List.length entries = Z.to_nat days /\
    nth_error entries 0 = Some first /\
    nth_error entries (Z.to_nat (day - 1)) = Some later /\
    prop first (js "day") = VInt 1 /\
    prop later (js "day") = VInt day /\
    forall k, In k [js "morning"; js "afternoon"; js "evening"; js "dining"] ->
              prop later k = prop first k.
Proof.
  unfold generateEnhancedFallbackItinerary. cbv zeta.
  eexists. eexists. eexists. eexists.
  split; [reflexivity|]. split; [reflexivity|].
  split; [rewrite length_map; apply day_numbers_length|].
  split; [|split].
  - rewrite nth_error_map.
    change 0%nat with (Z.to_nat (1 - 1)).
    rewrite (day_numbers_nth days 1) by lia. reflexivity.
  - rewrite nth_error_map, (day_numbers_nth days day) by lia. reflexivity.
  - split; [reflexivity|]. split; [reflexivity|].
    intros k Hk. apply fallback_day_programme; [exact Hk|].
    apply places_after_day_three. lia.
Qed.

Lemma fallback_itinerary_repeats_first_day_witness :
  exists itinerary entries first later,
    generateEnhancedFallbackItinerary (js "Mumbai") 5 (js "50000") VUndef
      (boot None None None offline)
    = (Return itinerary, boot None None None offline) /\
    prop itinerary (js "days") = VArr entries /\
    List.length entries = 5%nat /\
    nth_error entries 0 = Some first /\
    nth_error entries 3 = Some later /\
    prop first (js "day") = VInt 1 /\
    prop later (js "day") = VInt 4 /\
    forall k, In k [js "morning"; js "afternoon"; js "evening"; js "dining"] ->
              prop later k = prop first k.
Proof.
  apply (fallback_itinerary_repeats_first_day (js "Mumbai") 5 (js "50000") VUndef
           (boot None None None offline) 4).
  lia.
Defined.

(* ------------------------------------------------------------------ *)
(** ** route.ts: the validation of the deterministic itinerary *)

Lemma fallback_day_date city date day :
  prop (fallback_day city date day) (js "date") = VStr date.
Proof. reflexivity. Qed.

Lemma fallback_day_weather city date day :
  prop (fallback_day city date day) (js "weather")
  = VStr (js "Please check current weather conditions").
Proof. reflexivity. Qed.

Lemma fallback_day_period city date day period :
  In period periods ->
  exists time activity location description cost duration,
    prop (fallback_day city date day) period
    = VArr [activity_entry time activity location description cost duration] /\
    includes cost (rupee ++ js "200-500") = str_eqb period (js "morning") /\
    truthy (VStr cost) = true.
Proof.
  intros [<- | [<- | [<- | []]]]; do 6 eexists;
    (split; [reflexivity | split; vm_compute; reflexivity]).
Qed.

Lemma activity_entry_cost time activity location description cost duration :
  prop (activity_entry time activity location description cost duration)
       (js "estimatedCost") = VStr cost.
Proof. reflexivity. Qed.

Lemma validate_fallback_day now parse warnings index city date day :
  exists past,
    validate_day now parse warnings (index, fallback_day city date day)
    = Return (warnings ++ past
                ++ [ day_label index
                       ++ js " has generic weather info - should use real-time data";
                     day_label index ++ js " " ++ js "morning"
                       ++ js " has generic pricing - should use current rates" ]).
Proof.
  unfold validate_day.
  rewrite (get_ok (fallback_day city date day) (js "date") eq_refl). cbn [obind].
  rewrite fallback_day_date, fallback_day_weather.
  set (dated := if truthy (VStr date) then _ else warnings).
  assert (Hdated : exists past, dated = warnings ++ past).
  { unfold dated. destruct (truthy (VStr date)); [|exists []; symmetry; apply app_nil_r].
    destruct (parse (VStr date)) as [t|]; [|exists []; symmetry; apply app_nil_r].
    destruct (_ <=? _); [eauto | exists []; symmetry; apply app_nil_r]. }
  destruct Hdated as [past ->]. exists past.
  change (truthy (VStr (js "Please check current weather conditions"))) with true.
  cbv iota. cbn [call_includes obind].
  change (includes (js "Please check current weather conditions")
            (js "Please check current weather conditions")) with true.
  cbv iota.
  destruct (fallback_day_period city date day (js "morning") ltac:(left; reflexivity))
    as (t1 & a1 & l1 & d1 & c1 & u1 & E1 & I1 & T1).
  destruct (fallback_day_period city date day (js "afternoon")
              ltac:(right; left; reflexivity))
    as (t2 & a2 & l2 & d2 & c2 & u2 & E2 & I2 & T2).
  destruct (fallback_day_period city date day (js "evening")
              ltac:(right; right; left; reflexivity))
    as (t3 & a3 & l3 & d3 & c3 & u3 & E3 & I3 & T3).
  rewrite E1, E2, E3. cbn [truthy orb].
  cbn [fold_out periods obind].
  rewrite E1, E2, E3.
  cbn [fold_out array_method_opt is_nullish array_method obind].
  unfold generic_cost_warning.
  rewrite !get_ok by reflexivity. rewrite !activity_entry_cost.
  cbn [obind]. rewrite T1. cbn [call_includes obind]. rewrite I1.
  change (str_eqb (js "morning") (js "morning")) with true. cbn [obind].
  rewrite T2. cbn [call_includes obind]. rewrite I2.
  change (str_eqb (js "afternoon") (js "morning")) with false. cbn [obind].
  rewrite T3. cbn [call_includes obind]. rewrite I3.
  change (str_eqb (js "evening") (js "morning")) with false. cbn [obind].
  rewrite <- !app_assoc. reflexivity.
Qed.

Lemma validate_fallback_days now parse city (date : Z -> jsstr) :
  forall (numbers : list Z) (start : nat) warnings,
  exists warnings',
    fold_out (validate_day now parse)
      (combine (seq start (List.length numbers))
         (map (fun day => fallback_day city (date day) day) numbers)) warnings
    = Return warnings' /\
    incl warnings warnings' /\
    forall i, (start <= i < start + List.length numbers)%nat ->
      In (day_label i ++ js " has generic weather info - should use real-time data")
         warnings' /\
      In (day_label i ++ js " " ++ js "morning"
            ++ js " has generic pricing - should use current rates") warnings'.
Proof.
  induction numbers as [|day rest IH]; intros start warnings.
  - exists warnings. cbn. split; [reflexivity|]. split; [apply incl_refl|]. intros i Hi. lia.
  - cbn [List.length seq map combine fold_out].
    destruct (validate_fallback_day now parse warnings start city (date day) day)
      as [past ->].
    cbn [obind].
    match goal with
    | |- context [fold_out _ _ ?ws] => destruct (IH (S start) ws) as [ws' [E [Hincl Hall]]]
    end.
    exists ws'. split; [exact E|]. split.
    + intros x Hx. apply Hincl. apply in_or_app. left. exact Hx.
    + intros i Hi. destruct (Nat.eq_dec i start) as [-> | Hne].
      * split; apply Hincl; apply in_or_app; right; apply in_or_app; right.
        -- left. reflexivity.
        -- right. left. reflexivity.
      * apply Hall. lia.
Qed.

(** X13. The deterministic itinerary never passes the route's own
    validation: for a trip of at least one day, [validateRealTimeData]
    finds it not valid, and warns for every day of generic weather and of
    generic pricing in the morning, since the itinerary is written with
    the very texts the validation looks for. *)
Theorem fallback_itinerary_fails_validation (city : jsstr) (days : Z) (budget : jsstr)
    (cityConfig : value) (w : World)
    (Hdays : 1 <= days) :
  exists itinerary warnings w',
    generateEnhancedFallbackItinerary city days budget cityConfig w
    = (Return itinerary, w) /\
    validateRealTimeData itinerary w = (Return (false, warnings), w') /\
    forall i, (i < Z.to_nat days)%nat ->
      In (day_label i ++ js " has generic weather info - should use real-time data")
         warnings /\
      In (day_label i ++ js " morning has generic pricing - should use current rates")
         warnings.
Proof.
  destruct (validate_fallback_days (clock w) (Date_parse w) city
              (fun day => before_T (toISOString w (clock w + (day - 1) * MS_PER_DAY)))
              (day_numbers days) 0 []) as [warnings [E [_ Hall]]].
  rewrite day_numbers_length in Hall.
  unfold generateEnhancedFallbackItinerary. cbv zeta.
  eexists. exists warnings. eexists. split; [reflexivity|].
  unfold validateRealTimeData, bind, get_world, lift.
  rewrite get_object.
  match goal with
  | |- context [prop (VObj ((js "days", VArr ?entries) :: ?rest)) (js "days")] =>
      change (prop (VObj ((js "days", VArr entries) :: rest)) (js "days"))
        with (VArr entries)
  end.
  cbn [obind array_method_opt is_nullish array_method].
  rewrite length_map, E. cbn [obind].
  destruct warnings as [|first more].
  - destruct (Hall O ltac:(lia)) as [[] _].
  - split; [reflexivity|]. intros i Hi.
    change (js " morning has generic pricing - should use current rates")
      with (js " " ++ js "morning" ++ js " has generic pricing - should use current rates").
    apply Hall. lia.
Qed.

Lemma fallback_itinerary_fails_validation_witness :
  exists itinerary warnings w',
    generateEnhancedFallbackItinerary (js "Mumbai") 2 (js "50000") VUndef
      (boot None None None offline)
    = (Return itinerary, boot None None None offline) /\
    validateRealTimeData itinerary (boot None None None offline)
    = (Return (false, warnings), w') /\
    forall i, (i < 2)%nat ->
      In (day_label i ++ js " has generic weather info - should use real-time data")
         warnings /\
      In (day_label i ++ js " morning has generic pricing - should use current rates")
         warnings.
Proof.
  apply (fallback_itinerary_fails_validation (js "Mumbai") 2 (js "50000") VUndef
           (boot None None None offline)).
  lia.
Defined.

(* ------------------------------------------------------------------ *)
(** ** route.ts: what the response-repair parser returns *)

Lemma nth_error_firstn_In {A} (l : list A) (i n : nat) x :
  nth_error l i = Some x -> (i < n)%nat -> In x (firstn n l).
Proof.
  revert i n. induction l as [|y rest IH]; intros [|i] [|n]; cbn; try discriminate; try lia.
  - intros E _. injection E as ->. left. reflexivity.
  - intros E Hi. right. apply (IH i n E). lia.
Qed.

Lemma parse_attempts_result globalMonitor content (tried : jsstr -> Prop) :
  (forall c, In c (firstn 4 (match_lazy_spans (List.length content) content)) -> tried c) ->
  forall remaining parseAttempts candidate w,
    0 <= parseAttempts < 5 -> parseAttempts + Z.of_nat remaining = 5 ->
    tried candidate ->
    match parse_attempts remaining parseAttempts globalMonitor content candidate w with
    | (Return itinerary, _) =>
        exists c, tried c /\ JSON_parse (clean_json c) = Return itinerary
    | (Throw e, _) =>
        e = newError (js "Failed to parse AI response after multiple attempts")
    end.
Proof.
  intros Hlazy. induction remaining as [|remaining IH];
    intros parseAttempts candidate w Hrange Hsum Hc; [lia|].
  cbn [parse_attempts].
  destruct (JSON_parse (clean_json candidate)) as [itinerary|parseError] eqn:Eparse.
  - unfold bind.
    match goal with
    | |- context [monitor_log ?m ?msg w] =>
        change (monitor_log m msg w) with (Return tt, snd (monitor_log m msg w))
    end.
    cbn [ret]. exists candidate. split; [exact Hc | exact Eparse].
  - cbv zeta. unfold bind at 1.
    match goal with
    | |- context [monitor_log ?m ?msg w] =>
        change (monitor_log m msg w) with (Return tt, snd (monitor_log m msg w));
        set (w1 := snd (monitor_log m msg w))
    end.
    cbv iota beta.
    destruct (5 <=? parseAttempts + 1) eqn:E5.
    + unfold bind.
      match goal with
      | |- context [monitor_error ?m ?msg w1] =>
          destruct (monitor_error_returns m msg w1) as (t & w2 & -> & _)
      end.
      reflexivity.
    + apply Z.leb_gt in E5. apply IH; [lia | lia |].
      destruct (nth_error _ (Z.to_nat (parseAttempts + 1 - 1))) as [alternative|] eqn:En;
        [|exact Hc].
      apply Hlazy. apply (nth_error_firstn_In _ _ 4 _ En). lia.
Qed.

(** X14. What the response-repair parser returns is always a document
    that [JSON.parse] read from a cleaned candidate, the candidate being
    the span from the first opening brace to the last closing brace of the
    content or one of its first four shortest brace spans; it never returns
    without a document. It throws only when the content has no brace span
    or when five parses have failed, with one fixed message for each. *)
Theorem parse_ai_content_returns_a_parsed_candidate (globalMonitor : PerformanceMonitor)
    (text : jsstr) (w : World) :
  match parse_ai_content globalMonitor (VStr text) w with
  | (Return itinerary, _) =>
      exists candidate,
        (match_brace_span text = Some candidate \/
         In candidate (firstn 4 (match_lazy_spans (List.length text) text))) /\
        JSON_parse (clean_json candidate) = Return itinerary
  | (Throw e, _) =>
      (match_brace_span text = None /\
       e = newError (js "No valid JSON found in AI response")) \/
      e = newError (js "Failed to parse AI response after multiple attempts")
  end.
Proof.
  unfold parse_ai_content.
  destruct (match_brace_span text) as [jsonMatch|] eqn:Ematch.
  - pose proof (parse_attempts_result globalMonitor text
                  (fun c => Some jsonMatch = Some c \/
                            In c (firstn 4 (match_lazy_spans (List.length text) text)))
                  ltac:(intros c Hc; right; exact Hc)
                  5 0 jsonMatch w ltac:(lia) ltac:(lia) ltac:(left; reflexivity)) as H.
    destruct (parse_attempts 5 0 globalMonitor text jsonMatch w) as [[itinerary|e] w'].
    + exact H.
    + right. exact H.
  - unfold bind.
    match goal with
    | |- context [monitor_error ?m ?msg w] =>
        destruct (monitor_error_returns m msg w) as (t & w2 & -> & _)
    end.
    left. split; reflexivity.
Qed.

(* ------------------------------------------------------------------ *)
(** ** pexels.ts: the photo that is chosen *)

Lemma valid_images_large candidates :
  forall valid out,
    fold_out
      (fun valid photo =>
         obind (get photo (js "width")) (fun width =>
         if js_ge width (VInt 800) then
           obind (get photo (js "height")) (fun height =>
           if js_ge height (VInt 600)
           then Return (valid ++ [photo]) else Return valid)
         else Return valid))
      candidates valid = Return out ->
    Forall (fun photo => large_enough photo = true) valid ->
    Forall (fun photo => large_enough photo = true) out /\
    (exists more, out = valid ++ more) /\
    (out = [] -> Forall (fun photo => large_enough photo = false) candidates).
Proof.
  induction candidates as [|photo rest IH]; intros valid out; cbn [fold_out].
  - intros E Hv. injection E as <-.
    split; [exact Hv|]. split; [exists []; symmetry; apply app_nil_r | constructor].
  - destruct (get photo (js "width")) as [width|e] eqn:Ew; [|discriminate].
    apply get_prop in Ew. subst width. cbn [obind].
    destruct (js_ge (prop photo (js "width")) (VInt 800)) eqn:Gw.
    + destruct (get photo (js "height")) as [height|e] eqn:Eh; [|discriminate].
      apply get_prop in Eh. subst height. cbn [obind].
      destruct (js_ge (prop photo (js "height")) (VInt 600)) eqn:Gh; cbn [obind].
      * intros E Hv.
        destruct (IH (valid ++ [photo]) out E) as [H1 [[more H2] H3]].
        { apply Forall_app. split; [exact Hv|]. constructor; [|constructor].
          unfold large_enough. rewrite Gw, Gh. reflexivity. }
        split; [exact H1|]. split.
        -- exists ([photo] ++ more). rewrite H2, <- app_assoc. reflexivity.
        -- intros ->. destruct valid; discriminate.
      * intros E Hv. destruct (IH valid out E Hv) as [H1 [H2 H3]].
        split; [exact H1|]. split; [exact H2|].
        intros Ho. constructor; [|apply H3, Ho].
        unfold large_enough. rewrite Gw, Gh. reflexivity.
    + intros E Hv. destruct (IH valid out E Hv) as [H1 [H2 H3]].
      split; [exact H1|]. split; [exact H2|].
      intros Ho. constructor; [|apply H3, Ho].
      unfold large_enough. rewrite Gw. reflexivity.
Qed.

Lemma valid_images_among candidates :
  forall valid out,
    fold_out
      (fun valid photo =>
         obind (get photo (js "width")) (fun width =>
         if js_ge width (VInt 800) then
           obind (get photo (js "height")) (fun height =>
           if js_ge height (VInt 600)
           then Return (valid ++ [photo]) else Return valid)
         else Return valid))
      candidates valid = Return out ->
    forall photo, In photo out -> In photo valid \/ In photo candidates.
Proof.
  induction candidates as [|first rest IH]; intros valid out; cbn [fold_out].
  - intros E photo Hin. injection E as <-. left. exact Hin.
  - destruct (get first (js "width")) as [width|e]; [|discriminate]. cbn [obind].
    destruct (js_ge width (VInt 800)).
    + destruct (get first (js "height")) as [height|e]; [|discriminate]. cbn [obind].
      destruct (js_ge height (VInt 600)); cbn [obind]; intros E photo Hin;
        destruct (IH _ out E photo Hin) as [H|H].
      * apply in_app_or in H. destruct H as [H|[<-|[]]];
          [left; exact H | right; left; reflexivity].
      * right. right. exact H.
      * left. exact H.
      * right. right. exact H.
    + cbn [obind]. intros E photo Hin.
      destruct (IH _ out E photo Hin) as [H|H]; [left; exact H | right; right; exact H].
Qed.

Lemma ensures_random_below n :
  ensures (random_below n) (fun i => n <> 0%nat -> (i < n)%nat).
Proof.
  intros w i w' E. unfold random_below in E. injection E as <- _.
  intros Hn. apply Nat.mod_upper_bound. exact Hn.
Qed.

(** What a computation returns is what its two halves return in turn. *)
Lemma bind_returns {A B} (m : M A) (k : A -> M B) w b w' :
  bind m k w = (Return b, w') ->
  exists a w1, m w = (Return a, w1) /\ k a w1 = (Return b, w').
Proof.
  unfold bind. destruct (m w) as [[a|e] w1]; [|discriminate].
  intros E. exists a, w1. split; [reflexivity | exact E].
Qed.

Lemma gate_elsewhere self w :
  upstream (snd (gate self w)) = upstream w /\ sent (snd (gate self w)) = sent w.
Proof.
  unfold gate, bind, get_world, Date_now, modify. cbn.
  destruct (state (breaker_of self w)); try (split; reflexivity).
  destruct (_ <? _); destruct self; split; reflexivity.
Qed.

(** A call that returns was let through by the gate, which sends nothing
    and leaves the network alone. *)
Lemma execute_returns {T} self (op : M T) w r w' :
  execute self op w = (Return r, w') ->
  exists w1 w2,
    op w1 = (Return r, w2) /\ upstream w1 = upstream w /\ sent w1 = sent w.
Proof.
  destruct (gate_cases self w)
    as [[_ Hg] | [(_ & _ & Hg) | (_ & _ & w1 & Hg & _ & _)]].
  - rewrite (execute_after_gate self op w w Hg).
    destruct (op w) as [[r0|e] w2] eqn:Eop; [|discriminate].
    intros E. injection E as <- _. exists w, w2. repeat split. exact Eop.
  - rewrite (execute_rejected self op w _ Hg). discriminate.
  - rewrite (execute_after_gate self op w w1 Hg).
    destruct (op w1) as [[r0|e] w2] eqn:Eop; [|discriminate].
    intros E. injection E as <- _. exists w1, w2. split; [exact Eop|].
    pose proof (gate_elsewhere self w) as H. rewrite Hg in H. exact H.
Qed.

(** The response of a deadline-bounded request is the reply of the network
    to that very request. *)
Lemma fetchWithTimeout_returns url timeout operation w r w' :
  fetchWithTimeout url timeout operation w = (Return r, w') ->
  result (upstream w (sent w) url) = Return r.
Proof.
  unfold fetchWithTimeout. cbv zeta.
  unfold bind at 1, newAbortController. unfold bind at 1, setTimeout_abort.
  unfold try_catch, bind at 1, fetch.
  cbn [upstream sent with_next_id with_timers with_sent with_trace clock timers].
  match goal with
  | |- context [if ?c then _ else _] => destruct c
  end.
  - unfold bind, clearTimeout, modify.
    destruct (_ && _); discriminate.
  - match goal with
    | |- context [abort_due ?c ?ts] => destruct (abort_due c ts) as [d|]
    end.
    + match goal with
      | |- context [if ?c then _ else _] => destruct c
      end.
      * destruct (result (upstream w (sent w) url)) as [r0|e].
        -- unfold bind, clearTimeout, modify, ret. intros E. injection E as <- _.
           reflexivity.
        -- unfold bind, clearTimeout, modify. destruct (_ && _); discriminate.
      * unfold bind, clearTimeout, modify. destruct (_ && _); discriminate.
    + destruct (result (upstream w (sent w) url)) as [r0|e].
      * unfold bind, clearTimeout, modify, ret. intros E. injection E as <- _.
        reflexivity.
      * unfold bind, clearTimeout, modify. destruct (_ && _); discriminate.
Qed.

(** Once the search has been answered: the image is null, or it is chosen
    from the photos of the answer. *)
Lemma ensures_chosen_from (response : Response) {A} (rest : value -> M A) (Q : A -> Prop) :
  (forall data, json_body response = Return data -> ensures (rest data) Q) ->
  ensures (data <- response_json response ;; rest data) Q.
Proof.
  intros H w a w' E. unfold bind, response_json in E.
  destruct (json_body response) as [data|e] eqn:Ej; [|discriminate].
  exact (H data eq_refl w a w' E).
Qed.

Lemma pexels_search_chooses monitor query category size w image w' :
  pexels_search monitor query category size w = (Return image, w') ->
  image = VNull \/
  exists encoded response data,
    encodeURIComponent (search_text query category) = Return encoded /\
    result (upstream w (sent w) (search_url encoded (per_page category) size))
    = Return response /\
    ok response = true /\
    json_body response = Return data /\
    chosen_from (prop data (js "photos")) image.
Proof.
  intros E. unfold pexels_search in E.
  apply bind_returns in E. destruct E as (w0 & w0' & E0 & E).
  unfold get_world in E0. injection E0 as <- <-.
  destruct (PEXELS_API_KEY w) as [[|c k]|];
    try (left;
         refine ((_ : ensures _ (fun image => image = VNull)) w image w' E);
         apply ensures_bind; intros _; apply ensures_ret; reflexivity).
  cbv zeta in E.
  apply bind_returns in E. destruct E as (u & w1 & E1 & E).
  assert (Hw1 : upstream w1 = upstream w /\ sent w1 = sent w).
  { unfold monitor_log, bind, Date_now, console, emit, modify in E1. cbn in E1.
    injection E1 as _ <-. split; reflexivity. }
  destruct Hw1 as [Hu1 Hs1].
  apply bind_returns in E. destruct E as (response & w2 & Eexec & E).
  change (execute pexels_ref
            (encoded <- lift (encodeURIComponent (search_text query category)) ;;
             fetchWithTimeout (search_url encoded (per_page category) size)
               (Some TIMEOUTS_PEXELS) (Some (js "pexels-search"))) w1
          = (Return response, w2)) in Eexec.
  apply execute_returns in Eexec. destruct Eexec as (v1 & v2 & Eop & Hu & Hs).
  apply bind_returns in Eop. destruct Eop as (encoded & v1' & Eenc & Efetch).
  unfold lift in Eenc. injection Eenc as Eenc <-.
  apply fetchWithTimeout_returns in Efetch.
  rewrite Hu, Hs, Hu1, Hs1 in Efetch.
  destruct (ok response) eqn:Eok; cbn [negb] in E;
    [|left;
      refine ((_ : ensures _ (fun image => image = VNull)) w2 image w' E);
      apply ensures_bind; intros _; apply ensures_ret; reflexivity].
  assert (Hrest : image = VNull \/
                  exists data, json_body response = Return data /\
                               chosen_from (prop data (js "photos")) image).
  { refine ((_ : ensures _ (fun image =>
               image = VNull \/
               exists data, json_body response = Return data /\
                            chosen_from (prop data (js "photos")) image))
              w2 image w' E).
    apply ensures_chosen_from. intros data Hdata.
    apply ensures_bind_with with (P := fun photos => photos = prop data (js "photos")).
    { apply ensures_lift. intros photos Hg. apply get_prop in Hg. exact Hg. }
    intros photos ->.
    do 2 (apply ensures_bind; intros ?).
    apply ensures_if;
      [|do 2 (apply ensures_bind; intros ?); apply ensures_ret; left; reflexivity].
    apply ensures_bind_with
      with (P := fun candidates => candidates = first_five (prop data (js "photos"))).
    { apply ensures_lift. intros candidates.
      destruct (prop data (js "photos")); try discriminate;
        intros Ec; injection Ec as <-; reflexivity. }
    intros candidates ->.
    apply ensures_bind_with with
      (P := fun validImages =>
              Forall (fun photo => large_enough photo = true) validImages /\
              (forall photo, In photo validImages ->
                 In photo (first_five (prop data (js "photos")))) /\
              (validImages = [] ->
               Forall (fun photo => large_enough photo = false)
                 (first_five (prop data (js "photos"))))).
    { apply ensures_lift. intros validImages Ev.
      destruct (valid_images_large _ [] validImages Ev) as [H1 [_ H3]]; [constructor|].
      split; [exact H1|]. split; [|exact H3].
      intros photo Hin.
      destruct (valid_images_among _ [] validImages Ev photo Hin) as [[]|H]. exact H. }
    intros validImages (Hlarge & Hamong & Hnone).
    destruct validImages as [|first more].
    - do 2 (apply ensures_bind; intros ?). apply ensures_ret.
      right. exists data. split; [exact Hdata|]. right.
      split; [apply Hnone; reflexivity | reflexivity].
    - apply ensures_bind_with with
        (P := fun i => (i < List.length (first :: more))%nat).
      { eapply ensures_weaken; [apply ensures_random_below|].
        cbv beta. intros i H. apply H. discriminate. }
      intros randomIndex Hi. cbv zeta.
      do 3 (apply ensures_bind; intros ?). apply ensures_ret.
      right. exists data. split; [exact Hdata|]. left.
      assert (Hin : In (nth randomIndex (first :: more) VUndef) (first :: more))
        by (apply nth_In; exact Hi).
      split; [apply Hamong; exact Hin|].
      rewrite Forall_forall in Hlarge. apply Hlarge. exact Hin. }
  destruct Hrest as [Hnull | (data & Hdata & Hchosen)]; [left; exact Hnull|].
  right. exists encoded, response, data. repeat split; assumption.
Qed.

(** X15. An image that a search returns comes from the answer to the
    request that this very search has sent: a response with an OK status
    whose body has the image among its photos. The image is one of the
    first five photos and at least 800 by 600; or, when none of the first
    five photos is that large, it is the first photo of the answer. A
    smaller photo is never preferred to a large one among the first
    five, and no photo beyond the fifth is ever chosen while one of the
    first five is large. *)
Theorem fetchPexelsImage_prefers_large_photos (query : jsstr) (category : option jsstr)
    (size : jsstr) (w w' : World) (image : value)
    (Hrun : fetchPexelsImage query category size w = (Return image, w'))
    (Himage : image <> VNull) :
  exists encoded response data,
    encodeURIComponent (search_text query category) = Return encoded /\
    result (upstream w (sent w) (search_url encoded (per_page category) size))
    = Return response /\
    ok response = true /\
    json_body response = Return data /\
    chosen_from (prop data (js "photos")) image.
Proof.
  unfold fetchPexelsImage in Hrun.
  apply bind_returns in Hrun. destruct Hrun as (monitor & w0 & E0 & E).
  rewrite newPerformanceMonitor_run in E0. injection E0 as <- <-.
  unfold try_catch in E.
  destruct (pexels_search _ query category size _) as [[found|e] w1] eqn:Es.
  - injection E as <- _.
    destruct (pexels_search_chooses _ _ _ _ _ _ _ Es) as [Hnull | H];
      [contradiction | exact H].
  - exfalso. apply Himage.
    refine ((_ : ensures _ (fun image => image = VNull)) w1 image w' E).
    apply ensures_bind. intros _. apply ensures_ret. reflexivity.
Qed.

Lemma fetchPexelsImage_prefers_large_photos_witness :
  exists encoded response data,
    encodeURIComponent (search_text (js "Mumbai") (Some (js "city"))) = Return encoded /\
    result (two_photos 0%nat
              (search_url encoded (per_page (Some (js "city"))) (js "medium")))
    = Return response /\
    ok response = true /\
    json_body response = Return data /\
    chosen_from (prop data (js "photos")) (stock_photo 2 1920 1080).
Proof.
  apply (fetchPexelsImage_prefers_large_photos (js "Mumbai") (Some (js "city")) (js "medium")
           (boot None (Some (js "pexels-key")) None two_photos)
           (snd (fetchPexelsImage (js "Mumbai") (Some (js "city")) (js "medium")
                   (boot None (Some (js "pexels-key")) None two_photos)))).
  - vm_compute. reflexivity.
  - discriminate.
Defined.

(* ------------------------------------------------------------------ *)
(** ** timeout.ts: the two breakers do not share state *)

Lemma other_breaker_set self other b w :
  self <> other -> breaker_of other (set_breaker self b w) = breaker_of other w.
Proof. destruct self, other; intros H; try congruence; reflexivity. Qed.

Ltac keeps_step Hf :=
  apply keeps_bind;
  [ first [ apply keeps_lift | apply keeps_get_world | apply keeps_ret
          | apply (keeps_console _ Hf) | apply (keeps_Date_now _)
          | apply (keeps_monitor_log _ Hf) | apply (keeps_monitor_error _ Hf)
          | apply (keeps_monitor_finish _ Hf) | apply (keeps_newPerformanceMonitor _ Hf)
          | apply (keeps_response_json _) | apply (keeps_random_below _ Hf)
          | apply (keeps_sleep _ Hf) ]
  | intros ? ].

Lemma keeps_execute_other {T} self other (operation : M T) :
  self <> other ->
  keeps (breaker_of other) operation ->
  keeps (breaker_of other) (execute self operation).
Proof.
  intros Hne Hop. pose proof (blind_breaker other) as Hf.
  assert (Hset : forall g, keeps (breaker_of other)
                             (modify (fun w => set_breaker self (g w) w))).
  { intros g. apply keeps_modify. intros w. apply other_breaker_set, Hne. }
  unfold execute. apply keeps_bind.
  - unfold gate. keeps_step Hf. cbv zeta.
    destruct (state _); try apply keeps_ret.
    keeps_step Hf. apply keeps_if; [|apply keeps_throw].
    apply keeps_bind; [apply Hset | intros _]. apply (keeps_console _ Hf).
  - intros _. apply keeps_try_catch.
    + apply keeps_bind; [exact Hop | intros result].
      apply keeps_bind; [|intros _; apply keeps_ret].
      unfold onSuccess. apply keeps_bind; [apply Hset | intros _].
      keeps_step Hf. destruct (state _); try apply keeps_ret.
      apply keeps_bind; [apply Hset | intros _]. apply (keeps_console _ Hf).
    + intros e. apply keeps_bind; [|intros _; apply keeps_throw].
      unfold onFailure. apply keeps_bind; [apply Hset | intros _].
      keeps_step Hf. apply keeps_bind; [apply Hset | intros _].
      keeps_step Hf. cbv zeta. apply keeps_if; [|apply keeps_ret].
      apply keeps_bind; [apply Hset | intros _]. apply (keeps_console _ Hf).
Qed.

Lemma keeps_retry_loop {T B} (f : World -> B) (Hf : platform_blind f) (operation : M T)
    maxAttempts baseDelay operationName :
  keeps f operation ->
  forall fuel attempt lastError,
    keeps f (retry_loop operation maxAttempts baseDelay operationName fuel attempt lastError).
Proof.
  intros Hop. induction fuel as [|fuel IH]; intros attempt lastError.
  - apply keeps_throw.
  - cbn [retry_loop]. apply keeps_if; [|apply keeps_throw].
    apply keeps_try_catch.
    + keeps_step Hf. apply keeps_bind; [exact Hop | intros result].
      keeps_step Hf. apply keeps_ret.
    + intros e. apply keeps_if.
      * keeps_step Hf. apply keeps_throw.
      * cbv zeta. change (read_message e) with (lift (message_of e)).
        apply keeps_bind; [apply keeps_lift | intros message].
        keeps_step Hf. keeps_step Hf. apply IH.
Qed.

Lemma keeps_pexels_search_other monitor query category size :
  keeps perplexity (pexels_search monitor query category size).
Proof.
  pose proof blind_perplexity as Hf.
  unfold pexels_search. keeps_step Hf.
  destruct (PEXELS_API_KEY _) as [[|c k]|];
    try (keeps_step Hf; apply keeps_ret).
  cbv zeta. keeps_step Hf.
  apply keeps_bind.
  { apply (keeps_execute_other pexels_ref perplexity_ref); [discriminate|].
    keeps_step Hf. apply (keeps_fetchWithTimeout perplexity Hf). }
  intros response. apply keeps_if; [keeps_step Hf; apply keeps_ret|].
  do 4 keeps_step Hf.
  apply keeps_if; [|do 2 keeps_step Hf; apply keeps_ret].
  do 2 keeps_step Hf.
  match goal with |- keeps _ (match ?l with _ => _ end) => destruct l end.
  - do 2 keeps_step Hf. apply keeps_ret.
  - keeps_step Hf. cbv zeta. do 3 keeps_step Hf. apply keeps_ret.
Qed.

(** X16. The two breakers share no state. A call to the model, however it
    ends, leaves the breaker of the image search as it was, and an image
    search leaves the breaker of the model as it was: the failures of one
    service never open the breaker of the other. *)
Theorem breakers_are_independent :
  (forall w, pexels (snd (perplexity_call w)) = pexels w) /\
  (forall query category size w,
     perplexity (snd (fetchPexelsImage query category size w)) = perplexity w).
Proof.
  split.
  - change (keeps pexels perplexity_call).
    unfold perplexity_call, retryWithBackoff.
    apply (keeps_retry_loop pexels blind_pexels).
    apply (keeps_execute_other perplexity_ref pexels_ref); [discriminate|].
    apply (keeps_fetchWithTimeout pexels blind_pexels).
  - intros query category size.
    change (keeps perplexity (fetchPexelsImage query category size)).
    pose proof blind_perplexity as Hf.
    unfold fetchPexelsImage. keeps_step Hf.
    apply keeps_try_catch; [apply keeps_pexels_search_other|].
    intros e. apply keeps_bind; [|intros _; apply keeps_ret].
    apply keeps_if; apply (keeps_monitor_error _ Hf).
Qed.

(* ------------------------------------------------------------------ *)
(** ** timeout.ts: a transient failure of the model *)

Lemma schedule_after_fetch url d w t :
  schedule (cleared (S (next_id w)) (advance t (in_flight url d w)))
  = schedule w ++ [Fetch url].
Proof.
  change (schedule (cleared (S (next_id w)) (advance t (in_flight url d w))))
    with (schedule (advance t (in_flight url d w))).
  rewrite schedule_advance. unfold schedule. cbn. rewrite filter_app. reflexivity.
Qed.

Lemma onFailure_elsewhere self w :
  sent (snd (onFailure self w)) = sent w /\
  schedule (snd (onFailure self w)) = schedule w /\
  (fresh_ids w -> fresh_ids (snd (onFailure self w))).
Proof.
  unfold onFailure, bind, modify, get_world, Date_now. cbn.
  destruct (_ <=? _); destruct self; cbn;
    (split; [reflexivity|]); (split; [|intros H; exact H]);
    try reflexivity; apply schedule_emit_console.
Qed.

Lemma onSuccess_schedule self w : schedule (snd (onSuccess self w)) = schedule w.
Proof.
  unfold onSuccess, bind, modify, get_world. cbn. rewrite breaker_of_set. cbn.
  destruct (state (breaker_of self w)); destruct self; cbn; try reflexivity;
    apply schedule_emit_console.
Qed.

(** X17. One failed request is absorbed by the retry. When the first
    request to the model fails, with an error object as [fetch] rejects
    with, or runs out of time, and the second is answered in time, the orchestrated call returns the second response
    after exactly two requests with one wait of 2000 ms between them, and
    the success wipes the failure off the breaker, which stays CLOSED with
    no failure on record. *)
Theorem perplexity_call_absorbs_one_failure (w : World) (r : Response)
    (Hfresh : fresh_ids w)
    (Hclosed : state (perplexity w) = CLOSED)
    (Hroom : failures (perplexity w) + 1 < failureThreshold (perplexity w))
    (Hfirst : (exists e, result (upstream w (sent w) PERPLEXITY_URL) = Throw e /\
                         nullish_thrown e = false) \/
              TIMEOUTS_AI <= latency (upstream w (sent w) PERPLEXITY_URL))
    (Hsecond : result (upstream w (S (sent w)) PERPLEXITY_URL) = Return r)
    (Hintime : Z.max 0 (latency (upstream w (S (sent w)) PERPLEXITY_URL)) < TIMEOUTS_AI) :
  exists w',
    perplexity_call w = (Return r, w') /\
    schedule w' = schedule w ++ [Fetch PERPLEXITY_URL; Sleep 2000; Fetch PERPLEXITY_URL] /\
    sent w' = S (S (sent w)) /\
    failures (perplexity w') = 0 /\ state (perplexity w') = CLOSED.
Proof.
  unfold perplexity_call, retryWithBackoff. change (Z.to_nat 3) with 3%nat.
  set (nm := js "Perplexity API Call").
  set (op := fetchWithTimeout PERPLEXITY_URL (Some TIMEOUTS_AI) (Some (js "perplexity-api"))).
  (* the first attempt fails *)
  set (a1 := after_start (attempt_label nm 1 3) w).
  assert (Hf1 : fresh_ids a1) by (apply fresh_ids_emit; exact Hfresh).
  assert (Hg1 : gate perplexity_ref a1 = (Return tt, a1)).
  { apply gate_closed. change (state (perplexity w) <> OPEN). congruence. }
  assert (Hrun1 : exists e t,
             op a1 = (Throw e, cleared (S (next_id a1))
                                 (advance t (in_flight PERPLEXITY_URL TIMEOUTS_AI a1)))
             /\ nullish_thrown e = false).
  { unfold op. rewrite (fetchWithTimeout_run _ _ _ a1 Hf1). cbv zeta.
    change (upstream a1) with (upstream w). change (sent a1) with (sent w).
    destruct (_ <? _) eqn:E.
    - destruct Hfirst as [[e [He Hnull]] | Hslow].
      + rewrite He. eexists. eexists. split; [reflexivity|].
        destruct (is_abort_error e); [reflexivity | exact Hnull].
      + apply Z.ltb_lt in E. unfold TIMEOUTS_AI in *. lia.
    - eexists. eexists. split; reflexivity. }
  destruct Hrun1 as [e1 [t1 [Hrun1 Hn1]]].
  set (f1 := cleared (S (next_id a1)) (advance t1 (in_flight PERPLEXITY_URL TIMEOUTS_AI a1)))
    in Hrun1.
  assert (Hex1 : execute perplexity_ref op a1
                 = (Throw e1, snd (onFailure perplexity_ref f1))).
  { rewrite (execute_after_gate perplexity_ref op a1 a1 Hg1), Hrun1. reflexivity. }
  rewrite (retry_loop_fail_more (execute perplexity_ref op) 3 2000 nm 2 1 _ w e1 _
             ltac:(lia) Hn1 Hex1).
  destruct (onFailure_elsewhere perplexity_ref f1) as [Hs1 [Hsch1 Hfr1]].
  destruct (onFailure_run perplexity_ref f1) as (w1 & E1 & Hb1 & _).
  rewrite E1 in Hs1, Hsch1, Hfr1 |- *. cbn [snd] in Hs1, Hsch1, Hfr1 |- *.
  change (2000 * 2 ^ (1 - 1)) with 2000.
  match goal with |- context [retry_loop _ _ _ _ _ _ _ ?x] => set (b1 := x) end.
  assert (Hb : fresh_ids b1 /\ upstream b1 = upstream w /\ sent b1 = S (sent w) /\
               perplexity b1 = failed (clock f1) (perplexity w) /\
               schedule b1 = schedule w ++ [Fetch PERPLEXITY_URL; Sleep 2000]).
  { unfold b1. rewrite sleep_run. cbn [snd].
    split; [|split; [|split; [|split]]].
    - apply fresh_ids_advance, fresh_ids_emit, fresh_ids_emit, Hfr1.
      apply fresh_ids_after_fetch. exact Hf1.
    - cbn. 
      assert (Hu : upstream w1 = upstream f1).
      { revert E1. unfold onFailure, bind, modify, get_world, Date_now. cbn.
        destruct (_ <=? _); intros E; injection E as <-; reflexivity. }
      rewrite Hu. reflexivity.
    - change (sent w1 = S (sent w)). rewrite Hs1. reflexivity.
    - change (perplexity w1 = failed (clock f1) (perplexity w)).
      change (perplexity w1) with (breaker_of perplexity_ref w1). rewrite Hb1. reflexivity.
    - rewrite schedule_advance.
      unfold schedule at 1. cbn [trace with_trace].
      rewrite !filter_app. cbn [filter scheduled].
      fold (schedule w1). rewrite app_nil_r, Hsch1. unfold f1.
      rewrite schedule_after_fetch.
      change (schedule a1) with (schedule (after_start (attempt_label nm 1 3) w)).
      rewrite schedule_after_start, <- app_assoc. reflexivity. }
  destruct Hb as (Hfb & Hub & Hsb & Hpb & Hschb).
  (* the second attempt succeeds *)
  set (a2 := after_start (attempt_label nm (1 + 1) 3) b1).
  assert (Hf2 : fresh_ids a2) by (apply fresh_ids_emit; exact Hfb).
  assert (Hst2 : state (perplexity b1) = CLOSED).
  { rewrite Hpb. unfold failed. cbn [state].
    replace (failureThreshold (perplexity w) <=? failures (perplexity w) + 1) with false
      by (symmetry; apply Z.leb_gt; lia).
    exact Hclosed. }
  assert (Hg2 : gate perplexity_ref a2 = (Return tt, a2)).
  { apply gate_closed. change (state (perplexity b1) <> OPEN). congruence. }
  pose proof (fetchWithTimeout_run PERPLEXITY_URL TIMEOUTS_AI (js "perplexity-api") a2 Hf2)
    as Hrun2.
  cbv zeta in Hrun2.
  change (upstream a2) with (upstream b1) in Hrun2.
  change (sent a2) with (sent b1) in Hrun2.
  rewrite Hub, Hsb in Hrun2.
  replace (clock a2 + Z.max 0 (latency (upstream w (S (sent w)) PERPLEXITY_URL))
           <? clock a2 + Z.max 0 TIMEOUTS_AI)
    with true in Hrun2
    by (symmetry; apply Z.ltb_lt; change (Z.max 0 TIMEOUTS_AI) with TIMEOUTS_AI; lia).
  rewrite Hsecond in Hrun2. fold op in Hrun2.
  match type of Hrun2 with _ = (_, ?x) => set (f2 := x) in * end.
  assert (Hex2 : execute perplexity_ref op a2
                 = (Return r, snd (onSuccess perplexity_ref f2))).
  { rewrite (execute_after_gate perplexity_ref op a2 a2 Hg2), Hrun2. reflexivity. }
  rewrite (retry_loop_success (execute perplexity_ref op) 3 2000 nm 1 (1 + 1) _ b1 r _
             ltac:(lia) Hex2).
  eexists. split; [reflexivity|].
  destruct (onSuccess_elsewhere perplexity_ref f2) as [Hs2 _].
  pose proof (onSuccess_schedule perplexity_ref f2) as Hsch2.
  destruct (onSuccess_run perplexity_ref f2) as (w2 & E2 & Hb2).
  rewrite E2 in Hs2, Hsch2 |- *. cbn [snd] in Hs2, Hsch2 |- *.
  split; [|split; [|split]].
  - rewrite schedule_emit_console, Hsch2. unfold f2. rewrite schedule_after_fetch.
    change (schedule a2) with (schedule (after_start (attempt_label nm (1 + 1) 3) b1)).
    rewrite schedule_after_start, Hschb, <- app_assoc. reflexivity.
  - change (sent w2 = S (S (sent w))). rewrite Hs2.
    change (sent f2) with (S (sent b1)). rewrite Hsb. reflexivity.
  - change (failures (breaker_of perplexity_ref w2) = 0). rewrite Hb2. reflexivity.
  - change (state (breaker_of perplexity_ref w2) = CLOSED). rewrite Hb2.
    unfold succeeded. cbn [state].
    change (breaker_of perplexity_ref f2) with (perplexity b1). rewrite Hst2. reflexivity.
Qed.

Lemma perplexity_call_absorbs_one_failure_witness :
  exists w',
    perplexity_call
      (boot (Some (js "key")) None None (flaky (mkResponse 200 (Return VNull) (Return []))))
    = (Return (mkResponse 200 (Return VNull) (Return [])), w') /\
    schedule w' = [Fetch PERPLEXITY_URL; Sleep 2000; Fetch PERPLEXITY_URL] /\
    sent w' = 2%nat /\
    failures (perplexity w') = 0 /\ state (perplexity w') = CLOSED.
Proof.
  apply (perplexity_call_absorbs_one_failure
           (boot (Some (js "key")) None None
              (flaky (mkResponse 200 (Return VNull) (Return []))))).
  - apply fresh_ids_boot.
  - reflexivity.
  - vm_compute. reflexivity.
  - left. exists fetch_failed. split; reflexivity.
  - reflexivity.
  - vm_compute. reflexivity.
Defined.

(* ------------------------------------------------------------------ *)
(** ** POST: a city named like an inherited key *)

Lemma inherited_config key : inherited_key key = true -> CITY_CONFIGS key = VObj [].
Proof.
  unfold inherited_key. intros H. apply orb_true_iff in H.
  destruct H as [H | H]; apply str_eqb_eq in H; subst key; reflexivity.
Qed.

(** X18. The configuration of a city is looked up in an object literal
    under the lower-cased name, so a city named constructor or __proto__
    (in any casing) finds an inherited member instead of nothing. With
    cultural tips requested and the credential for the model configured,
    such a request is answered 500: joining the cultural tips of that
    member throws a TypeError, before anything is sent. *)
Theorem POST_inherited_city_key_is_500 (request : ItineraryRequest) (w : World) (k : jsstr)
    (Hvalid : valid_request request)
    (Hkey : key_configured (PERPLEXITY_API_KEY w) = Some k)
    (Htips : includeCulturalTips request = true)
    (Hcity : inherited_key (toLowerCase (city request)) = true) :
  exists response w',
    POST request w = (Return response, w') /\
    http_status response = 500 /\
    prop (http_body response) (js "error")
    = VStr (js "Cannot read properties of undefined (reading 'join')") /\
    prop (http_body response) (js "type") = VStr (js "general") /\
    wire w' = wire w.
Proof.
  destruct (valid_request_checks request Hvalid) as [H1 H2].
  unfold POST, bind at 1. rewrite newPerformanceMonitor_run.
  unfold try_catch, bind at 1.
  match goal with
  | |- context [monitor_log ?m ?msg ?v] =>
      change (monitor_log m msg v) with (Return tt, snd (monitor_log m msg v))
  end.
  rewrite H1, H2. cbv zeta iota beta.
  unfold bind at 1, get_world.
  match goal with
  | |- context [key_configured (PERPLEXITY_API_KEY ?v)] =>
      change (PERPLEXITY_API_KEY v) with (PERPLEXITY_API_KEY w)
  end.
  rewrite Hkey, (inherited_config _ Hcity).
  unfold bind at 1.
  match goal with
  | |- context [monitor_log ?m ?msg ?v] =>
      change (monitor_log m msg v) with (Return tt, snd (monitor_log m msg v))
  end.
  cbv iota beta. unfold bind at 1, build_prompt. rewrite Htips.
  cbv zeta. unfold bind at 1.
  eexists. eexists. split; [reflexivity|].
  split; [reflexivity|]. split; [reflexivity|]. split; reflexivity.
Qed.

Lemma POST_inherited_city_key_is_500_witness :
  exists response w',
    POST (mkRequest (js "Constructor") (js "50000") 2 None true true (js "medium"))
      (boot (Some (js "key")) None None offline) = (Return response, w') /\
    http_status response = 500 /\
    prop (http_body response) (js "error")
    = VStr (js "Cannot read properties of undefined (reading 'join')") /\
    prop (http_body response) (js "type") = VStr (js "general") /\
    wire w' = wire (boot (Some (js "key")) None None offline).
Proof.
  apply (POST_inherited_city_key_is_500
           (mkRequest (js "Constructor") (js "50000") 2 None true true (js "medium"))
           (boot (Some (js "key")) None None offline) (js "key")).
  - unfold valid_request. cbn. repeat split; try discriminate; lia.
  - reflexivity.
  - reflexivity.
  - vm_compute. reflexivity.
Defined.

(* ------------------------------------------------------------------ *)
(** ** The health check *)

Lemma fetch_signal_timeout_run url d w :
  fresh_ids w ->
  let reply := upstream w (sent w) url in
  let t_done := clock w + Z.max 0 (latency reply) in
  let deadline := clock w + Z.max 0 d in
  fetch_signal_timeout url d w =
  if t_done <? deadline then
    match result reply with
    | Return r => (Return r, advance t_done (in_flight url d w))
    | Throw e =>
        (Throw (if is_abort_error e then signal_timeout_error else e),
         advance t_done (in_flight url d w))
    end
  else (Throw signal_timeout_error, advance deadline (in_flight url d w)).
Proof.
  intros Hf reply t_done deadline.
  unfold fetch_signal_timeout.
  unfold bind, try_catch, newAbortController, setTimeout_abort, fetch. cbn.
  rewrite (is_aborted_false _ _ (fresh_not_aborted w Hf)).
  rewrite (abort_due_own _ _ _ _ (fresh_timer_free w Hf)).
  fold reply. fold t_done. fold deadline.
  fold (own_timer d w).
  destruct (t_done <? deadline).
  - destruct (result reply) as [r|e]; cbn.
    + reflexivity.
    + destruct (is_abort_error e); reflexivity.
  - cbn. reflexivity.
Qed.

Lemma checkService_run {A} name (checkFn : M A) w :
  checkService name checkFn w =
  match checkFn (after_start (js "Service Check: " ++ name) w) with
  | (Return result, w1) =>
      (Return result,
       snd (monitor_finish (mkMonitor (clock w) (js "Service Check: " ++ name)) true w1))
  | (Throw error, w1) =>
      (Throw error,
       snd (monitor_error (mkMonitor (clock w) (js "Service Check: " ++ name))
              (error_text error) w1))
  end.
Proof.
  unfold checkService, bind at 1. rewrite newPerformanceMonitor_run.
  unfold try_catch, bind at 1.
  destruct (checkFn _) as [[result | error] w1]; reflexivity.
Qed.

Lemma check_key_run key w :
  check_key key w =
  (if has_key (key w)
   then Return (VObj [ (js "configured", VBool true); (js "keyPresent", VBool true) ])
   else Throw (newError (js "API key not configured")), w).
Proof.
  unfold check_key, has_key, bind, get_world.
  destruct (key_configured (key w)); reflexivity.
Qed.

Lemma ltb_add_cancel c a b : (c + a <? c + b) = (a <? b).
Proof.
  destruct (a <? b) eqn:E.
  - apply Z.ltb_lt in E. apply Z.ltb_lt. lia.
  - apply Z.ltb_ge in E. apply Z.ltb_ge. lia.
Qed.

Lemma GET_health_run (process : ProcessInfo) (w : World) :
  fresh_ids w ->
  exists response w',
    GET_health process w = (Return response, w') /\
    http_status response
    = (if has_key (PERPLEXITY_API_KEY w) && has_key (PEXELS_API_KEY w) && probe_answered w
       then 200
       else if negb (has_key (PERPLEXITY_API_KEY w)) && negb (has_key (PEXELS_API_KEY w))
               && negb (probe_answered w)
       then 503 else 206) /\
    sent w' = S (sent w) /\ perplexity w' = perplexity w /\ pexels w' = pexels w /\
    prop (http_body response) (js "circuitBreakers")
    = VObj [ (js "perplexity", getState (perplexity w));
             (js "pexels", getState (pexels w)) ] /\
    prop (service_of response "perplexity") (js "status")
    = VStr (if has_key (PERPLEXITY_API_KEY w) then js "healthy" else js "unhealthy") /\
    prop (service_of response "pexels") (js "status")
    = VStr (if has_key (PEXELS_API_KEY w) then js "healthy" else js "unhealthy") /\
    (forall r, probe_answered w = true ->
               result (upstream w (sent w) HTTPBIN_URL) = Return r ->
               prop (service_of response "external_connectivity") (js "status")
               = VInt (status r) /\
               prop (service_of response "external_connectivity") (js "reachable")
               = VBool (ok r)) /\
    (probe_answered w = false ->
     prop (service_of response "external_connectivity") (js "status")
     = VStr (js "unhealthy")) /\
    prop (http_body response) (js "status")
    = VStr (if has_key (PERPLEXITY_API_KEY w) && has_key (PEXELS_API_KEY w)
               && probe_answered w
            then js "healthy"
            else if negb (has_key (PERPLEXITY_API_KEY w))
                    && negb (has_key (PEXELS_API_KEY w)) && negb (probe_answered w)
            then js "unhealthy" else js "degraded").
Proof.
  intros Hfresh.
  unfold GET_health, bind at 1. rewrite newPerformanceMonitor_run.
  unfold try_catch.
  unfold bind at 1, Date_now. unfold bind at 1, now_iso.
  unfold bind at 1, allSettled. cbn [settle_from].
  rewrite checkService_run, check_key_run.
  match goal with
  | |- context [has_key (PERPLEXITY_API_KEY ?v)] =>
      change (PERPLEXITY_API_KEY v) with (PERPLEXITY_API_KEY w)
  end.
  destruct (has_key (PERPLEXITY_API_KEY w)) eqn:K1; cbv beta iota;
    rewrite checkService_run, check_key_run;
    match goal with
    | |- context [has_key (PEXELS_API_KEY ?v)] =>
        change (PEXELS_API_KEY v) with (PEXELS_API_KEY w)
    end;
    destruct (has_key (PEXELS_API_KEY w)) eqn:K2; cbv beta iota;
    rewrite checkService_run; unfold check_connectivity, bind at 1;
    (rewrite fetch_signal_timeout_run by exact Hfresh);
    cbv zeta;
    match goal with
    | |- context [upstream ?v (sent ?v) HTTPBIN_URL] =>
        change (upstream v (sent v) HTTPBIN_URL) with (upstream w (sent w) HTTPBIN_URL)
    end;
    rewrite ltb_add_cancel; change (Z.max 0 5000) with 5000;
    unfold probe_answered;
    destruct (Z.max 0 (latency (upstream w (sent w) HTTPBIN_URL)) <? 5000);
    try destruct (result (upstream w (sent w) HTTPBIN_URL)) as [r | e];
    cbv beta iota;
    (eexists; eexists; split; [reflexivity|]);
    (split; [reflexivity|]); (split; [reflexivity|]);
    (split; [reflexivity|]); (split; [reflexivity|]);
    (split; [reflexivity|]); (split; [reflexivity|]);
    (split; [reflexivity|]);
    (split;
     [ intros r0 Hp Hr; try discriminate Hp; try discriminate Hr;
       injection Hr as <-; split; reflexivity |]);
    (split; [intros Hp; try discriminate Hp; reflexivity | reflexivity]).
Qed.

(** X19. The health check never throws and answers 200, 206 or 503 by
    counting three checks: the two credentials and a probe request. It
    answers 200 exactly when both credentials are configured and the probe
    is answered within five seconds, with whatever HTTP status; 503
    exactly when all three fail; 206 otherwise. It sends the one probe
    request, leaves both breakers as they are and reports their state. *)
Theorem GET_health_status_code (process : ProcessInfo) (w : World)
    (Hfresh : fresh_ids w) :
  exists response w',
    GET_health process w = (Return response, w') /\
    http_status response
    = (if has_key (PERPLEXITY_API_KEY w) && has_key (PEXELS_API_KEY w) && probe_answered w
       then 200
       else if negb (has_key (PERPLEXITY_API_KEY w)) && negb (has_key (PEXELS_API_KEY w))
               && negb (probe_answered w)
       then 503 else 206) /\
    sent w' = S (sent w) /\ perplexity w' = perplexity w /\ pexels w' = pexels w /\
    prop (http_body response) (js "circuitBreakers")
    = VObj [ (js "perplexity", getState (perplexity w));
             (js "pexels", getState (pexels w)) ].
Proof.
  destruct (GET_health_run process w Hfresh)
    as (response & w' & E & Hcode & Hsent & Hp & Hx & Hb & _).
  exists response, w'. repeat split; assumption.
Qed.

Lemma GET_health_status_code_witness :
  exists response w',
    GET_health node_process
      (boot (Some (js "key")) (Some (js "pexels-key")) None offline)
    = (Return response, w') /\
    http_status response = 206 /\
    sent w' = 1%nat /\
    perplexity w' = circuitBreakers_perplexity /\ pexels w' = circuitBreakers_pexels /\
    prop (http_body response) (js "circuitBreakers")
    = VObj [ (js "perplexity", getState circuitBreakers_perplexity);
             (js "pexels", getState circuitBreakers_pexels) ].
Proof.
  apply (GET_health_status_code node_process
           (boot (Some (js "key")) (Some (js "pexels-key")) None offline)).
  apply fresh_ids_boot.
Defined.

(** X20. In the body of the health check the entry of the probe is the
    probe's own report spread over the healthy entry, so its status field
    is the HTTP status number of the probe's response, not the word
    healthy: a probe answered with HTTP 500 in time is reported as
    status 500, reachable false, and still counts as a healthy service. *)
Theorem GET_health_probe_entry (process : ProcessInfo) (w : World) (r : Response)
    (Hfresh : fresh_ids w)
    (Hanswer : result (upstream w (sent w) HTTPBIN_URL) = Return r)
    (Hintime : Z.max 0 (latency (upstream w (sent w) HTTPBIN_URL)) < 5000)
    (Hkeys : has_key (PERPLEXITY_API_KEY w) && has_key (PEXELS_API_KEY w) = true) :
  exists response w',
    GET_health process w = (Return response, w') /\
    http_status response = 200 /\
    prop (http_body response) (js "status") = VStr (js "healthy") /\
    prop (service_of response "external_connectivity") (js "status") = VInt (status r) /\
    prop (service_of response "external_connectivity") (js "reachable") = VBool (ok r).
Proof.
  destruct (GET_health_run process w Hfresh)
    as (response & w' & E & Hcode & _ & _ & _ & _ & _ & _ & Hprobe & _ & Hstatus).
  assert (Hp : probe_answered w = true).
  { unfold probe_answered. rewrite Hanswer.
    replace (Z.max 0 (latency (upstream w (sent w) HTTPBIN_URL)) <? 5000) with true
      by (symmetry; apply Z.ltb_lt; exact Hintime).
    reflexivity. }
  rewrite Hkeys, Hp in Hcode, Hstatus.
  exists response, w'. split; [exact E|]. split; [exact Hcode|]. split; [exact Hstatus|].
  apply (Hprobe r Hp Hanswer).
Qed.

Lemma GET_health_probe_entry_witness :
  exists response w',
    GET_health node_process
      (boot (Some (js "key")) (Some (js "pexels-key")) None failing_server)
    = (Return response, w') /\
    http_status response = 200 /\
    prop (http_body response) (js "status") = VStr (js "healthy") /\
    prop (service_of response "external_connectivity") (js "status") = VInt 500 /\
    prop (service_of response "external_connectivity") (js "reachable") = VBool false.
Proof.
  apply (GET_health_probe_entry node_process
           (boot (Some (js "key")) (Some (js "pexels-key")) None failing_server)
           (mkResponse 500 (Return VNull) (Return []))).
  - apply fresh_ids_boot.
  - reflexivity.
  - vm_compute. reflexivity.
  - reflexivity.
Defined.

(* ------------------------------------------------------------------ *)
(** ** Rules for runs under an invariant of the world *)

Section Under.
Variable I : World -> Prop.

Lemma under_ret {A} (a : A) (Q : A -> Prop) R : Q a -> under I (ret a) Q R.
Proof. intros H w Hw. split; assumption. Qed.

Lemma under_throw {A} e (Q : A -> Prop) (R : JsError -> Prop) :
  R e -> under I (@throw A e) Q R.
Proof. intros H w Hw. split; assumption. Qed.

Lemma under_lift {A} (o : Outcome A) (Q : A -> Prop) (R : JsError -> Prop) :
  match o with Return a => Q a | Throw e => R e end -> under I (lift o) Q R.
Proof. intros H w Hw. unfold lift. destruct o; split; assumption. Qed.

Lemma under_bind {A B} (m : M A) (k : A -> M B) (Q1 : A -> Prop) Q R :
  under I m Q1 R -> (forall a, Q1 a -> under I (k a) Q R) -> under I (bind m k) Q R.
Proof.
  intros Hm Hk w Hw. unfold bind. specialize (Hm w Hw).
  destruct (m w) as [[a | e] w1].
  - destruct Hm as [Ha Hw1]. apply (Hk a Ha w1 Hw1).
  - exact Hm.
Qed.

Lemma under_try_catch {A} (m : M A) (h : JsError -> M A) (R1 : JsError -> Prop) Q R :
  under I m Q R1 -> (forall e, R1 e -> under I (h e) Q R) -> under I (try_catch m h) Q R.
Proof.
  intros Hm Hh w Hw. unfold try_catch. specialize (Hm w Hw).
  destruct (m w) as [[a | e] w1].
  - exact Hm.
  - destruct Hm as [He Hw1]. apply (Hh e He w1 Hw1).
Qed.

Lemma under_weaken {A} (m : M A) (Q Q' : A -> Prop) (R R' : JsError -> Prop) :
  under I m Q R -> (forall a, Q a -> Q' a) -> (forall e, R e -> R' e) -> under I m Q' R'.
Proof.
  intros Hm HQ HR w Hw. specialize (Hm w Hw).
  destruct (m w) as [[a | e] w1]; destruct Hm; split; auto.
Qed.

Lemma under_if {A} (c : bool) (m1 m2 : M A) Q R :
  under I m1 Q R -> under I m2 Q R -> under I (if c then m1 else m2) Q R.
Proof. destruct c; auto. Qed.

Lemma under_get_world R : under I get_world I R.
Proof. intros w Hw. split; exact Hw. Qed.

(** A computation that only moves the clock, the timers and the log. *)
Hypothesis I_blind :
  forall w t ts ab n d tr,
    I w ->
    I (mkWorld t ts ab n (perplexity w) (pexels w)
         (PERPLEXITY_API_KEY w) (PEXELS_API_KEY w) (GOOGLE_PLACES_API_KEY w)
         (upstream w) (sent w) (random w) d (toISOString w) (Date_parse w) tr).

Lemma under_console lvl text R : under I (console lvl text) anything R.
Proof. intros w Hw. split; [exact Logic.I | apply (I_blind w), Hw]. Qed.

Lemma under_Date_now R : under I Date_now anything R.
Proof. intros w Hw. split; [exact Logic.I | exact Hw]. Qed.

Lemma under_now_iso R : under I now_iso anything R.
Proof. intros w Hw. split; [exact Logic.I | exact Hw]. Qed.

Lemma under_randomUUID R : under I randomUUID anything R.
Proof. intros w Hw. split; [exact Logic.I | apply (I_blind w), Hw]. Qed.

Lemma under_monitor_log m msg R : under I (monitor_log m msg) anything R.
Proof. intros w Hw. split; [exact Logic.I | apply (I_blind w), Hw]. Qed.

Lemma under_monitor_error m msg R : under I (monitor_error m msg) anything R.
Proof. intros w Hw. split; [exact Logic.I | apply (I_blind w), Hw]. Qed.

Lemma under_monitor_finish m b R : under I (monitor_finish m b) anything R.
Proof. intros w Hw. split; [exact Logic.I | apply (I_blind w), Hw]. Qed.

Lemma under_newPerformanceMonitor op R : under I (newPerformanceMonitor op) anything R.
Proof. intros w Hw. split; [exact Logic.I | apply (I_blind w), Hw]. Qed.

Lemma I_with_clock t w : I w -> I (with_clock t w).
Proof. intros Hw. apply (I_blind w), Hw. Qed.

Lemma under_settle_from {A} (Q : A -> Prop) (tasks : list (M A)) :
  Forall (fun task => under I task Q anything) tasks ->
  forall t0 latest w, I w ->
    Forall (fun o => forall a, o = Return a -> Q a)
      (fst (fst (settle_from t0 tasks latest w))) /\
    I (snd (settle_from t0 tasks latest w)).
Proof.
  induction 1 as [|task rest Htask _ IH]; intros t0 latest w Hw.
  - cbn. split; [constructor | exact Hw].
  - cbn [settle_from]. specialize (Htask (with_clock t0 w) (I_with_clock t0 w Hw)).
    destruct (task (with_clock t0 w)) as [o w1].
    assert (Hw1 : I w1) by (destruct o; apply Htask).
    specialize (IH t0 (Z.max latest (clock w1)) w1 Hw1).
    destruct (settle_from t0 rest (Z.max latest (clock w1)) w1) as [[os latest'] w2].
    cbn [fst snd] in *. destruct IH as [IH1 IH2]. split; [|exact IH2].
    constructor; [|exact IH1]. intros a ->. apply Htask.
Qed.

Lemma under_allSettled {A} (Q : A -> Prop) (tasks : list (M A)) R :
  Forall (fun task => under I task Q anything) tasks ->
  under I (allSettled tasks) (Forall (fun o => forall a, o = Return a -> Q a)) R.
Proof.
  intros H w Hw. unfold allSettled.
  pose proof (under_settle_from Q tasks H (clock w) (clock w) w Hw) as Hs.
  destruct (settle_from (clock w) tasks (clock w) w) as [[os latest] w1].
  cbn [fst snd] in Hs. destruct Hs as [H1 H2].
  split; [exact H1 | apply I_with_clock, H2].
Qed.

Lemma under_race_timeout {A} (p : M A) ms operation timer_first (Q : A -> Prop) :
  under I p Q anything -> under I (race_timeout p ms operation timer_first) Q anything.
Proof.
  intros Hp w Hw. unfold race_timeout. specialize (Hp w Hw).
  destruct (p w) as [o w1].
  assert (Hw1 : I w1) by (destruct o; apply Hp).
  destruct (if timer_first then _ else _).
  - split; [exact Logic.I | apply I_with_clock, Hw1].
  - exact Hp.
Qed.

Lemma under_fold_M {A S} (f : S -> A -> M S) (J : S -> Prop) (P : A -> Prop) l R :
  Forall P l ->
  (forall s x, P x -> J s -> under I (f s x) J R) ->
  forall s, J s -> under I (fold_M f l s) J R.
Proof.
  intros Hl Hf. induction Hl as [|x rest Hx _ IH]; intros s Hs.
  - apply under_ret. exact Hs.
  - cbn [fold_M]. eapply under_bind; [apply (Hf s x Hx Hs) | intros s' Hs'; apply IH, Hs'].
Qed.
End Under.

(* ------------------------------------------------------------------ *)
(** ** POST without credentials *)

Lemma offline_blind view :
  forall w t ts ab n d tr,
    offline_at view w ->
    offline_at view
      (mkWorld t ts ab n (perplexity w) (pexels w)
         (PERPLEXITY_API_KEY w) (PEXELS_API_KEY w) (GOOGLE_PLACES_API_KEY w)
         (upstream w) (sent w) (random w) d (toISOString w) (Date_parse w) tr).
Proof. intros w t ts ab n d tr H. exact H. Qed.

Section Offline.
Variable view : nat * CircuitBreaker * CircuitBreaker.

Let Off := offline_at view.
Let Off_blind := offline_blind view.

Lemma offline_fetchPexelsImage query category size :
  under Off (fetchPexelsImage query category size) (fun image => image = VNull) nothing.
Proof.
  unfold fetchPexelsImage.
  eapply under_bind; [apply (under_newPerformanceMonitor Off Off_blind) | intros monitor _].
  apply under_try_catch with (R1 := anything).
  - unfold pexels_search.
    eapply under_bind; [apply under_get_world | intros w0 [[_ Hkey] _]].
    destruct (PEXELS_API_KEY w0) as [[|c k]|]; try discriminate Hkey;
      (eapply under_bind; [apply (under_monitor_error Off Off_blind) | intros ? _];
       apply under_ret; reflexivity).
  - intros e _.
    eapply under_bind with (Q1 := anything).
    + apply under_if; apply (under_monitor_error Off Off_blind).
    + intros ? _. apply under_ret. reflexivity.
Qed.

Lemma offline_try_fallbacks queries category size :
  under Off (try_fallbacks queries category size VNull) (fun image => image = VNull) nothing.
Proof.
  induction queries as [|q rest IH]; cbn [try_fallbacks].
  - apply under_ret. reflexivity.
  - eapply under_bind; [apply offline_fetchPexelsImage | intros image ->].
    cbn [truthy]. exact IH.
Qed.

Lemma offline_diverse_images monitor locationNames size :
  under Off (diverse_images monitor locationNames size) (fun images => images = []) anything.
Proof.
  unfold diverse_images.
  eapply under_bind with (Q1 := anything).
  { apply under_lift. destruct (map_out _ locationNames); exact I. }
  intros categorized _. cbv zeta.
  eapply under_bind.
  { apply under_race_timeout; [exact Off_blind|].
    apply under_allSettled with (Q := fun result : jsstr * value => snd result = VNull);
      [exact Off_blind|].
    apply Forall_forall. intros task Ht. apply in_map_iff in Ht.
    destruct Ht as [[locationName [category fallbackQueries]] [<- _]].
    eapply under_bind; [apply (under_monitor_log Off Off_blind) | intros ? _].
    eapply under_weaken with (Q := fun result : jsstr * value => snd result = VNull)
                             (R := nothing); [|auto | intros e []].
    eapply under_bind; [apply offline_fetchPexelsImage | intros image ->].
    eapply under_bind with (Q1 := fun image => image = VNull).
    - cbn [truthy negb andb]. apply under_if; [|apply under_ret; reflexivity].
      eapply under_bind; [apply (under_monitor_log Off Off_blind) | intros ? _].
      apply offline_try_fallbacks.
    - intros image ->. apply under_ret. reflexivity. }
  intros results Hresults. cbv beta in Hresults.
  eapply under_bind with (Q1 := fun out : object_map * nat => fst out = []).
  { apply under_fold_M
      with (J := fun out : object_map * nat => fst out = [])
           (P := fun o : Outcome (jsstr * value) => forall a, o = Return a -> snd a = VNull);
      [exact Hresults | | reflexivity].
    intros [locationImages successCount] o Ho Hacc. cbn [fst] in Hacc. subst locationImages.
    destruct o as [[locationName image] | reason].
    - pose proof (Ho (locationName, image) eq_refl) as Hi. cbn [snd] in Hi. subst image.
      cbn [truthy]. apply under_ret. reflexivity.
    - eapply under_bind; [apply (under_monitor_log Off Off_blind) | intros ? _].
      apply under_ret. reflexivity. }
  intros [locationImages successCount] Hout. cbn [fst] in Hout. subst locationImages.
  eapply under_bind; [apply (under_monitor_log Off Off_blind) | intros ? _].
  eapply under_bind; [apply (under_monitor_finish Off Off_blind) | intros ? _].
  apply under_ret. reflexivity.
Qed.

Lemma offline_fetchDiverseLocationImages locationNames size :
  under Off (fetchDiverseLocationImages locationNames size)
    (fun images => images = []) nothing.
Proof.
  unfold fetchDiverseLocationImages.
  eapply under_bind; [apply (under_newPerformanceMonitor Off Off_blind) | intros monitor _].
  eapply under_try_catch; [apply offline_diverse_images|].
  intros e _. eapply under_bind with (Q1 := anything).
  - apply under_if; apply (under_monitor_error Off Off_blind).
  - intros ? _. apply under_ret. reflexivity.
Qed.

Lemma offline_respond_without_ai globalMonitor request cityConfig :
  under Off (respond_without_ai globalMonitor request cityConfig)
    (fun response =>
       prop (http_body response) (js "locationImages") = VObj [] /\
       prop (prop (http_body response) (js "metadata")) (js "aiModel")
       = VStr (js "fallback-enhanced"))
    anything.
Proof.
  unfold respond_without_ai.
  eapply under_bind; [apply (under_monitor_error Off Off_blind) | intros ? _].
  eapply under_bind; [apply (under_monitor_log Off Off_blind) | intros ? _].
  eapply under_bind with (Q1 := anything).
  { intros w Hw. unfold generateEnhancedFallbackItinerary. split; [exact I | exact Hw]. }
  intros fallbackItinerary _.
  eapply under_bind with (Q1 := anything).
  { apply under_lift. destruct (extractLocationNames _ _); exact I. }
  intros locationNames _.
  eapply under_bind with (Q1 := fun images => images = []).
  { eapply under_try_catch; [apply offline_fetchDiverseLocationImages | intros e []]. }
  intros locationImages ->.
  eapply under_bind; [apply (under_now_iso Off) | intros ? _].
  eapply under_bind; [apply (under_randomUUID Off Off_blind) | intros ? _].
  eapply under_bind; [apply (under_Date_now Off) | intros ? _].
  cbv zeta.
  eapply under_bind; [apply (under_monitor_finish Off Off_blind) | intros ? _].
  unfold respond. apply under_ret. cbn [http_body]. split.
  - rewrite prop_update_other by keys_differ. apply prop_update_same.
  - rewrite prop_update_same. reflexivity.
Qed.

Lemma offline_POST request :
  under Off (POST request)
    (fun response =>
       http_status response = 200 ->
       prop (http_body response) (js "locationImages") = VObj [] /\
       prop (prop (http_body response) (js "metadata")) (js "aiModel")
       = VStr (js "fallback-enhanced"))
    nothing.
Proof.
  unfold POST.
  eapply under_bind; [apply (under_newPerformanceMonitor Off Off_blind)
                     | intros globalMonitor _].
  apply under_try_catch with (R1 := anything).
  - eapply under_bind; [apply (under_monitor_log Off Off_blind) | intros ? _].
    assert (Hbad : forall message,
               under Off (bad_request message)
                 (fun response =>
                    http_status response = 200 ->
                    prop (http_body response) (js "locationImages") = VObj [] /\
                    prop (prop (http_body response) (js "metadata")) (js "aiModel")
                    = VStr (js "fallback-enhanced"))
                 anything).
    { intros message. unfold bad_request.
      eapply under_bind; [apply (under_now_iso Off) | intros ? _].
      eapply under_bind; [apply (under_randomUUID Off Off_blind) | intros ? _].
      unfold respond. apply under_ret. cbn [http_status]. discriminate. }
    apply under_if; [apply Hbad|]. apply under_if; [apply Hbad|].
    cbv zeta.
    eapply under_bind; [apply under_get_world | intros w0 [[Hkey _] _]].
    rewrite Hkey.
    eapply under_weaken; [apply offline_respond_without_ai | | auto].
    intros response H _. exact H.
  - intros e _.
    eapply under_bind; [apply (under_monitor_error Off Off_blind) | intros ? _].
    eapply under_bind; [apply (under_now_iso Off) | intros ? _].
    eapply under_bind; [apply (under_randomUUID Off Off_blind) | intros ? _].
    eapply under_bind; [apply (under_Date_now Off) | intros ? _].
    unfold respond. apply under_ret. cbn [http_status].
    destruct (instanceof_TimeoutError e); discriminate.
Qed.
End Offline.

(** X21. A deployment without credentials works offline. When neither the
    model nor the image search has a credential, a valid request is
    answered 200 with the deterministic itinerary, labelled
    fallback-enhanced, and an empty locationImages mapping, and the whole
    run sends no request and leaves both breakers as they were. *)
Theorem POST_without_credentials_is_offline (request : ItineraryRequest) (w : World)
    (Hvalid : valid_request request)
    (Hnone : unconfigured w) :
  exists response w',
    POST request w = (Return response, w') /\
    http_status response = 200 /\
    prop (http_body response) (js "locationImages") = VObj [] /\
    prop (prop (http_body response) (js "metadata")) (js "aiModel")
    = VStr (js "fallback-enhanced") /\
    wire w' = wire w.
Proof.
  destruct (POST_without_credential request w Hvalid (proj1 Hnone))
    as [response [w' [E [H200 _]]]].
  pose proof (offline_POST (wire w) request w (conj Hnone eq_refl)) as H.
  rewrite E in H. destruct H as [HQ [_ Hwire]].
  exists response, w'. split; [exact E|]. split; [exact H200|].
  destruct (HQ H200) as [Himages Hmodel].
  split; [exact Himages|]. split; [exact Hmodel | exact Hwire].
Qed.

Lemma POST_without_credentials_is_offline_witness :
  exists response w',
    POST mumbai_request (boot None None None offline) = (Return response, w') /\
    http_status response = 200 /\
    prop (http_body response) (js "locationImages") = VObj [] /\
    prop (prop (http_body response) (js "metadata")) (js "aiModel")
    = VStr (js "fallback-enhanced") /\
    wire w' = wire (boot None None None offline).
Proof.
  apply (POST_without_credentials_is_offline mumbai_request (boot None None None offline)).
  - exact mumbai_request_valid.
  - split; reflexivity.
Defined.

(* ------------------------------------------------------------------ *)
(** ** route.ts: the enhancement without a credential *)

Lemma placeless_blind view :
  forall w t ts ab n d tr,
    placeless_at view w ->
    placeless_at view
      (mkWorld t ts ab n (perplexity w) (pexels w)
         (PERPLEXITY_API_KEY w) (PEXELS_API_KEY w) (GOOGLE_PLACES_API_KEY w)
         (upstream w) (sent w) (random w) d (toISOString w) (Date_parse w) tr).
Proof. intros w t ts ab n d tr H. exact H. Qed.

Lemma under_map_M (I : World -> Prop) {A B} (f : A -> M B) (l : list A) :
  (forall x, under I (f x) anything anything) ->
  under I (map_M f l) anything anything.
Proof.
  intros Hf. induction l as [|x rest IH]; cbn [map_M].
  - apply under_ret. exact Logic.I.
  - eapply under_bind; [apply Hf | intros y _].
    eapply under_bind; [apply IH | intros ys _]. apply under_ret. exact Logic.I.
Qed.

Lemma under_lift_any (I : World -> Prop) {A} (o : Outcome A) :
  under I (lift o) anything anything.
Proof. apply under_lift. destruct o; exact Logic.I. Qed.

Section Placeless.
Variable view : nat * CircuitBreaker * CircuitBreaker.

Let Off := placeless_at view.
Let Off_blind := placeless_blind view.

Lemma placeless_searchRealPlaces query city type :
  under Off (searchRealPlaces query city type) (fun found => found = VArr []) nothing.
Proof.
  unfold searchRealPlaces.
  eapply under_bind; [apply under_get_world | intros w0 [Hkey _]].
  rewrite Hkey.
  eapply under_bind; [apply (under_console Off Off_blind) | intros ? _].
  apply under_ret. reflexivity.
Qed.

Lemma placeless_enhance_with entry wanted city type fallbackOf :
  under Off (enhance_with entry wanted city type fallbackOf) anything anything.
Proof.
  unfold enhance_with.
  eapply under_bind.
  { eapply under_weaken; [apply placeless_searchRealPlaces | | intros e []].
    intros found H. exact H. }
  intros found ->. cbv beta.
  change (js_gt (prop (VArr []) (js "length")) (VInt 0)) with false. cbv iota.
  eapply under_bind; [apply under_lift_any | intros fallback _].
  apply under_if; [apply under_lift_any | apply under_ret; exact I].
Qed.

Lemma placeless_for_of_update list (body : value -> M value) :
  (forall x, under Off (body x) anything anything) ->
  under Off (for_of_update list body) anything anything.
Proof.
  intros Hbody. unfold for_of_update.
  destruct list; try (apply under_throw; exact I).
  - eapply under_bind; [apply under_map_M, Hbody | intros ? _]. apply under_ret. exact I.
  - eapply under_bind; [apply under_map_M, Hbody | intros ? _]. apply under_ret. exact I.
Qed.

Lemma placeless_enhance_day city day :
  under Off (enhance_day city day) anything anything.
Proof.
  unfold enhance_day.
  eapply under_bind with (Q1 := anything).
  { apply under_fold_M with (J := anything) (P := anything);
      [apply Forall_forall; intros; exact I | | exact I].
    intros d period _ _.
    eapply under_bind; [apply under_lift_any | intros list _].
    apply under_if; [|apply under_ret; exact I].
    eapply under_bind; [|intros list' _; apply under_lift_any].
    apply placeless_for_of_update. intros activity. unfold enhance_activity.
    eapply under_bind; [apply under_lift_any | intros location _].
    apply under_if; [apply placeless_enhance_with | apply under_ret; exact I]. }
  intros d _.
  eapply under_bind; [apply under_lift_any | intros dining _].
  apply under_if; [|apply under_ret; exact I].
  eapply under_bind; [|intros dining' _; apply under_lift_any].
  apply placeless_for_of_update. intros meal. unfold enhance_meal.
  eapply under_bind; [apply under_lift_any | intros restaurant _].
  apply under_if; [apply placeless_enhance_with | apply under_ret; exact I].
Qed.

Lemma placeless_enhanceWithRealPlaces itinerary city :
  under Off (enhanceWithRealPlaces itinerary city) anything anything.
Proof.
  unfold enhanceWithRealPlaces.
  apply under_if; [apply under_ret; exact I|].
  eapply under_bind; [|intros entries _; apply under_lift_any].
  apply placeless_for_of_update. intros day. apply placeless_enhance_day.
Qed.
End Placeless.

(** X22. Without a credential for the place search the enhancement step
    is local: whatever the itinerary and the city, and however the step
    ends, [enhanceWithRealPlaces] sends no request and touches no
    breaker. *)
Theorem enhanceWithRealPlaces_without_key_is_local (itinerary : value) (city : jsstr)
    (w : World)
    (Hkey : key_configured (GOOGLE_PLACES_API_KEY w) = None) :
  wire (snd (enhanceWithRealPlaces itinerary city w)) = wire w.
Proof.
  pose proof (placeless_enhanceWithRealPlaces (wire w) itinerary city w (conj Hkey eq_refl))
    as H.
  destruct (enhanceWithRealPlaces itinerary city w) as [[result | e] w'];
    destruct H as [_ [_ Hwire]]; exact Hwire.
Qed.

Lemma enhanceWithRealPlaces_without_key_is_local_witness :
  wire (snd (enhanceWithRealPlaces day_ten_document (js "Mumbai")
               (boot None None None offline)))
  = wire (boot None None None offline).
Proof.
  apply (enhanceWithRealPlaces_without_key_is_local day_ten_document (js "Mumbai")
           (boot None None None offline)).
  reflexivity.
Defined.

(* ------------------------------------------------------------------ *)
(** ** route.ts: the validation of the itinerary, applied twice *)

Lemma update_update k x fields : update k x (update k x fields) = update k x fields.
Proof.
  induction fields as [|[k' v] rest IH]; cbn [update].
  - rewrite str_eqb_refl. reflexivity.
  - destruct (str_eqb k k') eqn:E; cbn [update].
    + rewrite str_eqb_refl. reflexivity.
    + rewrite E, IH. reflexivity.
Qed.

Lemma ensureAllMeals_three existingMeals city meals :
  ensureAllMeals existingMeals city = Return meals ->
  exists c1 c2 c3, meals = VArr [c1; c2; c3].
Proof.
  unfold ensureAllMeals.
  destruct (array_method existingMeals (js "map")) as [items|e]; [|discriminate].
  cbn [obind]. destruct (map_out _ items) as [mealMap|e]; [|discriminate].
  cbn [obind requiredMeals map]. intros E. injection E as <-. eauto.
Qed.

(** One pass of the loop of [validateAndEnhanceItinerary] leaves its own
    result as it is. *)
Lemma repair_step_idempotent city day day' :
  obind (get day (js "dining")) (fun dining =>
    if negb (truthy dining) || js_lt (prop dining (js "length")) (VInt 3)
    then obind (ensureAllMeals (or_else dining (VArr [])) city)
           (fun meals => set day (js "dining") meals)
    else Return day) = Return day' ->
  obind (get day' (js "dining")) (fun dining =>
    if negb (truthy dining) || js_lt (prop dining (js "length")) (VInt 3)
    then obind (ensureAllMeals (or_else dining (VArr [])) city)
           (fun meals => set day' (js "dining") meals)
    else Return day') = Return day'.
Proof.
  intros H. pose proof H as H0. revert H.
  destruct (get day (js "dining")) as [dining|e] eqn:Eg; [|discriminate].
  cbn [obind].
  destruct (negb (truthy dining) || js_lt (prop dining (js "length")) (VInt 3)) eqn:Ec.
  - destruct (ensureAllMeals (or_else dining (VArr [])) city) as [meals|e] eqn:Em;
      [|discriminate].
    cbn [obind]. destruct (ensureAllMeals_three _ _ _ Em) as (c1 & c2 & c3 & ->).
    destruct day; try discriminate; cbn [set]; intros E; injection E as <-.
    + rewrite Eg. exact H0.
    + rewrite get_object, prop_update_same. cbn [obind truthy negb orb].
      rewrite prop_length, js_lt_int. reflexivity.
  - intros E. injection E as <-. rewrite Eg. exact H0.
Qed.

Lemma repair_steps_idempotent city entries entries' :
  map_out (fun day =>
             obind (get day (js "dining")) (fun dining =>
             if negb (truthy dining) || js_lt (prop dining (js "length")) (VInt 3)
             then obind (ensureAllMeals (or_else dining (VArr [])) city)
                    (fun meals => set day (js "dining") meals)
             else Return day)) entries = Return entries' ->
  map_out (fun day =>
             obind (get day (js "dining")) (fun dining =>
             if negb (truthy dining) || js_lt (prop dining (js "length")) (VInt 3)
             then obind (ensureAllMeals (or_else dining (VArr [])) city)
                    (fun meals => set day (js "dining") meals)
             else Return day)) entries' = Return entries'.
Proof.
  intros H. apply map_out_same.
  assert (H2 : Forall2 (fun (day day' : value) =>
                          obind (get day' (js "dining")) (fun dining =>
                            if negb (truthy dining)
                               || js_lt (prop dining (js "length")) (VInt 3)
                            then obind (ensureAllMeals (or_else dining (VArr [])) city)
                                   (fun meals => set day' (js "dining") meals)
                            else Return day') = Return day') entries entries').
  { eapply map_out_Forall2; [|exact H].
    intros day day'. cbv beta. apply repair_step_idempotent. }
  clear H. induction H2; constructor; assumption.
Qed.

Lemma fallback_day_repaired city date day :
  obind (get (fallback_day city date day) (js "dining")) (fun dining =>
    if negb (truthy dining) || js_lt (prop dining (js "length")) (VInt 3)
    then obind (ensureAllMeals (or_else dining (VArr [])) city)
           (fun meals => set (fallback_day city date day) (js "dining") meals)
    else Return (fallback_day city date day))
  = Return (fallback_day city date day).
Proof. reflexivity. Qed.

Lemma days_of_object v :
  is_array (prop v (js "days")) = true -> exists fields, v = VObj fields.
Proof.
  assert (E1 : str_eqb (js "days") (js "length") = false) by (vm_compute; reflexivity).
  assert (E2 : array_index (js "days") = None) by (vm_compute; reflexivity).
  destruct v; cbn [prop]; rewrite ?E1, ?E2; try discriminate.
  intros _. eauto.
Qed.

(** X23. The validation of the itinerary is idempotent: whatever
    [validateAndEnhanceItinerary] returns, the deterministic itinerary or
    the document of the model with its summary and its meals repaired,
    validating that result again returns it unchanged. *)
Theorem validateAndEnhanceItinerary_idempotent (itinerary : value) (city : jsstr)
    (days : Z) (budget : jsstr) (cityConfig : value) (w w' : World)
    (itinerary' : value)
    (Hfirst : validateAndEnhanceItinerary itinerary city days budget cityConfig w
              = (Return itinerary', w')) :
  validateAndEnhanceItinerary itinerary' city days budget cityConfig w'
  = (Return itinerary', w').
Proof.
  revert Hfirst. unfold validateAndEnhanceItinerary at 1.
  destruct (negb (truthy itinerary) || negb (truthy (prop itinerary (js "days")))
            || negb (is_array (prop itinerary (js "days")))) eqn:Ec.
  - (* the deterministic itinerary *)
    unfold generateEnhancedFallbackItinerary. cbv zeta.
    intros E. injection E as <- <-.
    match goal with
    | |- context [VObj ((js "days", VArr ?entries) :: ?rest)] =>
        set (es := entries); set (F := VObj ((js "days", VArr es) :: rest))
    end.
    assert (Hd : prop F (js "days") = VArr es) by reflexivity.
    assert (Hs : truthy (prop F (js "summary")) = true) by reflexivity.
    unfold validateAndEnhanceItinerary.
    rewrite Hd, Hs. cbn [truthy is_array negb orb]. unfold lift. cbn [obind].
    rewrite Hd. cbn [array_method obind].
    rewrite map_out_same.
    + cbn [obind]. reflexivity.
    + unfold es. apply Forall_forall. intros day Hin. apply in_map_iff in Hin.
      destruct Hin as [n [<- _]]. apply fallback_day_repaired.
  - (* the document of the model *)
    apply orb_false_iff in Ec. destruct Ec as [Ec Harr].
    apply orb_false_iff in Ec. destruct Ec as [Hit Hdays].
    apply negb_false_iff in Hit, Hdays, Harr.
    destruct (days_of_object itinerary Harr) as [fields ->].
    destruct (prop (VObj fields) (js "days")) as [| | | | |entries|] eqn:Ed;
      try discriminate Harr.
    unfold lift. intros E.
    assert (Ew : w' = w) by (injection E; auto). subst w'.
    assert (Eo : forall o : Outcome value, (o, w) = (Return itinerary', w) ->
                                           o = Return itinerary')
      by (intros o Ho; injection Ho; auto).
    apply Eo in E. clear Eo.
    revert E.
    set (summary := VObj [ (js "totalCost", VStr (rupee ++ budget));
                           (js "highlights",
                            VArr [ VStr (js "Explore " ++ city);
                                   VStr (js "Experience local culture");
                                   VStr (js "Enjoy local cuisine") ]);
                           (js "tips",
                            VArr [ VStr (js "Plan ahead"); VStr (js "Stay hydrated");
                                   VStr (js "Respect local customs") ]);
                           (js "bestTime", VStr (js "Year-round destination")) ]).
    assert (Hloop : forall fields1,
               prop (VObj fields1) (js "days") = VArr entries ->
               truthy (prop (VObj fields1) (js "summary")) = true ->
               obind (array_method (prop (VObj fields1) (js "days")) (js "forEach"))
                 (fun entries0 =>
                    obind (map_out
                             (fun day =>
                                obind (get day (js "dining")) (fun dining =>
                                if negb (truthy dining)
                                   || js_lt (prop dining (js "length")) (VInt 3)
                                then
                                  obind (ensureAllMeals (or_else dining (VArr [])) city)
                                    (fun meals => set day (js "dining") meals)
                                else Return day))
                             entries0)
                      (fun entries1 => set (VObj fields1) (js "days") (VArr entries1)))
               = Return itinerary' ->
               validateAndEnhanceItinerary itinerary' city days budget cityConfig w
               = (Return itinerary', w)).
    { intros fields1 H1 Hs. rewrite H1. cbn [array_method obind].
      destruct (map_out _ entries) as [entries'|e] eqn:Em; [|discriminate].
      cbn [obind]. rewrite set_object. intros E. injection E as <-.
      unfold validateAndEnhanceItinerary.
      rewrite prop_update_same. cbn [truthy is_array negb orb].
      rewrite prop_update_other by keys_differ. rewrite Hs. cbn [negb].
      unfold lift. cbn [obind]. rewrite prop_update_same. cbn [array_method obind].
      rewrite (repair_steps_idempotent city entries entries' Em). cbn [obind].
      rewrite set_object, update_update. reflexivity. }
    destruct (truthy (prop (VObj fields) (js "summary"))) eqn:Es; cbn [negb obind].
    + apply Hloop; [exact Ed | exact Es].
    + rewrite set_object. apply Hloop.
      * rewrite prop_update_other by keys_differ. exact Ed.
      * rewrite prop_update_same. reflexivity.
Qed.

Lemma validateAndEnhanceItinerary_idempotent_witness :
  exists itinerary',
    validateAndEnhanceItinerary day_ten_document (js "Mumbai") 1 (js "50000") VUndef
      (boot None None None offline)
    = (Return itinerary', boot None None None offline) /\
    validateAndEnhanceItinerary itinerary' (js "Mumbai") 1 (js "50000") VUndef
      (boot None None None offline)
    = (Return itinerary', boot None None None offline).
Proof.
  eexists. split; [vm_compute; reflexivity|].
  apply (validateAndEnhanceItinerary_idempotent day_ten_document (js "Mumbai") 1
           (js "50000") VUndef (boot None None None offline)).
  vm_compute. reflexivity.
Defined.

(* ------------------------------------------------------------------ *)
(** ** Google Places: the details of a place *)

Lemma sends_getPlaceDetails placeId : sends_at_most 1 (getPlaceDetails placeId).
Proof.
  unfold getPlaceDetails. sends_quiet_step.
  destruct (key_configured _) as [apiKey|];
    [|apply (sends_weaken 0); [lia | apply sends_ret]].
  apply sends_caught.
  2:{ intros e. sends_quiet_step. apply sends_ret. }
  apply (sends_bind 1 0); [apply sends_fetch|]. intros response.
  apply sends_if; [apply sends_ret|].
  do 2 sends_quiet_step. apply sends_ret.
Qed.

Lemma ensures_getPlaceDetails placeId :
  ensures (getPlaceDetails placeId)
    (fun details => details = VNull \/ truthy details = true).
Proof.
  unfold getPlaceDetails. apply ensures_bind. intros w0.
  destruct (key_configured _) as [apiKey|]; [|apply ensures_ret; left; reflexivity].
  apply ensures_try_catch.
  2:{ intros e. apply ensures_bind. intros _. apply ensures_ret. left. reflexivity. }
  apply ensures_bind. intros response.
  apply ensures_if; [apply ensures_ret; left; reflexivity|].
  do 2 (apply ensures_bind; intros ?). apply ensures_ret.
  unfold or_else. destruct (truthy _) eqn:E; [right; exact E | left; reflexivity].
Qed.

(** X24. The lookup of the details of a place never throws, on any
    network: whatever goes wrong, an error status included, comes out as
    null. What it returns is null or a truthy value, it sends at most one
    request, and without a credential it sends none and returns null. *)
Theorem getPlaceDetails_bounds (placeId : value) (w : World) :
  exists details w',
    getPlaceDetails placeId w = (Return details, w') /\
    (details = VNull \/ truthy details = true) /\
    (sent w <= sent w' <= sent w + 1)%nat /\
    (key_configured (GOOGLE_PLACES_API_KEY w) = None ->
     details = VNull /\ sent w' = sent w).
Proof.
  assert (Hret : exists details w', getPlaceDetails placeId w = (Return details, w')).
  { unfold getPlaceDetails, bind at 1, get_world.
    destruct (key_configured _) as [apiKey|].
    - apply returns_caught. intros e w1. eexists. eexists. reflexivity.
    - eexists. eexists. reflexivity. }
  destruct Hret as [details [w' E]]. exists details, w'.
  split; [exact E|]. split; [|split].
  - exact (ensures_getPlaceDetails placeId w details w' E).
  - pose proof (sends_getPlaceDetails placeId w) as H. rewrite E in H. exact H.
  - intros Hkey. revert E. unfold getPlaceDetails, bind at 1, get_world.
    rewrite Hkey. intros E. injection E as <- <-. split; reflexivity.
Qed.

Lemma getPlaceDetails_bounds_witness :
  exists details w',
    getPlaceDetails (VStr (js "ChIJrVwNOsfR5zsRPHOcIKclCsc"))
      (boot None None None offline) = (Return details, w') /\
    details = VNull /\ sent w' = 0%nat.
Proof.
  destruct (getPlaceDetails_bounds (VStr (js "ChIJrVwNOsfR5zsRPHOcIKclCsc"))
              (boot None None None offline)) as [details [w' [E [_ [_ H]]]]].
  exists details, w'. split; [exact E|]. apply H. reflexivity.
Defined.
